(** * An incremental JSON decoder and the decycle serializer of
      [src/utils/json.js], embedded in Rocq.

    The file follows the source top-down: JavaScript strings as lists of
    UTF-16 code units, the token regular expression and [tokenize], the
    container stack of [jsonRawDecode], the reviver walk, the driver
    [jsonDecode], and [decycle] over a store of objects with identity;
    then the check value and the packets of [src/actions/index.js]. *)

From Stdlib Require Import ZArith NArith List Lia String Ascii Bool.
From stdpp Require Import base list gmap.

(* ===================================================================== *)
(** ** JavaScript strings *)
(* ===================================================================== *)

(** A JavaScript string is a sequence of 16-bit code units. *)
Definition jsstr := list N.

(** [js] reads a literal as code units; the apostrophe stands for the
    double quote, so that JSON texts can be written inline. *)
Fixpoint js (s : string) : jsstr :=
  match s with
  | EmptyString => []
  | String a r =>
      let c := N_of_ascii a in
      (if (c =? 39)%N then 34%N else c) :: js r
  end.

Definition jsstr_eqb (a b : jsstr) : bool := bool_decide (a = b).

Module Ch.
Definition quote : N := 34.      (* the double quote *)
Definition plus : N := 43.
Definition minus : N := 45.
Definition dot : N := 46.
Definition slash : N := 47.
Definition zero : N := 48.
Definition upper_e : N := 69.
Definition lbracket : N := 91.   (* 0x5b *)
Definition backslash : N := 92.
Definition rbracket : N := 93.   (* 0x5d *)
Definition lower_b : N := 98.
Definition lower_e : N := 101.
Definition lower_f : N := 102.   (* 0x66 *)
Definition lower_n : N := 110.   (* 0x6e *)
Definition lower_r : N := 114.
Definition lower_t : N := 116.   (* 0x74 *)
Definition lower_u : N := 117.
Definition lbrace : N := 123.    (* 0x7b *)
Definition rbrace : N := 125.    (* 0x7d *)
End Ch.

(** [[0-9]] *)
Definition is_digit (c : N) : bool := ((48 <=? c) && (c <=? 57))%N.

(** [\w], the class behind the word boundary [\b]: [[A-Za-z0-9_]]. *)
Definition is_word (c : N) : bool :=
  (is_digit c || ((65 <=? c) && (c <=? 90)) || ((97 <=? c) && (c <=? 122))
   || (c =? 95))%N.

(** [[0-9A-Fa-f]] *)
Definition is_hex (c : N) : bool :=
  (is_digit c || ((65 <=? c) && (c <=? 70)) || ((97 <=? c) && (c <=? 102)))%N.

(** Length of the longest run of decimal digits at the head: [[0-9]*]. *)
Fixpoint span_digits (s : jsstr) : nat :=
  match s with
  | c :: r => if is_digit c then S (span_digits r) else 0
  | [] => 0
  end.

(** [starts_with p s]: the literal [p] matches at the head of [s]. *)
Fixpoint starts_with (p s : jsstr) : bool :=
  match p, s with
  | [], _ => true
  | a :: p', b :: s' => (a =? b)%N && starts_with p' s'
  | _ :: _, [] => false
  end.

(* ===================================================================== *)
(** ** The token regular expression *)
(* ===================================================================== *)

(** A word boundary holds between the previous character ([None] at the
    start of the input) and the next one ([None] at the end) when exactly
    one of them is a word character. *)
Definition word_opt (c : option N) : bool :=
  match c with Some x => is_word x | None => false end.

Definition boundary (prev next : option N) : bool :=
  xorb (word_opt prev) (word_opt next).

(** [(?:\.[0-9]+)?]: the length of a fraction at the head of [s], if one
    matches. *)
Definition frac_len (s : jsstr) : option nat :=
  match s with
  | c :: r =>
      if (c =? Ch.dot)%N then
        match span_digits r with 0 => None | S n => Some (S (S n)) end
      else None
  | [] => None
  end.

(** [(?:[eE][+-]?[0-9]+)?]: the length of an exponent at the head of [s],
    if one matches. *)
Definition exp_len (s : jsstr) : option nat :=
  match s with
  | c :: r =>
      if ((c =? Ch.lower_e) || (c =? Ch.upper_e))%N then
        match r with
        | g :: r' =>
            if ((g =? Ch.plus) || (g =? Ch.minus))%N then
              match span_digits r' with 0 => None | S n => Some (S (S (S n))) end
            else
              match span_digits r with 0 => None | S n => Some (S (S n)) end
        | [] => None
        end
      else None
  | [] => None
  end.

(** The closing [\b] of the number pattern, tried after a match of
    length [n] whose last character is a digit. *)
Definition ends_at_boundary (s : jsstr) (n : nat) : bool :=
  negb (word_opt (head (drop n s))).

(** [first_end s ends]: the first candidate end that satisfies the closing
    boundary; candidates are listed in the order the backtracking matcher
    visits them. *)
Fixpoint first_end (s : jsstr) (ends : list nat) : option nat :=
  match ends with
  | [] => None
  | n :: r => if ends_at_boundary s n then Some n else first_end s r
  end.

(** The number pattern after its optional minus: [\b], the integer part
    ([0], or a digit [1-9] followed by digits), an optional fraction, an
    optional exponent, [\b]; matched at the head of [s] when the character
    before it is [prev]. Every quantifier is greedy; giving back digits
    never helps (the next pattern element would face a digit), so the ends
    the matcher can reach are, in its order: integer+fraction+exponent,
    integer+fraction, integer+exponent, integer. *)
Definition match_unsigned (prev : option N) (s : jsstr) : option nat :=
  match s with
  | d :: r =>
      if is_digit d && boundary prev (Some d) then
        let int := if (d =? Ch.zero)%N then 1 else S (span_digits r) in
        let after_int := drop int s in
        let with_frac :=
          match frac_len after_int with
          | Some f =>
              match exp_len (drop f after_int) with
              | Some e => [int + f + e; int + f]
              | None => [int + f]
              end
          | None => []
          end in
        let without_frac :=
          match exp_len after_int with
          | Some e => [int + e; int]
          | None => [int]
          end in
        first_end s (with_frac ++ without_frac)
      else None
  | [] => None
  end.

(** [number]: an optional minus and the pattern above. A minus that is
    not followed by a match cannot be given back: without it the pattern
    would have to start at the minus itself. *)
Definition match_number (prev : option N) (s : jsstr) : option nat :=
  match s with
  | c :: r =>
      if (c =? Ch.minus)%N then S <$> match_unsigned (Some c) r
      else match_unsigned prev s
  | [] => None
  end.

(** The plain alternative of [oneChar], a negated class over [\0-\x08],
    [\x0a-\x1f], the quote and the backslash: any character but a control
    character (the tab is let through), the quote and the backslash. *)
Definition is_plain (c : N) : bool :=
  (negb (c <=? 8) && negb ((10 <=? c) && (c <=? 31))
   && negb (c =? Ch.quote) && negb (c =? Ch.backslash))%N.

(** The class after a backslash: quote, [/], backslash, [b f n r t]. *)
Definition is_simple_escape (c : N) : bool :=
  ((c =? Ch.quote) || (c =? Ch.slash) || (c =? Ch.backslash)
   || (c =? Ch.lower_b) || (c =? Ch.lower_f) || (c =? Ch.lower_n)
   || (c =? Ch.lower_r) || (c =? Ch.lower_t))%N.

(** [oneChar*] and the closing quote: the rest of a string literal after
    its opening quote; returns the number of characters up to and including the closing
    quote. A [oneChar] never starts with a quote, so the star stops only
    where the closing quote must stand. *)
Fixpoint string_rest (s : jsstr) : option nat :=
  match s with
  | [] => None
  | c :: r =>
      if (c =? Ch.quote)%N then Some 1
      else if (c =? Ch.backslash)%N then
        match r with
        | e :: r1 =>
            if is_simple_escape e then (fun n => 2 + n) <$> string_rest r1
            else if (e =? Ch.lower_u)%N then
              match r1 with
              | h1 :: h2 :: h3 :: h4 :: r2 =>
                  if is_hex h1 && is_hex h2 && is_hex h3 && is_hex h4
                  then (fun n => 6 + n) <$> string_rest r2
                  else None
              | _ => None
              end
            else None
        | [] => None
        end
      else if is_plain c then S <$> string_rest r
      else None
  end.

(** [string]: a quote, [oneChar*], a quote. *)
Definition match_string (s : jsstr) : option nat :=
  match s with
  | c :: r => if (c =? Ch.quote)%N then S <$> string_rest r else None
  | [] => None
  end.

(** [jsonToken]:
    [(?:false|true|null|[\{\}\[\]]|number|string)], the alternatives tried
    in this order at the head of [s]. *)
Definition is_bracket (c : N) : bool :=
  ((c =? Ch.lbrace) || (c =? Ch.rbrace) || (c =? Ch.lbracket)
   || (c =? Ch.rbracket))%N.

Definition jsonToken (prev : option N) (s : jsstr) : option nat :=
  if starts_with (js "false") s then Some 5
  else if starts_with (js "true") s then Some 4
  else if starts_with (js "null") s then Some 4
  else if bool_decide (is_bracket <$> head s = Some true) then Some 1
  else match match_number prev s with
       | Some n => Some n
       | None => match_string s
       end.

(** A match object: the matched text and its [index] in the input. *)
Record token := Token { tok_text : jsstr; tok_index : nat }.

(** [scan skip prev pos s]: the matches of the global regular expression
    in [s], which starts at offset [pos] of the input and follows the
    character [prev]; the first [skip] characters belong to the previous
    match. *)
Fixpoint scan (skip : nat) (prev : option N) (pos : nat) (s : jsstr)
  : list token :=
  match s with
  | [] => []
  | c :: r =>
      match skip with
      | S k => scan k (Some c) (S pos) r
      | 0 =>
          match jsonToken prev s with
          | Some (S n) => Token (take (S n) s) pos :: scan n (Some c) (S pos) r
          | _ => scan 0 (Some c) (S pos) r
          end
      end
  end.

(** [tokenize(jsonToken, s)]: [re.exec] is called until it returns null;
    each call resumes at the end of the previous match, and the failing
    call resets [lastIndex], so every call of [tokenize] starts at 0. *)
Definition tokenize (s : jsstr) : list token := scan 0 None 0 s.

(* ===================================================================== *)
(** ** Values and properties *)
(* ===================================================================== *)

(** Decoded values. A number is kept as the text of its literal, on which
    the source applies unary plus; an array carries its [length] next to
    its properties, so that holes (left by [delete]) and properties under
    other keys (written by malformed input) are representable. Property
    lists are kept in enumeration order: array indices in ascending order
    first, then the other keys in the order of their creation.

    Property writes are plain data-property writes: the keys that
    JavaScript treats specially ([__proto__], which names the prototype,
    and [length] on an array) are written like ordinary keys. The
    decoder is the source on the texts that write no such key; the
    properties that say which value is decoded name the texts they are
    about ([ordinary_strings] and [proto_free] below). *)
#[local] Unset Elimination Schemes.
Inductive value :=
| VUndef
| VNull
| VBool (b : bool)
| VNum (literal : jsstr)
| VStr (s : jsstr)
| VArr (len : N) (props : list (jsstr * value))
| VObj (props : list (jsstr * value)).
#[local] Set Elimination Schemes.

Definition props := list (jsstr * value).

(** Decimal digits of a number, as code units, and back. *)
Fixpoint uint_codes (u : Decimal.uint) : jsstr :=
  match u with
  | Decimal.Nil => []
  | Decimal.D0 r => 48%N :: uint_codes r
  | Decimal.D1 r => 49%N :: uint_codes r
  | Decimal.D2 r => 50%N :: uint_codes r
  | Decimal.D3 r => 51%N :: uint_codes r
  | Decimal.D4 r => 52%N :: uint_codes r
  | Decimal.D5 r => 53%N :: uint_codes r
  | Decimal.D6 r => 54%N :: uint_codes r
  | Decimal.D7 r => 55%N :: uint_codes r
  | Decimal.D8 r => 56%N :: uint_codes r
  | Decimal.D9 r => 57%N :: uint_codes r
  end.

Fixpoint codes_uint (s : jsstr) : option Decimal.uint :=
  match s with
  | [] => Some Decimal.Nil
  | c :: r =>
      u ← codes_uint r;
      match c with
      | 48 => Some (Decimal.D0 u) | 49 => Some (Decimal.D1 u)
      | 50 => Some (Decimal.D2 u) | 51 => Some (Decimal.D3 u)
      | 52 => Some (Decimal.D4 u) | 53 => Some (Decimal.D5 u)
      | 54 => Some (Decimal.D6 u) | 55 => Some (Decimal.D7 u)
      | 56 => Some (Decimal.D8 u) | 57 => Some (Decimal.D9 u)
      | _ => None
      end%N
  end.

(** The string of a non-negative integer, as [String(n)] gives it. *)
Definition dec (n : N) : jsstr := uint_codes (N.to_uint n).

(** A property key is an array index when it is the canonical decimal
    string of an integer below [2^32 - 1]. *)
Definition array_index (k : jsstr) : option N :=
  u ← codes_uint k;
  let n := N.of_uint u in
  if bool_decide (dec n = k) && (n <? 4294967295)%N then Some n else None.

Fixpoint props_get (k : jsstr) (ps : props) : option value :=
  match ps with
  | [] => None
  | (k', v) :: r => if bool_decide (k' = k) then Some v else props_get k r
  end.

Fixpoint props_replace (k : jsstr) (v : value) (ps : props) : props :=
  match ps with
  | [] => []
  | (k', v') :: r =>
      if bool_decide (k' = k) then (k, v) :: r
      else (k', v') :: props_replace k v r
  end.

(** A new index key goes before the first key that is a larger index or
    no index at all. *)
Fixpoint props_insert_index (i : N) (k : jsstr) (v : value) (ps : props)
  : props :=
  match ps with
  | [] => [(k, v)]
  | (k', v') :: r =>
      match array_index k' with
      | Some j =>
          if (j <? i)%N then (k', v') :: props_insert_index i k v r
          else (k, v) :: ps
      | None => (k, v) :: ps
      end
  end.

Definition props_set (k : jsstr) (v : value) (ps : props) : props :=
  match props_get k ps with
  | Some _ => props_replace k v ps
  | None =>
      match array_index k with
      | Some i => props_insert_index i k v ps
      | None => ps ++ [(k, v)]
      end
  end.

Definition props_delete (k : jsstr) (ps : props) : props :=
  filter (fun kv => kv.1 ≠ k) ps.

(** [o[k]], for the properties that [o] holds itself: undefined when it
    holds none under [k]. *)
Definition get (o : value) (k : jsstr) : value :=
  match o with
  | VArr _ ps | VObj ps => default VUndef (props_get k ps)
  | _ => VUndef
  end.

(** [o[k] = v]: writing at or past the length of an array extends it. *)
Definition set_prop (o : value) (k : jsstr) (v : value) : value :=
  match o with
  | VArr len ps =>
      let len' := match array_index k with
                  | Some i => N.max len (i + 1)
                  | None => len
                  end in
      VArr len' (props_set k v ps)
  | VObj ps => VObj (props_set k v ps)
  | _ => o
  end.

(** [delete o[k]]: the length of an array stays. *)
Definition delete_prop (o : value) (k : jsstr) : value :=
  match o with
  | VArr len ps => VArr len (props_delete k ps)
  | VObj ps => VObj (props_delete k ps)
  | _ => o
  end.

(** Own enumerable keys in enumeration order ([for (k in o)] filtered by
    [hasOwnProperty], [Object.keys]). *)
Definition keys (o : value) : list jsstr :=
  match o with
  | VArr _ ps | VObj ps => ps.*1
  | _ => []
  end.

(** [o instanceof Array] *)
Definition is_array (o : value) : bool :=
  match o with VArr _ _ => true | _ => false end.

(** Items separated by commas. *)
Fixpoint sep_by_comma (xs : list jsstr) : jsstr :=
  match xs with
  | [] => []
  | [x] => x
  | x :: r => x ++ 44%N :: sep_by_comma r
  end.

(** Conversion of a value to a property key. A number is rendered by the
    text of its literal, which is the key that JavaScript uses when the
    literal is the canonical decimal form of the number ([10], not
    [1e1]). An array is rendered by its elements below its length, joined
    with commas; undefined, null and a hole give the empty text. *)
Fixpoint to_key (v : value) : jsstr :=
  match v with
  | VUndef => js "undefined"
  | VNull => js "null"
  | VBool true => js "true"
  | VBool false => js "false"
  | VNum t => t
  | VStr s => s
  | VObj _ => js "[object Object]"
  | VArr len ps =>
      let texts :=
        (fix each (ps : props) : list (jsstr * jsstr) :=
           match ps with
           | [] => []
           | (k, v) :: r =>
               (k, match v with VUndef | VNull => [] | _ => to_key v end)
               :: each r
           end) ps in
      let element (i : nat) : jsstr :=
        match find (fun kt : jsstr * jsstr =>
                      bool_decide (kt.1 = dec (N.of_nat i))) texts with
        | Some kt => kt.2
        | None => []
        end in
      sep_by_comma (element <$> seq 0 (N.to_nat len))
  end.

(* ===================================================================== *)
(** ** Escape sequences *)
(* ===================================================================== *)

(** The [escapes] table; a character that is not in it gives [undefined],
    which [replace] inserts as the text [undefined]. *)
Definition escapes (ch : N) : jsstr :=
  if (ch =? Ch.quote)%N then [Ch.quote]
  else if (ch =? Ch.slash)%N then [Ch.slash]
  else if (ch =? Ch.backslash)%N then [Ch.backslash]
  else if (ch =? Ch.lower_b)%N then [8%N]
  else if (ch =? Ch.lower_f)%N then [12%N]
  else if (ch =? Ch.lower_n)%N then [10%N]
  else if (ch =? Ch.lower_r)%N then [13%N]
  else if (ch =? Ch.lower_t)%N then [9%N]
  else js "undefined".

Definition hex_digit (c : N) : option Z :=
  if is_digit c then Some (Z.of_N c - 48)%Z
  else if ((65 <=? c) && (c <=? 70))%N then Some (Z.of_N c - 55)%Z
  else if ((97 <=? c) && (c <=? 102))%N then Some (Z.of_N c - 87)%Z
  else None.

(** The digits [parseInt] reads: the longest prefix of hexadecimal digits,
    most significant first; [None] when there is none. *)
Fixpoint hex_prefix (acc : option Z) (s : jsstr) : option Z :=
  match s with
  | c :: r =>
      match hex_digit c with
      | Some d => hex_prefix (Some (default 0 acc * 16 + d)%Z) r
      | None => acc
      end
  | [] => acc
  end.

(** White space as [parseInt] strips it (line terminators cannot occur in
    the four characters matched by the dot). *)
Definition is_js_space (c : N) : bool :=
  ((c =? 9) || (c =? 11) || (c =? 12) || (c =? 32) || (c =? 160)
   || (c =? 5760) || ((8192 <=? c) && (c <=? 8202)) || (c =? 8239)
   || (c =? 8287) || (c =? 12288) || (c =? 65279))%N.

Fixpoint strip_space (s : jsstr) : jsstr :=
  match s with
  | c :: r => if is_js_space c then strip_space r else s
  | [] => []
  end.

(** [parseInt(hex, 16)]; [None] is NaN. *)
Definition parseInt16 (s : jsstr) : option Z :=
  let s1 := strip_space s in
  let '(neg, s2) :=
    match s1 with
    | c :: r => if (c =? Ch.minus)%N then (true, r)
                else if (c =? Ch.plus)%N then (false, r) else (false, s1)
    | [] => (false, s1)
    end in
  let s3 := if starts_with (js "0x") s2 || starts_with (js "0X") s2
            then drop 2 s2 else s2 in
  (fun n => if neg then - n else n)%Z <$> hex_prefix None s3.

(** [String.fromCharCode]: the argument is reduced modulo 2^16, NaN to 0. *)
Definition fromCharCode (n : option Z) : N :=
  match n with
  | Some z => Z.to_N (z mod 65536)
  | None => 0%N
  end.

(** The dot of a regular expression: anything but a line terminator. *)
Definition is_dot (c : N) : bool :=
  negb ((c =? 10) || (c =? 13) || (c =? 8232) || (c =? 8233))%N.

(** [tok.replace(escapeSequence, unescapeOne)]: every match of a backslash
    followed by one character other than [u], or by [u] and four
    characters, is replaced; a backslash that starts no match is kept. *)
Fixpoint unescape (s : jsstr) : jsstr :=
  match s with
  | [] => []
  | c :: r =>
      if (c =? Ch.backslash)%N then
        match r with
        | e :: r1 =>
            if negb (e =? Ch.lower_u)%N then escapes e ++ unescape r1
            else
              match r1 with
              | h1 :: h2 :: h3 :: h4 :: r2 =>
                  if is_dot h1 && is_dot h2 && is_dot h3 && is_dot h4
                  then fromCharCode (parseInt16 [h1; h2; h3; h4]) :: unescape r2
                  else c :: unescape r
              | _ => c :: unescape r
              end
        | [] => [c]
        end
      else c :: unescape r
  end.

(** The text of a string token without its quotes, escapes decoded when
    it contains a backslash. *)
Definition string_of_token (tok : jsstr) : jsstr :=
  let body := drop 1 (take (length tok - 1) tok) in
  if bool_decide (Ch.backslash ∈ body) then unescape body else body.

(* ===================================================================== *)
(** ** The container stack *)
(* ===================================================================== *)

(** The loop of [jsonRawDecode] keeps the uncompleted containers on
    [stack], innermost first. In the source the container on top is the
    very object already stored in the one below it, so writes to it are
    seen through its parent. Here each frame carries the key under which
    it hangs in the frame below, and the finished container is written
    there when it is popped; the outermost container is kept in [root]
    once it has been popped. [key] is the pending key ([None] for
    undefined; the empty key stands for [EMPTY_STRING], which is not
    falsy), [index] the offset recorded for the result, -1 at first. *)
Definition frame := (value * jsstr)%type.

Record bstate := BState {
  stack : list frame;
  root : value;
  key : option jsstr;
  index : Z
}.

(** [cont.length] as a property key. *)
Definition length_key (cont : value) : jsstr :=
  match cont with
  | VArr len _ => dec len
  | _ => to_key (get cont (js "length"))
  end.

(** [key || cont.length] *)
Definition key_or_length (key : option jsstr) (cont : value) : jsstr :=
  match key with
  | Some k => k
  | None => length_key cont
  end.

(** A scalar token: [cont[key || cont.length] = v; key = void 0], or the
    token's offset as [index] when the stack is empty. *)
Definition store (st : bstate) (at_ : nat) (v : value) : bstate :=
  match stack st with
  | [] => BState [] (root st) (key st) (Z.of_nat at_)
  | (cont, slot) :: below =>
      BState ((set_prop cont (key_or_length (key st) cont) v, slot) :: below)
             (root st) None (index st)
  end.

(** An opening bracket: [stack.unshift(cont[key || cont.length] = fresh)]. *)
Definition open (st : bstate) (at_ : nat) (fresh : value) : bstate :=
  match stack st with
  | [] => BState [] (root st) (key st) (Z.of_nat at_)
  | (cont, slot) :: below =>
      BState ((fresh, key_or_length (key st) cont) :: (cont, slot) :: below)
             (root st) None (index st)
  end.

(** A closing bracket: [stack.shift()], which does nothing on an empty
    stack. *)
Definition shift (st : bstate) : bstate :=
  match stack st with
  | [] => st
  | [(cont, _)] => BState [] cont (key st) (index st)
  | (cont, slot) :: (parent, pslot) :: below =>
      BState ((set_prop parent slot cont, pslot) :: below)
             (root st) (key st) (index st)
  end.

(** A string token: a key when the container on top is an object awaiting
    one, a value otherwise. *)
Definition store_string (st : bstate) (at_ : nat) (tok : jsstr) : bstate :=
  let s := string_of_token tok in
  match stack st with
  | [] => BState [] (root st) (key st) (Z.of_nat at_)
  | (cont, slot) :: below =>
      match key st with
      | None =>
          if is_array cont then
            BState ((set_prop cont (length_key cont) (VStr s), slot) :: below)
                   (root st) None (index st)
          else BState (stack st) (root st) (Some s) (index st)
      | Some k =>
          BState ((set_prop cont k (VStr s), slot) :: below)
                 (root st) None (index st)
      end
  end.

(** The body of the loop: the switch on the first character of the
    token. *)
Definition step (st : bstate) (t : token) : bstate :=
  let tok := tok_text t in
  let at_ := tok_index t in
  match head tok with
  | Some 34%N => store_string st at_ tok
  | Some 91%N => open st at_ (VArr 0 [])
  | Some 93%N => shift st
  | Some 102%N => store st at_ (VBool false)
  | Some 110%N => store st at_ VNull
  | Some 116%N => store st at_ (VBool true)
  | Some 123%N => open st at_ (VObj [])
  | Some 125%N => shift st
  | _ => store st at_ (VNum tok)
  end.

(** The loop, left as soon as [index] has been set. *)
Fixpoint run (st : bstate) (toks : list token) : bstate :=
  match toks with
  | [] => st
  | t :: r =>
      let st' := step st t in
      if (0 <=? index st')%Z then st' else run st' r
  end.

(* ===================================================================== *)
(** ** The reviver walk *)
(* ===================================================================== *)

(** A reviver is called with its holder as [this], a key and a value; it
    is modelled as a function that reads them and returns a value,
    [VUndef] for undefined. *)
Definition reviver := value -> jsstr -> value -> value.

Definition is_undef (v : value) : bool :=
  match v with VUndef => true | _ => false end.

(** [walk_value rv value]: the state of [value] after the loops of [walk]
    have run on it, before the reviver is called on [value] itself. Each
    property is walked first; the walked child is the object stored under
    [k] (it was changed in place), so the holder shown to the reviver has
    it there. A defined result replaces the property; a key whose result
    is undefined is pushed on [toDelete], which is emptied from its end
    after the loop. *)
Fixpoint walk_value (rv : reviver) (value0 : value) : value :=
  let loop :=
    fix loop (cur : value) (toDelete : list jsstr) (ps : props)
      : value * list jsstr :=
      match ps with
      | [] => (cur, toDelete)
      | (k, child) :: r =>
          let child' := walk_value rv child in
          let cur1 := set_prop cur k child' in
          let v := rv cur1 k child' in
          if is_undef v then loop cur1 (toDelete ++ [k]) r
          else loop (set_prop cur1 k v) toDelete r
      end in
  match value0 with
  | VArr _ ps | VObj ps =>
      let '(cur, toDelete) := loop value0 [] ps in
      foldl delete_prop cur (rev toDelete)
  | _ => value0
  end.

(** [walk(holder, key)] *)
Definition walk (rv : reviver) (holder : value) (key : jsstr) : value :=
  let value' := walk_value rv (get holder key) in
  rv (set_prop holder key value') key value'.

(* ===================================================================== *)
(** ** jsonRawDecode and jsonDecode *)
(* ===================================================================== *)

(** What [jsonRawDecode] returns: the pair [[value, index]], or the
    number 0 (the value of the comma expression [undefined, 0]). *)
Inductive raw :=
| RawZero
| RawPair (v : value) (next : Z).

Definition jsonRawDecode (json : jsstr) (opt_reviver : option reviver) : raw :=
  let toks := tokenize json in
  match toks with
  | [] => RawPair VUndef 0
  | t0 :: rest =>
      let tok := tok_text t0 in
      let '(result, topLevelPrimitive) :=
        if bool_decide (tok = [Ch.lbrace]) then (VObj [], false)
        else if bool_decide (tok = [Ch.lbracket]) then (VArr 0 [], false)
        else (VArr 0 [], true) in
      let st := run (BState [(result, [])] result None (-1))
                    (if topLevelPrimitive then toks else rest) in
      let completed :=
        if topLevelPrimitive then
          match stack st with
          | [(wrapper, _)] => Some (get wrapper (js "0"))
          | _ => None
          end
        else
          match stack st with
          | [] => Some (root st)
          | _ => None
          end in
      match completed with
      | None => RawZero
      | Some result =>
          let result :=
            match opt_reviver with
            | Some rv => walk rv (VObj [([], result)]) []
            | None => result
            end in
          let index := if (index st =? -1)%Z
                       then Z.of_nat (length json) else index st in
          RawPair result index
      end
  end.

(** [s.substr(start)] *)
Definition substr (s : jsstr) (start : Z) : jsstr :=
  if (start <? 0)%Z
  then drop (Z.to_nat (Z.max (Z.of_nat (length s) + start) 0)) s
  else drop (Z.to_nat start) s.

(** [jsonDecode]. The recursion of the source is bounded by no measure,
    so the embedding takes fuel: [None] means that the calls nested deeper
    than [fuel]. *)
Fixpoint jsonDecode (fuel : nat) (jsonString : jsstr) (jsonObjList : list value)
  : option (list value) :=
  match fuel with
  | 0 => None
  | S fuel' =>
      match jsonRawDecode jsonString None with
      | RawZero => Some jsonObjList
      | RawPair jsonObj nextIdx =>
          let nextJsonString := substr jsonString nextIdx in
          let nextJsonObjList := jsonObjList ++ [jsonObj] in
          match nextJsonString with
          | [] => Some nextJsonObjList
          | _ => jsonDecode fuel' nextJsonString nextJsonObjList
          end
      end
  end.

(* ===================================================================== *)
(** ** decycle *)
(* ===================================================================== *)

(** The argument of [decycle] is a graph: objects have identity and may be
    reached along several paths, or from themselves. A graph value is a
    primitive or a reference into a heap of objects. An array of the
    graph is a dense sequence of elements ([forEach] visits them in index
    order), a plain object a sequence of fields in the order of
    [Object.keys]. The instances of Boolean, Date, Number, RegExp and
    String, which [derez] returns as they are, are opaque: they carry only
    the text that a JSON encoder writes for them. A reference that the
    heap does not hold is treated like them. *)
Definition loc := positive.

Inductive gval :=
| GUndef
| GNull
| GBool (b : bool)
| GNum (literal : jsstr)
| GStr (s : jsstr)
| GRef (l : loc).

Inductive object :=
| OArray (elements : list gval)
| OObject (fields : list (jsstr * gval))
| OBuiltin (json : option jsstr).

Definition heap := gmap loc object.

(** The copy that [decycle] returns is a tree of new arrays and objects,
    given by their own properties; its leaves are the values that [derez]
    returned as they were. *)
#[local] Unset Elimination Schemes.
Inductive tree :=
| TLeaf (v : gval)
| TArr (elements : list tree)
| TObj (fields : list (jsstr * tree)).
#[local] Set Elimination Schemes.

(** [{$ref: old_path}] *)
Definition RefMarker (path : jsstr) : tree :=
  TObj [(js "$ref", TLeaf (GStr path))].

(** Four lowercase hexadecimal digits. *)
Definition hex_char (d : N) : N := if (d <? 10)%N then (48 + d)%N else (87 + d)%N.

Definition hex4 (c : N) : jsstr :=
  [hex_char (c / 4096 mod 16); hex_char (c / 256 mod 16);
   hex_char (c / 16 mod 16); hex_char (c mod 16)]%N.

Definition is_high_surrogate (c : N) : bool := ((55296 <=? c) && (c <=? 56319))%N.
Definition is_low_surrogate (c : N) : bool := ((56320 <=? c) && (c <=? 57343))%N.

(** The characters of [JSON.stringify(name)] between the quotes: the
    quote, the backslash and the control characters are escaped, and so is
    a surrogate that has no partner. *)
Fixpoint quote_chars (s : jsstr) : jsstr :=
  match s with
  | [] => []
  | c :: r =>
      if (c =? Ch.quote)%N then Ch.backslash :: Ch.quote :: quote_chars r
      else if (c =? Ch.backslash)%N then Ch.backslash :: Ch.backslash :: quote_chars r
      else if (c =? 8)%N then Ch.backslash :: Ch.lower_b :: quote_chars r
      else if (c =? 12)%N then Ch.backslash :: Ch.lower_f :: quote_chars r
      else if (c =? 10)%N then Ch.backslash :: Ch.lower_n :: quote_chars r
      else if (c =? 13)%N then Ch.backslash :: Ch.lower_r :: quote_chars r
      else if (c =? 9)%N then Ch.backslash :: Ch.lower_t :: quote_chars r
      else if (c <? 32)%N then Ch.backslash :: Ch.lower_u :: hex4 c ++ quote_chars r
      else if is_high_surrogate c then
        match r with
        | d :: r' =>
            if is_low_surrogate d then c :: d :: quote_chars r'
            else Ch.backslash :: Ch.lower_u :: hex4 c ++ quote_chars r
        | [] => Ch.backslash :: Ch.lower_u :: hex4 c
        end
      else if is_low_surrogate c then
        Ch.backslash :: Ch.lower_u :: hex4 c ++ quote_chars r
      else c :: quote_chars r
  end.

(** [JSON.stringify(s)] for a string [s]. *)
Definition quote_string (s : jsstr) : jsstr :=
  Ch.quote :: quote_chars s ++ [Ch.quote].

(** The [objects] map of one call of [decycle], from the objects met so
    far to the path of their first occurrence, together with the state of
    the replacer. *)
Section Decycle.
Context {S : Type}.

(** A replacer receives a value and returns a replacement; it may
    answer differently from call to call, which its state [S] accounts
    for. It does not change the heap, and what it returns lives in the
    heap. *)
Definition replacer := S -> gval -> gval * S.

Definition memo := gmap loc jsstr.

Variable h : heap.
Variable rp : option replacer.

(** The body of [value.forEach]: the elements are replaced in index
    order, each under the path of its index; [derez] is the function
    called on them. *)
Definition each_element
    (derez : gval -> jsstr -> memo -> S -> option (tree * memo * S))
    (path : jsstr)
  : N -> list gval -> memo -> S -> option (list tree * memo * S) :=
  fix each (i : N) (es : list gval) (objects : memo) (s : S) :=
    match es with
    | [] => Some ([], objects, s)
    | element :: r =>
        '(t, objects, s) ←
          derez element (path ++ js "[" ++ dec i ++ js "]") objects s;
        '(ts, objects, s) ← each (i + 1)%N r objects s;
        Some (t :: ts, objects, s)
    end.

(** The body of [Object.keys(value).forEach]: the fields are replaced in
    order, each under the path of its quoted name. The assignment
    [nu[name] = ...] creates a property of [nu] for every name but
    [__proto__]: under that name [derez] is called all the same, and what
    it returns is not stored as a property. *)
Definition each_name
    (derez : gval -> jsstr -> memo -> S -> option (tree * memo * S))
    (path : jsstr)
  : list (jsstr * gval) -> memo -> S -> option (list (jsstr * tree) * memo * S) :=
  fix each (fs : list (jsstr * gval)) (objects : memo) (s : S) :=
    match fs with
    | [] => Some ([], objects, s)
    | (name, child) :: r =>
        '(t, objects, s) ←
          derez child (path ++ js "[" ++ quote_string name ++ js "]") objects s;
        '(ts, objects, s) ← each r objects s;
        Some (if bool_decide (name = js "__proto__") then ts else (name, t) :: ts,
              objects, s)
    end.

(** [derez(value, path)]; the nesting of the calls is bounded by
    [fuel]. *)
Fixpoint derez (fuel : nat) (value : gval) (path : jsstr)
    (objects : memo) (s : S) : option (tree * memo * S) :=
  match fuel with
  | 0 => None
  | Datatypes.S fuel' =>
      let '(value, s) :=
        match rp with
        | Some f => f s value
        | None => (value, s)
        end in
      match value with
      | GRef l =>
          match h !! l with
          | Some (OArray es) =>
              match objects !! l with
              | Some old_path => Some (RefMarker old_path, objects, s)
              | None =>
                  '(nu, objects, s) ←
                    each_element (derez fuel') path 0%N es (<[l := path]> objects) s;
                  Some (TArr nu, objects, s)
              end
          | Some (OObject fs) =>
              match objects !! l with
              | Some old_path => Some (RefMarker old_path, objects, s)
              | None =>
                  '(nu, objects, s) ←
                    each_name (derez fuel') path fs (<[l := path]> objects) s;
                  Some (TObj nu, objects, s)
              end
          | Some (OBuiltin _) | None => Some (TLeaf value, objects, s)
          end
      | _ => Some (TLeaf value, objects, s)
      end
  end.

(** [decycle(object, replacer)] *)
Definition decycle_from (fuel : nat) (object : gval) (s : S) : option tree :=
  (fun r => r.1.1) <$> derez fuel object (js "$") ∅ s.
End Decycle.

(** [decycle(object)], without a replacer. *)
Definition decycle (fuel : nat) (h : heap) (object : gval) : option tree :=
  decycle_from (S := unit) h None fuel object tt.

(** [JSON.stringify] on what [decycle] returns. In an array undefined is
    written as null; in an object a field whose value is undefined is left
    out. [None] stands for undefined. *)
Fixpoint stringify (h : heap) (t : tree) : option jsstr :=
  match t with
  | TLeaf GUndef => None
  | TLeaf GNull => Some (js "null")
  | TLeaf (GBool true) => Some (js "true")
  | TLeaf (GBool false) => Some (js "false")
  | TLeaf (GNum n) => Some n
  | TLeaf (GStr s) => Some (quote_string s)
  | TLeaf (GRef l) =>
      match h !! l with
      | Some (OBuiltin json) => json
      | _ => None
      end
  | TArr ts =>
      let fix items (ts : list tree) : jsstr :=
        match ts with
        | [] => []
        | [t] => default (js "null") (stringify h t)
        | t :: r => default (js "null") (stringify h t) ++ js "," ++ items r
        end in
      Some (js "[" ++ items ts ++ js "]")
  | TObj fs =>
      let fix members (first : bool) (fs : list (jsstr * tree)) : jsstr :=
        match fs with
        | [] => []
        | (k, t) :: r =>
            match stringify h t with
            | Some s =>
                (if first then [] else js ",") ++ quote_string k ++ js ":" ++ s
                ++ members false r
            | None => members first r
            end
        end in
      Some (js "{" ++ members true fs ++ js "}")
  end.
(* ===================================================================== *)
(** ** The check value and the packets of [src/actions/index.js] *)
(* ===================================================================== *)

(** The callback of [crcVal]: the element is added to the running value,
    from which 256 is taken when it has grown above 256. *)
Definition crc_step (currentVal index : Z) : Z :=
  let currentVal := (currentVal + index)%Z in
  if (256 <? currentVal)%Z then (currentVal - 256)%Z else currentVal.

(** [crcVal]: [reduce] is called without an initial value, so the first
    element starts the running value and the callback runs on the others;
    on an empty array [reduce] throws a TypeError ([None]). The elements
    are integers. *)
Definition crcVal (array : list Z) : option Z :=
  match array with
  | [] => None
  | first :: others => Some (255 - foldl crc_step first others)%Z
  end.

(** [str2ab]: a [Uint8Array] keeps the low eight bits of each code unit
    written to it. *)
Definition str2ab (str : jsstr) : list N := (fun c => c mod 256)%N <$> str.

(** [buffer.slice(begin, end)] on a typed array, for indices that are not
    negative: both are clamped to the length. *)
Definition slice (buffer : list N) (begin end_ : nat) : list N :=
  take (Nat.min end_ (length buffer) - begin) (drop begin buffer).

(** One call of [writeCharacteristicWithoutResponseForService]. *)
Record ble_write := BleWrite {
  write_service : jsstr;
  write_characteristic : jsstr;
  write_payload : jsstr
}.

Definition packetsize : nat := 20.

Section WriteCharacteristic.
(** [Base64.btoa], of a module that is not part of these sources, and the
    identifiers of the selected service and characteristic, read from the
    state. *)
Variable btoa : jsstr -> jsstr.
Variables selectedService selectedCharacteristic : jsstr.

(** The [do ... while] loop of [writeCharacteristic], given by the writes
    it makes, in order; [String.fromCharCode.apply(null, packet)] is the
    string of the bytes of the packet. The number of rounds is bounded by
    [fuel]. What is written to the console is left out, and the writes
    are taken not to throw. *)
Fixpoint write_loop (fuel : nat) (buffer : list N) (offset : nat)
  : option (list ble_write) :=
  match fuel with
  | 0 => None
  | S fuel' =>
      let packetlength :=
        if length buffer <? offset + packetsize then length buffer
        else offset + packetsize in
      let packet := slice buffer offset packetlength in
      let base64packet := btoa packet in
      let w := BleWrite selectedService selectedCharacteristic base64packet in
      let offset := offset + packetsize in
      if offset <? length buffer then (w ::.) <$> write_loop fuel' buffer offset
      else Some [w]
  end.

Definition writeCharacteristic (fuel : nat) (text : jsstr)
  : option (list ble_write) :=
  write_loop fuel (str2ab text) 0.
End WriteCharacteristic.


(* ===================================================================== *)
(** ** JSON texts *)
(* ===================================================================== *)

(** The texts that the properties below range over are given by their
    concrete syntax, so that a document is a tree together with the white
    space, the escapes and the number literals it was written with. *)

(** One character of a string literal: a plain character, a backslash
    escape, or a [\u] escape with four hexadecimal digits. *)
Inductive schar :=
| Plain (c : N)
| Escape (e : N)
| Unicode (h1 h2 h3 h4 : N).

Definition schar_ok (c : schar) : bool :=
  match c with
  | Plain c => is_plain c
  | Escape e => is_simple_escape e
  | Unicode h1 h2 h3 h4 => is_hex h1 && is_hex h2 && is_hex h3 && is_hex h4
  end.

Definition schar_text (c : schar) : jsstr :=
  match c with
  | Plain c => [c]
  | Escape e => [Ch.backslash; e]
  | Unicode h1 h2 h3 h4 => [Ch.backslash; Ch.lower_u; h1; h2; h3; h4]
  end.

(** The character that an escape names. *)
Definition escape_char (e : N) : N :=
  if (e =? Ch.lower_b)%N then 8
  else if (e =? Ch.lower_f)%N then 12
  else if (e =? Ch.lower_n)%N then 10
  else if (e =? Ch.lower_r)%N then 13
  else if (e =? Ch.lower_t)%N then 9
  else e.

Definition hex_value (h : N) : N := Z.to_N (default 0%Z (hex_digit h)).

Definition schar_value (c : schar) : N :=
  match c with
  | Plain c => c
  | Escape e => escape_char e
  | Unicode h1 h2 h3 h4 =>
      ((hex_value h1 * 16 + hex_value h2) * 16 + hex_value h3) * 16 + hex_value h4
  end.

(** A string literal and the string it denotes. *)
Definition string_text (cs : list schar) : jsstr :=
  Ch.quote :: concat (schar_text <$> cs) ++ [Ch.quote].

Definition string_value (cs : list schar) : jsstr := schar_value <$> cs.

(** A number literal: sign, integer digits, fraction digits, exponent
    (its letter, its sign and its digits). *)
Record numlit := NumLit {
  num_neg : bool;
  num_int : jsstr;
  num_frac : option jsstr;
  num_exp : option (N * option N * jsstr)
}.

Definition digits_ok (ds : jsstr) : bool :=
  forallb is_digit ds && negb (bool_decide (ds = [])).

Definition int_ok (ds : jsstr) : bool :=
  bool_decide (ds = [Ch.zero])
  || match ds with
     | d :: r => is_digit d && negb (d =? Ch.zero)%N && forallb is_digit r
     | [] => false
     end.

Definition exp_ok (e : N * option N * jsstr) : bool :=
  let '(letter, sign, ds) := e in
  ((letter =? Ch.lower_e) || (letter =? Ch.upper_e))%N
  && match sign with
     | Some g => ((g =? Ch.plus) || (g =? Ch.minus))%N
     | None => true
     end
  && digits_ok ds.

Definition numlit_ok (n : numlit) : bool :=
  int_ok (num_int n)
  && match num_frac n with Some ds => digits_ok ds | None => true end
  && match num_exp n with Some e => exp_ok e | None => true end.

Definition exp_text (e : N * option N * jsstr) : jsstr :=
  let '(letter, sign, ds) := e in
  letter :: match sign with Some g => [g] | None => [] end ++ ds.

Definition numlit_text (n : numlit) : jsstr :=
  (if num_neg n then [Ch.minus] else [])
  ++ num_int n
  ++ match num_frac n with Some ds => Ch.dot :: ds | None => [] end
  ++ match num_exp n with Some e => exp_text e | None => [] end.

(** JSON white space: space, tab, line feed, carriage return. *)
Definition is_ws (c : N) : bool :=
  ((c =? 32) || (c =? 9) || (c =? 10) || (c =? 13))%N.

Definition ws_ok (w : jsstr) : bool := forallb is_ws w.

(** A JSON text. An element is a value between white space; the elements
    of an array are separated by commas; a member of an object is a key
    between white space, a colon and an element. [CArr w es] is written
    with the white space [w] after its opening bracket. *)
#[local] Unset Elimination Schemes.
Inductive json :=
| JStr (cs : list schar)
| JNum (n : numlit)
| JTrue
| JFalse
| JNull
| JArr (w : jsstr) (elements : list (jsstr * json * jsstr))
| JObj (w : jsstr)
       (members : list (jsstr * list schar * jsstr * (jsstr * json * jsstr))).
#[local] Set Elimination Schemes.

Definition element := (jsstr * json * jsstr)%type.
Definition member := (jsstr * list schar * jsstr * element)%type.

Fixpoint json_ok (j : json) : bool :=
  match j with
  | JStr cs => forallb schar_ok cs
  | JNum n => numlit_ok n
  | JTrue | JFalse | JNull => true
  | JArr w es =>
      ws_ok w
      && forallb (fun e : element => ws_ok e.1.1 && json_ok e.1.2 && ws_ok e.2) es
  | JObj w ms =>
      ws_ok w
      && forallb (fun m : member =>
                    ws_ok m.1.1.1 && forallb schar_ok m.1.1.2 && ws_ok m.1.2
                    && ws_ok m.2.1.1 && json_ok m.2.1.2 && ws_ok m.2.2) ms
  end.

Fixpoint json_text (j : json) : jsstr :=
  match j with
  | JStr cs => string_text cs
  | JNum n => numlit_text n
  | JTrue => js "true"
  | JFalse => js "false"
  | JNull => js "null"
  | JArr w es =>
      Ch.lbracket :: w
      ++ sep_by_comma ((fun e : element => e.1.1 ++ json_text e.1.2 ++ e.2) <$> es)
      ++ [Ch.rbracket]
  | JObj w ms =>
      Ch.lbrace :: w
      ++ sep_by_comma
           ((fun m : member =>
               m.1.1.1 ++ string_text m.1.1.2 ++ m.1.2 ++ 58%N
               :: m.2.1.1 ++ json_text m.2.1.2 ++ m.2.2) <$> ms)
      ++ [Ch.rbrace]
  end.

(** The value a text denotes: the elements of an array are appended in
    order; the members of an object are written in order, a later member
    replacing an earlier one with the same key. *)
Fixpoint json_value (j : json) : value :=
  match j with
  | JStr cs => VStr (string_value cs)
  | JNum n => VNum (numlit_text n)
  | JTrue => VBool true
  | JFalse => VBool false
  | JNull => VNull
  | JArr _ es =>
      foldl (fun a (e : element) => set_prop a (length_key a) (json_value e.1.2))
            (VArr 0 []) es
  | JObj _ ms =>
      foldl (fun o (m : member) =>
               set_prop o (string_value m.1.1.2) (json_value m.2.1.2))
            (VObj []) ms
  end.

Definition is_container (j : json) : bool :=
  match j with JArr _ _ | JObj _ _ => true | _ => false end.

(** A document: a text between white space. *)
Record document := Document {
  doc_lead : jsstr;
  doc_json : json;
  doc_trail : jsstr
}.

Definition doc_ok (d : document) : bool :=
  ws_ok (doc_lead d) && json_ok (doc_json d) && ws_ok (doc_trail d).

Definition doc_text (d : document) : jsstr :=
  doc_lead d ++ json_text (doc_json d) ++ doc_trail d.

(** *** Lexical structure of a text *)

(** The lexemes of the token grammar, and the items a text is made of:
    lexemes and the single characters between them (white space, commas
    and colons). *)
Inductive lexeme :=
| LBrace | RBrace | LBracket | RBracket
| LTrue | LFalse | LNull
| LString (cs : list schar)
| LNumber (n : numlit).

Inductive item :=
| Gap (c : N)
| Lex (l : lexeme).

Definition lexeme_text (l : lexeme) : jsstr :=
  match l with
  | LBrace => [Ch.lbrace]
  | RBrace => [Ch.rbrace]
  | LBracket => [Ch.lbracket]
  | RBracket => [Ch.rbracket]
  | LTrue => js "true"
  | LFalse => js "false"
  | LNull => js "null"
  | LString cs => string_text cs
  | LNumber n => numlit_text n
  end.

Definition lexeme_ok (l : lexeme) : bool :=
  match l with
  | LString cs => forallb schar_ok cs
  | LNumber n => numlit_ok n
  | _ => true
  end.

Definition item_text (i : item) : jsstr :=
  match i with
  | Gap c => [c]
  | Lex l => lexeme_text l
  end.

Definition items_text (its : list item) : jsstr := concat (item_text <$> its).

Definition is_string_item (i : item) : bool :=
  match i with Lex (LString _) => true | _ => false end.

(** Lists of items separated by commas. *)
Fixpoint sep_items (xs : list (list item)) : list item :=
  match xs with
  | [] => []
  | [x] => x
  | x :: r => x ++ Gap 44 :: sep_items r
  end.

Definition scalar_lexeme (j : json) : lexeme :=
  match j with
  | JStr cs => LString cs
  | JNum n => LNumber n
  | JTrue => LTrue
  | JFalse => LFalse
  | _ => LNull
  end.

Fixpoint items (j : json) : list item :=
  match j with
  | JArr w es =>
      Lex LBracket :: (Gap <$> w)
      ++ sep_items ((fun e : element =>
                       (Gap <$> e.1.1) ++ items e.1.2 ++ (Gap <$> e.2)) <$> es)
      ++ [Lex RBracket]
  | JObj w ms =>
      Lex LBrace :: (Gap <$> w)
      ++ sep_items ((fun m : member =>
                       (Gap <$> m.1.1.1) ++ Lex (LString m.1.1.2)
                       :: (Gap <$> m.1.2) ++ Gap 58
                       :: (Gap <$> m.2.1.1) ++ items m.2.1.2 ++ (Gap <$> m.2.2))
                      <$> ms)
      ++ [Lex RBrace]
  | _ => [Lex (scalar_lexeme j)]
  end.

(** The lexemes of a text, in order. *)
Fixpoint lexemes (j : json) : list lexeme :=
  match j with
  | JArr _ es =>
      LBracket :: concat ((fun e : element => lexemes e.1.2) <$> es) ++ [RBracket]
  | JObj _ ms =>
      LBrace
      :: concat ((fun m : member => LString m.1.1.2 :: lexemes m.2.1.2) <$> ms)
      ++ [RBrace]
  | _ => [scalar_lexeme j]
  end.

(** The tokens of a list of items that starts at offset [pos]. *)
Fixpoint toks_at (pos : nat) (its : list item) : list token :=
  match its with
  | [] => []
  | Gap _ :: r => toks_at (S pos) r
  | Lex l :: r =>
      Token (lexeme_text l) pos :: toks_at (pos + length (lexeme_text l)) r
  end.

(** The characters between lexemes. *)
Definition is_gap (c : N) : bool := (is_ws c || (c =? 44) || (c =? 58))%N.

(** What may follow a number literal for it to end there: nothing, or a
    character that is neither a word character nor a dot. *)
Definition delimits (rest : jsstr) : bool :=
  match rest with
  | [] => true
  | c :: _ => negb (is_word c) && negb (c =? Ch.dot)%N
  end.

(** [spaced prev its rest]: the items [its], read after the character
    [prev] and before the text [rest], are valid lexemes and gaps, and
    every number literal stands between characters that delimit it. *)
Fixpoint spaced (prev : option N) (its : list item) (rest : jsstr) : bool :=
  match its with
  | [] => true
  | Gap c :: r => is_gap c && spaced (Some c) r rest
  | Lex l :: r =>
      lexeme_ok l
      && match l with
         | LNumber _ => negb (word_opt prev) && delimits (items_text r ++ rest)
         | _ => true
         end
      && spaced (last (lexeme_text l)) r rest
  end.

(** What a token does to the stack: open a container, close one, or
    neither. *)
Inductive shape := Opens | Closes | Other.

Definition shape_of (t : token) : shape :=
  match head (tok_text t) with
  | Some 91%N | Some 123%N => Opens
  | Some 93%N | Some 125%N => Closes
  | _ => Other
  end.

(** The token after the one that completes the value: the first token,
    other than a closing bracket, that is met with all containers closed.
    [depth] counts the containers open before the head of the list. *)
Fixpoint following_token (depth : nat) (toks : list token) : option token :=
  match toks with
  | [] => None
  | t :: r =>
      match depth, shape_of t with
      | 0, Closes => following_token 0 r
      | 0, _ => Some t
      | S d, Opens => following_token (S depth) r
      | S d, Closes => following_token d r
      | S d, Other => following_token depth r
      end
  end.

(** The first token that [jsonRawDecode] leaves unconsumed. The loop
    starts with one container open: the one that the first token opened,
    or the wrapper of a bare scalar, whose token is then read by the loop
    itself. *)
Definition first_unconsumed (toks : list token) : option token :=
  match toks with
  | [] => None
  | t0 :: rest =>
      if bool_decide (tok_text t0 = [Ch.lbrace] \/ tok_text t0 = [Ch.lbracket])
      then following_token 1 rest
      else following_token 1 toks
  end.

(* ===================================================================== *)
(** ** Notions used in the proofs *)
(* ===================================================================== *)

(** No decimal digit stands at the head of [s]. *)
Definition no_digit_ahead (s : jsstr) : Prop :=
  match s with [] => True | c :: _ => is_digit c = false end.

(** The text of the optional parts of a number literal. *)
Definition frac_text (f : option jsstr) : jsstr :=
  match f with Some ds => Ch.dot :: ds | None => [] end.

Definition exp_text_opt (e : option (N * option N * jsstr)) : jsstr :=
  match e with Some e => exp_text e | None => [] end.

(** [lexeme_fits prev l rest]: the lexeme [l] may stand between [prev]
    and [rest]; only a number literal depends on its neighbours. *)
Definition lexeme_fits (prev : option N) (l : lexeme) (rest : jsstr) : bool :=
  match l with
  | LNumber n => negb (word_opt prev) && delimits rest
  | _ => true
  end.

(** The character before the position reached after reading [t]. *)
Definition prev_after (prev : option N) (t : jsstr) : option N :=
  match last t with Some c => Some c | None => prev end.


(** The lexemes among a list of items. *)
Definition item_lexemes (its : list item) : list lexeme :=
  omap (fun i => match i with Lex l => Some l | Gap _ => None end) its.

(** [stops k rest]: the items [k] followed by [rest] start with a
    character that ends a number literal standing before them. *)
Definition stops (k : list item) (rest : jsstr) : bool :=
  match k with
  | [] => delimits rest
  | Gap c :: _ => is_gap c
  | Lex l :: _ =>
      match l with
      | LTrue | LFalse | LNull | LNumber _ => false
      | _ => true
      end
  end.

(** [accepts k rest]: [k] is well spaced after any character that is not
    a word character. [closes k rest]: [k] is well spaced after any
    character, and ends a number literal standing before it. *)
Definition accepts (k : list item) (rest : jsstr) : Prop :=
  forall p, word_opt p = false -> spaced p k rest = true.

Definition closes (k : list item) (rest : jsstr) : Prop :=
  stops k rest = true /\ forall p, spaced p k rest = true.

(** The items of a document and of a sequence of documents. *)
Definition doc_items (d : document) : list item :=
  (Gap <$> doc_lead d) ++ items (doc_json d) ++ (Gap <$> doc_trail d).

Definition docs_items (ds : list document) : list item :=
  concat (doc_items <$> ds).

Definition docs_text (ds : list document) : jsstr :=
  concat (doc_text <$> ds).

(** A state of the loop in which no offset has been recorded. *)
Definition live (stk : list frame) (rt : value) (k : option jsstr) : bstate :=
  BState stk rt k (-1).

(** One element appended to an array, one member written to an object. *)
Definition array_push (a : value) (e : element) : value :=
  set_prop a (length_key a) (json_value e.1.2).

Definition object_put (o : value) (m : member) : value :=
  set_prop o (string_value m.1.1.2) (json_value m.2.1.2).

(** The property of a text that the induction below establishes: read
    with a container on top, its tokens store its value there. *)
Definition builds (j : json) : Prop :=
  forall ts rest cont slot below rt k,
    tok_text <$> ts = lexeme_text <$> lexemes j ->
    (k = None -> is_array cont = true) ->
    run (live ((cont, slot) :: below) rt k) (ts ++ rest)
    = run (live ((set_prop cont (key_or_length k cont) (json_value j), slot)
                 :: below) rt None) rest.

(** A document without its leading white space. *)
Definition trim_lead (d : document) : document :=
  Document [] (doc_json d) (doc_trail d).

(** The hypothesis on the documents of a stream: each is well formed and
    its top-level value is an object or an array. *)
Definition container_doc (d : document) : Prop :=
  doc_ok d = true /\ is_container (doc_json d) = true.

(** The values of a sequence of documents. *)
Definition docs_values (ds : list document) : list value :=
  (fun d => json_value (doc_json d)) <$> ds.

(** *** Sample inputs *)

(** The documents [{"a":1}] and [ [true, "\n"]] followed by a line feed. *)
Definition sample_object : document :=
  Document []
    (JObj [] [([], [Plain 97], [], ([], JNum (NumLit false [49%N] None None), []))])
    [].

Definition sample_array : document :=
  Document [32%N]
    (JArr [] [([], JTrue, []); ([32%N], JStr [Escape 110], [])])
    [10%N].

(** The loop of [walk] over the properties of [cur], given with their
    walked values. *)
Fixpoint revive_loop (rv : reviver) (cur : value) (toDelete : list jsstr)
    (ps : props) : value * list jsstr :=
  match ps with
  | [] => (cur, toDelete)
  | (k, child') :: r =>
      let cur1 := set_prop cur k child' in
      let v := rv cur1 k child' in
      if is_undef v then revive_loop rv cur1 (toDelete ++ [k]) r
      else revive_loop rv (set_prop cur1 k v) toDelete r
  end.

(** The properties of a container. *)
Definition props_of (o : value) : props :=
  match o with
  | VArr _ ps | VObj ps => ps
  | _ => []
  end.

Definition is_composite (o : value) : bool :=
  match o with VArr _ _ | VObj _ => true | _ => false end.

(** A reviver that drops numbers, replaces null by the string [nil] and
    keeps everything else. *)
Definition sample_reviver : reviver :=
  fun _ _ v =>
    match v with
    | VNum _ => VUndef
    | VNull => VStr (js "nil")
    | _ => v
    end.

(** *** The structure of a graph value *)

(** [expand h fuel v]: the tree obtained by following the references of
    [v] through the heap, which is what deep equality compares, together
    with the arrays and objects met on the way, in the order of the
    traversal. It is defined when the traversal ends within [fuel] nested
    steps, which an acyclic value allows. *)
Definition expand_elements (expand : gval -> option (tree * list loc))
  : list gval -> option (list tree * list loc) :=
  fix each (es : list gval) :=
    match es with
    | [] => Some ([], [])
    | e :: r =>
        '(t, ls) ← expand e;
        '(ts, ls') ← each r;
        Some (t :: ts, ls ++ ls')
    end.

Definition expand_fields (expand : gval -> option (tree * list loc))
  : list (jsstr * gval) -> option (list (jsstr * tree) * list loc) :=
  fix each (fs : list (jsstr * gval)) :=
    match fs with
    | [] => Some ([], [])
    | (name, child) :: r =>
        '(t, ls) ← expand child;
        '(ts, ls') ← each r;
        Some ((name, t) :: ts, ls ++ ls')
    end.

Fixpoint expand (h : heap) (fuel : nat) (v : gval) : option (tree * list loc) :=
  match fuel with
  | 0 => None
  | S fuel' =>
      match v with
      | GRef l =>
          match h !! l with
          | Some (OArray es) =>
              '(ts, ls) ← expand_elements (expand h fuel') es;
              Some (TArr ts, l :: ls)
          | Some (OObject fs) =>
              '(ts, ls) ← expand_fields (expand h fuel') fs;
              Some (TObj ts, l :: ls)
          | _ => Some (TLeaf v, [])
          end
      | _ => Some (TLeaf v, [])
      end
  end.

(** [l] is an array or a plain object of the heap. *)
Definition composite_at (h : heap) (l : loc) : Prop :=
  match h !! l with
  | Some (OArray _) | Some (OObject _) => True
  | _ => False
  end.

(** What [derez] builds for an array or an object that it meets for the
    first time: a new container with one entry per element or field (a
    field named [__proto__] gives no entry). *)
Definition materialized (h : heap) (l : loc) (t : tree) : Prop :=
  match h !! l, t with
  | Some (OArray es), TArr ts => length ts = length es
  | Some (OObject fs), TObj ts =>
      ts.*1 = filter (fun name => name <> js "__proto__") fs.*1
  | _, _ => False
  end.

(** The heap of [a = []; a[0] = a], the heap of an object whose fields
    [a] and [b] hold the same array, and the heap of an array that holds
    an array and an object. *)
Definition self_heap : heap := {[ 1%positive := OArray [GRef 1%positive] ]}.

Definition shared_heap : heap :=
  {[ 1%positive := OObject [(js "a", GRef 2%positive); (js "b", GRef 2%positive)];
     2%positive := OArray [GNum (js "1")] ]}.

Definition nested_heap : heap :=
  {[ 1%positive := OArray [GRef 2%positive; GRef 3%positive; GStr (js "x")];
     2%positive := OArray [GNull];
     3%positive := OObject [(js "k", GBool true)] ]}.

(** [l] is a reference that the replacer [f] returns on some call. *)
Definition returned_by {S : Type} (f : @replacer S) (l : loc) : Prop :=
  exists s v s', f s v = (GRef l, s').

(** An array that holds the same empty array twice, next to two other
    empty arrays; a replacer that answers each occurrence of the shared
    array with another array; a replacer that answers two different arrays
    with the same one. *)
Definition pair_heap : heap :=
  {[ 1%positive := OArray [GRef 2%positive; GRef 2%positive];
     2%positive := OArray [];
     3%positive := OArray [];
     4%positive := OArray [];
     5%positive := OArray [GRef 3%positive; GRef 4%positive] ]}.

Definition fresh_copy : @replacer nat :=
  fun n v =>
    match v with
    | GRef 2%positive => (GRef (if Nat.eqb n 0 then 3%positive else 4%positive), S n)
    | _ => (v, n)
    end.

Definition merge_arrays : @replacer unit :=
  fun s v =>
    match v with
    | GRef 4%positive => (GRef 3%positive, s)
    | _ => (v, s)
    end.

(** *** Depth of the stack along a list of tokens *)

Definition lexeme_shape (l : lexeme) : shape :=
  match l with
  | LBrace | LBracket => Opens
  | RBrace | RBracket => Closes
  | _ => Other
  end.

(** [level n ss]: the number of open containers after tokens of shapes
    [ss], read with [n] containers open, when the last open container is
    never closed on the way. *)
Fixpoint level (n : nat) (ss : list shape) : option nat :=
  match ss with
  | [] => Some n
  | Opens :: r => level (S n) r
  | Closes :: r =>
      match n with
      | S (S m) => level (S m) r
      | _ => None
      end
  | Other :: r => level n r
  end.

(** Lists of shapes in which every opening has its closing. *)
Inductive balanced : list shape -> Prop :=
| balanced_nil : balanced []
| balanced_other ss : balanced ss -> balanced (Other :: ss)
| balanced_wrap ss1 ss2 :
    balanced ss1 -> balanced ss2 -> balanced (Opens :: ss1 ++ Closes :: ss2).

(** The lexemes between the brackets of a container. *)
Definition body_lexemes (j : json) : list lexeme :=
  match j with
  | JArr _ es => concat ((fun e : element => lexemes e.1.2) <$> es)
  | JObj _ ms =>
      concat ((fun m : member => LString m.1.1.2 :: lexemes m.2.1.2) <$> ms)
  | _ => []
  end.

(** The document [["]"]], whose only element is the string of one closing
    bracket. *)
Definition bracket_string : json := JArr [] [([], JStr [Plain 93], [])].
(* ===================================================================== *)
(** ** Further notions used in the proofs *)
(* ===================================================================== *)

(** The sum of the elements of an array. *)
Definition total (array : list Z) : Z := foldr Z.add 0%Z array.

(** A token moved [k] characters to the right. *)
Definition shift_token (k : nat) (t : token) : token :=
  Token (tok_text t) (k + tok_index t).

(** The end of a token in the input. *)
Definition tok_end (t : token) : nat := tok_index t + length (tok_text t).

(** The outermost container of the loop: the one at the bottom of the
    stack, or the one kept in [root] once the stack is empty. *)
Fixpoint bottom_of (stk : list frame) (rt : value) : value :=
  match stk with
  | [] => rt
  | [(cont, _)] => cont
  | _ :: below => bottom_of below rt
  end.

Definition is_object (o : value) : bool :=
  match o with VObj _ => true | _ => false end.

(** The replies of the comment at the end of [jsonDecode]:
    [{"id":1,"result":{"answer":23},"error":null}] and its like. *)
Definition reply (id answer : jsstr) : json :=
  JObj []
    [([], Plain <$> js "id", [], ([], JNum (NumLit false id None None), []));
     ([], Plain <$> js "result", [],
      ([], JObj [] [([], Plain <$> js "answer", [],
                     ([], JNum (NumLit false answer None None), []))], []));
     ([], Plain <$> js "error", [], ([], JNull, []))].

(** The reviver that returns every value as it is,
    [function (key, value) { return value; }]. *)
Definition keep : reviver := fun _ _ v => v.

(** The keys of [ps] are pairwise different. *)
Fixpoint distinct_keys (ps : props) : bool :=
  match ps with
  | [] => true
  | (k, _) :: r => bool_decide (k ∉ r.*1) && distinct_keys r
  end.

(** A key of an array lies below its length when it is an index. *)
Definition below_length (len : option N) (k : jsstr) : bool :=
  match len, array_index k with
  | Some n, Some i => (i <? n)%N
  | _, _ => true
  end.

(** The values that the loop of [jsonRawDecode] builds: no property holds
    undefined, the keys of a container are pairwise different, and the
    indices of an array lie below its length. *)
Fixpoint built (v : value) : bool :=
  let each (len : option N) (ps : props) :=
    forallb (fun kv : jsstr * value =>
               negb (is_undef kv.2) && built kv.2 && below_length len kv.1) ps in
  match v with
  | VArr len ps => distinct_keys ps && each (Some len) ps
  | VObj ps => distinct_keys ps && each None ps
  | _ => true
  end.

(** What [built] asks of one property of a container. *)
Definition entry_ok (len : option N) (kv : jsstr * value) : bool :=
  negb (is_undef kv.2) && built kv.2 && below_length len kv.1.

(** The containers of a state of the loop are built. *)
Definition built_state (st : bstate) : Prop :=
  Forall (fun f : frame => built f.1 = true /\ is_composite f.1 = true) (stack st)
  /\ built (root st) = true.

(** [copied h t]: no leaf of the tree [t] is an array or a plain object
    of the heap. *)
Fixpoint copied (h : heap) (t : tree) : bool :=
  match t with
  | TLeaf (GRef l) =>
      match h !! l with
      | Some (OArray _) | Some (OObject _) => false
      | _ => true
      end
  | TLeaf _ => true
  | TArr ts => forallb (fun t => copied h t) ts
  | TObj fs => forallb (fun f : jsstr * tree => copied h f.2) fs
  end.

(** A replacer that wraps: it answers the first array of [pair_heap] with
    the fifth, and the others with themselves. *)
Definition wrap_first : @replacer unit :=
  fun s v =>
    match v with
    | GRef 1%positive => (GRef 5%positive, s)
    | _ => (v, s)
    end.

(** The characters of [JSON.stringify(s)] between the quotes, one by one:
    what [quote_chars] writes, as characters of a string literal. *)
Definition hex_schar (c : N) : schar :=
  Unicode (hex_char (c / 4096 mod 16)) (hex_char (c / 256 mod 16))
          (hex_char (c / 16 mod 16)) (hex_char (c mod 16)).

Fixpoint quote_schars (s : jsstr) : list schar :=
  match s with
  | [] => []
  | c :: r =>
      if (c =? Ch.quote)%N then Escape Ch.quote :: quote_schars r
      else if (c =? Ch.backslash)%N then Escape Ch.backslash :: quote_schars r
      else if (c =? 8)%N then Escape Ch.lower_b :: quote_schars r
      else if (c =? 12)%N then Escape Ch.lower_f :: quote_schars r
      else if (c =? 10)%N then Escape Ch.lower_n :: quote_schars r
      else if (c =? 13)%N then Escape Ch.lower_r :: quote_schars r
      else if (c =? 9)%N then Escape Ch.lower_t :: quote_schars r
      else if (c <? 32)%N then hex_schar c :: quote_schars r
      else if is_high_surrogate c then
        match r with
        | d :: r' =>
            if is_low_surrogate d then Plain c :: Plain d :: quote_schars r'
            else hex_schar c :: quote_schars r
        | [] => [hex_schar c]
        end
      else if is_low_surrogate c then hex_schar c :: quote_schars r
      else Plain c :: quote_schars r
  end.

(** The text [lit] is matched, as a whole, by the number pattern. *)
Definition is_number_text (lit : jsstr) : bool :=
  match match_number None lit with
  | Some n => Nat.eqb n (length lit)
  | None => false
  end.

(** The trees that [JSON.stringify] writes in full and that are read back
    by plain property writes: no leaf is undefined or an object passed
    through, the text of every number is a number literal, and no field is
    named [__proto__]. *)
Fixpoint plain (t : tree) : bool :=
  match t with
  | TLeaf GNull | TLeaf (GBool _) | TLeaf (GStr _) => true
  | TLeaf (GNum lit) => is_number_text lit
  | TLeaf _ => false
  | TArr ts => forallb (fun t => plain t) ts
  | TObj fs =>
      forallb (fun f : jsstr * tree =>
                 negb (bool_decide (f.1 = js "__proto__")) && plain f.2) fs
  end.

(** The value that a tree stands for, built as [derez] builds it: the
    elements of an array written at its length, the fields of an object
    under their names. *)
Fixpoint value_of_tree (t : tree) : value :=
  match t with
  | TLeaf GNull => VNull
  | TLeaf (GBool b) => VBool b
  | TLeaf (GNum lit) => VNum lit
  | TLeaf (GStr s) => VStr s
  | TLeaf _ => VUndef
  | TArr ts =>
      foldl (fun a t => set_prop a (length_key a) (value_of_tree t)) (VArr 0 []) ts
  | TObj fs =>
      foldl (fun o (f : jsstr * tree) => set_prop o f.1 (value_of_tree f.2))
            (VObj []) fs
  end.

(** The tree of [{"a":[1,"x\ny"],"b":null}]. *)
Definition sample_tree : tree :=
  TObj [(js "a", TArr [TLeaf (GNum (js "1")); TLeaf (GStr [120; 10; 121]%N)]);
        (js "b", TLeaf GNull)].

(** [written h t j]: [j] is a well-formed text that [JSON.stringify]
    writes for the tree [t], and it denotes the value of [t]. *)
Definition written (h : heap) (t : tree) (j : json) : Prop :=
  json_ok j = true /\ stringify h t = Some (json_text j)
  /\ json_value j = value_of_tree t.

(** The properties of an array without holes that holds the values [vs]
    from index [i] on. *)
Fixpoint dense_from (i : N) (vs : list value) : props :=
  match vs with
  | [] => []
  | v :: r => (dec i, v) :: dense_from (i + 1) r
  end.

(** The value of the last member of an object written under the key
    [k], undefined when there is none. *)
Definition last_member (k : jsstr) (ms : list member) : value :=
  match last (filter (fun m : member => string_value m.1.1.2 = k) ms) with
  | Some m => json_value m.2.1.2
  | None => VUndef
  end.

(** The document [{"a":1,"b":[],"a":null}]. *)
Definition sample_repeated_key : document :=
  Document []
    (JObj [] [([], [Plain 97], [], ([], JNum (NumLit false [49%N] None None), []));
              ([], [Plain 98], [], ([], JArr [] [], []));
              ([], [Plain 97], [], ([], JNull, []))])
    [].

(** Two items are alike when they are the same, or are both closing
    brackets or braces, or are both separators (white space, a comma or a
    colon). *)
Definition is_closer (i : item) : bool :=
  match i with Lex RBrace | Lex RBracket => true | _ => false end.

Definition is_separator (i : item) : bool :=
  match i with Gap c => is_gap c | Lex _ => false end.

Definition alike (i i' : item) : Prop :=
  i = i'
  \/ (is_closer i = true /\ is_closer i' = true)
  \/ (is_separator i = true /\ is_separator i' = true).

(** Two tokens are alike when they are the same or are both closing
    brackets or braces. *)
Definition tok_alike (t t' : token) : Prop :=
  t = t'
  \/ ((tok_text t = [Ch.rbracket] \/ tok_text t = [Ch.rbrace])
      /\ (tok_text t' = [Ch.rbracket] \/ tok_text t' = [Ch.rbrace])).

(** *** Inputs on which every property write is an ordinary one *)

(** The keys that a property write treats specially: [__proto__] names
    the prototype of the object written to, and [length] the length of an
    array. *)
Definition special_key (k : jsstr) : bool :=
  bool_decide (k = js "__proto__") || bool_decide (k = js "length").

(** No string token of the text reads as one of them. A key that the
    loop of [jsonRawDecode] writes is the string of a token, the length
    of an array, or what the property [length] of an object holds: on
    such a text it is never a special key. *)
Definition ordinary_strings (s : jsstr) : bool :=
  forallb (fun t : token =>
             match head (tok_text t) with
             | Some 34%N => negb (special_key (string_of_token (tok_text t)))
             | _ => true
             end) (tokenize s).

(** No member of the text, at any depth, is written under the key
    [__proto__]. (In a well-formed text a string is a key only in an
    object, where [length] is an ordinary key.) *)
Fixpoint proto_free (j : json) : bool :=
  match j with
  | JArr _ es => forallb (fun e : element => proto_free e.1.2) es
  | JObj _ ms =>
      forallb (fun m : member =>
                 negb (bool_decide (string_value m.1.1.2 = js "__proto__"))
                 && proto_free m.2.1.2) ms
  | _ => true
  end.

(** [v] is the value that [jsonRawDecode] returns on the document [d]
    alone, where it consumes the whole of it. *)
Definition decodes_alone (d : document) (v : value) : Prop :=
  jsonRawDecode (doc_text d) None = RawPair v (Z.of_nat (length (doc_text d))).

(** No object of the tree has a field named [__proto__]. *)
Fixpoint no_proto_field (t : tree) : bool :=
  match t with
  | TLeaf _ => true
  | TArr ts => forallb (fun t => no_proto_field t) ts
  | TObj fs =>
      forallb (fun f : jsstr * tree =>
                 negb (bool_decide (f.1 = js "__proto__")) && no_proto_field f.2) fs
  end.

(** The objects of the heap have pairwise different field names, as every
    JavaScript object has, and none of them is [__proto__]. *)
Definition ordinary_object (o : object) : Prop :=
  match o with
  | OObject fs => NoDup fs.*1 /\ js "__proto__" ∉ fs.*1
  | _ => True
  end.

Definition ordinary_heap (h : heap) : Prop :=
  map_Forall (fun _ o => ordinary_object o) h.

(** The heap of an object with the own properties [__proto__] and [a],
    as [JSON.parse] returns it for [{"__proto__":1,"a":2}]. *)
Definition proto_heap : heap :=
  {[ 1%positive := OObject [(js "__proto__", GNum (js "1")); (js "a", GNum (js "2"))] ]}.

(** *** The copy with markers *)

(** The paths at which the arrays and objects of a value are met first,
    when the value is traversed depth first, the elements and the fields
    of a container in order, and a container that was met before is
    passed over. [seen] holds the containers met so far. *)
Definition seen_elements (first_seen : gval -> jsstr -> memo -> option memo)
    (path : jsstr) : N -> list gval -> memo -> option memo :=
  fix each (i : N) (es : list gval) (seen : memo) :=
    match es with
    | [] => Some seen
    | e :: r =>
        seen ← first_seen e (path ++ js "[" ++ dec i ++ js "]") seen;
        each (i + 1)%N r seen
    end.

Definition seen_fields (first_seen : gval -> jsstr -> memo -> option memo)
    (path : jsstr) : list (jsstr * gval) -> memo -> option memo :=
  fix each (fs : list (jsstr * gval)) (seen : memo) :=
    match fs with
    | [] => Some seen
    | (name, child) :: r =>
        seen ← first_seen child (path ++ js "[" ++ quote_string name ++ js "]") seen;
        each r seen
    end.

Fixpoint first_seen (h : heap) (fuel : nat) (v : gval) (path : jsstr)
    (seen : memo) : option memo :=
  match fuel with
  | 0 => None
  | S fuel' =>
      match v with
      | GRef l =>
          match h !! l with
          | Some (OArray es) =>
              match seen !! l with
              | Some _ => Some seen
              | None =>
                  seen_elements (first_seen h fuel') path 0%N es (<[l := path]> seen)
              end
          | Some (OObject fs) =>
              match seen !! l with
              | Some _ => Some seen
              | None =>
                  seen_fields (first_seen h fuel') path fs (<[l := path]> seen)
              end
          | _ => Some seen
          end
      | _ => Some seen
      end
  end.

(** The copy of a value, given the paths at which its arrays and objects
    are met first: an array or object that stands at its first path is
    written out in full, with one entry per element or field, each the
    copy of the child under the path of the child; at any other path it
    is replaced by the object [{"$ref": p}], where [p] is its first
    path. Every other value is kept. *)
Definition marked_elements (marked_copy : gval -> jsstr -> option tree)
    (path : jsstr) : N -> list gval -> option (list tree) :=
  fix each (i : N) (es : list gval) :=
    match es with
    | [] => Some []
    | e :: r =>
        t ← marked_copy e (path ++ js "[" ++ dec i ++ js "]");
        ts ← each (i + 1)%N r;
        Some (t :: ts)
    end.

Definition marked_fields (marked_copy : gval -> jsstr -> option tree)
    (path : jsstr) : list (jsstr * gval) -> option (list (jsstr * tree)) :=
  fix each (fs : list (jsstr * gval)) :=
    match fs with
    | [] => Some []
    | (name, child) :: r =>
        t ← marked_copy child (path ++ js "[" ++ quote_string name ++ js "]");
        ts ← each r;
        Some ((name, t) :: ts)
    end.

Fixpoint marked_copy (h : heap) (firsts : memo) (fuel : nat) (v : gval)
    (path : jsstr) : option tree :=
  match fuel with
  | 0 => None
  | S fuel' =>
      match v with
      | GRef l =>
          match h !! l with
          | Some (OArray es) =>
              p ← firsts !! l;
              if bool_decide (p = path)
              then TArr <$> marked_elements (marked_copy h firsts fuel') path 0%N es
              else Some (TObj [(js "$ref", TLeaf (GStr p))])
          | Some (OObject fs) =>
              p ← firsts !! l;
              if bool_decide (p = path)
              then TObj <$> marked_fields (marked_copy h firsts fuel') path fs
              else Some (TObj [(js "$ref", TLeaf (GStr p))])
          | _ => Some (TLeaf v)
          end
      | _ => Some (TLeaf v)
      end
  end.

(** The heap of an object whose fields [x] and [y] hold the same object,
    which holds itself under [self]. *)
Definition knot_heap : heap :=
  {[ 1%positive := OObject [(js "x", GRef 2%positive); (js "y", GRef 2%positive)];
     2%positive := OObject [(js "self", GRef 2%positive)] ]}.

(** No path recorded in [objects] starts with [path]; the paths that
    [objects'] records and [objects] does not start with [path]. *)
Definition apart (objects : memo) (path : jsstr) : Prop :=
  forall l p, objects !! l = Some p -> ~ path `prefix_of` p.

Definition recorded_below (objects objects' : memo) (path : jsstr) : Prop :=
  forall l p, objects' !! l = Some p ->
    objects !! l = Some p \/ path `prefix_of` p.

(** The heap of an object that holds the same array in two fields: one
    named by the letter q followed by a double quote, one named [r]. *)
Definition quoted_heap : heap :=
  {[ 1%positive := OObject [(js "q'", GRef 2%positive); (js "r", GRef 2%positive)];
     2%positive := OArray [GBool true] ]}.

(** *** Cuts of a text *)

(** [clear_cut its n]: the cut after the first [n] characters of the text
    of the items [its] does not fall in a string literal behind one of its
    brackets or braces: the item in which it falls is no string literal,
    or the part of the literal before the cut holds no bracket or brace. *)
Fixpoint clear_cut (its : list item) (n : nat) : bool :=
  match its with
  | [] => true
  | i :: r =>
      if n <? length (item_text i) then
        negb (is_string_item i)
        || forallb (fun c => negb (is_bracket c)) (take n (item_text i))
      else clear_cut r (n - length (item_text i))
  end.

(** The length of the first [m] chunks of a text. *)
Definition cut_at (chunks : list jsstr) (m : nat) : nat :=
  length (concat (take m chunks)).

(* ===================================================================== *)
(** * Properties *)
(* ===================================================================== *)

(** ** The driver on input without tokens *)

(** On a text in which the regular expression finds no token,
    [jsonRawDecode] returns the pair of undefined and 0, which is not the
    number 0 that [jsonDecode] tests for. *)
Lemma jsonRawDecode_no_token json rv :
  tokenize json = [] -> jsonRawDecode json rv = RawPair VUndef 0.
Proof. intros H. unfold jsonRawDecode. now rewrite H. Qed.

(** [jsonDecode] then appends undefined and calls itself on the same
    text, unless the text is empty. *)
Lemma jsonDecode_no_token fuel c json acc :
  tokenize (c :: json) = [] -> jsonDecode fuel (c :: json) acc = None.
Proof.
  intros H. revert acc. induction fuel as [|fuel IH]; intros acc; [reflexivity|].
  cbn [jsonDecode]. rewrite (jsonRawDecode_no_token _ _ H).
  unfold substr. cbn. apply IH.
Qed.

(** C4. [jsonDecode] does not terminate on every input: on the text made
    of one space the calls nest beyond every bound, whatever the list
    passed along. *)
Theorem jsonDecode_blank_never_returns :
  forall fuel acc, jsonDecode fuel (js " ") acc = None.
Proof. intros fuel acc. now apply jsonDecode_no_token. Qed.

(** C3. The text of a string literal cut before its closing quote is part
    of one JSON value; [jsonRawDecode] answers with the pair of undefined
    and 0, and [jsonDecode] never returns its list. *)
Theorem jsonDecode_partial_string_never_returns :
  jsonRawDecode (js "'ab") None = RawPair VUndef 0
  /\ forall fuel acc, jsonDecode fuel (js "'ab") acc = None.
Proof.
  split; [reflexivity|]. intros fuel acc. now apply jsonDecode_no_token.
Qed.

(* ===================================================================== *)
(** ** The tokenizer on the lexemes of the grammar *)
(* ===================================================================== *)

#[local] Arguments is_digit : simpl never.
#[local] Arguments is_word : simpl never.
#[local] Arguments is_hex : simpl never.
#[local] Arguments is_plain : simpl never.
#[local] Arguments is_simple_escape : simpl never.
#[local] Arguments is_ws : simpl never.
#[local] Arguments is_gap : simpl never.
#[local] Arguments is_bracket : simpl never.

Lemma is_digit_spec c : is_digit c = true <-> (48 <= c <= 57)%N.
Proof. unfold is_digit. rewrite andb_true_iff, !N.leb_le. tauto. Qed.

Lemma is_digit_word c : is_digit c = true -> is_word c = true.
Proof. unfold is_word. intros ->. reflexivity. Qed.

Lemma not_word_not_digit c : is_word c = false -> is_digit c = false.
Proof. destruct (is_digit c) eqn:E; [|easy]. now rewrite (is_digit_word _ E). Qed.

(** Case analysis on the comparisons of a goal about one character. *)
Ltac char_cases :=
  repeat match goal with
    | |- context [N.eqb ?a ?b] => destruct (N.eqb_spec a b)
    | |- context [N.leb ?a ?b] => destruct (N.leb_spec a b)
    | |- context [N.ltb ?a ?b] => destruct (N.ltb_spec a b)
    | H : context [N.eqb ?a ?b] |- _ => destruct (N.eqb_spec a b)
    | H : context [N.leb ?a ?b] |- _ => destruct (N.leb_spec a b)
    | H : context [N.ltb ?a ?b] |- _ => destruct (N.ltb_spec a b)
    end;
  cbn in *; try congruence; try lia.

Ltac unfold_chars :=
  unfold is_gap, is_ws, is_plain, is_simple_escape, is_hex, is_word,
    is_bracket, is_digit, delimits,
    Ch.quote, Ch.plus, Ch.minus, Ch.dot, Ch.slash, Ch.zero, Ch.upper_e,
    Ch.lbracket, Ch.backslash, Ch.rbracket, Ch.lower_b, Ch.lower_e,
    Ch.lower_f, Ch.lower_n, Ch.lower_r, Ch.lower_t, Ch.lower_u, Ch.lbrace,
    Ch.rbrace in *.

Ltac len_solve :=
  repeat (cbn [length app] in *; rewrite ?length_app, ?length_fmap in * );
  cbn [length] in *; try lia.

Lemma span_digits_app ds rest :
  forallb is_digit ds = true -> no_digit_ahead rest ->
  span_digits (ds ++ rest) = length ds.
Proof.
  intros Hd Hr. induction ds as [|d ds IH]; cbn in *.
  - destruct rest as [|c rest]; [reflexivity|]. cbn in Hr |- *. now rewrite Hr.
  - apply andb_true_iff in Hd as [-> Hd]. now rewrite IH.
Qed.

Lemma delimits_no_digit rest : delimits rest = true -> no_digit_ahead rest.
Proof.
  destruct rest as [|c rest]; [easy|]. cbn. intros H.
  apply andb_true_iff in H as [H _]. apply negb_true_iff in H.
  now apply not_word_not_digit.
Qed.

Lemma delimits_boundary rest :
  delimits rest = true -> word_opt (head rest) = false.
Proof.
  destruct rest as [|c rest]; [easy|]. cbn. intros H.
  apply andb_true_iff in H as [H _]. now apply negb_true_iff in H.
Qed.

(** The exponent of a literal is matched whole. *)
Lemma exp_len_text e rest :
  exp_ok e = true -> delimits rest = true ->
  exp_len (exp_text e ++ rest) = Some (length (exp_text e)).
Proof.
  destruct e as [[letter sign] ds]. cbn [exp_ok exp_text]. intros H Hr.
  apply andb_true_iff in H as [H Hds]. apply andb_true_iff in H as [Hl Hs].
  unfold digits_ok in Hds. apply andb_true_iff in Hds as [Hds Hne].
  apply negb_true_iff, bool_decide_eq_false in Hne.
  pose proof (span_digits_app ds rest Hds (delimits_no_digit _ Hr)) as Hsp.
  destruct ds as [|d ds]; [congruence|].
  cbn [exp_len app]. rewrite Hl.
  destruct sign as [g|]; cbn [app].
  - rewrite Hs. cbn in Hsp |- *. now rewrite Hsp.
  - assert (is_digit d = true) as Hd by (cbn in Hds; now apply andb_true_iff in Hds).
    assert (((d =? Ch.plus) || (d =? Ch.minus))%N = false) as ->.
    { apply is_digit_spec in Hd. unfold_chars. char_cases. }
    change (d :: ds ++ rest) with ((d :: ds) ++ rest). now rewrite Hsp.
Qed.

Lemma exp_len_none rest :
  delimits rest = true -> exp_len rest = None.
Proof.
  destruct rest as [|c rest]; [easy|]. cbn. intros H.
  apply andb_true_iff in H as [H _]. apply negb_true_iff in H.
  assert (((c =? Ch.lower_e) || (c =? Ch.upper_e))%N = false) as ->; [|easy].
  revert H. unfold_chars. char_cases.
Qed.

Lemma frac_len_text ds rest :
  digits_ok ds = true -> no_digit_ahead rest ->
  frac_len (Ch.dot :: ds ++ rest) = Some (S (length ds)).
Proof.
  intros Hds Hr. unfold digits_ok in Hds. apply andb_true_iff in Hds as [Hds Hne].
  apply negb_true_iff, bool_decide_eq_false in Hne.
  cbn. rewrite (span_digits_app _ _ Hds Hr).
  destruct ds; [congruence|]. reflexivity.
Qed.

Lemma frac_len_none rest :
  match rest with [] => True | c :: _ => c <> Ch.dot end -> frac_len rest = None.
Proof.
  destruct rest as [|c rest]; [easy|]. cbn. intros H.
  destruct (N.eqb_spec c Ch.dot); [contradiction|easy].
Qed.

Lemma ends_at_boundary_app pre rest :
  delimits rest = true -> ends_at_boundary (pre ++ rest) (length pre) = true.
Proof.
  intros H. unfold ends_at_boundary. rewrite drop_app_length.
  now rewrite (delimits_boundary _ H).
Qed.

Lemma first_end_head s n l :
  ends_at_boundary s n = true -> first_end s (n :: l) = Some n.
Proof. cbn. now intros ->. Qed.

Lemma first_end_app_head s n l l' :
  ends_at_boundary s n = true -> first_end s ((n :: l) ++ l') = Some n.
Proof. cbn. now intros ->. Qed.

Lemma ends_ok s n pre rest :
  s = pre ++ rest -> n = length pre -> delimits rest = true ->
  ends_at_boundary s n = true.
Proof. intros -> ->. apply ends_at_boundary_app. Qed.

Lemma int_ok_cases ds :
  int_ok ds = true ->
  exists d r, ds = d :: r /\ is_digit d = true /\ forallb is_digit r = true
              /\ ((d =? Ch.zero)%N = true -> r = []).
Proof.
  unfold int_ok. intros H. apply orb_true_iff in H as [H|H].
  - apply bool_decide_eq_true in H as ->. exists Ch.zero, []. now repeat split.
  - destruct ds as [|d r]; [easy|]. exists d, r.
    apply andb_true_iff in H as [H Hr]. apply andb_true_iff in H as [Hd Hz].
    apply negb_true_iff in Hz. rewrite Hz. now repeat split.
Qed.

Lemma exp_text_head e :
  exp_ok e = true ->
  exists c r, exp_text e = c :: r /\ is_digit c = false /\ c <> Ch.dot.
Proof.
  destruct e as [[letter sign] ds]. cbn. intros H.
  apply andb_true_iff in H as [H _]. apply andb_true_iff in H as [H _].
  eexists _, _. split; [reflexivity|].
  revert H. unfold_chars. split; char_cases.
Qed.

(** After the integer or the fraction digits of a literal no digit
    follows. *)
Lemma exp_rest_no_digit e rest :
  match e with Some e => exp_ok e | None => true end = true ->
  delimits rest = true ->
  no_digit_ahead (exp_text_opt e ++ rest)
  /\ match exp_text_opt e ++ rest with [] => True | c :: _ => c <> Ch.dot end.
Proof.
  intros He Hr. destruct e as [e|]; cbn [exp_text_opt].
  - destruct (exp_text_head e He) as (c & r & -> & Hc & Hdot). now cbn.
  - cbn. split; [now apply delimits_no_digit|].
    destruct rest as [|c rest]; [easy|]. cbn in Hr.
    apply andb_true_iff in Hr as [_ Hr]. apply negb_true_iff in Hr.
    now destruct (N.eqb_spec c Ch.dot).
Qed.

Lemma exp_len_opt e rest :
  match e with Some e => exp_ok e | None => true end = true ->
  delimits rest = true ->
  exp_len (exp_text_opt e ++ rest)
  = match e with Some e => Some (length (exp_text e)) | None => None end.
Proof.
  intros He Hr. destruct e as [e|]; cbn [exp_text_opt].
  - now apply exp_len_text.
  - now apply exp_len_none.
Qed.

(** The number pattern matches a literal whole, when the literal stands
    between characters that delimit it. *)
Lemma match_unsigned_text int frac exp prev rest :
  numlit_ok (NumLit false int frac exp) = true ->
  word_opt prev = false -> delimits rest = true ->
  match_unsigned prev (int ++ frac_text frac ++ exp_text_opt exp ++ rest)
  = Some (length (int ++ frac_text frac ++ exp_text_opt exp)).
Proof.
  unfold numlit_ok. cbn [num_int num_frac num_exp]. intros H Hp Hr.
  apply andb_true_iff in H as [H He]. apply andb_true_iff in H as [Hi Hf].
  destruct (int_ok_cases _ Hi) as (d & r & -> & Hd & Hds & Hz).
  destruct (exp_rest_no_digit exp rest He Hr) as [Hnd Hndot].
  pose proof (exp_len_opt exp rest He Hr) as Hexp.
  set (tail := frac_text frac ++ exp_text_opt exp ++ rest).
  assert (no_digit_ahead tail) as Htail.
  { subst tail. destruct frac as [fd|]; [|exact Hnd].
    cbn. unfold_chars. char_cases. }
  assert ((if (d =? Ch.zero)%N then 1 else S (span_digits (r ++ tail)))
          = length (d :: r)) as Hint.
  { destruct (d =? Ch.zero)%N eqn:E.
    - now rewrite (Hz eq_refl).
    - now rewrite span_digits_app. }
  unfold match_unsigned. cbn [app]. rewrite Hd. unfold boundary. rewrite Hp.
  cbn [word_opt]. rewrite (is_digit_word _ Hd). cbn [xorb andb].
  rewrite Hint. change (d :: r ++ tail) with ((d :: r) ++ tail).
  rewrite drop_app_length. subst tail.
  destruct frac as [fd|]; cbn [frac_text].
  - pose proof (frac_len_text fd _ Hf Hnd) as Hfl.
    change (Ch.dot :: fd ++ exp_text_opt exp ++ rest)
      with ((Ch.dot :: fd) ++ exp_text_opt exp ++ rest) in Hfl.
    change (S (length fd)) with (length (Ch.dot :: fd)) in Hfl.
    rewrite Hfl, drop_app_length, Hexp.
    destruct exp as [e|]; cbn [exp_text_opt].
    + rewrite first_end_app_head.
      * f_equal. len_solve.
      * apply (ends_ok _ _ ((d :: r) ++ (Ch.dot :: fd) ++ exp_text e) rest);
          [now rewrite <- !app_assoc | len_solve | assumption].
    + rewrite first_end_app_head.
      * f_equal. len_solve.
      * apply (ends_ok _ _ ((d :: r) ++ (Ch.dot :: fd)) rest);
          [now rewrite <- !app_assoc | len_solve | assumption].
  - cbn [app]. rewrite (frac_len_none _ Hndot), Hexp. rewrite ?app_nil_l.
    destruct exp as [e|]; cbn [exp_text_opt].
    + rewrite first_end_head.
      * f_equal. len_solve.
      * apply (ends_ok _ _ ((d :: r) ++ exp_text e) rest);
          [now rewrite <- !app_assoc | len_solve | assumption].
    + rewrite first_end_head.
      * now rewrite app_nil_r.
      * now apply (ends_ok _ _ (d :: r) rest).
Qed.

Lemma numlit_text_split n :
  numlit_text n
  = (if num_neg n then [Ch.minus] else [])
    ++ num_int n ++ frac_text (num_frac n) ++ exp_text_opt (num_exp n).
Proof. reflexivity. Qed.

Lemma match_number_text n prev rest :
  numlit_ok n = true ->
  (num_neg n = false -> word_opt prev = false) ->
  delimits rest = true ->
  match_number prev (numlit_text n ++ rest) = Some (length (numlit_text n)).
Proof.
  destruct n as [neg int frac exp]. intros Hok Hp Hr.
  rewrite numlit_text_split. cbn [num_neg num_int num_frac num_exp] in *.
  assert (numlit_ok (NumLit false int frac exp) = true) as Hok' by exact Hok.
  pose proof (match_unsigned_text int frac exp) as Hm.
  rewrite <- !app_assoc.
  destruct neg.
  - cbn [app match_number]. rewrite N.eqb_refl.
    rewrite (Hm (Some Ch.minus) rest Hok' eq_refl Hr). reflexivity.
  - cbn [app]. unfold numlit_ok in Hok. cbn in Hok.
    apply andb_true_iff in Hok as [Hok _]. apply andb_true_iff in Hok as [Hi _].
    destruct (int_ok_cases _ Hi) as (d & r & -> & Hd & _).
    unfold match_number. cbn [app].
    assert ((d =? Ch.minus)%N = false) as ->.
    { apply is_digit_spec in Hd. unfold_chars. char_cases. }
    now apply Hm; [|apply Hp|].
Qed.

(** The string pattern matches a literal whole. *)
Lemma string_rest_text cs rest :
  forallb schar_ok cs = true ->
  string_rest (concat (schar_text <$> cs) ++ Ch.quote :: rest)
  = Some (S (length (concat (schar_text <$> cs)))).
Proof.
  induction cs as [|c cs IH]; intros H; [reflexivity|].
  cbn [forallb] in H. apply andb_true_iff in H as [Hc H].
  specialize (IH H). rewrite fmap_cons. cbn [concat]. rewrite <- app_assoc.
  destruct c as [c|e|h1 h2 h3 h4]; cbn [schar_text schar_ok app] in *.
  - cbn [string_rest].
    assert ((c =? Ch.quote)%N = false /\ (c =? Ch.backslash)%N = false) as [-> ->].
    { revert Hc. unfold_chars. split; char_cases. }
    rewrite Hc, IH. reflexivity.
  - cbn [string_rest]. change (Ch.backslash =? Ch.quote)%N with false.
    change (Ch.backslash =? Ch.backslash)%N with true. cbn match.
    rewrite Hc, IH. reflexivity.
  - cbn [string_rest]. change (Ch.backslash =? Ch.quote)%N with false.
    change (Ch.backslash =? Ch.backslash)%N with true.
    change (is_simple_escape Ch.lower_u) with false.
    change (Ch.lower_u =? Ch.lower_u)%N with true. cbn match.
    rewrite Hc, IH. reflexivity.
Qed.

Lemma string_text_length cs :
  length (string_text cs) = S (S (length (concat (schar_text <$> cs)))).
Proof. unfold string_text. len_solve. Qed.

Lemma match_string_text cs rest :
  forallb schar_ok cs = true ->
  match_string (string_text cs ++ rest) = Some (length (string_text cs)).
Proof.
  intros H. unfold string_text. cbn [app match_string].
  rewrite N.eqb_refl, <- app_assoc. cbn [app].
  rewrite (string_rest_text _ _ H). cbn. f_equal. len_solve.
Qed.

Lemma starts_with_differ a p c s : a <> c -> starts_with (a :: p) (c :: s) = false.
Proof. intros H. cbn. now destruct (N.eqb_spec a c). Qed.

Lemma js_literals :
  js "false" = [102; 97; 108; 115; 101]%N
  /\ js "true" = [116; 114; 117; 101]%N
  /\ js "null" = [110; 117; 108; 108]%N.
Proof. now repeat split. Qed.

Ltac js_literals :=
  destruct js_literals as (Ejs1 & Ejs2 & Ejs3);
  rewrite ?Ejs1, ?Ejs2, ?Ejs3 in *; clear Ejs1 Ejs2 Ejs3.

(** On a character that starts none of its alternatives the token pattern
    fails. *)
Lemma jsonToken_none prev c rest :
  c <> 102%N -> c <> 116%N -> c <> 110%N -> is_bracket c = false ->
  c <> Ch.minus -> is_digit c = false -> c <> Ch.quote ->
  jsonToken prev (c :: rest) = None.
Proof.
  intros Hf Ht Hn Hb Hm Hd Hq. unfold jsonToken. js_literals.
  rewrite !starts_with_differ by (cbn; congruence).
  cbn [head fmap option_fmap option_map]. rewrite Hb.
  rewrite bool_decide_eq_false_2 by congruence.
  unfold match_number, match_unsigned, match_string.
  destruct (N.eqb_spec c Ch.minus); [contradiction|].
  destruct (N.eqb_spec c Ch.quote); [contradiction|].
  now rewrite Hd.
Qed.

Lemma jsonToken_gap prev c rest :
  is_gap c = true -> jsonToken prev (c :: rest) = None.
Proof.
  intros H. apply jsonToken_none; revert H; unfold_chars; char_cases.
Qed.

Lemma numlit_text_head n :
  numlit_ok n = true ->
  exists c r, numlit_text n = c :: r /\ (c = Ch.minus \/ is_digit c = true).
Proof.
  destruct n as [neg int frac exp]. unfold numlit_ok. cbn. intros H.
  apply andb_true_iff in H as [H _]. apply andb_true_iff in H as [Hi _].
  destruct (int_ok_cases _ Hi) as (d & r & -> & Hd & _).
  unfold numlit_text. cbn. destruct neg; cbn; eauto.
Qed.

Lemma jsonToken_lexeme prev l rest :
  lexeme_ok l = true -> lexeme_fits prev l rest = true ->
  jsonToken prev (lexeme_text l ++ rest) = Some (length (lexeme_text l)).
Proof.
  intros Hok Hfit. destruct l; try reflexivity.
  - (* string *)
    cbn [lexeme_text lexeme_ok] in *. unfold jsonToken.
    rewrite (match_string_text _ _ Hok). unfold string_text. cbn [app].
    reflexivity.
  - (* number *)
    cbn [lexeme_text lexeme_ok lexeme_fits] in *.
    apply andb_true_iff in Hfit as [Hp Hr]. apply negb_true_iff in Hp.
    pose proof (match_number_text n prev rest Hok (fun _ => Hp) Hr) as Hm.
    destruct (numlit_text_head n Hok) as (c & r & E & Hc).
    unfold jsonToken. rewrite Hm. rewrite E in *. cbn [app]. js_literals.
    assert (c <> 102%N /\ c <> 116%N /\ c <> 110%N /\ is_bracket c = false)
      as (? & ? & ? & Hb).
    { destruct Hc as [->|Hc]; [easy|]. apply is_digit_spec in Hc.
      unfold_chars. repeat split; char_cases. }
    rewrite !starts_with_differ by (cbn; congruence).
    cbn [head fmap option_fmap option_map]. rewrite Hb.
    now rewrite bool_decide_eq_false_2 by congruence.
Qed.

Lemma lexeme_text_nonempty l :
  lexeme_ok l = true -> exists c r, lexeme_text l = c :: r.
Proof.
  intros H. destruct l; cbn; eauto.
  destruct (numlit_text_head n H) as (c & r & E & _). eauto.
Qed.

(** *** Scanning *)

Lemma scan_skip t prev pos rest :
  scan (length t) prev pos (t ++ rest)
  = scan 0 (prev_after prev t) (pos + length t) rest.
Proof.
  revert prev pos. induction t as [|c t IH]; intros prev pos.
  - cbn. now rewrite Nat.add_0_r.
  - cbn [length app scan]. rewrite IH. f_equal; [|lia].
    unfold prev_after. rewrite last_cons. now destruct (last t).
Qed.

Lemma scan_match t prev pos rest :
  t <> [] -> jsonToken prev (t ++ rest) = Some (length t) ->
  scan 0 prev pos (t ++ rest)
  = Token t pos :: scan 0 (last t) (pos + length t) rest.
Proof.
  intros Hne Hm. destruct t as [|c t]; [congruence|].
  cbn [app scan]. change (c :: t ++ rest) with ((c :: t) ++ rest).
  rewrite Hm. cbn [length].
  change (S (length t)) with (length (c :: t)). rewrite take_app_length.
  rewrite scan_skip. cbn [length]. f_equal. f_equal; [|lia].
  unfold prev_after. rewrite last_cons. now destruct (last t).
Qed.

Lemma scan_gap prev pos c rest :
  is_gap c = true -> scan 0 prev pos (c :: rest) = scan 0 (Some c) (S pos) rest.
Proof. intros H. cbn [scan]. now rewrite (jsonToken_gap _ _ _ H). Qed.

(** The tokens of a well-spaced list of items are its lexemes, each at
    its offset. *)
Lemma scan_items its : forall prev pos rest,
  spaced prev its rest = true ->
  exists prev',
    scan 0 prev pos (items_text its ++ rest)
    = toks_at pos its ++ scan 0 prev' (pos + length (items_text its)) rest.
Proof.
  induction its as [|i its IH]; intros prev pos rest H.
  - exists prev. cbn. now rewrite Nat.add_0_r.
  - unfold items_text in *. rewrite fmap_cons. cbn [concat].
    rewrite <- app_assoc. destruct i as [c|l]; cbn [spaced item_text] in *.
    + apply andb_true_iff in H as [Hc H].
      destruct (IH (Some c) (S pos) rest H) as [prev' E]. exists prev'.
      cbn [app]. rewrite (scan_gap _ _ _ _ Hc), E. cbn [toks_at].
      f_equal. f_equal. len_solve.
    + apply andb_true_iff in H as [H Hs]. apply andb_true_iff in H as [Hok Hfit].
      destruct (IH _ (pos + length (lexeme_text l)) rest Hs) as [prev' E].
      exists prev'. destruct (lexeme_text_nonempty l Hok) as (c & r & El).
      rewrite scan_match.
      * rewrite E. cbn [toks_at]. rewrite length_app.
        now rewrite Nat.add_assoc.
      * congruence.
      * apply jsonToken_lexeme; [assumption|]. now destruct l.
Qed.

(* ===================================================================== *)
(** ** The items of a JSON text *)
(* ===================================================================== *)

(** Induction on a text, with the hypothesis for every element of an
    array and every member of an object. *)
Lemma json_induction (P : json -> Prop) :
  (forall cs, P (JStr cs)) -> (forall n, P (JNum n)) ->
  P JTrue -> P JFalse -> P JNull ->
  (forall w es, Forall (fun e : element => P e.1.2) es -> P (JArr w es)) ->
  (forall w ms, Forall (fun m : member => P m.2.1.2) ms -> P (JObj w ms)) ->
  forall j, P j.
Proof.
  intros Hs Hn Ht Hf Hz Ha Ho. fix IH 1.
  intros [cs|n| | | |w es|w ms];
    [apply Hs | apply Hn | exact Ht | exact Hf | exact Hz | apply Ha | apply Ho].
  - induction es as [|[[w1 j] w2] es IHes]; constructor;
      [apply IH | exact IHes].
  - induction ms as [|[[[w1 k] w2] [[w3 j] w4]] ms IHms]; constructor;
      [apply IH | exact IHms].
Qed.

Lemma items_text_app a b : items_text (a ++ b) = items_text a ++ items_text b.
Proof. unfold items_text. now rewrite fmap_app, concat_app. Qed.

Lemma items_text_gaps w : items_text (Gap <$> w) = w.
Proof.
  unfold items_text. induction w as [|c w IH]; [reflexivity|].
  cbn. now rewrite IH.
Qed.

Lemma items_text_sep xs :
  items_text (sep_items xs) = sep_by_comma (items_text <$> xs).
Proof.
  induction xs as [|x [|y xs] IH]; [reflexivity| reflexivity |].
  change (sep_items (x :: y :: xs)) with (x ++ Gap 44 :: sep_items (y :: xs)).
  rewrite items_text_app. change (Gap 44 :: ?l) with ([Gap 44] ++ l).
  rewrite items_text_app, IH. reflexivity.
Qed.

Lemma items_text_single l : items_text [Lex l] = lexeme_text l.
Proof. unfold items_text. cbn. apply app_nil_r. Qed.

(** The text of a JSON tree is the text of its items. *)
Lemma items_text_json j : items_text (items j) = json_text j.
Proof.
  induction j as [cs|n| | | |w es IH|w ms IH] using json_induction;
    try (cbn [items scalar_lexeme]; now rewrite items_text_single).
  - cbn [items json_text]. change (Lex LBracket :: ?l) with ([Lex LBracket] ++ l).
    rewrite !items_text_app, items_text_gaps, items_text_sep. cbn [app].
    change (items_text [Lex LBracket]) with [Ch.lbracket].
    change (items_text [Lex RBracket]) with [Ch.rbracket]. cbn [app].
    do 2 f_equal. rewrite <- list_fmap_compose. f_equal. f_equal.
    apply Forall_fmap_ext_1.
    eapply Forall_impl; [exact IH|]. intros [[w1 j] w2] E. cbn [fst snd compose] in *.
    now rewrite !items_text_app, !items_text_gaps, E.
  - cbn [items json_text]. change (Lex LBrace :: ?l) with ([Lex LBrace] ++ l).
    rewrite !items_text_app, items_text_gaps, items_text_sep. cbn [app].
    change (items_text [Lex LBrace]) with [Ch.lbrace].
    change (items_text [Lex RBrace]) with [Ch.rbrace]. cbn [app].
    do 2 f_equal. rewrite <- list_fmap_compose. f_equal. f_equal.
    apply Forall_fmap_ext_1.
    eapply Forall_impl; [exact IH|]. intros [[[w1 k] w2] [[w3 j] w4]] E. cbn [fst snd compose] in *.
    rewrite !items_text_app, !items_text_gaps.
    change (Lex (LString k) :: ?l) with ([Lex (LString k)] ++ l).
    rewrite !items_text_app, !items_text_gaps.
    change (Gap 58 :: ?l) with ([Gap 58] ++ l).
    rewrite !items_text_app, !items_text_gaps, E.
    change (items_text [Lex (LString k)]) with (string_text k ++ []).
    change (items_text [Gap 58]) with [58%N].
    rewrite <- !app_assoc. reflexivity.
Qed.

(** *** Spacing *)

Lemma closes_accepts k rest : closes k rest -> accepts k rest.
Proof. intros [_ H] p _. apply H. Qed.

Lemma is_gap_delimits c r : is_gap c = true -> delimits (c :: r) = true.
Proof. cbn. unfold_chars. char_cases. Qed.

Lemma is_gap_not_word c : is_gap c = true -> is_word c = false.
Proof. unfold_chars. char_cases. Qed.

Lemma is_ws_gap c : is_ws c = true -> is_gap c = true.
Proof. unfold is_gap. now intros ->. Qed.

Lemma stops_delimits k rest :
  stops k rest = true -> delimits (items_text k ++ rest) = true.
Proof.
  destruct k as [|[c|l] k]; cbn [stops]; [easy| |].
  - intros H. now apply is_gap_delimits.
  - destruct l; try easy; intros _; reflexivity.
Qed.

Lemma closes_gap c k rest :
  is_gap c = true -> accepts k rest -> closes (Gap c :: k) rest.
Proof.
  intros Hc Hk. split; [exact Hc|]. intros p. cbn [spaced]. rewrite Hc.
  apply Hk. cbn. now apply is_gap_not_word.
Qed.

Lemma closes_gaps w k rest :
  ws_ok w = true -> closes k rest -> closes ((Gap <$> w) ++ k) rest.
Proof.
  induction w as [|c w IH]; intros Hw Hk; [exact Hk|].
  cbn [ws_ok forallb] in Hw. apply andb_true_iff in Hw as [Hc Hw].
  rewrite fmap_cons. cbn [app]. apply closes_gap; [now apply is_ws_gap|].
  now apply closes_accepts, IH.
Qed.

Lemma accepts_gaps w k rest :
  ws_ok w = true -> accepts k rest -> accepts ((Gap <$> w) ++ k) rest.
Proof.
  destruct w as [|c w]; intros Hw Hk; [exact Hk|].
  cbn [ws_ok forallb] in Hw. apply andb_true_iff in Hw as [Hc Hw].
  rewrite fmap_cons. cbn [app]. apply closes_accepts, closes_gap;
    [now apply is_ws_gap|].
  clear c Hc. induction w as [|c w IH]; [exact Hk|].
  cbn [forallb] in Hw. apply andb_true_iff in Hw as [Hc Hw].
  rewrite fmap_cons. cbn [app]. apply closes_accepts, closes_gap;
    [now apply is_ws_gap|]. now apply IH.
Qed.

(** A bracket or a string literal may follow and precede anything. *)
Lemma string_text_last cs : last (string_text cs) = Some Ch.quote.
Proof.
  unfold string_text. rewrite app_comm_cons. apply last_snoc.
Qed.

Lemma closes_lex l k rest :
  lexeme_ok l = true -> stops [Lex l] [] = true ->
  accepts k rest -> closes (Lex l :: k) rest.
Proof.
  intros Hok Hl Hk. split; [exact Hl|]. intros p. cbn [spaced]. rewrite Hok.
  destruct l; try discriminate Hl; cbn [andb lexeme_text]; apply Hk;
    try reflexivity.
  now rewrite string_text_last.
Qed.

Lemma accepts_scalar l k rest :
  lexeme_ok l = true -> closes k rest -> accepts (Lex l :: k) rest.
Proof.
  intros Hok [Hs Hk] p Hp. cbn [spaced]. rewrite Hok, Hk, andb_true_r.
  destruct l; try reflexivity.
  now rewrite Hp, (stops_delimits _ _ Hs).
Qed.

(** Between the items of a list separated by commas. *)
Lemma accepts_sep xs k rest :
  Forall (fun x => forall k', closes k' rest -> accepts (x ++ k') rest) xs ->
  closes k rest -> accepts (sep_items xs ++ k) rest.
Proof.
  intros Hxs Hk. induction Hxs as [|x xs Hx Hxs IH];
    [now apply closes_accepts|].
  destruct xs as [|y xs]; [now apply Hx|].
  change (sep_items (x :: y :: xs)) with (x ++ Gap 44 :: sep_items (y :: xs)).
  rewrite <- app_assoc. apply Hx. cbn [app]. now apply closes_gap.
Qed.

Lemma accepts_element (e : element) k rest :
  ws_ok e.1.1 = true -> ws_ok e.2 = true ->
  (forall k', closes k' rest -> accepts (items e.1.2 ++ k') rest) ->
  closes k rest ->
  accepts (((Gap <$> e.1.1) ++ items e.1.2 ++ (Gap <$> e.2)) ++ k) rest.
Proof.
  intros H1 H2 Hj Hk. rewrite <- !app_assoc.
  apply accepts_gaps; [assumption|]. apply Hj. now apply closes_gaps.
Qed.

Lemma forallb_Forall_1 {A} (f : A -> bool) l :
  forallb f l = true -> Forall (fun x => f x = true) l.
Proof.
  induction l as [|x l IH]; cbn; [constructor|].
  intros H. apply andb_true_iff in H as [Hx H]. constructor; auto.
Qed.

(** The items of a text are well spaced before anything that closes. *)
Lemma json_accepts rest j :
  json_ok j = true ->
  forall k, closes k rest -> accepts (items j ++ k) rest.
Proof.
  induction j as [cs|n| | | |w es IH|w ms IH] using json_induction;
    intros Hok k Hk;
    try (cbn [items scalar_lexeme app]; now apply accepts_scalar).
  - cbn [json_ok] in Hok. apply andb_true_iff in Hok as [Hw Hes].
    apply forallb_Forall_1 in Hes.
    cbn [items]. rewrite <- app_comm_cons, <- !app_assoc.
    apply closes_accepts, closes_lex; [reflexivity..|].
    apply accepts_gaps; [assumption|].
    apply accepts_sep; [|apply closes_lex; [reflexivity..|now apply closes_accepts]].
    apply Forall_fmap. eapply Forall_impl;
      [exact (proj2 (Forall_and _ _) (conj IH Hes))|].
    intros e [Hj He] k' Hk'. cbn [compose].
    apply andb_true_iff in He as [He H2]. apply andb_true_iff in He as [H1 He].
    now apply accepts_element; auto.
  - cbn [json_ok] in Hok. apply andb_true_iff in Hok as [Hw Hms].
    apply forallb_Forall_1 in Hms.
    cbn [items]. rewrite <- app_comm_cons, <- !app_assoc.
    apply closes_accepts, closes_lex; [reflexivity..|].
    apply accepts_gaps; [assumption|].
    apply accepts_sep; [|apply closes_lex; [reflexivity..|now apply closes_accepts]].
    apply Forall_fmap. eapply Forall_impl;
      [exact (proj2 (Forall_and _ _) (conj IH Hms))|].
    intros [[[w1 key] w2] e] [Hj He] k' Hk'. cbn [compose fst snd] in *.
    repeat (apply andb_true_iff in He as [He ?]).
    rewrite <- !app_assoc. apply accepts_gaps; [assumption|].
    rewrite <- app_comm_cons.
    apply closes_accepts, closes_lex; [assumption|reflexivity|].
    rewrite <- app_assoc. apply accepts_gaps; [assumption|].
    rewrite <- app_comm_cons. apply closes_accepts, closes_gap; [reflexivity|].
    rewrite !app_assoc. rewrite <- (app_assoc (Gap <$> e.1.1)).
    now apply accepts_element; auto.
Qed.

(** A container is well spaced after anything. *)
Lemma container_closes rest j k :
  json_ok j = true -> is_container j = true ->
  accepts k rest -> closes (items j ++ k) rest.
Proof.
  intros Hok Hc Hk. destruct j as [| | | | |w es|w ms]; try discriminate Hc.
  - pose proof (json_accepts rest (JArr w es) Hok) as H.
    cbn [items] in *. rewrite <- app_comm_cons in *.
    split; [reflexivity|]. intros p. cbn [spaced lexeme_ok lexeme_text andb].
    assert (closes (Lex RBracket :: k) rest) as Hk'
      by (apply closes_lex; [reflexivity..|assumption]).
    rewrite <- !app_assoc in *. cbn [app].
    cbn [json_ok] in Hok. apply andb_true_iff in Hok as [Hw Hes].
    apply forallb_Forall_1 in Hes.
    apply accepts_gaps; [assumption| |reflexivity].
    apply accepts_sep; [|assumption].
    apply Forall_fmap. eapply Forall_impl; [exact Hes|].
    intros e He k' Hk''. cbn [compose].
    apply andb_true_iff in He as [He H2]. apply andb_true_iff in He as [H1 He].
    apply accepts_element; auto. intros k2 Hk2. now apply json_accepts.
  - split; [reflexivity|]. intros p.
    assert (closes (Lex RBrace :: k) rest) as Hk'
      by (apply closes_lex; [reflexivity..|assumption]).
    cbn [items]. rewrite <- app_comm_cons.
    cbn [spaced lexeme_ok lexeme_text andb]. rewrite <- !app_assoc. cbn [app].
    cbn [json_ok] in Hok. apply andb_true_iff in Hok as [Hw Hms].
    apply forallb_Forall_1 in Hms.
    apply accepts_gaps; [assumption| |reflexivity].
    apply accepts_sep; [|assumption].
    apply Forall_fmap. eapply Forall_impl; [exact Hms|].
    intros [[[w1 key] w2] e] He k' Hk''. cbn [compose fst snd] in *.
    repeat (apply andb_true_iff in He as [He ?]).
    rewrite <- !app_assoc. apply accepts_gaps; [assumption|].
    rewrite <- app_comm_cons.
    apply closes_accepts, closes_lex; [assumption|reflexivity|].
    rewrite <- app_assoc. apply accepts_gaps; [assumption|].
    rewrite <- app_comm_cons. apply closes_accepts, closes_gap; [reflexivity|].
    rewrite !app_assoc. rewrite <- (app_assoc (Gap <$> e.1.1)).
    apply accepts_element; auto. intros k2 Hk2. now apply json_accepts.
Qed.

Lemma doc_closes rest d k :
  doc_ok d = true -> is_container (doc_json d) = true ->
  closes k rest -> closes (doc_items d ++ k) rest.
Proof.
  unfold doc_ok, doc_items. intros Hok Hc Hk.
  apply andb_true_iff in Hok as [Hok Ht]. apply andb_true_iff in Hok as [Hl Hj].
  rewrite <- !app_assoc. apply closes_gaps; [assumption|].
  apply container_closes; [assumption..|].
  now apply closes_accepts, closes_gaps.
Qed.

Lemma docs_closes ds :
  Forall (fun d => doc_ok d = true /\ is_container (doc_json d) = true) ds ->
  closes (docs_items ds) [].
Proof.
  induction 1 as [|d ds [Hok Hc] _ IH]; [now split|].
  unfold docs_items. rewrite fmap_cons. cbn [concat]. now apply doc_closes.
Qed.

Lemma doc_items_text d : items_text (doc_items d) = doc_text d.
Proof.
  unfold doc_items, doc_text.
  now rewrite !items_text_app, !items_text_gaps, items_text_json.
Qed.

Lemma docs_items_text ds : items_text (docs_items ds) = docs_text ds.
Proof.
  unfold docs_items, docs_text. induction ds as [|d ds IH]; [reflexivity|].
  rewrite !fmap_cons. cbn [concat]. now rewrite items_text_app, doc_items_text, IH.
Qed.

(** The tokens of a well-spaced text. *)
Lemma tokenize_items its :
  spaced None its [] = true -> tokenize (items_text its) = toks_at 0 its.
Proof.
  intros H. destruct (scan_items its None 0 [] H) as [prev' E].
  unfold tokenize. rewrite app_nil_r in E. rewrite E.
  destruct (items_text its); cbn; apply app_nil_r.
Qed.

(** *** Tokens and lexemes *)

Lemma toks_at_app a b pos :
  toks_at pos (a ++ b) = toks_at pos a ++ toks_at (pos + length (items_text a)) b.
Proof.
  revert pos. induction a as [|[c|l] a IH]; intros pos.
  - cbn. now rewrite Nat.add_0_r.
  - cbn [app toks_at]. rewrite IH. do 2 f_equal.
    unfold items_text. cbn. lia.
  - cbn [app toks_at]. rewrite IH. do 3 f_equal.
    unfold items_text. rewrite fmap_cons. cbn [concat item_text].
    rewrite length_app. lia.
Qed.

Lemma toks_at_gaps w its pos :
  toks_at pos ((Gap <$> w) ++ its) = toks_at (pos + length w) its.
Proof.
  rewrite toks_at_app, items_text_gaps.
  assert (forall p, toks_at p (Gap <$> w) = []) as ->; [|reflexivity].
  induction w as [|c w IH]; intros p; [reflexivity|]. apply IH.
Qed.

Lemma toks_at_texts its pos :
  tok_text <$> toks_at pos its = lexeme_text <$> item_lexemes its.
Proof.
  revert pos. induction its as [|[c|l] its IH]; intros pos; [reflexivity| |].
  - cbn. apply IH.
  - cbn. f_equal. apply IH.
Qed.

Lemma item_lexemes_app a b :
  item_lexemes (a ++ b) = item_lexemes a ++ item_lexemes b.
Proof. apply omap_app. Qed.

Lemma item_lexemes_gaps w : item_lexemes (Gap <$> w) = [].
Proof. induction w as [|c w IH]; [reflexivity|]. exact IH. Qed.

Lemma item_lexemes_sep xs :
  item_lexemes (sep_items xs) = concat (item_lexemes <$> xs).
Proof.
  induction xs as [|x [|y xs] IH]; [reflexivity| cbn; now rewrite app_nil_r |].
  change (sep_items (x :: y :: xs)) with (x ++ Gap 44 :: sep_items (y :: xs)).
  rewrite item_lexemes_app. change (Gap 44 :: ?l) with ([Gap 44] ++ l).
  rewrite item_lexemes_app, IH. reflexivity.
Qed.

(** The lexemes among the items of a text are its lexemes. *)
Lemma item_lexemes_json j : item_lexemes (items j) = lexemes j.
Proof.
  induction j as [cs|n| | | |w es IH|w ms IH] using json_induction;
    try reflexivity.
  - cbn [items lexemes]. change (Lex LBracket :: ?l) with ([Lex LBracket] ++ l).
    rewrite !item_lexemes_app, item_lexemes_gaps, item_lexemes_sep. cbn [app].
    change (item_lexemes [Lex LBracket]) with [LBracket].
    change (item_lexemes [Lex RBracket]) with [RBracket]. cbn [app].
    do 2 f_equal. rewrite <- list_fmap_compose. f_equal.
    apply Forall_fmap_ext_1. eapply Forall_impl; [exact IH|].
    intros [[w1 j] w2] E. cbn [fst snd compose] in *.
    now rewrite !item_lexemes_app, !item_lexemes_gaps, E, app_nil_r.
  - cbn [items lexemes]. change (Lex LBrace :: ?l) with ([Lex LBrace] ++ l).
    rewrite !item_lexemes_app, item_lexemes_gaps, item_lexemes_sep. cbn [app].
    change (item_lexemes [Lex LBrace]) with [LBrace].
    change (item_lexemes [Lex RBrace]) with [RBrace]. cbn [app].
    do 2 f_equal. rewrite <- list_fmap_compose. f_equal.
    apply Forall_fmap_ext_1. eapply Forall_impl; [exact IH|].
    intros [[[w1 k] w2] [[w3 j] w4]] E. cbn [fst snd compose] in *.
    rewrite !item_lexemes_app, !item_lexemes_gaps.
    change (Lex (LString k) :: ?l) with ([Lex (LString k)] ++ l).
    rewrite !item_lexemes_app, !item_lexemes_gaps.
    change (Gap 58 :: ?l) with ([Gap 58] ++ l).
    rewrite !item_lexemes_app, !item_lexemes_gaps, E.
    cbn. now rewrite app_nil_r.
Qed.

(* ===================================================================== *)
(** ** Escape sequences of a string literal *)
(* ===================================================================== *)

#[local] Arguments is_js_space : simpl never.
#[local] Arguments is_dot : simpl never.

Ltac bool_to_prop :=
  repeat rewrite ?orb_true_iff, ?orb_false_iff, ?andb_true_iff, ?andb_false_iff,
    ?negb_true_iff, ?negb_false_iff, ?N.eqb_eq, ?N.eqb_neq, ?N.leb_le,
    ?N.leb_gt, ?N.ltb_lt, ?N.ltb_ge in *.

Lemma is_hex_spec h :
  is_hex h = true <-> (48 <= h <= 57 \/ 65 <= h <= 70 \/ 97 <= h <= 102)%N.
Proof. unfold is_hex, is_digit. bool_to_prop. lia. Qed.

Lemma is_hex_facts h :
  is_hex h = true ->
  (exists d, hex_digit h = Some d /\ (0 <= d < 16)%Z)
  /\ is_js_space h = false /\ is_dot h = true
  /\ (h =? Ch.minus)%N = false /\ (h =? Ch.plus)%N = false
  /\ (120 =? h)%N = false /\ (88 =? h)%N = false.
Proof.
  intros H. apply is_hex_spec in H. repeat split.
  - unfold hex_digit, is_digit.
    destruct ((48 <=? h)%N && (h <=? 57)%N) eqn:E1;
      [|destruct ((65 <=? h)%N && (h <=? 70)%N) eqn:E2;
        [|destruct ((97 <=? h)%N && (h <=? 102)%N) eqn:E3]];
      try (eexists; split; [reflexivity|]; bool_to_prop; lia).
    exfalso. bool_to_prop. lia.
  - unfold is_js_space. bool_to_prop. lia.
  - unfold is_dot. bool_to_prop. lia.
  - unfold Ch.minus. bool_to_prop. lia.
  - unfold Ch.plus. bool_to_prop. lia.
  - bool_to_prop. lia.
  - bool_to_prop. lia.
Qed.

Lemma parseInt16_hex h1 h2 h3 h4 :
  is_hex h1 && is_hex h2 && is_hex h3 && is_hex h4 = true ->
  fromCharCode (parseInt16 [h1; h2; h3; h4]) = schar_value (Unicode h1 h2 h3 h4).
Proof.
  intros H. repeat (apply andb_true_iff in H as [H ?]).
  destruct (is_hex_facts h1) as ((d1 & E1 & B1) & S1 & _ & M1 & P1 & _); [assumption|].
  destruct (is_hex_facts h2) as ((d2 & E2 & B2) & _ & _ & _ & _ & X2 & Y2); [assumption|].
  destruct (is_hex_facts h3) as ((d3 & E3 & B3) & _); [assumption|].
  destruct (is_hex_facts h4) as ((d4 & E4 & B4) & _); [assumption|].
  unfold parseInt16. cbn [strip_space]. rewrite S1, M1, P1.
  assert (starts_with (js "0x") [h1; h2; h3; h4] = false) as ->.
  { change (js "0x") with [48; 120]%N. cbn [starts_with]. rewrite X2.
    apply andb_false_r. }
  assert (starts_with (js "0X") [h1; h2; h3; h4] = false) as ->.
  { change (js "0X") with [48; 88]%N. cbn [starts_with]. rewrite Y2.
    apply andb_false_r. }
  cbn [orb hex_prefix]. rewrite E1, E2, E3, E4. cbn [default fmap option_fmap option_map fromCharCode].
  unfold schar_value, hex_value. rewrite E1, E2, E3, E4. cbn [default].
  unfold id. rewrite Z.mod_small by lia. lia.
Qed.

Lemma escapes_simple e :
  is_simple_escape e = true ->
  escapes e = [escape_char e] /\ (e =? Ch.lower_u)%N = false.
Proof.
  intros H. unfold escapes, escape_char. revert H. unfold_chars.
  split; char_cases.
Qed.

(** Decoding the escapes of a literal gives the string it denotes. *)
Lemma unescape_text cs :
  forallb schar_ok cs = true ->
  unescape (concat (schar_text <$> cs)) = string_value cs.
Proof.
  induction cs as [|c cs IH]; intros H; [reflexivity|].
  cbn [forallb] in H. apply andb_true_iff in H as [Hc H]. specialize (IH H).
  rewrite fmap_cons. cbn [concat]. unfold string_value in *. rewrite fmap_cons.
  destruct c as [c|e|h1 h2 h3 h4]; cbn [schar_text schar_ok schar_value app] in *.
  - cbn [unescape].
    assert ((c =? Ch.backslash)%N = false) as ->
      by (revert Hc; unfold_chars; char_cases).
    now rewrite IH.
  - cbn [unescape]. change (Ch.backslash =? Ch.backslash)%N with true. cbn match.
    destruct (escapes_simple e Hc) as [-> ->]. cbn [negb app]. now rewrite IH.
  - cbn [unescape]. change (Ch.backslash =? Ch.backslash)%N with true.
    change (Ch.lower_u =? Ch.lower_u)%N with true. cbn match. cbn [negb].
    rewrite (parseInt16_hex _ _ _ _ Hc).
    repeat (apply andb_true_iff in Hc as [Hc ?]).
    repeat match goal with
           | Hh : is_hex ?h = true |- context [is_dot ?h] =>
               rewrite (proj1 (proj2 (proj2 (is_hex_facts h Hh))))
           end.
    cbn [andb]. now rewrite IH.
Qed.

Lemma unescape_plain s : Ch.backslash ∉ s -> unescape s = s.
Proof.
  induction s as [|c s IH]; intros H; [reflexivity|].
  apply not_elem_of_cons in H as [Hc H]. cbn [unescape].
  destruct (N.eqb_spec c Ch.backslash); [congruence|]. now rewrite IH.
Qed.

(** The body of a string token is the string of its literal. *)
Lemma string_of_token_text cs :
  forallb schar_ok cs = true ->
  string_of_token (string_text cs) = string_value cs.
Proof.
  intros H. unfold string_of_token.
  assert (drop 1 (take (length (string_text cs) - 1) (string_text cs))
          = concat (schar_text <$> cs)) as ->.
  { rewrite string_text_length. unfold string_text.
    replace (S (S (length (concat (schar_text <$> cs)))) - 1)
      with (length (Ch.quote :: concat (schar_text <$> cs))) by (cbn; lia).
    rewrite app_comm_cons, take_app_length. reflexivity. }
  case_bool_decide as Hb.
  - now apply unescape_text.
  - rewrite <- (unescape_plain _ Hb). now apply unescape_text.
Qed.

(* ===================================================================== *)
(** ** The container stack on the lexemes of a text *)
(* ===================================================================== *)

Lemma run_live_cons st t r :
  index (step st t) = (-1)%Z -> run st (t :: r) = run (step st t) r.
Proof. intros H. cbn [run]. now rewrite H. Qed.

Lemma is_array_set_prop c k v : is_array (set_prop c k v) = is_array c.
Proof. now destruct c. Qed.

Lemma number_head_dispatch c r st at_ :
  c = Ch.minus \/ is_digit c = true ->
  step st (Token (c :: r) at_) = store st at_ (VNum (c :: r)).
Proof.
  intros [->|H]; [reflexivity|]. apply is_digit_spec in H.
  assert (c = 48 \/ c = 49 \/ c = 50 \/ c = 51 \/ c = 52 \/ c = 53 \/ c = 54
          \/ c = 55 \/ c = 56 \/ c = 57)%N as Hc by lia.
  decompose [or] Hc; subst c; reflexivity.
Qed.

(** A scalar lexeme is stored in the container on top. *)
Lemma step_scalar j t cont slot below rt k :
  is_container j = false -> json_ok j = true ->
  tok_text t = lexeme_text (scalar_lexeme j) ->
  (k = None -> is_array cont = true) ->
  step (live ((cont, slot) :: below) rt k) t
  = live ((set_prop cont (key_or_length k cont) (json_value j), slot) :: below)
         rt None.
Proof.
  intros Hc Hok Ht Hk. destruct t as [tok at_]. cbn [tok_text] in Ht. subst tok.
  destruct j as [cs|n| | | | |]; try discriminate Hc; try reflexivity.
  - (* string *)
    cbn [scalar_lexeme lexeme_text json_value json_ok] in *.
    unfold step. cbn [tok_text tok_index]. unfold string_text at 1. cbn [head].
    unfold store_string, live. cbn [stack key root index].
    rewrite (string_of_token_text _ Hok).
    destruct k as [k|]; [reflexivity|]. now rewrite (Hk eq_refl).
  - (* number *)
    cbn [scalar_lexeme lexeme_text json_value json_ok] in *.
    destruct (numlit_text_head n Hok) as (c & r & E & Hc').
    rewrite E. now rewrite number_head_dispatch.
Qed.

Lemma step_string_key cs t cont slot below rt :
  forallb schar_ok cs = true -> tok_text t = string_text cs ->
  is_array cont = false ->
  step (live ((cont, slot) :: below) rt None) t
  = live ((cont, slot) :: below) rt (Some (string_value cs)).
Proof.
  intros Hok Ht Hc. destruct t as [tok at_]. cbn [tok_text] in Ht. subst tok.
  unfold step. cbn [tok_text tok_index]. unfold string_text at 1. cbn [head].
  unfold store_string, live. cbn [stack key root index].
  now rewrite (string_of_token_text _ Hok), Hc.
Qed.

Lemma run_elements es :
  Forall (fun e : element => builds e.1.2) es ->
  forall ts rest cont slot below rt,
    tok_text <$> ts
    = lexeme_text <$> concat ((fun e : element => lexemes e.1.2) <$> es) ->
    is_array cont = true ->
    run (live ((cont, slot) :: below) rt None) (ts ++ rest)
    = run (live ((foldl array_push cont es, slot) :: below) rt None) rest.
Proof.
  induction 1 as [|e es He _ IH]; intros ts rest cont slot below rt Hts Hc.
  - cbn in Hts. apply fmap_nil_inv in Hts as ->. reflexivity.
  - rewrite fmap_cons in Hts. cbn [concat] in Hts. rewrite fmap_app in Hts.
    apply fmap_app_inv in Hts as (t1 & t2 & E1 & E2 & ->).
    rewrite <- app_assoc. rewrite (He t1); [|now symmetry|auto].
    cbn [foldl]. apply IH; [now symmetry|].
    unfold array_push. now rewrite is_array_set_prop.
Qed.

Lemma is_array_object_put o m : is_array (object_put o m) = is_array o.
Proof. apply is_array_set_prop. Qed.

Lemma run_members ms :
  Forall (fun m : member => builds m.2.1.2 /\ forallb schar_ok m.1.1.2 = true) ms ->
  forall ts rest cont slot below rt,
    tok_text <$> ts
    = lexeme_text
        <$> concat ((fun m : member => LString m.1.1.2 :: lexemes m.2.1.2) <$> ms) ->
    is_array cont = false ->
    run (live ((cont, slot) :: below) rt None) (ts ++ rest)
    = run (live ((foldl object_put cont ms, slot) :: below) rt None) rest.
Proof.
  induction 1 as [|m ms [Hm Hkey] _ IH]; intros ts rest cont slot below rt Hts Hc.
  - cbn in Hts. apply fmap_nil_inv in Hts as ->. reflexivity.
  - rewrite fmap_cons in Hts. cbn [concat] in Hts. rewrite fmap_app in Hts.
    apply fmap_app_inv in Hts as (t1 & t2 & E1 & E2 & ->).
    rewrite fmap_cons in E1. symmetry in E1.
    apply fmap_cons_inv in E1 as (t & t1' & Et & E1 & ->).
    rewrite <- app_assoc. cbn [app].
    rewrite run_live_cons;
      rewrite (step_string_key _ _ _ _ _ _ Hkey (eq_sym Et) Hc); [|reflexivity].
    rewrite (Hm t1'); [|now symmetry|discriminate].
    cbn [foldl key_or_length]. apply IH; [now symmetry|].
    unfold object_put. now rewrite is_array_set_prop.
Qed.

Lemma step_open t cont slot below rt k fresh :
  (tok_text t = [Ch.lbracket] /\ fresh = VArr 0 []
   \/ tok_text t = [Ch.lbrace] /\ fresh = VObj []) ->
  step (live ((cont, slot) :: below) rt k) t
  = live ((fresh, key_or_length k cont) :: (cont, slot) :: below) rt None.
Proof.
  destruct t as [tok at_]. cbn [tok_text]. now intros [[-> ->]|[-> ->]].
Qed.

Lemma step_close t c s parent pslot below rt k :
  tok_text t = [Ch.rbracket] \/ tok_text t = [Ch.rbrace] ->
  step (live ((c, s) :: (parent, pslot) :: below) rt k) t
  = live ((set_prop parent s c, pslot) :: below) rt k.
Proof. destruct t as [tok at_]. cbn [tok_text]. now intros [->| ->]. Qed.

Lemma scalar_builds j :
  is_container j = false -> json_ok j = true -> builds j.
Proof.
  intros Hc Hok ts rest cont slot below rt k Hts Hk.
  assert (lexemes j = [scalar_lexeme j]) as E by (now destruct j).
  rewrite E, list_fmap_singleton in Hts.
  apply fmap_cons_inv in Hts as (t & ts' & Et & Ets & ->).
  symmetry in Ets. apply fmap_nil_inv in Ets as ->.
  cbn [app]. rewrite run_live_cons;
    rewrite (step_scalar j t cont slot below rt k Hc Hok (eq_sym Et) Hk);
    reflexivity.
Qed.

(** The tokens of a text build its value in the container on top. *)
Lemma json_builds j : json_ok j = true -> builds j.
Proof.
  induction j as [cs|n| | | |w es IH|w ms IH] using json_induction;
    intros Hok ts rest cont slot below rt k Hts Hk.
  1-5: now apply scalar_builds.
  - cbn [json_ok] in Hok. apply andb_true_iff in Hok as [_ Hes].
    apply forallb_Forall_1 in Hes.
    cbn [lexemes] in Hts. rewrite fmap_cons, fmap_app in Hts.
    apply fmap_cons_inv in Hts as (t0 & ts' & E0 & Ets & ->).
    symmetry in Ets. apply fmap_app_inv in Ets as (tb & tc & Eb & Ec & ->).
    symmetry in Ec. apply fmap_cons_inv in Ec as (t1 & tc' & E1 & Ec & ->).
    symmetry in Ec. apply fmap_nil_inv in Ec as ->.
    cbn [app]. rewrite run_live_cons;
      rewrite (step_open t0 _ _ _ _ _ (VArr 0 [])); auto.
    rewrite <- app_assoc. rewrite (run_elements es); [| |now symmetry|reflexivity].
    + cbn [app]. rewrite run_live_cons; rewrite step_close; auto.
    + eapply Forall_impl; [exact (proj2 (Forall_and _ _) (conj IH Hes))|].
      intros e [He Hoke]. apply He.
      apply andb_true_iff in Hoke as [Hoke _].
      now apply andb_true_iff in Hoke as [_ Hoke].
  - cbn [json_ok] in Hok. apply andb_true_iff in Hok as [_ Hms].
    apply forallb_Forall_1 in Hms.
    cbn [lexemes] in Hts. rewrite fmap_cons, fmap_app in Hts.
    apply fmap_cons_inv in Hts as (t0 & ts' & E0 & Ets & ->).
    symmetry in Ets. apply fmap_app_inv in Ets as (tb & tc & Eb & Ec & ->).
    symmetry in Ec. apply fmap_cons_inv in Ec as (t1 & tc' & E1 & Ec & ->).
    symmetry in Ec. apply fmap_nil_inv in Ec as ->.
    cbn [app]. rewrite run_live_cons;
      rewrite (step_open t0 _ _ _ _ _ (VObj [])); auto.
    rewrite <- app_assoc. rewrite (run_members ms); [| |now symmetry|reflexivity].
    + cbn [app]. rewrite run_live_cons; rewrite step_close; auto.
    + eapply Forall_impl; [exact (proj2 (Forall_and _ _) (conj IH Hms))|].
      intros m [Hm Hokm]. repeat (apply andb_true_iff in Hokm as [Hokm ?]).
      split; [now apply Hm|assumption].
Qed.

(* ===================================================================== *)
(** ** jsonRawDecode and jsonDecode on documents *)
(* ===================================================================== *)

(** The first token of a container is its opening bracket. *)
Lemma container_first_token j k pos :
  is_container j = true ->
  exists c r,
    toks_at pos (items j ++ k) = Token [c] pos :: r
    /\ (c = Ch.lbracket \/ c = Ch.lbrace).
Proof.
  destruct j; try discriminate; intros _; cbn [items app toks_at lexeme_text];
    eauto.
Qed.

(** With the stack empty, the loop records the offset of an opening
    bracket and stops. *)
Lemma run_closed_open v c at_ r :
  c = Ch.lbracket \/ c = Ch.lbrace ->
  run (BState [] v None (-1)) (Token [c] at_ :: r)
  = BState [] v None (Z.of_nat at_).
Proof.
  intros [-> | ->]; cbn [run]; unfold step; cbn;
    destruct (Z.leb_spec 0 (Z.of_nat at_)); (reflexivity || lia).
Qed.

(** The tokens of a container, read from the state in which
    [jsonRawDecode] starts its loop, leave the stack empty and the value
    in [root]. *)
Lemma run_root j ts after :
  is_container j = true -> json_ok j = true ->
  tok_text <$> ts = lexeme_text <$> lexemes j ->
  exists t0 ts' r0,
    ts = t0 :: ts'
    /\ (if bool_decide (tok_text t0 = [Ch.lbrace]) then (VObj [], false)
        else if bool_decide (tok_text t0 = [Ch.lbracket]) then (VArr 0 [], false)
        else (VArr 0 [], true)) = (r0, false)
    /\ run (BState [(r0, [])] r0 None (-1)) (ts' ++ after)
       = run (BState [] (json_value j) None (-1)) after.
Proof.
  intros Hc Hok Hts. destruct j as [| | | | |w es|w ms]; try discriminate Hc.
  - cbn [json_ok] in Hok. apply andb_true_iff in Hok as [_ Hes].
    apply forallb_Forall_1 in Hes.
    cbn [lexemes] in Hts. rewrite fmap_cons, fmap_app in Hts.
    apply fmap_cons_inv in Hts as (t0 & ts' & E0 & Ets & ->).
    symmetry in Ets. apply fmap_app_inv in Ets as (tb & tc & Eb & Ec & ->).
    symmetry in Ec. apply fmap_cons_inv in Ec as (t1 & tc' & E1 & Ec & ->).
    symmetry in Ec. apply fmap_nil_inv in Ec as ->.
    exists t0, (tb ++ [t1]), (VArr 0 []). split; [reflexivity|].
    split; [now rewrite <- E0|].
    rewrite <- app_assoc.
    change (BState [(VArr 0 [], [])] (VArr 0 []) None (-1))
      with (live [(VArr 0 [], [])] (VArr 0 []) None).
    rewrite (run_elements es); [| |now symmetry|reflexivity].
    + cbn [app run]. destruct t1 as [tok1 at1]. cbn [tok_text] in E1.
      subst tok1. reflexivity.
    + eapply Forall_impl; [exact Hes|]. intros e He. apply json_builds.
      apply andb_true_iff in He as [He _].
      now apply andb_true_iff in He as [_ He].
  - cbn [json_ok] in Hok. apply andb_true_iff in Hok as [_ Hms].
    apply forallb_Forall_1 in Hms.
    cbn [lexemes] in Hts. rewrite fmap_cons, fmap_app in Hts.
    apply fmap_cons_inv in Hts as (t0 & ts' & E0 & Ets & ->).
    symmetry in Ets. apply fmap_app_inv in Ets as (tb & tc & Eb & Ec & ->).
    symmetry in Ec. apply fmap_cons_inv in Ec as (t1 & tc' & E1 & Ec & ->).
    symmetry in Ec. apply fmap_nil_inv in Ec as ->.
    exists t0, (tb ++ [t1]), (VObj []). split; [reflexivity|].
    split; [now rewrite <- E0|].
    rewrite <- app_assoc.
    change (BState [(VObj [], [])] (VObj []) None (-1))
      with (live [(VObj [], [])] (VObj []) None).
    rewrite (run_members ms); [| |now symmetry|reflexivity].
    + cbn [app run]. destruct t1 as [tok1 at1]. cbn [tok_text] in E1.
      subst tok1. reflexivity.
    + eapply Forall_impl; [exact Hms|]. intros m Hm.
      repeat (apply andb_true_iff in Hm as [Hm ?]).
      split; [now apply json_builds|assumption].
Qed.

Lemma docs_ok_spaced ds :
  Forall (fun d => doc_ok d = true /\ is_container (doc_json d) = true) ds ->
  spaced None (docs_items ds) [] = true.
Proof. intros H. now apply (docs_closes ds H). Qed.

Lemma docs_text_cons d ds : docs_text (d :: ds) = doc_text d ++ docs_text ds.
Proof. reflexivity. Qed.

(** The tokens of a sequence of documents: those of the first container,
    then those of the documents that follow. *)
Lemma docs_tokens d ds :
  toks_at 0 (docs_items (d :: ds))
  = toks_at (length (doc_lead d)) (items (doc_json d))
    ++ toks_at (length (doc_text d)) (docs_items ds).
Proof.
  unfold docs_items. rewrite fmap_cons. cbn [concat]. unfold doc_items at 1.
  rewrite <- !app_assoc, toks_at_gaps, toks_at_app, toks_at_gaps.
  rewrite items_text_json. unfold doc_text. cbn [Nat.add]. do 2 f_equal.
  len_solve.
Qed.

(** What [jsonRawDecode] returns on a sequence of documents whose first
    one is a container: its value, and the offset at which the next
    container starts, or the length of the text. *)
Lemma jsonRawDecode_docs d ds :
  Forall (fun d => doc_ok d = true /\ is_container (doc_json d) = true) (d :: ds) ->
  jsonRawDecode (docs_text (d :: ds)) None
  = RawPair (json_value (doc_json d))
      (match ds with
       | [] => Z.of_nat (length (doc_text d))
       | d2 :: _ => Z.of_nat (length (doc_text d) + length (doc_lead d2))
       end).
Proof.
  intros Hds. pose proof (docs_ok_spaced _ Hds) as Hsp.
  inversion Hds as [|? ? [Hok Hc] Hds']; subst.
  unfold jsonRawDecode. rewrite <- docs_items_text, (tokenize_items _ Hsp).
  rewrite docs_tokens.
  assert (json_ok (doc_json d) = true) as Hj.
  { unfold doc_ok in Hok. apply andb_true_iff in Hok as [Hok _].
    now apply andb_true_iff in Hok as [_ Hok]. }
  destruct (run_root (doc_json d)
              (toks_at (length (doc_lead d)) (items (doc_json d)))
              (toks_at (length (doc_text d)) (docs_items ds)) Hc Hj)
    as (t0 & ts' & r0 & Ets & Er0 & Erun).
  { now rewrite toks_at_texts, item_lexemes_json. }
  rewrite Ets. cbn [app]. rewrite Er0, Erun. clear Erun Er0 Ets.
  destruct ds as [|d2 ds].
  - cbn [docs_items fmap list_fmap concat toks_at run stack root index].
    now rewrite app_nil_r, doc_items_text.
  - inversion Hds' as [|? ? [Hok2 Hc2] _]; subst.
    assert (exists c r,
              toks_at (length (doc_text d)) (docs_items (d2 :: ds))
              = Token [c] (length (doc_text d) + length (doc_lead d2)) :: r
              /\ (c = Ch.lbracket \/ c = Ch.lbrace)) as (c & r & -> & Hbr).
    { unfold docs_items. rewrite fmap_cons. cbn [concat]. unfold doc_items at 1.
      rewrite <- !app_assoc, toks_at_gaps.
      now apply container_first_token. }
    rewrite (run_closed_open _ _ _ _ Hbr). cbn [stack root index].
    destruct (Z.eqb_spec (Z.of_nat (length (doc_text d) + length (doc_lead d2))) (-1));
      [lia|reflexivity].
Qed.

Lemma substr_nat s n : substr s (Z.of_nat n) = drop n s.
Proof.
  unfold substr. destruct (Z.ltb_spec (Z.of_nat n) 0); [lia|].
  now rewrite Nat2Z.id.
Qed.

Lemma container_doc_trim d : container_doc d -> container_doc (trim_lead d).
Proof.
  unfold container_doc, doc_ok, trim_lead. cbn [doc_lead doc_json doc_trail].
  intros [H Hc]. split; [|exact Hc].
  apply andb_true_iff in H as [H ->]. apply andb_true_iff in H as [_ ->].
  reflexivity.
Qed.

Lemma container_text_cons j :
  is_container j = true -> exists c r, json_text j = c :: r.
Proof. destruct j; try discriminate; cbn; eauto. Qed.

(** [jsonDecode] on a stream of container documents. *)
Lemma jsonDecode_docs n : forall ds fuel acc,
  length ds = S n -> Forall container_doc ds -> S n <= fuel ->
  jsonDecode fuel (docs_text ds) acc = Some (acc ++ docs_values ds).
Proof.
  induction n as [|n IH]; intros ds fuel acc Hlen Hds Hfuel.
  - destruct ds as [|d [|? ?]]; try discriminate Hlen.
    destruct fuel as [|fuel]; [lia|]. cbn [jsonDecode].
    rewrite (jsonRawDecode_docs d [] Hds), substr_nat.
    unfold docs_text. cbn. rewrite app_nil_r, drop_all. reflexivity.
  - destruct ds as [|d [|d2 ds]]; try discriminate Hlen.
    destruct fuel as [|fuel]; [lia|]. cbn [jsonDecode].
    rewrite (jsonRawDecode_docs d (d2 :: ds) Hds), substr_nat.
    inversion Hds as [|? ? Hd Hds']; subst.
    inversion Hds' as [|? ? Hd2 Hds'']; subst.
    assert (drop (length (doc_text d) + length (doc_lead d2))
                 (docs_text (d :: d2 :: ds))
            = docs_text (trim_lead d2 :: ds)) as ->.
    { rewrite !docs_text_cons. rewrite <- drop_drop, drop_app_length.
      unfold doc_text at 1. rewrite <- !app_assoc, drop_app_length.
      unfold doc_text, trim_lead. cbn [doc_lead doc_json doc_trail app].
      now rewrite <- !app_assoc. }
    destruct (container_text_cons (doc_json d2) (proj2 Hd2)) as (c & r & Ec).
    rewrite docs_text_cons. unfold doc_text at 1. cbn [trim_lead doc_lead doc_json doc_trail app].
    rewrite Ec. cbn [app].
    change (doc_text (trim_lead d2) ++ docs_text ds)
      with (docs_text (trim_lead d2 :: ds)).
    rewrite (IH (trim_lead d2 :: ds) fuel);
      [| cbn in *; lia | constructor; [now apply container_doc_trim|assumption] | lia].
    unfold docs_values. rewrite !fmap_cons. cbn [trim_lead doc_json].
    now rewrite <- app_assoc.
Qed.

(** [jsonRawDecode] on one container document alone. *)
Lemma jsonRawDecode_doc d :
  container_doc d ->
  jsonRawDecode (doc_text d) None
  = RawPair (json_value (doc_json d)) (Z.of_nat (length (doc_text d))).
Proof.
  intros Hd. pose proof (jsonRawDecode_docs d [] (Forall_cons_2 _ _ _ Hd (Forall_nil_2 _))) as H.
  unfold docs_text in H. cbn in H. now rewrite app_nil_r in H.
Qed.

(* ===================================================================== *)
(** ** Streams of documents *)
(* ===================================================================== *)

(** C2, as stated, fails on bare scalars: the string literals [a] and [b]
    are two valid documents, each decoded alone gives its string, and
    their concatenation decodes to one value only; the second literal is
    appended to the wrapper array of the first and lost. *)
Lemma concatenated_scalars_lose_a_value :
  doc_ok (Document [] (JStr [Plain 97]) []) = true
  /\ doc_ok (Document [] (JStr [Plain 98]) []) = true
  /\ docs_text [Document [] (JStr [Plain 97]) []; Document [] (JStr [Plain 98]) []]
     = js "'a''b'"
  /\ jsonRawDecode (js "'a'") None = RawPair (VStr (js "a")) 3
  /\ jsonRawDecode (js "'b'") None = RawPair (VStr (js "b")) 3
  /\ jsonDecode 3 (js "'a''b'") [] = Some [VStr (js "a")].
Proof. now repeat split. Qed.

(** C2, amended. For a stream made of one or more documents whose
    top-level values are objects or arrays, written one after the other
    with nothing but optional white space around them, [jsonDecode] on
    the empty list returns one value per document, in order, and each
    value is the one [jsonRawDecode] returns on that document alone, where
    it consumes the whole document. One call is spent on each document,
    the last one ending on the empty remaining text. *)
Theorem jsonDecode_stream_of_containers ds fuel :
  ds <> [] -> Forall container_doc ds -> length ds <= fuel ->
  exists vs,
    jsonDecode fuel (docs_text ds) [] = Some vs
    /\ length vs = length ds
    /\ Forall2 (fun d v =>
                  jsonRawDecode (doc_text d) None
                  = RawPair v (Z.of_nat (length (doc_text d))))
               ds vs.
Proof.
  intros Hne Hds Hfuel. exists (docs_values ds). split; [|split].
  - destruct ds as [|d ds]; [congruence|].
    now apply (jsonDecode_docs (length ds) (d :: ds) fuel []).
  - unfold docs_values. apply length_fmap.
  - unfold docs_values. apply Forall2_fmap_r, Forall_Forall2_diag.
    eapply Forall_impl; [exact Hds|]. intros d Hd. now apply jsonRawDecode_doc.
Qed.

Lemma jsonDecode_stream_of_containers_witness :
  [sample_object; sample_array] <> []
  /\ Forall container_doc [sample_object; sample_array]
  /\ length [sample_object; sample_array] <= 2
  /\ docs_text [sample_object; sample_array] = js "{'a':1} [true, '\n']" ++ [10%N]
  /\ jsonRawDecode (doc_text sample_object) None
     = RawPair (VObj [(js "a", VNum (js "1"))]) 7
  /\ jsonRawDecode (doc_text sample_array) None
     = RawPair (VArr 2 [(js "0", VBool true); (js "1", VStr [10%N])]) 14
  /\ jsonDecode 2 (docs_text [sample_object; sample_array]) []
     = Some [VObj [(js "a", VNum (js "1"))];
             VArr 2 [(js "0", VBool true); (js "1", VStr [10%N])]]
  /\ exists vs,
       jsonDecode 2 (docs_text [sample_object; sample_array]) [] = Some vs
       /\ length vs = length [sample_object; sample_array]
       /\ Forall2 (fun d v =>
                     jsonRawDecode (doc_text d) None
                     = RawPair v (Z.of_nat (length (doc_text d))))
                  [sample_object; sample_array] vs.
Proof.
  assert ([sample_object; sample_array] <> []) as H1 by discriminate.
  assert (Forall container_doc [sample_object; sample_array]) as H2
    by (repeat constructor).
  assert (length [sample_object; sample_array] <= 2) as H3 by (cbn; lia).
  split; [exact H1|]. split; [exact H2|]. split; [exact H3|].
  split; [reflexivity|]. split; [reflexivity|]. split; [reflexivity|].
  split; [reflexivity|].
  exact (jsonDecode_stream_of_containers _ 2 H1 H2 H3).
Defined.

(* ===================================================================== *)
(** ** Bare scalars *)
(* ===================================================================== *)

Lemma scalar_tokens j :
  is_container j = false -> json_ok j = true ->
  tokenize (json_text j) = [Token (json_text j) 0].
Proof.
  intros Hc Hok. rewrite <- items_text_json.
  assert (items j = [Lex (scalar_lexeme j)]) as E by (now destruct j).
  rewrite tokenize_items.
  - rewrite E. cbn [toks_at]. now rewrite items_text_single.
  - rewrite E. cbn [spaced]. rewrite andb_true_r.
    assert (lexeme_ok (scalar_lexeme j) = true) as -> by (now destruct j).
    now destruct j.
Qed.

Lemma scalar_text_not_bracket j :
  is_container j = false -> json_ok j = true ->
  json_text j <> [Ch.lbrace] /\ json_text j <> [Ch.lbracket].
Proof.
  intros Hc Hok. destruct j as [cs|n| | | | |]; try discriminate Hc;
    try (split; discriminate).
  cbn [json_text json_ok] in *.
  destruct (numlit_text_head n Hok) as (c & r & -> & [-> | Hd]);
    [split; discriminate|].
  apply is_digit_spec in Hd. unfold Ch.lbrace, Ch.lbracket.
  split; intros [= -> _]; lia.
Qed.

Lemma wrapper_first v :
  set_prop (VArr 0 []) (key_or_length None (VArr 0 [])) v
  = VArr 1 [(js "0", v)].
Proof. reflexivity. Qed.

(** C5. A buffer that holds one bare scalar (a string literal, a number
    literal, true, false or null) is decoded to the value of the scalar,
    and the whole buffer is consumed. The loop stores the scalar as the
    only element of the wrapper array with which it starts, and the
    result is the element at index 0 of that wrapper. *)
Theorem bare_scalar_decodes j :
  is_container j = false -> json_ok j = true ->
  stack (run (BState [(VArr 0 [], [])] (VArr 0 []) None (-1))
             (tokenize (json_text j)))
  = [(VArr 1 [(js "0", json_value j)], [])]
  /\ jsonRawDecode (json_text j) None
     = RawPair (json_value j) (Z.of_nat (length (json_text j))).
Proof.
  intros Hc Hok.
  assert (run (BState [(VArr 0 [], [])] (VArr 0 []) None (-1))
              (tokenize (json_text j))
          = live [(VArr 1 [(js "0", json_value j)], [])] (VArr 0 []) None) as Hrun.
  { rewrite (scalar_tokens j Hc Hok).
    change (BState [(VArr 0 [], [])] (VArr 0 []) None (-1))
      with (live [(VArr 0 [], [])] (VArr 0 []) None).
    rewrite run_live_cons;
      rewrite (step_scalar j _ (VArr 0 []) [] [] (VArr 0 []) None Hc Hok);
      try reflexivity;
      now destruct j. }
  split; [now rewrite Hrun|].
  unfold jsonRawDecode. destruct (scalar_text_not_bracket j Hc Hok) as [H1 H2].
  pose proof (scalar_tokens j Hc Hok) as Ht. rewrite Ht in Hrun. rewrite Ht.
  cbn [tok_text]. rewrite !bool_decide_eq_false_2 by assumption.
  rewrite Hrun. reflexivity.
Qed.

Lemma bare_scalar_decodes_witness :
  is_container (JStr [Plain 97; Escape 110; Unicode 48 48 52 49]) = false
  /\ json_ok (JStr [Plain 97; Escape 110; Unicode 48 48 52 49]) = true
  /\ json_text (JStr [Plain 97; Escape 110; Unicode 48 48 52 49]) = js "'a\n\u0041'"
  /\ jsonRawDecode (js "'a\n\u0041'") None = RawPair (VStr [97; 10; 65]%N) 11.
Proof.
  split; [reflexivity|]. split; [reflexivity|]. split; [reflexivity|].
  exact (proj2 (bare_scalar_decodes (JStr [Plain 97; Escape 110; Unicode 48 48 52 49])
                  eq_refl eq_refl)).
Defined.

(* ===================================================================== *)
(** ** The offset returned with a value *)
(* ===================================================================== *)

(** Any first character other than the eight of the switch leads to its
    default case. *)
Lemma step_other st c r at_ :
  c <> 34%N -> c <> 91%N -> c <> 93%N -> c <> 102%N -> c <> 110%N ->
  c <> 116%N -> c <> 123%N -> c <> 125%N ->
  step st (Token (c :: r) at_) = store st at_ (VNum (c :: r)).
Proof.
  intros. unfold step. cbn [tok_text tok_index head].
  destruct c as [|p]; [reflexivity|].
  do 7 (try (destruct p as [p|p|])); try reflexivity; congruence.
Qed.

Lemma shape_other c r at_ :
  c <> 91%N -> c <> 93%N -> c <> 123%N -> c <> 125%N ->
  shape_of (Token (c :: r) at_) = Other.
Proof.
  intros. unfold shape_of. cbn [tok_text head].
  destruct c as [|p]; [reflexivity|].
  do 7 (try (destruct p as [p|p|])); try reflexivity; congruence.
Qed.

(** What one turn of the loop does to the depth of the stack and to
    [index]. *)
Lemma step_effect st t :
  index st = (-1)%Z ->
  match stack st, shape_of t with
  | [], Closes => step st t = st
  | [], _ =>
      stack (step st t) = [] /\ index (step st t) = Z.of_nat (tok_index t)
  | _ :: _, Opens =>
      index (step st t) = (-1)%Z
      /\ length (stack (step st t)) = S (length (stack st))
  | _ :: _, Closes =>
      index (step st t) = (-1)%Z
      /\ length (stack (step st t)) = length (stack st) - 1
  | _ :: _, Other =>
      index (step st t) = (-1)%Z
      /\ length (stack (step st t)) = length (stack st)
  end.
Proof.
  intros Hi. destruct st as [stk rt k ix]. cbn [index stack] in *. subst ix.
  destruct t as [[|c r] at_].
  - destruct stk as [|[c0 s0] b]; cbn; auto.
  - destruct (decide (c = 34%N)) as [->|];
      [|destruct (decide (c = 91%N)) as [->|];
        [|destruct (decide (c = 93%N)) as [->|];
          [|destruct (decide (c = 102%N)) as [->|];
            [|destruct (decide (c = 110%N)) as [->|];
              [|destruct (decide (c = 116%N)) as [->|];
                [|destruct (decide (c = 123%N)) as [->|];
                  [|destruct (decide (c = 125%N)) as [->|]]]]]]]].
    9: { rewrite shape_other, step_other by assumption.
         destruct stk as [|[c0 s0] b]; cbn; auto. }
    all: destruct stk as [|[c0 s0] [|[p ps] b]]; cbn; auto;
      unfold store_string; cbn; destruct k; try destruct (is_array c0);
      cbn; auto.
Qed.

(** The loop stops at the token that follows the completed value. *)
Lemma run_following toks : forall st,
  index st = (-1)%Z ->
  index (run st toks)
  = match following_token (length (stack st)) toks with
    | Some t => Z.of_nat (tok_index t)
    | None => (-1)%Z
    end.
Proof.
  induction toks as [|t toks IH]; intros st Hi; [exact Hi|].
  cbn [run following_token]. pose proof (step_effect st t Hi) as He.
  destruct (stack st) as [|f stk] eqn:Es; cbn [length];
    destruct (shape_of t); cbn [length] in He.
  - destruct He as [_ He]. rewrite He.
    destruct (Z.leb_spec 0 (Z.of_nat (tok_index t))); [assumption|lia].
  - rewrite He, Hi. cbn. rewrite (IH st Hi), Es. reflexivity.
  - destruct He as [_ He]. rewrite He.
    destruct (Z.leb_spec 0 (Z.of_nat (tok_index t))); [assumption|lia].
  - destruct He as [He Hl]. rewrite He. cbn. rewrite (IH _ He), Hl. reflexivity.
  - destruct He as [He Hl]. rewrite He. cbn. rewrite (IH _ He), Hl.
    now replace (S (length stk) - 1) with (length stk) by lia.
  - destruct He as [He Hl]. rewrite He. cbn. rewrite (IH _ He), Hl. reflexivity.
Qed.

(** C6, as stated, fails: on two empty objects separated by a space the
    closing brace of the first ends at offset 2, and the offset returned
    is 3, where the second object starts; it is not the length of the
    input either. *)
Lemma offset_is_not_end_of_closing_token :
  tokenize (js "{} {}")
  = [Token [Ch.lbrace] 0; Token [Ch.rbrace] 1; Token [Ch.lbrace] 3;
     Token [Ch.rbrace] 4]
  /\ jsonRawDecode (js "{} {}") None = RawPair (VObj []) 3
  /\ (3 <> 1 + 1)%Z
  /\ (3 <> Z.of_nat (length (js "{} {}")))%Z.
Proof. now repeat split. Qed.

(** C6, amended. When [jsonRawDecode] returns a pair on an input that has
    tokens, the offset of the pair is the start offset of the first token,
    other than a closing bracket, that follows the completed value, and
    the length of the input when there is no such token. *)
Theorem offset_is_start_of_following_token s rv v idx :
  tokenize s <> [] ->
  jsonRawDecode s rv = RawPair v idx ->
  idx = match first_unconsumed (tokenize s) with
        | Some t => Z.of_nat (tok_index t)
        | None => Z.of_nat (length s)
        end.
Proof.
  intros Hne H. unfold jsonRawDecode in H.
  destruct (tokenize s) as [|t0 rest] eqn:Et; [congruence|]. clear Hne.
  unfold first_unconsumed.
  set (init r := BState [(r, [])] r None (-1)) in *.
  assert (forall r toks,
             (if (index (run (init r) toks) =? -1)%Z
              then Z.of_nat (length s) else index (run (init r) toks))
             = match following_token 1 toks with
               | Some t => Z.of_nat (tok_index t)
               | None => Z.of_nat (length s)
               end) as Hidx.
  { intros r toks. rewrite (run_following toks (init r) eq_refl). cbn [init stack length].
    destruct (following_token 1 toks) as [t|]; [|reflexivity].
    destruct (Z.eqb_spec (Z.of_nat (tok_index t)) (-1)); [lia|reflexivity]. }
  revert H. destruct (bool_decide (tok_text t0 = [Ch.lbrace])) eqn:E1.
  - apply bool_decide_eq_true in E1.
    rewrite bool_decide_eq_true_2 by (now left). cbv zeta.
    fold (init (VObj [])).
    destruct (stack (run (init (VObj [])) rest)); [|discriminate].
    intros [= _ <-]. apply Hidx.
  - apply bool_decide_eq_false in E1.
    destruct (bool_decide (tok_text t0 = [Ch.lbracket])) eqn:E2.
    + apply bool_decide_eq_true in E2.
      rewrite bool_decide_eq_true_2 by (now right). cbv zeta.
      fold (init (VArr 0 [])).
      destruct (stack (run (init (VArr 0 [])) rest)); [|discriminate].
      intros [= _ <-]. apply Hidx.
    + apply bool_decide_eq_false in E2.
      rewrite bool_decide_eq_false_2 by tauto. cbv zeta.
      fold (init (VArr 0 [])).
      destruct (stack (run (init (VArr 0 [])) (t0 :: rest))) as [|[? ?] [|? ?]];
        try discriminate.
      intros [= _ <-]. exact (Hidx (VArr 0 []) (t0 :: rest)).
Qed.

Lemma offset_is_start_of_following_token_witness :
  tokenize (js "{} {}") <> []
  /\ jsonRawDecode (js "{} {}") None = RawPair (VObj []) 3
  /\ 3%Z = match first_unconsumed (tokenize (js "{} {}")) with
           | Some t => Z.of_nat (tok_index t)
           | None => Z.of_nat (length (js "{} {}"))
           end.
Proof.
  assert (tokenize (js "{} {}") <> []) as H1 by discriminate.
  assert (jsonRawDecode (js "{} {}") None = RawPair (VObj []) 3) as H2
    by reflexivity.
  split; [exact H1|]. split; [exact H2|].
  exact (offset_is_start_of_following_token _ None _ _ H1 H2).
Defined.

(* ===================================================================== *)
(** ** The reviver walk *)
(* ===================================================================== *)

(** The loop of [walk_value] is [revive_loop] on the walked children. *)
Lemma walk_value_composite rv o :
  is_composite o = true ->
  walk_value rv o
  = let '(cur, toDelete) :=
      revive_loop rv o [] ((fun kc => (kc.1, walk_value rv kc.2)) <$> props_of o) in
    foldl delete_prop cur (rev toDelete).
Proof.
  intros Hc.
  assert (forall ps cur del,
    (fix loop (cur : value) (toDelete : list jsstr) (ps : props) {struct ps}
       : value * list jsstr :=
       match ps with
       | [] => (cur, toDelete)
       | (k, child) :: r =>
           let child' := walk_value rv child in
           let cur1 := set_prop cur k child' in
           let v := rv cur1 k child' in
           if is_undef v then loop cur1 (toDelete ++ [k]) r
           else loop (set_prop cur1 k v) toDelete r
       end) cur del ps
    = revive_loop rv cur del ((fun kc => (kc.1, walk_value rv kc.2)) <$> ps)) as H.
  { induction ps as [|[k child] ps IH]; intros cur del; [reflexivity|].
    rewrite fmap_cons. cbn [revive_loop fst snd]. cbv zeta.
    destruct (is_undef _); apply IH. }
  destruct o; try discriminate Hc; cbn [walk_value props_of]; now rewrite H.
Qed.

(** *** Properties of a container *)

Lemma props_get_Some_elem k ps v : props_get k ps = Some v -> k ∈ ps.*1.
Proof.
  induction ps as [|[k' v'] ps IH]; [discriminate|]. cbn.
  case_bool_decide as E; [subst; intros _; apply list_elem_of_here|].
  intros H. apply list_elem_of_further. now apply IH.
Qed.

Lemma props_get_None k ps : props_get k ps = None <-> k ∉ ps.*1.
Proof.
  induction ps as [|[k' v'] ps IH]; cbn.
  - split; [intros _; apply not_elem_of_nil|easy].
  - rewrite not_elem_of_cons. case_bool_decide as E.
    + split; [discriminate|]. intros [H _]. congruence.
    + rewrite IH. split; [intros H; split; [congruence|exact H]|tauto].
Qed.

Lemma props_get_elem k ps : k ∈ ps.*1 -> is_Some (props_get k ps).
Proof.
  intros H. destruct (props_get k ps) eqn:E; [eauto|].
  now apply props_get_None in E.
Qed.

Lemma props_replace_keys k v ps : (props_replace k v ps).*1 = ps.*1.
Proof.
  induction ps as [|[k' v'] ps IH]; [reflexivity|]. cbn.
  case_bool_decide as E; cbn; [now subst|now rewrite IH].
Qed.

Ltac bd := repeat (case_bool_decide; simplify_eq /=); try done.

Lemma props_get_replace k v ps k' :
  props_get k' (props_replace k v ps)
  = if bool_decide (k' = k) then (fun _ => v) <$> props_get k ps
    else props_get k' ps.
Proof.
  induction ps as [|[k0 v0] ps IH]; cbn; [now case_bool_decide|].
  destruct (decide (k0 = k)) as [->|Hne].
  - rewrite !bool_decide_eq_true_2 by reflexivity. cbn. bd.
  - rewrite (bool_decide_eq_false_2 (k0 = k)) by congruence. cbn. rewrite IH. bd.
Qed.

Lemma props_get_insert_index i k v ps k' :
  props_get k ps = None ->
  props_get k' (props_insert_index i k v ps)
  = if bool_decide (k' = k) then Some v else props_get k' ps.
Proof.
  induction ps as [|[k0 v0] ps IH]; intros Hk; cbn.
  - bd.
  - cbn in Hk. destruct (bool_decide (k0 = k)) eqn:E0; [discriminate|].
    apply bool_decide_eq_false in E0.
    assert (props_get k' ((k, v) :: (k0, v0) :: ps)
            = if bool_decide (k' = k) then Some v
              else if bool_decide (k0 = k') then Some v0 else props_get k' ps) as Hins.
    { cbn. bd. }
    destruct (array_index k0) as [j|]; [|exact Hins].
    destruct (j <? i)%N; [|exact Hins].
    cbn. rewrite (IH Hk). bd.
Qed.

Lemma props_get_app k ps qs :
  props_get k (ps ++ qs)
  = match props_get k ps with Some v => Some v | None => props_get k qs end.
Proof.
  induction ps as [|[k0 v0] ps IH]; [reflexivity|]. cbn.
  now case_bool_decide.
Qed.

Lemma props_get_set k v ps k' :
  props_get k' (props_set k v ps)
  = if bool_decide (k' = k) then Some v else props_get k' ps.
Proof.
  unfold props_set. destruct (props_get k ps) as [v0|] eqn:E.
  - rewrite props_get_replace, E. reflexivity.
  - destruct (array_index k) as [i|].
    + now apply props_get_insert_index.
    + rewrite props_get_app. cbn.
      case_bool_decide as E1; [subst; now rewrite E, bool_decide_eq_true_2|].
      rewrite (bool_decide_eq_false_2 (k' = k)) by congruence.
      now destruct (props_get k' ps).
Qed.

Lemma props_set_keys k v ps : k ∈ ps.*1 -> (props_set k v ps).*1 = ps.*1.
Proof.
  intros H. unfold props_set. destruct (props_get_elem _ _ H) as [v0 ->].
  apply props_replace_keys.
Qed.

Lemma props_delete_keys k ps k' :
  k' ∈ (props_delete k ps).*1 <-> k' ∈ ps.*1 /\ k' <> k.
Proof.
  unfold props_delete, props in *. rewrite !list_elem_of_fmap. split.
  - intros ([k0 v0] & -> & H). apply list_elem_of_filter in H as [Hne H].
    split; [|exact Hne]. now exists (k0, v0).
  - intros [([k0 v0] & -> & H) Hne]. exists (k0, v0). split; [reflexivity|].
    now apply list_elem_of_filter.
Qed.

Lemma props_get_delete k ps k' :
  props_get k' (props_delete k ps)
  = if bool_decide (k' = k) then None else props_get k' ps.
Proof.
  unfold props_delete, props in *. induction ps as [|[k0 v0] ps IH]; [cbn; bd|].
  destruct (decide (k0 = k)) as [->|Hne].
  - rewrite filter_cons_False by (cbn; tauto). rewrite IH. cbn [props_get]. bd.
  - rewrite filter_cons_True by (cbn; congruence). cbn [props_get].
    rewrite IH. bd.
Qed.

(** The same facts on containers. *)
Lemma get_set_prop o k v k' :
  is_composite o = true ->
  get (set_prop o k v) k' = if bool_decide (k' = k) then v else get o k'.
Proof.
  intros H. destruct o; try discriminate H; cbn [get set_prop];
    rewrite props_get_set; now case_bool_decide.
Qed.

Lemma keys_set_prop o k v : k ∈ keys o -> keys (set_prop o k v) = keys o.
Proof.
  destruct o; cbn [keys set_prop]; try easy; apply props_set_keys.
Qed.

Lemma is_composite_set_prop o k v : is_composite (set_prop o k v) = is_composite o.
Proof. now destruct o. Qed.

Lemma is_composite_delete_prop o k : is_composite (delete_prop o k) = is_composite o.
Proof. now destruct o. Qed.

Lemma keys_delete_prop o k k' :
  k' ∈ keys (delete_prop o k) <-> k' ∈ keys o /\ k' <> k.
Proof.
  destruct o; cbn [keys delete_prop]; try apply props_delete_keys;
    split; try easy; intros [H _]; exact H.
Qed.

Lemma get_delete_prop o k k' :
  get (delete_prop o k) k' = if bool_decide (k' = k) then VUndef else get o k'.
Proof.
  destruct o; cbn [get delete_prop]; try (now case_bool_decide);
    rewrite props_get_delete; now case_bool_decide.
Qed.

(** Deleting a list of keys. *)
Lemma keys_foldl_delete del o k :
  k ∈ keys (foldl delete_prop o del) <-> k ∈ keys o /\ k ∉ del.
Proof.
  revert o. induction del as [|d del IH]; intros o; cbn [foldl].
  - split; [intros H; split; [exact H|apply not_elem_of_nil]|tauto].
  - rewrite IH, keys_delete_prop, not_elem_of_cons. tauto.
Qed.

Lemma get_foldl_delete del o k :
  k ∉ del -> get (foldl delete_prop o del) k = get o k.
Proof.
  revert o. induction del as [|d del IH]; intros o H; [reflexivity|].
  apply not_elem_of_cons in H as [Hne H]. cbn [foldl].
  rewrite (IH _ H), get_delete_prop. now rewrite bool_decide_eq_false_2.
Qed.

Lemma elem_of_rev {A} (x : A) l : x ∈ rev l <-> x ∈ l.
Proof. rewrite !list_elem_of_In. symmetry. apply in_rev. Qed.

(** *** The loop over the properties *)

Lemma revive_loop_spec rv ps : forall cur del,
  is_composite cur = true -> NoDup ps.*1 ->
  (forall k, k ∈ ps.*1 -> k ∈ keys cur) ->
  let '(cur', del') := revive_loop rv cur del ps in
  is_composite cur' = true /\ keys cur' = keys cur
  /\ (forall k, k ∉ ps.*1 -> get cur' k = get cur k /\ (k ∈ del' <-> k ∈ del))
  /\ (forall k c', (k, c') ∈ ps ->
        exists h, is_composite h = true /\ keys h = keys cur /\ get h k = c'
          /\ if is_undef (rv h k c') then k ∈ del'
             else get cur' k = rv h k c' /\ (k ∈ del' <-> k ∈ del)).
Proof.
  induction ps as [|[k0 c0] ps IH]; intros cur del Hc Hnd Hin.
  - cbn. repeat split; try assumption; try tauto.
    intros k c' H. now apply elem_of_nil in H.
  - cbn [revive_loop]. cbv zeta. rewrite fmap_cons in Hnd, Hin. cbn [fst] in *.
    apply NoDup_cons in Hnd as [Hk0 Hnd].
    assert (k0 ∈ keys cur) as Hk0in by (apply Hin, list_elem_of_here).
    set (cur1 := set_prop cur k0 c0).
    assert (is_composite cur1 = true) as Hc1
      by (subst cur1; now rewrite is_composite_set_prop).
    assert (keys cur1 = keys cur) as Hkeys1 by (now apply keys_set_prop).
    assert (get cur1 k0 = c0) as Hget1.
    { subst cur1. rewrite get_set_prop by assumption.
      now rewrite bool_decide_eq_true_2. }
    assert (forall k, k <> k0 -> get cur1 k = get cur k) as Hother1.
    { intros k Hne. subst cur1. rewrite get_set_prop by assumption.
      now rewrite bool_decide_eq_false_2. }
    destruct (is_undef (rv cur1 k0 c0)) eqn:Eu.
    + specialize (IH cur1 (del ++ [k0]) Hc1 Hnd).
      destruct (revive_loop rv cur1 (del ++ [k0]) ps) as [cur' del'].
      destruct IH as (Hc' & Hkeys' & Hrest & Hps).
      { intros k Hk. rewrite Hkeys1. apply Hin. now apply list_elem_of_further. }
      split; [assumption|]. split; [congruence|]. split.
      * intros k Hk. apply not_elem_of_cons in Hk as [Hne Hk].
        destruct (Hrest k Hk) as [Hg Hd]. split; [rewrite Hg; now apply Hother1|].
        rewrite Hd, elem_of_app, list_elem_of_singleton. tauto.
      * intros k c' Hkc. apply elem_of_cons in Hkc as [[= -> ->]|Hkc].
        -- exists cur1. repeat split; try assumption. rewrite Eu.
           apply (Hrest k0 Hk0), elem_of_app. right. apply list_elem_of_here.
        -- destruct (Hps k c' Hkc) as (h & Hch & Hkh & Hgh & Hres).
           exists h. repeat split; try assumption; [congruence|].
           destruct (is_undef (rv h k c')); [assumption|].
           destruct Hres as [Hg Hd]. split; [assumption|].
           rewrite Hd, elem_of_app, list_elem_of_singleton.
           assert (k <> k0).
           { intros ->. apply Hk0. apply list_elem_of_fmap. now exists (k0, c'). }
           tauto.
    + set (cur2 := set_prop cur1 k0 (rv cur1 k0 c0)).
      assert (is_composite cur2 = true) as Hc2
        by (subst cur2; now rewrite is_composite_set_prop).
      assert (keys cur2 = keys cur) as Hkeys2.
      { subst cur2. rewrite keys_set_prop; [assumption|]. now rewrite Hkeys1. }
      specialize (IH cur2 del Hc2 Hnd).
      destruct (revive_loop rv cur2 del ps) as [cur' del'].
      destruct IH as (Hc' & Hkeys' & Hrest & Hps).
      { intros k Hk. rewrite Hkeys2. apply Hin. now apply list_elem_of_further. }
      split; [assumption|]. split; [congruence|]. split.
      * intros k Hk. apply not_elem_of_cons in Hk as [Hne Hk].
        destruct (Hrest k Hk) as [Hg Hd]. split; [|assumption].
        rewrite Hg. subst cur2. rewrite get_set_prop by assumption.
        rewrite bool_decide_eq_false_2 by assumption. now apply Hother1.
      * intros k c' Hkc. apply elem_of_cons in Hkc as [[= -> ->]|Hkc].
        -- exists cur1. repeat split; try assumption. rewrite Eu.
           destruct (Hrest k0 Hk0) as [Hg Hd]. split; [|assumption].
           rewrite Hg. subst cur2. rewrite get_set_prop by assumption.
           now rewrite bool_decide_eq_true_2.
        -- destruct (Hps k c' Hkc) as (h & Hch & Hkh & Hgh & Hres).
           exists h. repeat split; try assumption. congruence.
Qed.

(** C8. With a reviver, the result of [jsonRawDecode] is what the reviver
    returns for the empty key of the holder that has the decoded value as
    its only property, after the walk of that value; the offset is
    unchanged. In the walk of a container, the reviver is called for each
    property with the walked child, in a holder that has the keys of the
    container and the walked child under the key: when it returns
    undefined the key is absent from the walked container, and otherwise
    the key is present with the returned value. *)
Theorem reviver_walk (rv : reviver) :
  (forall json v idx,
      tokenize json <> [] ->
      jsonRawDecode json None = RawPair v idx ->
      jsonRawDecode json (Some rv)
      = RawPair (rv (VObj [([], walk_value rv v)]) [] (walk_value rv v)) idx)
  /\ (forall o k child,
        is_composite o = true -> NoDup (keys o) -> (k, child) ∈ props_of o ->
        exists h,
          keys h = keys o /\ get h k = walk_value rv child
          /\ let r := rv h k (walk_value rv child) in
             if is_undef r then k ∉ keys (walk_value rv o)
             else k ∈ keys (walk_value rv o) /\ get (walk_value rv o) k = r).
Proof.
  split.
  - intros json v idx Hne. unfold jsonRawDecode.
    destruct (tokenize json) as [|t0 rest]; [congruence|].
    destruct (if bool_decide (tok_text t0 = [Ch.lbrace]) then _ else _)
      as [result tlp].
    match goal with
    | |- context [match ?c with Some _ => _ | None => RawZero end] =>
        destruct c as [res|]
    end; [|discriminate].
    intros [= <- <-]. reflexivity.
  - intros o k child Hc Hnd Hin. rewrite (walk_value_composite rv o Hc).
    set (ps' := (fun kc : jsstr * value => (kc.1, walk_value rv kc.2)) <$> props_of o).
    assert (ps'.*1 = keys o) as Hkeys.
    { subst ps'. rewrite <- list_fmap_compose.
      destruct o; try discriminate Hc; reflexivity. }
    pose proof (revive_loop_spec rv ps' o [] Hc) as Hspec.
    destruct (revive_loop rv o [] ps') as [cur' del'].
    destruct Hspec as (Hc' & Hkeys' & _ & Hps);
      [now rewrite Hkeys | intros ?; now rewrite Hkeys |].
    destruct (Hps k (walk_value rv child)) as (h & _ & Hkh & Hgh & Hres).
    { subst ps'. apply list_elem_of_fmap. now exists (k, child). }
    exists h. split; [assumption|]. split; [assumption|]. cbv zeta.
    assert (k ∈ keys o) as Hk.
    { destruct o; try discriminate Hc; cbn [keys props_of] in *;
        apply list_elem_of_fmap; now exists (k, child). }
    destruct (is_undef (rv h k (walk_value rv child))).
    + rewrite keys_foldl_delete, elem_of_rev. tauto.
    + destruct Hres as [Hg Hd].
      assert (k ∉ del') as Hnot by (rewrite Hd; apply not_elem_of_nil).
      split.
      * rewrite keys_foldl_delete, elem_of_rev, Hkeys'. tauto.
      * rewrite get_foldl_delete; [assumption|]. now rewrite elem_of_rev.
Qed.

Lemma reviver_walk_witness :
  tokenize (js "{'a':1,'b':null}") <> []
  /\ jsonRawDecode (js "{'a':1,'b':null}") None
     = RawPair (VObj [(js "a", VNum (js "1")); (js "b", VNull)]) 16
  /\ jsonRawDecode (js "{'a':1,'b':null}") (Some sample_reviver)
     = RawPair (VObj [(js "b", VStr (js "nil"))]) 16
  /\ is_composite (VObj [(js "a", VNum (js "1")); (js "b", VNull)]) = true
  /\ NoDup (keys (VObj [(js "a", VNum (js "1")); (js "b", VNull)]))
  /\ (js "a", VNum (js "1")) ∈ props_of (VObj [(js "a", VNum (js "1")); (js "b", VNull)])
  /\ js "a" ∉ keys (walk_value sample_reviver
                      (VObj [(js "a", VNum (js "1")); (js "b", VNull)])).
Proof.
  assert (tokenize (js "{'a':1,'b':null}") <> []) as H1 by discriminate.
  assert (jsonRawDecode (js "{'a':1,'b':null}") None
          = RawPair (VObj [(js "a", VNum (js "1")); (js "b", VNull)]) 16) as H2
    by reflexivity.
  assert (is_composite (VObj [(js "a", VNum (js "1")); (js "b", VNull)]) = true)
    as H3 by reflexivity.
  assert (NoDup (keys (VObj [(js "a", VNum (js "1")); (js "b", VNull)]))) as H4.
  { cbn. apply NoDup_cons. split; [|apply NoDup_singleton].
    rewrite list_elem_of_singleton. discriminate. }
  assert ((js "a", VNum (js "1"))
          ∈ props_of (VObj [(js "a", VNum (js "1")); (js "b", VNull)])) as H5
    by apply list_elem_of_here.
  split; [exact H1|]. split; [exact H2|].
  split; [exact (proj1 (reviver_walk sample_reviver) _ _ _ H1 H2)|].
  split; [exact H3|]. split; [exact H4|]. split; [exact H5|].
  destruct (proj2 (reviver_walk sample_reviver) _ _ _ H3 H4 H5)
    as (h & _ & _ & Hres).
  exact Hres.
Defined.

(* ===================================================================== *)
(** ** decycle *)
(* ===================================================================== *)

#[local] Set Warnings "-clear-no-such-hyp".

Section DecycleFacts.
Context {S : Type}.
Variable h : heap.
Variable rp : option (@replacer S).

#[local] Abbreviation result := (option (tree * memo * S)).

(** One call of [derez]. *)
Lemma derez_step fuel value path objects s :
  derez h rp (Datatypes.S fuel) value path objects s
  = let '(value, s) :=
      match rp with
      | Some f => f s value
      | None => (value, s)
      end in
    match value with
    | GRef l =>
        match h !! l with
        | Some (OArray es) =>
            match objects !! l with
            | Some old_path => Some (RefMarker old_path, objects, s)
            | None =>
                '(nu, objects, s) ←
                  each_element (derez h rp fuel) path 0%N es
                    (<[l := path]> objects) s;
                Some (TArr nu, objects, s)
            end
        | Some (OObject fs) =>
            match objects !! l with
            | Some old_path => Some (RefMarker old_path, objects, s)
            | None =>
                '(nu, objects, s) ←
                  each_name (derez h rp fuel) path fs (<[l := path]> objects) s;
                Some (TObj nu, objects, s)
            end
        | Some (OBuiltin _) | None => Some (TLeaf value, objects, s)
        end
    | _ => Some (TLeaf value, objects, s)
    end.
Proof. reflexivity. Qed.

(** The paths recorded in [objects] are kept by the loops when they are
    kept by the function called on each child. *)
Lemma each_element_grows (rec : gval -> jsstr -> memo -> S -> result) path :
  (forall e p o s t o' s', rec e p o s = Some (t, o', s') -> o ⊆ o') ->
  forall es i o s ts o' s',
    each_element rec path i es o s = Some (ts, o', s') ->
    o ⊆ o' /\ length ts = length es.
Proof.
  intros Hrec. induction es as [|e es IH]; intros i o s ts o' s' H.
  - cbn in H. now injection H as <- <- <-.
  - cbn [each_element] in H.
    destruct (rec e _ o s) as [[[t1 o1] s1]|] eqn:E1; [|discriminate].
    cbn in H. destruct (each_element rec path (i + 1) es o1 s1)
      as [[[ts2 o2] s2]|] eqn:E2; [|discriminate].
    cbn in H. injection H as <- <- <-.
    destruct (IH _ _ _ _ _ _ E2) as [H2 Hl]. split; [|cbn; now rewrite Hl].
    etrans; [exact (Hrec _ _ _ _ _ _ _ E1)|exact H2].
Qed.

Lemma each_name_grows (rec : gval -> jsstr -> memo -> S -> result) path :
  (forall e p o s t o' s', rec e p o s = Some (t, o', s') -> o ⊆ o') ->
  forall fs o s ts o' s',
    each_name rec path fs o s = Some (ts, o', s') ->
    o ⊆ o' /\ ts.*1 = filter (fun name => name <> js "__proto__") fs.*1.
Proof.
  intros Hrec. induction fs as [|[name child] fs IH]; intros o s ts o' s' H.
  - cbn in H. now injection H as <- <- <-.
  - cbn [each_name] in H.
    destruct (rec child _ o s) as [[[t1 o1] s1]|] eqn:E1; [|discriminate].
    cbn in H. destruct (each_name rec path fs o1 s1)
      as [[[ts2 o2] s2]|] eqn:E2; [|discriminate].
    cbn in H. injection H as <- <- <-.
    destruct (IH _ _ _ _ _ E2) as [H2 Hl].
    split; [etrans; [exact (Hrec _ _ _ _ _ _ _ E1)|exact H2]|].
    rewrite fmap_cons. cbn [fst]. rewrite filter_cons.
    case_bool_decide as Hn.
    + rewrite decide_False by (intros Hne; now apply Hne). exact Hl.
    + rewrite decide_True by exact Hn. rewrite fmap_cons. cbn [fst].
      now rewrite Hl.
Qed.

(** [derez] never changes a recorded path. *)
Lemma derez_grows fuel : forall value path objects s t objects' s',
  derez h rp fuel value path objects s = Some (t, objects', s') ->
  objects ⊆ objects'.
Proof.
  induction fuel as [|fuel IH]; intros value path objects s t objects' s' H;
    [discriminate|].
  rewrite derez_step in H.
  destruct (match rp with Some f => f s value | None => (value, s) end)
    as [value1 s1].
  destruct value1 as [| | | | |l]; try (injection H as <- <- <-; reflexivity).
  destruct (h !! l) as [[es|fs|j]|]; try (injection H as <- <- <-; reflexivity).
  - destruct (objects !! l) as [p|] eqn:El; [injection H as <- <- <-; reflexivity|].
    destruct (each_element _ _ _ _ _ _) as [[[nu o2] s2]|] eqn:E; [|discriminate].
    cbn in H. injection H as <- <- <-.
    apply (each_element_grows _ _ IH) in E as [E _].
    etrans; [|exact E]. now apply insert_subseteq.
  - destruct (objects !! l) as [p|] eqn:El; [injection H as <- <- <-; reflexivity|].
    destruct (each_name _ _ _ _ _) as [[[nu o2] s2]|] eqn:E; [|discriminate].
    cbn in H. injection H as <- <- <-.
    apply (each_name_grows _ _ IH) in E as [E _].
    etrans; [|exact E]. now apply insert_subseteq.
Qed.

(** *** Termination *)

Lemma each_element_total (rec : gval -> jsstr -> memo -> S -> result) path base :
  (forall e p o s, base ⊆ o ->
     exists t o' s', rec e p o s = Some (t, o', s') /\ o ⊆ o') ->
  forall es i o s, base ⊆ o ->
    exists ts o' s', each_element rec path i es o s = Some (ts, o', s') /\ o ⊆ o'.
Proof.
  intros Hrec. induction es as [|e es IH]; intros i o s Ho.
  - eexists _, _, _. split; reflexivity.
  - destruct (Hrec e (path ++ js "[" ++ dec i ++ js "]") o s Ho)
      as (t1 & o1 & s1 & E1 & H1).
    destruct (IH (i + 1)%N o1 s1) as (ts & o2 & s2 & E2 & H2); [transitivity o; assumption|].
    eexists _, _, _. cbn [each_element]. rewrite E1. cbn. rewrite E2. cbn.
    split; [reflexivity|transitivity o1; assumption].
Qed.

Lemma each_name_total (rec : gval -> jsstr -> memo -> S -> result) path base :
  (forall e p o s, base ⊆ o ->
     exists t o' s', rec e p o s = Some (t, o', s') /\ o ⊆ o') ->
  forall fs o s, base ⊆ o ->
    exists ts o' s', each_name rec path fs o s = Some (ts, o', s') /\ o ⊆ o'.
Proof.
  intros Hrec. induction fs as [|[name child] fs IH]; intros o s Ho.
  - eexists _, _, _. split; reflexivity.
  - destruct (Hrec child (path ++ js "[" ++ quote_string name ++ js "]") o s Ho)
      as (t1 & o1 & s1 & E1 & H1).
    destruct (IH o1 s1) as (ts & o2 & s2 & E2 & H2); [transitivity o; assumption|].
    eexists _, _, _. cbn [each_name]. rewrite E1. cbn. rewrite E2. cbn.
    split; [reflexivity|transitivity o1; assumption].
Qed.

Lemma unvisited_insert (objects : memo) l path :
  l ∈ dom h -> objects !! l = None ->
  size (dom h ∖ dom (<[l := path]> objects)) < size (dom h ∖ dom objects).
Proof.
  unfold memo in *. intros Hl Ho. apply subset_size. rewrite dom_insert_L.
  apply not_elem_of_dom in Ho. set_solver.
Qed.

Lemma unvisited_mono (o o' : memo) :
  o ⊆ o' -> size (dom h ∖ dom o') <= size (dom h ∖ dom o).
Proof.
  unfold memo in *. intros H. apply subseteq_size. apply subseteq_dom in H.
  set_solver.
Qed.

(** With one unit of fuel more than there are objects of the heap not
    yet met, [derez] returns. *)
Lemma derez_total n : forall value path objects s,
  size (dom h ∖ dom objects) <= n ->
  exists t objects' s',
    derez h rp (Datatypes.S n) value path objects s = Some (t, objects', s')
    /\ objects ⊆ objects'.
Proof.
  induction n as [|n IH]; intros value path objects s Hsize.
  - rewrite derez_step.
    destruct (match rp with Some f => f s value | None => (value, s) end)
      as [value1 s1].
    destruct value1 as [| | | | |l]; try (eexists _, _, _; split; reflexivity).
    destruct (h !! l) as [[es|fs|j]|] eqn:Eh;
      try (eexists _, _, _; split; reflexivity);
      (destruct (objects !! l) as [p|] eqn:El;
       [eexists _, _, _; split; reflexivity|]);
      pose proof (unvisited_insert objects l path
                    (proj2 (elem_of_dom h l) (mk_is_Some _ _ Eh)) El); lia.
  - rewrite derez_step.
    destruct (match rp with Some f => f s value | None => (value, s) end)
      as [value1 s1].
    destruct value1 as [| | | | |l]; try (eexists _, _, _; split; reflexivity).
    destruct (h !! l) as [[es|fs|j]|] eqn:Eh;
      try (eexists _, _, _; split; reflexivity).
    + destruct (objects !! l) as [p|] eqn:El;
        [eexists _, _, _; split; reflexivity|].
      pose proof (unvisited_insert objects l path
                    (proj2 (elem_of_dom h l) (mk_is_Some _ _ Eh)) El) as Hlt.
      destruct (each_element_total (derez h rp (Datatypes.S n)) path
                  (<[l := path]> objects)) with (es := es) (i := 0%N)
                  (o := <[l := path]> objects) (s := s1)
        as (ts & o' & s' & E & Ho'); [|reflexivity|].
      { intros e p o s0 Ho. apply IH.
        pose proof (unvisited_mono _ _ Ho). lia. }
      rewrite E. cbn. eexists _, _, _. split; [reflexivity|].
      etrans; [|exact Ho']. now apply insert_subseteq.
    + destruct (objects !! l) as [p|] eqn:El;
        [eexists _, _, _; split; reflexivity|].
      pose proof (unvisited_insert objects l path
                    (proj2 (elem_of_dom h l) (mk_is_Some _ _ Eh)) El) as Hlt.
      destruct (each_name_total (derez h rp (Datatypes.S n)) path
                  (<[l := path]> objects)) with (fs := fs)
                  (o := <[l := path]> objects) (s := s1)
        as (ts & o' & s' & E & Ho'); [|reflexivity|].
      { intros e p o s0 Ho. apply IH.
        pose proof (unvisited_mono _ _ Ho). lia. }
      rewrite E. cbn. eexists _, _, _. split; [reflexivity|].
      etrans; [|exact Ho']. now apply insert_subseteq.
Qed.

End DecycleFacts.

(** *** Repeated objects *)

Lemma decycle_total (h : heap) (object : gval) :
  exists t, decycle (S (size (dom h))) h object = Some t.
Proof.
  unfold decycle, decycle_from.
  destruct (derez_total h None (size (dom h)) object (js "$") ∅ tt)
    as (t & o' & s' & E & _).
  - apply subseteq_size. set_solver.
  - rewrite E. now exists t.
Qed.

(** *** Values without repeated objects *)

Section Unshared.
Variable h : heap.

#[local] Abbreviation derez0 := (derez (S := unit) h None).

Lemma each_element_expand f :
  (forall v t locs, expand h f v = Some (t, locs) ->
     no_proto_field t = true -> NoDup locs ->
     forall path (objects : memo), (forall l, l ∈ locs -> objects !! l = None) ->
     exists objects',
       derez0 f v path objects tt = Some (t, objects', tt)
       /\ dom objects' = dom objects ∪ list_to_set locs) ->
  forall es ts ls, expand_elements (expand h f) es = Some (ts, ls) ->
  forallb (fun t => no_proto_field t) ts = true -> NoDup ls ->
  forall path i (objects : memo), (forall l, l ∈ ls -> objects !! l = None) ->
  exists objects',
    each_element (derez0 f) path i es objects tt = Some (ts, objects', tt)
    /\ dom objects' = dom objects ∪ list_to_set ls.
Proof.
  intros IHf. induction es as [|e es IH];
    intros ts ls H Hnp Hnd path i objects Hfresh.
  - cbn in H. injection H as <- <-. exists objects. split; [reflexivity|].
    cbn. set_solver.
  - cbn [expand_elements] in H.
    destruct (expand h f e) as [[t1 ls1]|] eqn:E1; [|discriminate]. cbn in H.
    destruct (expand_elements (expand h f) es) as [[ts2 ls2]|] eqn:E2;
      [|discriminate]. cbn in H. injection H as <- <-.
    cbn [forallb] in Hnp. apply andb_true_iff in Hnp as [Hnp1 Hnp2].
    apply NoDup_app in Hnd as (Hnd1 & Hdisj & Hnd2).
    destruct (IHf e t1 ls1 E1 Hnp1 Hnd1 (path ++ js "[" ++ dec i ++ js "]") objects)
      as (o1 & D1 & Hdom1).
    { intros l Hl. apply Hfresh, elem_of_app. now left. }
    destruct (IH ts2 ls2 eq_refl Hnp2 Hnd2 path (i + 1)%N o1) as (o2 & D2 & Hdom2).
    { intros l Hl. unfold memo in *. apply not_elem_of_dom. rewrite Hdom1.
      assert (objects !! l = None) as Hn
        by (apply Hfresh, elem_of_app; now right).
      apply not_elem_of_dom in Hn.
      assert (l ∉ ls1) by (intros Hin; exact (Hdisj l Hin Hl)).
      set_solver. }
    exists o2. cbn [each_element]. rewrite D1. cbn. rewrite D2. cbn.
    split; [reflexivity|]. unfold memo in *.
    rewrite Hdom2, Hdom1, list_to_set_app_L. set_solver.
Qed.

Lemma each_name_expand f :
  (forall v t locs, expand h f v = Some (t, locs) ->
     no_proto_field t = true -> NoDup locs ->
     forall path (objects : memo), (forall l, l ∈ locs -> objects !! l = None) ->
     exists objects',
       derez0 f v path objects tt = Some (t, objects', tt)
       /\ dom objects' = dom objects ∪ list_to_set locs) ->
  forall fs ts ls, expand_fields (expand h f) fs = Some (ts, ls) ->
  forallb (fun f : jsstr * tree =>
             negb (bool_decide (f.1 = js "__proto__")) && no_proto_field f.2) ts
  = true ->
  NoDup ls ->
  forall path (objects : memo), (forall l, l ∈ ls -> objects !! l = None) ->
  exists objects',
    each_name (derez0 f) path fs objects tt = Some (ts, objects', tt)
    /\ dom objects' = dom objects ∪ list_to_set ls.
Proof.
  intros IHf. induction fs as [|[name child] fs IH];
    intros ts ls H Hnp Hnd path objects Hfresh.
  - cbn in H. injection H as <- <-. exists objects. split; [reflexivity|].
    cbn. set_solver.
  - cbn [expand_fields] in H.
    destruct (expand h f child) as [[t1 ls1]|] eqn:E1; [|discriminate]. cbn in H.
    destruct (expand_fields (expand h f) fs) as [[ts2 ls2]|] eqn:E2;
      [|discriminate]. cbn in H. injection H as <- <-.
    cbn [forallb fst snd] in Hnp. apply andb_true_iff in Hnp as [Hnp1 Hnp2].
    apply andb_true_iff in Hnp1 as [Hname Hnp1].
    apply negb_true_iff, bool_decide_eq_false in Hname.
    apply NoDup_app in Hnd as (Hnd1 & Hdisj & Hnd2).
    destruct (IHf child t1 ls1 E1 Hnp1 Hnd1
                (path ++ js "[" ++ quote_string name ++ js "]") objects)
      as (o1 & D1 & Hdom1).
    { intros l Hl. apply Hfresh, elem_of_app. now left. }
    destruct (IH ts2 ls2 eq_refl Hnp2 Hnd2 path o1) as (o2 & D2 & Hdom2).
    { intros l Hl. unfold memo in *. apply not_elem_of_dom. rewrite Hdom1.
      assert (objects !! l = None) as Hn
        by (apply Hfresh, elem_of_app; now right).
      apply not_elem_of_dom in Hn.
      assert (l ∉ ls1) by (intros Hin; exact (Hdisj l Hin Hl)).
      set_solver. }
    exists o2. cbn [each_name]. rewrite D1. cbn. rewrite D2. cbn.
    rewrite bool_decide_eq_false_2 by exact Hname.
    split; [reflexivity|]. unfold memo in *.
    rewrite Hdom2, Hdom1, list_to_set_app_L. set_solver.
Qed.

Lemma expand_step fuel v :
  expand h (S fuel) v
  = match v with
    | GRef l =>
        match h !! l with
        | Some (OArray es) =>
            '(ts, ls) ← expand_elements (expand h fuel) es;
            Some (TArr ts, l :: ls)
        | Some (OObject fs) =>
            '(ts, ls) ← expand_fields (expand h fuel) fs;
            Some (TObj ts, l :: ls)
        | _ => Some (TLeaf v, [])
        end
    | _ => Some (TLeaf v, [])
    end.
Proof. reflexivity. Qed.

(** On a value whose traversal meets no object twice, [derez] returns
    the tree of the value and records the objects met. *)
Lemma derez_expand fuel : forall v t locs,
  expand h fuel v = Some (t, locs) -> no_proto_field t = true -> NoDup locs ->
  forall path (objects : memo), (forall l, l ∈ locs -> objects !! l = None) ->
  exists objects',
    derez0 fuel v path objects tt = Some (t, objects', tt)
    /\ dom objects' = dom objects ∪ list_to_set locs.
Proof.
  induction fuel as [|fuel IH]; intros v t locs H Hnp Hnd path objects Hfresh;
    [discriminate|].
  rewrite expand_step in H. rewrite derez_step.
  destruct v as [| | | | |l];
    try (injection H as <- <-; exists objects; split; [reflexivity|cbn; set_solver]).
  destruct (h !! l) as [[es|fs|j]|] eqn:Eh;
    try (injection H as <- <-; exists objects; split; [reflexivity|cbn; set_solver]).
  - destruct (expand_elements (expand h fuel) es) as [[ts ls]|] eqn:E; [|discriminate].
    cbn in H. injection H as <- <-.
    apply NoDup_cons in Hnd as [Hl Hnd].
    rewrite (Hfresh l) by apply list_elem_of_here.
    destruct (each_element_expand fuel IH es ts ls E Hnp Hnd path 0%N
                (<[l := path]> objects)) as (o' & D & Hdom).
    { intros l' Hl'. unfold memo in *.
      rewrite lookup_insert_ne by (intros ->; contradiction).
      now apply Hfresh, list_elem_of_further. }
    exists o'. rewrite D. cbn. split; [reflexivity|].
    unfold memo in *. rewrite Hdom, dom_insert_L. set_solver.
  - destruct (expand_fields (expand h fuel) fs) as [[ts ls]|] eqn:E; [|discriminate].
    cbn in H. injection H as <- <-.
    apply NoDup_cons in Hnd as [Hl Hnd].
    rewrite (Hfresh l) by apply list_elem_of_here.
    destruct (each_name_expand fuel IH fs ts ls E Hnp Hnd path
                (<[l := path]> objects)) as (o' & D & Hdom).
    { intros l' Hl'. unfold memo in *.
      rewrite lookup_insert_ne by (intros ->; contradiction).
      now apply Hfresh, list_elem_of_further. }
    exists o'. rewrite D. cbn. split; [reflexivity|].
    unfold memo in *. rewrite Hdom, dom_insert_L. set_solver.
Qed.

End Unshared.

(** C9. An object that has an own property named [__proto__] is not
    copied in full: for the object that [JSON.parse] returns on
    [{"__proto__":1,"a":2}], which is acyclic and shares nothing and whose
    tree has the two fields, [decycle] returns an object with the
    field [a] alone. The assignment [nu[name] = ...] of the loop over
    [Object.keys(value)] stores no property under that name. *)
Theorem decycle_loses_proto_field :
  expand proto_heap 2 (GRef 1%positive)
  = Some (TObj [(js "__proto__", TLeaf (GNum (js "1")));
                (js "a", TLeaf (GNum (js "2")))],
          [1%positive])
  /\ decycle 2 proto_heap (GRef 1%positive)
     = Some (TObj [(js "a", TLeaf (GNum (js "2")))])
  /\ forall fuel,
       decycle fuel proto_heap (GRef 1%positive)
       <> Some (TObj [(js "__proto__", TLeaf (GNum (js "1")));
                      (js "a", TLeaf (GNum (js "2")))]).
Proof.
  split; [reflexivity|]. split; [reflexivity|].
  intros [|[|fuel]]; [discriminate|discriminate|]. discriminate.
Qed.

(** X28. When the traversal of a value ends and meets no array or object
    twice (the value is acyclic and shares nothing), and no object met
    has a field named [__proto__], [decycle] without a replacer returns
    the tree of the value: a copy with the same arrays, objects, keys
    and leaves. *)
Theorem decycle_copies_unshared (h : heap) fuel v t locs :
  expand h fuel v = Some (t, locs) -> NoDup locs ->
  no_proto_field t = true ->
  decycle fuel h v = Some t.
Proof.
  intros H Hnd Hnp. unfold decycle, decycle_from.
  destruct (derez_expand h fuel v t locs H Hnp Hnd (js "$") ∅) as (o' & D & _).
  - intros l _. apply lookup_empty.
  - now rewrite D.
Qed.

Lemma decycle_copies_unshared_witness :
  expand nested_heap 3 (GRef 1%positive)
  = Some (TArr [TArr [TLeaf GNull]; TObj [(js "k", TLeaf (GBool true))];
                TLeaf (GStr (js "x"))],
          [1%positive; 2%positive; 3%positive])
  /\ NoDup [1%positive; 2%positive; 3%positive]
  /\ decycle 3 nested_heap (GRef 1%positive)
     = Some (TArr [TArr [TLeaf GNull]; TObj [(js "k", TLeaf (GBool true))];
                   TLeaf (GStr (js "x"))]).
Proof.
  assert (expand nested_heap 3 (GRef 1%positive)
          = Some (TArr [TArr [TLeaf GNull]; TObj [(js "k", TLeaf (GBool true))];
                        TLeaf (GStr (js "x"))],
                  [1%positive; 2%positive; 3%positive])) as H1 by reflexivity.
  assert (NoDup [1%positive; 2%positive; 3%positive]) as H2.
  { repeat (apply NoDup_cons; split; [set_solver|]). apply NoDup_nil_2. }
  split; [exact H1|]. split; [exact H2|].
  exact (decycle_copies_unshared nested_heap 3 _ _ _ H1 H2 eq_refl).
Defined.

(** *** The replacer *)

Section Replacer.
Context {S : Type}.
Variable h : heap.
Variable f : @replacer S.

#[local] Abbreviation derez1 := (derez h (Some f)).

Lemma derez_by_output fuel v1 v2 path (objects : memo) s :
  f s v1 = f s v2 ->
  derez1 fuel v1 path objects s = derez1 fuel v2 path objects s.
Proof.
  intros H. destruct fuel as [|fuel]; [reflexivity|].
  rewrite !derez_step. now rewrite H.
Qed.

Lemma derez_output_repeat fuel v l s' path p (objects : memo) s :
  f s v = (GRef l, s') -> composite_at h l -> objects !! l = Some p ->
  derez1 (Datatypes.S fuel) v path objects s = Some (RefMarker p, objects, s').
Proof.
  unfold composite_at. intros Hf Hc Ho. rewrite derez_step, Hf.
  destruct (h !! l) as [[es|fs|j]|]; try contradiction; now rewrite Ho.
Qed.

Lemma derez_output_first fuel v l s1 path (objects : memo) s t objects' s' :
  f s v = (GRef l, s1) -> composite_at h l -> objects !! l = None ->
  derez1 fuel v path objects s = Some (t, objects', s') ->
  objects' !! l = Some path /\ materialized h l t.
Proof.
  unfold composite_at, materialized. intros Hf Hc Ho H.
  destruct fuel as [|fuel]; [discriminate|]. rewrite derez_step, Hf in H.
  destruct (h !! l) as [[es|fs|j]|]; try contradiction; rewrite Ho in H.
  - destruct (each_element _ _ _ _ _ _) as [[[nu o2] s2]|] eqn:E; [|discriminate].
    cbn in H. injection H as <- <- _.
    apply (each_element_grows _ _ (derez_grows h (Some f) fuel)) in E as [E Hl].
    split; [|exact Hl].
    eapply lookup_weaken; [|exact E]. apply lookup_insert_eq.
  - destruct (each_name _ _ _ _ _) as [[[nu o2] s2]|] eqn:E; [|discriminate].
    cbn in H. injection H as <- <- _.
    apply (each_name_grows _ _ (derez_grows h (Some f) fuel)) in E as [E Hl].
    split; [|exact Hl].
    eapply lookup_weaken; [|exact E]. apply lookup_insert_eq.
Qed.

(** Only what the replacer returns is recorded. *)
Lemma each_element_records
    (rec : gval -> jsstr -> memo -> S -> option (tree * memo * S)) path :
  (forall e p o s t o' s', rec e p o s = Some (t, o', s') ->
     forall l, l ∈ dom o' -> l ∈ dom o \/ returned_by f l) ->
  forall es i o s ts o' s',
    each_element rec path i es o s = Some (ts, o', s') ->
    forall l, l ∈ dom o' -> l ∈ dom o \/ returned_by f l.
Proof.
  intros Hrec. induction es as [|e es IH]; intros i o s ts o' s' H l Hl.
  - cbn in H. injection H as <- <- <-. now left.
  - cbn [each_element] in H.
    destruct (rec e _ o s) as [[[t1 o1] s1]|] eqn:E1; [|discriminate].
    cbn in H. destruct (each_element rec path (i + 1) es o1 s1)
      as [[[ts2 o2] s2]|] eqn:E2; [|discriminate].
    cbn in H. injection H as <- <- <-.
    destruct (IH _ _ _ _ _ _ E2 l Hl) as [H1|H1]; [|now right].
    exact (Hrec _ _ _ _ _ _ _ E1 l H1).
Qed.

Lemma each_name_records
    (rec : gval -> jsstr -> memo -> S -> option (tree * memo * S)) path :
  (forall e p o s t o' s', rec e p o s = Some (t, o', s') ->
     forall l, l ∈ dom o' -> l ∈ dom o \/ returned_by f l) ->
  forall fs o s ts o' s',
    each_name rec path fs o s = Some (ts, o', s') ->
    forall l, l ∈ dom o' -> l ∈ dom o \/ returned_by f l.
Proof.
  intros Hrec. induction fs as [|[name child] fs IH]; intros o s ts o' s' H l Hl.
  - cbn in H. injection H as <- <- <-. now left.
  - cbn [each_name] in H.
    destruct (rec child _ o s) as [[[t1 o1] s1]|] eqn:E1; [|discriminate].
    cbn in H. destruct (each_name rec path fs o1 s1)
      as [[[ts2 o2] s2]|] eqn:E2; [|discriminate].
    cbn in H. injection H as <- <- <-.
    destruct (IH _ _ _ _ _ E2 l Hl) as [H1|H1]; [|now right].
    exact (Hrec _ _ _ _ _ _ _ E1 l H1).
Qed.

Lemma derez_records fuel : forall v path (objects : memo) s t objects' s',
  derez1 fuel v path objects s = Some (t, objects', s') ->
  forall l, l ∈ dom objects' -> l ∈ dom objects \/ returned_by f l.
Proof.
  induction fuel as [|fuel IH]; intros v path objects s t objects' s' H l Hl;
    [discriminate|].
  rewrite derez_step in H. destruct (f s v) as [v1 s1] eqn:Ef.
  destruct v1 as [| | | | |l1]; try (injection H as <- <- <-; now left).
  destruct (h !! l1) as [[es|fs|j]|]; try (injection H as <- <- <-; now left).
  - destruct (objects !! l1) as [p|] eqn:El; [injection H as <- <- <-; now left|].
    destruct (each_element _ _ _ _ _ _) as [[[nu o2] s2]|] eqn:E; [|discriminate].
    cbn in H. injection H as <- <- <-.
    destruct (each_element_records _ _ IH _ _ _ _ _ _ _ E l Hl) as [H1|H1];
      [|now right].
    unfold memo in *. rewrite dom_insert_L in H1.
    apply elem_of_union in H1 as [H1|H1]; [|now left].
    apply elem_of_singleton in H1 as ->. right. now exists s, v, s1.
  - destruct (objects !! l1) as [p|] eqn:El; [injection H as <- <- <-; now left|].
    destruct (each_name _ _ _ _ _) as [[[nu o2] s2]|] eqn:E; [|discriminate].
    cbn in H. injection H as <- <- <-.
    destruct (each_name_records _ _ IH _ _ _ _ _ _ E l Hl) as [H1|H1];
      [|now right].
    unfold memo in *. rewrite dom_insert_L in H1.
    apply elem_of_union in H1 as [H1|H1]; [|now left].
    apply elem_of_singleton in H1 as ->. right. now exists s, v, s1.
Qed.

End Replacer.

(** C10. With a replacer, [derez] looks only at what the replacer returns
    for a node: two values for which the replacer returns the same give
    the same result. When it returns an array or object that has a
    recorded path, the node becomes the marker of that path, whatever the
    node was; when it returns an array or object that has none, the node
    is copied and its path recorded, even if the node itself was met
    before. Only arrays and objects returned by the replacer are ever
    recorded. So the two occurrences of a shared array are both copied
    when the replacer answers them with different arrays, and two
    different arrays collapse when it answers them with the same one. *)
Theorem replacer_output_is_what_is_recorded :
  (forall S (h : heap) (f : @replacer S) fuel v1 v2 path (objects : memo) s,
      f s v1 = f s v2 ->
      derez h (Some f) fuel v1 path objects s
      = derez h (Some f) fuel v2 path objects s)
  /\ (forall S (h : heap) (f : @replacer S) fuel v l s' path p (objects : memo) s,
        f s v = (GRef l, s') -> composite_at h l -> objects !! l = Some p ->
        derez h (Some f) (Datatypes.S fuel) v path objects s
        = Some (RefMarker p, objects, s'))
  /\ (forall S (h : heap) (f : @replacer S) fuel v l s1 path (objects : memo) s
             t objects' s',
        f s v = (GRef l, s1) -> composite_at h l -> objects !! l = None ->
        derez h (Some f) fuel v path objects s = Some (t, objects', s') ->
        objects' !! l = Some path /\ materialized h l t)
  /\ (forall S (h : heap) (f : @replacer S) fuel v path (objects : memo) s
             t objects' s' l,
        derez h (Some f) fuel v path objects s = Some (t, objects', s') ->
        l ∈ dom objects' -> l ∈ dom objects \/ returned_by f l)
  /\ decycle 3 pair_heap (GRef 1%positive)
     = Some (TArr [TArr []; RefMarker (js "$[0]")])
  /\ decycle_from pair_heap (Some fresh_copy) 3 (GRef 1%positive) 0
     = Some (TArr [TArr []; TArr []])
  /\ decycle 3 pair_heap (GRef 5%positive) = Some (TArr [TArr []; TArr []])
  /\ decycle_from pair_heap (Some merge_arrays) 3 (GRef 5%positive) tt
     = Some (TArr [TArr []; RefMarker (js "$[0]")]).
Proof.
  split; [intros S h f; apply derez_by_output|].
  split; [intros S h f; apply derez_output_repeat|].
  split; [intros S h f; apply derez_output_first|].
  split; [intros S h f fuel v path objects s t objects' s' l H;
          exact (derez_records h f fuel v path objects s t objects' s' H l)|].
  split; [reflexivity|]. split; [reflexivity|]. split; reflexivity.
Qed.

Lemma replacer_output_is_what_is_recorded_witness :
  merge_arrays tt (GRef 4%positive) = (GRef 3%positive, tt)
  /\ composite_at pair_heap 3%positive
  /\ ({[ 3%positive := js "$[0]" ]} : memo) !! 3%positive = Some (js "$[0]")
  /\ derez pair_heap (Some merge_arrays) 1 (GRef 4%positive) (js "$[1]")
       {[ 3%positive := js "$[0]" ]} tt
     = Some (RefMarker (js "$[0]"), {[ 3%positive := js "$[0]" ]}, tt).
Proof.
  assert (merge_arrays tt (GRef 4%positive) = (GRef 3%positive, tt)) as H1
    by reflexivity.
  assert (composite_at pair_heap 3%positive) as H2 by exact I.
  assert (({[ 3%positive := js "$[0]" ]} : memo) !! 3%positive = Some (js "$[0]"))
    as H3 by reflexivity.
  split; [exact H1|]. split; [exact H2|]. split; [exact H3|].
  exact (proj1 (proj2 replacer_output_is_what_is_recorded)
           unit pair_heap merge_arrays 0 _ _ _ (js "$[1]") _ _ tt H1 H2 H3).
Defined.

(* ===================================================================== *)
(** ** Prefixes of a document *)
(* ===================================================================== *)

(** *** Balanced lists of shapes *)

Lemma level_app n a b :
  level n (a ++ b) = level n a ≫= fun m => level m b.
Proof.
  revert n. induction a as [|[| |] a IH]; intros n; cbn; try apply IH.
  - reflexivity.
  - destruct n as [|[|n]]; try reflexivity. apply IH.
Qed.

Lemma level_pos n ss m : 1 <= n -> level n ss = Some m -> 1 <= m.
Proof.
  revert n. induction ss as [|[| |] ss IH]; intros n Hn H; cbn in H.
  - injection H as <-. exact Hn.
  - apply (IH (S n)); [lia|exact H].
  - destruct n as [|[|n]]; try discriminate. apply (IH (S n)); [lia|exact H].
  - now apply (IH n).
Qed.

Lemma balanced_app a b : balanced a -> balanced b -> balanced (a ++ b).
Proof.
  induction 1 as [|ss _ IH|ss1 ss2 H1 _ _ IH2]; intros Hb; cbn.
  - exact Hb.
  - constructor. now apply IH.
  - rewrite <- app_assoc. cbn. constructor; [exact H1|now apply IH2].
Qed.

Lemma balanced_concat xs : Forall balanced xs -> balanced (concat xs).
Proof.
  induction 1 as [|x xs Hx _ IH]; cbn; [constructor|now apply balanced_app].
Qed.

(** A balanced list gives back the depth it starts with, and none of its
    prefixes goes below it. *)
Lemma balanced_level ss :
  balanced ss ->
  forall n, 1 <= n ->
    level n ss = Some n
    /\ forall a b, ss = a ++ b -> exists m, level n a = Some m /\ n <= m.
Proof.
  induction 1 as [|ss _ IH|ss1 ss2 _ IH1 _ IH2]; intros n Hn.
  - split; [reflexivity|]. intros a b E. symmetry in E.
    apply app_eq_nil in E as [-> _]. exists n. now split.
  - destruct (IH n Hn) as [Hfull Hpre]. split; [exact Hfull|].
    intros [|s a] b E; [exists n; now split|].
    injection E as <- E. cbn. now apply (Hpre a b).
  - destruct (IH1 (S n)) as [Hfull1 Hpre1]; [lia|].
    destruct (IH2 n Hn) as [Hfull2 Hpre2].
    split.
    { cbn. rewrite level_app, Hfull1. cbn. destruct n; [lia|exact Hfull2]. }
    intros [|s a] b E; [exists n; now split|].
    injection E as <- E. cbn.
    apply app_eq_inv in E as [(k & -> & Ek)|(k & -> & Ek)].
    + destruct (Hpre1 a k eq_refl) as (m & Hm & Hle). exists m. split; [exact Hm|lia].
    + destruct k as [|s k]; [|cbn in Ek; injection Ek as <- Ek].
      * rewrite app_nil_r. rewrite Hfull1. exists (S n). split; [reflexivity|lia].
      * rewrite level_app, Hfull1. cbn. destruct n; [lia|].
        destruct (Hpre2 k b Ek) as (m & Hm & Hle). now exists m.
Qed.

Lemma fmap_concat {A B} (f : A -> B) (xs : list (list A)) :
  f <$> concat xs = concat ((fun x : list A => f <$> x) <$> xs).
Proof.
  induction xs as [|x xs IH]; [reflexivity|].
  cbn [concat]. now rewrite fmap_app, IH.
Qed.

(** *** The shapes of the tokens of a text *)

Lemma shape_of_lexeme l pos :
  lexeme_ok l = true -> shape_of (Token (lexeme_text l) pos) = lexeme_shape l.
Proof.
  intros Hok. destruct l; try reflexivity.
  cbn [lexeme_text lexeme_shape lexeme_ok] in *.
  destruct (numlit_text_head n Hok) as (c & r & -> & [-> | Hd]); [reflexivity|].
  apply is_digit_spec in Hd. apply shape_other; intros ->; lia.
Qed.

Lemma spaced_lexemes_ok its : forall prev rest,
  spaced prev its rest = true ->
  Forall (fun l => lexeme_ok l = true) (item_lexemes its).
Proof.
  induction its as [|[c|l] its IH]; intros prev rest H; cbn in *.
  - constructor.
  - apply andb_true_iff in H as [_ H]. now apply (IH _ _ H).
  - apply andb_true_iff in H as [H Hs]. apply andb_true_iff in H as [Hok _].
    constructor; [exact Hok|]. now apply (IH _ _ Hs).
Qed.

Lemma toks_at_shapes its : forall pos,
  Forall (fun l => lexeme_ok l = true) (item_lexemes its) ->
  shape_of <$> toks_at pos its = lexeme_shape <$> item_lexemes its.
Proof.
  induction its as [|[c|l] its IH]; intros pos H; cbn in *.
  - reflexivity.
  - now apply IH.
  - apply Forall_cons in H as [Hok H].
    rewrite shape_of_lexeme by assumption. f_equal. now apply IH.
Qed.

Lemma json_lexemes_ok j :
  json_ok j = true -> Forall (fun l => lexeme_ok l = true) (lexemes j).
Proof.
  intros Hok. rewrite <- item_lexemes_json.
  pose proof (json_accepts [] j Hok [] (conj eq_refl (fun _ => eq_refl)) None eq_refl) as H.
  rewrite app_nil_r in H. exact (spaced_lexemes_ok _ _ _ H).
Qed.

(** The lexemes of a text are balanced. *)
Lemma lexemes_balanced j : balanced (lexeme_shape <$> lexemes j).
Proof.
  induction j as [cs|n| | | |w es IH|w ms IH] using json_induction;
    try (solve [cbn; repeat constructor]).
  - cbn [lexemes]. rewrite fmap_cons, fmap_app. cbn.
    apply (balanced_wrap _ []); [|constructor].
    rewrite fmap_concat. apply balanced_concat.
    rewrite <- list_fmap_compose. apply Forall_fmap.
    eapply Forall_impl; [exact IH|]. intros e He. exact He.
  - cbn [lexemes]. rewrite fmap_cons, fmap_app. cbn.
    apply (balanced_wrap _ []); [|constructor].
    rewrite fmap_concat. apply balanced_concat.
    rewrite <- list_fmap_compose. apply Forall_fmap.
    eapply Forall_impl; [exact IH|]. intros m Hm. cbn. now constructor.
Qed.

Lemma body_balanced j : balanced (lexeme_shape <$> body_lexemes j).
Proof.
  destruct j as [| | | | |w es|w ms]; try constructor; cbn [body_lexemes];
    rewrite fmap_concat; apply balanced_concat;
    rewrite <- list_fmap_compose; apply Forall_fmap, Forall_forall.
  - intros e _. apply lexemes_balanced.
  - intros m _. cbn. constructor. apply lexemes_balanced.
Qed.

(** *** The loop on a list of tokens that closes no outermost container *)

Lemma run_level toks : forall st m,
  index st = (-1)%Z -> 1 <= length (stack st) ->
  level (length (stack st)) (shape_of <$> toks) = Some m ->
  index (run st toks) = (-1)%Z /\ length (stack (run st toks)) = m.
Proof.
  induction toks as [|t toks IH]; intros st m Hi Hn H.
  - cbn in *. injection H as <-. now split.
  - rewrite fmap_cons in H. cbn [run]. pose proof (step_effect st t Hi) as He.
    destruct (stack st) as [|f stk] eqn:Es; cbn [length] in *; [lia|].
    destruct (shape_of t); cbn [level] in H.
    + destruct He as [He Hl]. rewrite He. cbn.
      apply IH; [exact He|lia|now rewrite Hl].
    + destruct He as [He Hl]. rewrite He. cbn.
      destruct stk as [|f' stk]; [discriminate|]. cbn [length] in *.
      apply IH; [exact He|rewrite Hl; lia|].
      rewrite Hl. now replace (S (S (length stk)) - 1) with (S (length stk)) by lia.
    + destruct He as [He Hl]. rewrite He. cbn.
      apply IH; [exact He|lia|now rewrite Hl].
Qed.

Lemma level_others n ss :
  Forall (fun s => s = Other) ss -> level n ss = Some n.
Proof. induction 1 as [|s ss -> _ IH]; [reflexivity|exact IH]. Qed.

(** Every token starts with a character of the text. *)
Lemma scan_heads s : forall skip prev pos,
  Forall (fun t => exists c r, tok_text t = c :: r /\ c ∈ s) (scan skip prev pos s).
Proof.
  induction s as [|c s IH]; intros skip prev pos; [constructor|].
  assert (forall k p q,
            Forall (fun t => exists c0 r, tok_text t = c0 :: r /\ c0 ∈ c :: s)
                   (scan k p q s)) as IH'.
  { intros k p q. eapply Forall_impl; [apply IH|].
    intros t (c0 & r & E & Hin). exists c0, r. split; [exact E|].
    now apply list_elem_of_further. }
  cbn [scan]. destruct skip as [|k]; [|apply IH'].
  destruct (jsonToken prev (c :: s)) as [[|n]|]; try apply IH'.
  constructor; [|apply IH']. exists c, (take n s). split; [reflexivity|].
  apply list_elem_of_here.
Qed.

Lemma scan_other_shapes s skip prev pos :
  Forall (fun c => is_bracket c = false) s ->
  Forall (fun x => x = Other) (shape_of <$> scan skip prev pos s).
Proof.
  intros Hs. apply Forall_fmap. eapply Forall_impl; [apply scan_heads|].
  intros [tok at_] (c & r & E & Hin). cbn in E. subst tok.
  rewrite Forall_forall in Hs. specialize (Hs c Hin).
  apply shape_other; intros ->; discriminate Hs.
Qed.

(** *** The characters of a cut lexeme *)

Lemma Forall_prefix {A} (P : A -> Prop) (q q' l : list A) :
  l = q ++ q' -> Forall P l -> Forall P q.
Proof. intros -> H. now apply Forall_app in H as [H _]. Qed.

Lemma digits_not_bracket ds :
  forallb is_digit ds = true -> Forall (fun c => is_bracket c = false) ds.
Proof.
  induction ds as [|d ds IH]; cbn; [constructor|]. intros H.
  apply andb_true_iff in H as [Hd H]. constructor; [|now apply IH].
  apply is_digit_spec in Hd. unfold_chars. char_cases.
Qed.

Lemma numlit_not_bracket n :
  numlit_ok n = true -> Forall (fun c => is_bracket c = false) (numlit_text n).
Proof.
  destruct n as [neg int frac exp]. unfold numlit_ok, numlit_text.
  cbn [num_neg num_int num_frac num_exp]. intros H.
  apply andb_true_iff in H as [H He]. apply andb_true_iff in H as [Hi Hf].
  destruct (int_ok_cases _ Hi) as (d & r & -> & Hd & Hr & _).
  repeat apply Forall_app_2.
  - destruct neg; repeat constructor.
  - apply (digits_not_bracket (d :: r)). cbn. now rewrite Hd, Hr.
  - destruct frac as [fd|]; [|constructor]. constructor; [reflexivity|].
    unfold digits_ok in Hf. apply andb_true_iff in Hf as [Hf _].
    now apply digits_not_bracket.
  - destruct exp as [[[letter sign] ed]|]; [|constructor]. cbn in *.
    apply andb_true_iff in He as [He Hed]. apply andb_true_iff in He as [Hl Hs].
    unfold digits_ok in Hed. apply andb_true_iff in Hed as [Hed _].
    constructor; [revert Hl; unfold_chars; char_cases|].
    apply Forall_app_2; [|now apply digits_not_bracket].
    destruct sign as [g|]; [|constructor]. constructor; [|constructor].
    revert Hs. unfold_chars. char_cases.
Qed.

(** The part of an item before a cut that is not inside a string literal
    has no bracket. *)
Lemma cut_item_no_bracket i q q' :
  match i with Gap _ => True | Lex l => lexeme_ok l = true end ->
  item_text i = q ++ q' -> q' <> [] ->
  (is_string_item i = true -> q = []) ->
  Forall (fun c => is_bracket c = false) q.
Proof.
  intros Hok E Hq' Hstr.
  assert (forall c : N, [c] = q ++ q' -> q = []) as Hone.
  { intros c Ec. destruct q as [|c0 q]; [reflexivity|].
    destruct q; destruct q'; cbn in Ec; congruence. }
  destruct i as [c|l]; cbn [item_text] in E.
  - rewrite (Hone c E). constructor.
  - destruct l; cbn [lexeme_text] in E;
      try (solve [rewrite (Hone _ E); constructor]);
      try (solve [apply (Forall_prefix _ q q' _ E); repeat constructor]).
    + rewrite (Hstr eq_refl). constructor.
    + apply (Forall_prefix _ q q' _ E). now apply numlit_not_bracket.
Qed.

(** *** Spacing of a prefix *)

Lemma delimits_prefix a b : delimits (a ++ b) = true -> delimits a = true.
Proof. now destruct a. Qed.

Lemma spaced_prefix pre : forall prev i post rest q q',
  spaced prev (pre ++ i :: post) rest = true ->
  item_text i = q ++ q' ->
  spaced prev pre q = true.
Proof.
  induction pre as [|[c|l] pre IH]; intros prev i post rest q q' H E;
    [reflexivity| |]; cbn [app spaced] in *.
  - apply andb_true_iff in H as [-> H]. exact (IH _ _ _ _ _ _ H E).
  - apply andb_true_iff in H as [H Hs]. apply andb_true_iff in H as [-> Hfit].
    rewrite (IH _ _ _ _ _ _ Hs E), andb_true_r. cbn [andb].
    destruct l; try reflexivity.
    apply andb_true_iff in Hfit as [-> Hd]. cbn [andb].
    rewrite items_text_app in Hd. change (i :: post) with ([i] ++ post) in Hd.
    rewrite items_text_app in Hd. unfold items_text at 2 in Hd. cbn in Hd.
    rewrite app_nil_r, E, <- !app_assoc in Hd.
    rewrite app_assoc in Hd. exact (delimits_prefix _ _ Hd).
Qed.

Lemma spaced_items_ok its : forall prev rest,
  spaced prev its rest = true ->
  Forall (fun i => match i with Gap _ => True | Lex l => lexeme_ok l = true end) its.
Proof.
  induction its as [|[c|l] its IH]; intros prev rest H; cbn in H.
  - constructor.
  - apply andb_true_iff in H as [_ H]. constructor; [exact I|exact (IH _ _ H)].
  - apply andb_true_iff in H as [H Hs]. apply andb_true_iff in H as [Hok _].
    constructor; [exact Hok|exact (IH _ _ Hs)].
Qed.

(** The items of a container: its brackets around the items of its
    body. *)
Lemma container_items j :
  is_container j = true ->
  exists o c body,
    items j = Lex o :: body ++ [Lex c]
    /\ item_lexemes body = body_lexemes j
    /\ (lexeme_text o = [Ch.lbracket] \/ lexeme_text o = [Ch.lbrace])
    /\ lexeme_shape o = Opens.
Proof.
  intros Hc. pose proof (item_lexemes_json j) as H.
  destruct j as [| | | | |w es|w ms]; try discriminate Hc; cbn [items lexemes] in H.
  - eexists LBracket, RBracket, _. cbn [items]. rewrite app_assoc.
    split; [reflexivity|]. split; [|split; [now left|reflexivity]].
    rewrite app_assoc in H. cbn [item_lexemes omap] in H.
    injection H as H. fold (item_lexemes) in H.
    change (omap _ ?l) with (item_lexemes l) in H.
    rewrite item_lexemes_app in H. now apply app_inv_tail in H.
  - eexists LBrace, RBrace, _. cbn [items]. rewrite app_assoc.
    split; [reflexivity|]. split; [|split; [now right|reflexivity]].
    rewrite app_assoc in H. cbn [item_lexemes omap] in H.
    injection H as H.
    change (omap _ ?l) with (item_lexemes l) in H.
    rewrite item_lexemes_app in H. now apply app_inv_tail in H.
Qed.

(** [jsonRawDecode] on a non-empty prefix of a container, cut in an item
    of which it keeps no bracket or brace. *)
Lemma jsonRawDecode_prefix j pre i post q q' :
  json_ok j = true -> is_container j = true ->
  items j = pre ++ i :: post ->
  item_text i = q ++ q' -> q' <> [] ->
  Forall (fun c => is_bracket c = false) q ->
  items_text pre ++ q <> [] ->
  jsonRawDecode (items_text pre ++ q) None = RawZero.
Proof.
  intros Hok Hc Hitems Ei Hq' Hnb Hne.
  assert (spaced None (items j) [] = true) as Hsp.
  { pose proof (json_accepts [] j Hok [] (conj eq_refl (fun _ => eq_refl)) None eq_refl) as H.
    now rewrite app_nil_r in H. }
  rewrite Hitems in Hsp.
  pose proof (spaced_prefix pre None i post [] q q' Hsp Ei) as Hpre.
  destruct (scan_items pre None 0 q Hpre) as [prev' Escan].
  assert (Forall (fun x => x = Other)
            (shape_of <$> scan 0 prev' (0 + length (items_text pre)) q)) as Hq.
  { now apply scan_other_shapes. }
  destruct (container_items j Hc) as (o & c & body & Ej & Ebody & Ho & Hso).
  (* the prefix starts with the opening bracket *)
  destruct pre as [|i0 pre'].
  { exfalso. cbn in Hitems. rewrite Ej in Hitems. injection Hitems as <- _.
    cbn [item_text] in Ei. apply Hne. cbn.
    destruct q as [|c0 q]; [reflexivity|].
    destruct Ho as [Ho|Ho]; rewrite Ho in Ei; destruct q; destruct q';
      cbn in Ei; congruence. }
  rewrite Ej in Hitems. cbn [app] in Hitems. injection Hitems as <- Hbody.
  (* the rest of the prefix lies in the body *)
  assert (exists post', body = pre' ++ post') as (post' & ->).
  { destruct (exists_last (l := i :: post)) as (post' & x & Ex); [discriminate|].
    rewrite Ex, app_assoc in Hbody. apply app_inj_tail in Hbody as [-> _].
    now exists post'. }
  unfold jsonRawDecode, tokenize. rewrite Escan. cbn [toks_at app].
  cbn [tok_text].
  set (rest := toks_at _ pre' ++ _).
  assert (forall r0,
            stack (run (BState [(r0, [])] r0 None (-1)) rest) <> []) as Hstack.
  { intros r0.
    assert (exists m, level 1 (shape_of <$> rest) = Some m) as (m & Hm).
    { subst rest. rewrite fmap_app, level_app, toks_at_shapes.
      - assert (lexeme_shape <$> body_lexemes j
                = (lexeme_shape <$> item_lexemes pre')
                  ++ (lexeme_shape <$> item_lexemes post')) as Esplit
          by (now rewrite <- Ebody, item_lexemes_app, fmap_app).
        destruct (balanced_level _ (body_balanced j) 1 (le_n 1)) as [_ Hp].
        destruct (Hp _ _ Esplit) as (m & -> & Hm). cbn.
        exists m. now apply level_others.
      - pose proof (spaced_lexemes_ok _ _ _ Hpre) as Hl. cbn in Hl.
        now apply Forall_cons in Hl as [_ Hl]. }
    destruct (run_level rest (BState [(r0, [])] r0 None (-1)) m eq_refl
                (le_n 1) Hm) as [_ Hlen].
    pose proof (level_pos _ _ _ (le_n 1) Hm).
    destruct (stack _); [cbn in Hlen; lia|discriminate]. }
  destruct Ho as [-> | ->].
  - rewrite bool_decide_eq_false_2 by discriminate.
    rewrite bool_decide_eq_true_2 by reflexivity. cbv zeta.
    specialize (Hstack (VArr 0 [])). now destruct (stack _).
  - rewrite bool_decide_eq_true_2 by reflexivity. cbv zeta.
    specialize (Hstack (VObj [])). now destruct (stack _).
Qed.
(* ===================================================================== *)
(** ** The tokens of an arbitrary input *)
(* ===================================================================== *)

Lemma span_digits_le s : span_digits s <= length s.
Proof.
  induction s as [|c s IH]; [reflexivity|]. cbn.
  destruct (is_digit c); cbn; lia.
Qed.

Lemma starts_with_length p : forall s,
  starts_with p s = true -> length p <= length s.
Proof.
  induction p as [|a p IH]; intros [|b s] H; cbn in *; try lia; try discriminate.
  apply andb_true_iff in H as [_ H]. specialize (IH _ H). lia.
Qed.

Lemma frac_len_le s f : frac_len s = Some f -> 1 <= f <= length s.
Proof.
  destruct s as [|c r]; [discriminate|]. cbn.
  destruct (c =? Ch.dot)%N; [|discriminate].
  pose proof (span_digits_le r).
  destruct (span_digits r); [discriminate|]. intros [= <-]. lia.
Qed.

Lemma exp_len_le s e : exp_len s = Some e -> 1 <= e <= length s.
Proof.
  destruct s as [|c r]; [discriminate|]. cbn.
  destruct ((c =? Ch.lower_e) || (c =? Ch.upper_e))%N; [|discriminate].
  destruct r as [|g r']; [discriminate|].
  destruct ((g =? Ch.plus) || (g =? Ch.minus))%N.
  - pose proof (span_digits_le r').
    destruct (span_digits r'); [discriminate|]. intros [= <-]. cbn. lia.
  - pose proof (span_digits_le (g :: r')).
    destruct (span_digits (g :: r')); [discriminate|]. intros [= <-].
    cbn in *. lia.
Qed.

Lemma first_end_elem s ends n : first_end s ends = Some n -> n ∈ ends.
Proof.
  induction ends as [|m ends IH]; [discriminate|]. cbn.
  destruct (ends_at_boundary s m).
  - intros [= ->]. left.
  - intros H. right. now apply IH.
Qed.

Lemma match_unsigned_le prev s n :
  match_unsigned prev s = Some n -> 1 <= n <= length s.
Proof.
  destruct s as [|d r]; [discriminate|]. unfold match_unsigned.
  destruct (is_digit d && boundary prev (Some d)); [|discriminate].
  set (int := if (d =? Ch.zero)%N then 1 else S (span_digits r)).
  assert (1 <= int <= length (d :: r)) as Hint.
  { subst int. pose proof (span_digits_le r).
    destruct (d =? Ch.zero)%N; cbn; lia. }
  cbv zeta. intros H. apply first_end_elem in H.
  assert (length (drop int (d :: r)) = length (d :: r) - int) as Hd
    by apply length_drop.
  destruct (frac_len (drop int (d :: r))) as [f|] eqn:Ef.
  - apply frac_len_le in Ef.
    assert (length (drop f (drop int (d :: r))) = length (d :: r) - int - f) as Hd2
      by (rewrite length_drop; lia).
    destruct (exp_len (drop f (drop int (d :: r)))) as [e|] eqn:Ee;
      [apply exp_len_le in Ee|];
      (destruct (exp_len (drop int (d :: r))) as [e'|] eqn:Ee';
       [apply exp_len_le in Ee'|]);
      cbn [app] in H; set_unfold in H; lia.
  - destruct (exp_len (drop int (d :: r))) as [e'|] eqn:Ee';
      [apply exp_len_le in Ee'|];
      cbn [app] in H; set_unfold in H; lia.
Qed.

Lemma match_number_le prev s n :
  match_number prev s = Some n -> 1 <= n <= length s.
Proof.
  destruct s as [|c r]; [discriminate|]. unfold match_number.
  destruct (c =? Ch.minus)%N.
  - destruct (match_unsigned (Some c) r) as [m|] eqn:E; [|discriminate].
    apply match_unsigned_le in E. intros [= <-]. cbn. lia.
  - apply match_unsigned_le.
Qed.

Lemma string_rest_le s : forall n, string_rest s = Some n -> 1 <= n <= length s.
Proof.
  induction s as [s IH] using (induction_ltof1 _ (@length N)). unfold ltof in IH.
  intros n. destruct s as [|c r]; [discriminate|]. cbn [string_rest].
  destruct (c =? Ch.quote)%N; [intros [= <-]; cbn; lia|].
  destruct (c =? Ch.backslash)%N.
  - destruct r as [|e r1]; [discriminate|].
    destruct (is_simple_escape e).
    + destruct (string_rest r1) as [m|] eqn:E; [|discriminate].
      apply IH in E; [|cbn; lia]. intros [= <-]. cbn. lia.
    + destruct (e =? Ch.lower_u)%N; [|discriminate].
      destruct r1 as [|h1 [|h2 [|h3 [|h4 r2]]]]; try discriminate.
      destruct (is_hex h1 && is_hex h2 && is_hex h3 && is_hex h4); [|discriminate].
      destruct (string_rest r2) as [m|] eqn:E; [|discriminate].
      apply IH in E; [|cbn; lia]. intros [= <-]. cbn. lia.
  - destruct (is_plain c); [|discriminate].
    destruct (string_rest r) as [m|] eqn:E; [|discriminate].
    apply IH in E; [|cbn; lia]. intros [= <-]. cbn. lia.
Qed.

Lemma match_string_le s n : match_string s = Some n -> 1 <= n <= length s.
Proof.
  destruct s as [|c r]; [discriminate|]. cbn.
  destruct (c =? Ch.quote)%N; [|discriminate].
  destruct (string_rest r) as [m|] eqn:E; [|discriminate].
  apply string_rest_le in E. intros [= <-]. cbn. lia.
Qed.

(** A match of the token pattern lies within the text. *)
Lemma jsonToken_le prev s n : jsonToken prev s = Some n -> 1 <= n <= length s.
Proof.
  unfold jsonToken.
  destruct (starts_with (js "false") s) eqn:E1;
    [apply starts_with_length in E1; intros [= <-]; cbn in *; lia|].
  destruct (starts_with (js "true") s) eqn:E2;
    [apply starts_with_length in E2; intros [= <-]; cbn in *; lia|].
  destruct (starts_with (js "null") s) eqn:E3;
    [apply starts_with_length in E3; intros [= <-]; cbn in *; lia|].
  case_bool_decide as E4.
  - intros [= <-]. destruct s; [discriminate|]. cbn. lia.
  - destruct (match_number prev s) as [m|] eqn:E5.
    + intros [= <-]. now apply match_number_le in E5.
    + apply match_string_le.
Qed.

(** Every token of [scan] is a non-empty piece of the text, found at its
    offset, past the characters that are skipped. *)
Lemma scan_layout s : forall skip prev pos,
  Forall (fun t => pos + skip <= tok_index t /\ tok_text t <> []
                   /\ tok_end t <= pos + length s
                   /\ tok_text t
                      = take (length (tok_text t)) (drop (tok_index t - pos) s))
         (scan skip prev pos s).
Proof.
  induction s as [|c r IH]; intros skip prev pos; [constructor|].
  assert (forall k p,
            Forall (fun t => pos + S k <= tok_index t /\ tok_text t <> []
                      /\ tok_end t <= pos + length (c :: r)
                      /\ tok_text t
                         = take (length (tok_text t))
                                (drop (tok_index t - pos) (c :: r)))
                   (scan k p (S pos) r)) as IH'.
  { intros k p. eapply Forall_impl; [apply (IH k p (S pos))|].
    intros t (H1 & H2 & H3 & H4). cbn [length]. repeat split; try lia; try assumption.
    replace (tok_index t - pos) with (S (tok_index t - S pos)) by lia.
    exact H4. }
  cbn [scan]. destruct skip as [|k].
  - destruct (jsonToken prev (c :: r)) as [[|n]|] eqn:E.
    + eapply Forall_impl; [apply (IH' 0 (Some c))|].
      intros t (H1 & H2 & H3 & H4). repeat split; try lia; assumption.
    + constructor.
      * unfold tok_end. cbn [tok_index tok_text]. rewrite Nat.sub_diag.
        cbn [drop]. rewrite length_take. repeat split; try lia; [discriminate|].
        destruct (Nat.min_spec (S n) (length (c :: r))) as [[_ ->]|[Hle ->]];
          [reflexivity|].
        now rewrite !take_ge by lia.
      * eapply Forall_impl; [apply (IH' n (Some c))|].
        intros t (H1 & H2 & H3 & H4). repeat split; try lia; assumption.
    + eapply Forall_impl; [apply (IH' 0 (Some c))|].
      intros t (H1 & H2 & H3 & H4). repeat split; try lia; assumption.
  - eapply Forall_impl; [apply (IH' k (Some c))|].
    intros t (H1 & H2 & H3 & H4). repeat split; try lia; assumption.
Qed.

(** The tokens of [scan] follow one another without overlap. *)
Lemma scan_ordered s : forall skip prev pos i j t u,
  i < j ->
  scan skip prev pos s !! i = Some t -> scan skip prev pos s !! j = Some u ->
  tok_end t <= tok_index u.
Proof.
  induction s as [|c r IH]; intros skip prev pos i j t u Hij; [discriminate|].
  cbn [scan]. destruct skip as [|k]; [|apply IH; exact Hij].
  destruct (jsonToken prev (c :: r)) as [[|n]|] eqn:E;
    try (apply IH; exact Hij).
  destruct i as [|i].
  - destruct j as [|j]; [lia|]. cbn [lookup list_lookup]. intros [= <-] Hu.
    pose proof (scan_layout r n (Some c) (S pos)) as Hl.
    rewrite Forall_lookup in Hl. destruct (Hl _ _ Hu) as (H1 & _).
    unfold tok_end. cbn [tok_index tok_text length]. rewrite length_take. lia.
  - destruct j as [|j]; [lia|]. cbn [lookup list_lookup].
    apply IH. lia.
Qed.

(** X1. Whatever the input, every token that [tokenize] returns is a
    non-empty piece of the input: its text is the substring that starts at
    its index, and it ends within the input. *)
Theorem tokens_are_substrings s t :
  t ∈ tokenize s ->
  tok_text t <> []
  /\ tok_index t + length (tok_text t) <= length s
  /\ take (length (tok_text t)) (drop (tok_index t) s) = tok_text t.
Proof.
  intros Ht. pose proof (scan_layout s 0 None 0) as Hl.
  rewrite Forall_forall in Hl. destruct (Hl t Ht) as (_ & H2 & H3 & H4).
  rewrite Nat.sub_0_r in H4. unfold tok_end in H3. cbn in H3.
  split; [exact H2|]. split; [exact H3|]. now symmetry.
Qed.

Lemma tokens_are_substrings_witness :
  Token (js "12") 6 ∈ tokenize (js "{'a': 12}")
  /\ js "12" <> []
  /\ 6 + length (js "12") <= length (js "{'a': 12}")
  /\ take (length (js "12")) (drop 6 (js "{'a': 12}")) = js "12".
Proof.
  assert (Token (js "12") 6 ∈ tokenize (js "{'a': 12}")) as H
    by (apply list_elem_of_lookup; exists 2; reflexivity).
  split; [exact H|]. exact (tokens_are_substrings _ _ H).
Defined.

(** X2. Whatever the input, the tokens that [tokenize] returns come in
    the order of the text and do not overlap: a token ends before or
    where every later token starts. *)
Theorem tokens_do_not_overlap s i j t u :
  i < j -> tokenize s !! i = Some t -> tokenize s !! j = Some u ->
  tok_index t + length (tok_text t) <= tok_index u.
Proof. intros Hij Ht Hu. exact (scan_ordered s 0 None 0 i j t u Hij Ht Hu). Qed.

Lemma tokens_do_not_overlap_witness :
  0 < 2
  /\ tokenize (js "[true,false]") !! 0 = Some (Token (js "[") 0)
  /\ tokenize (js "[true,false]") !! 2 = Some (Token (js "false") 6)
  /\ 0 + length (js "[") <= 6.
Proof.
  split; [lia|]. split; [reflexivity|]. split; [reflexivity|].
  exact (tokens_do_not_overlap (js "[true,false]") 0 2 _ _
           (Nat.lt_0_succ 1) eq_refl eq_refl).
Defined.

(* ===================================================================== *)
(** ** Separators before the first token *)
(* ===================================================================== *)

(** The token pattern looks at the character before it only to tell
    whether it is a word character. *)
Lemma match_unsigned_prev p p' s :
  word_opt p = word_opt p' -> match_unsigned p s = match_unsigned p' s.
Proof.
  intros H. destruct s as [|d r]; [reflexivity|].
  unfold match_unsigned, boundary. now rewrite H.
Qed.

Lemma jsonToken_prev p p' s :
  word_opt p = word_opt p' -> jsonToken p s = jsonToken p' s.
Proof.
  intros H. unfold jsonToken, match_number.
  destruct s as [|c r]; [reflexivity|].
  now rewrite (match_unsigned_prev p p' _ H).
Qed.

Lemma scan_prev s skip pos p p' :
  word_opt p = word_opt p' -> scan skip p pos s = scan skip p' pos s.
Proof.
  intros H. destruct s as [|c r]; [reflexivity|]. cbn [scan].
  now rewrite (jsonToken_prev p p' _ H).
Qed.

(** Tokens of a text that starts later in the input. *)
Lemma scan_shift k s : forall skip prev pos,
  scan skip prev (k + pos) s = shift_token k <$> scan skip prev pos s.
Proof.
  induction s as [|c r IH]; intros skip prev pos; [reflexivity|].
  cbn [scan]. rewrite <- Nat.add_succ_r.
  destruct skip as [|n]; [|apply IH].
  destruct (jsonToken prev (c :: r)) as [[|n]|]; try apply IH.
  rewrite fmap_cons. f_equal. apply IH.
Qed.

Lemma scan_gaps w : forall prev pos s,
  Forall (fun c => is_gap c = true) w -> word_opt prev = false ->
  scan 0 prev pos (w ++ s) = scan 0 None (pos + length w) s.
Proof.
  induction w as [|c w IH]; intros prev pos s Hw Hp.
  - cbn [app length]. rewrite Nat.add_0_r. now apply scan_prev.
  - apply Forall_cons in Hw as [Hc Hw]. cbn [app length].
    rewrite (scan_gap _ _ _ _ Hc), (IH (Some c) (S pos) s Hw).
    + f_equal. lia.
    + now apply is_gap_not_word.
Qed.

(** The tokens of a text that follows separators are those of the text,
    moved by the length of the separators. *)
Lemma tokenize_gaps w s :
  Forall (fun c => is_gap c = true) w ->
  tokenize (w ++ s) = shift_token (length w) <$> tokenize s.
Proof.
  intros Hw. unfold tokenize. rewrite (scan_gaps w None 0 s Hw eq_refl).
  rewrite <- (scan_shift (length w) s 0 None 0). f_equal. lia.
Qed.

(** The state of the loop with the recorded offset moved by [k]. *)
Lemma step_shift k st t :
  index st = (-1)%Z ->
  step st (shift_token k t)
  = BState (stack (step st t)) (root (step st t)) (key (step st t))
           (if (index (step st t) =? -1)%Z then -1
            else index (step st t) + Z.of_nat k)%Z.
Proof.
  intros Hi. destruct st as [stk rt ky ix]. cbn in Hi. subst ix.
  unfold step, shift_token. cbn [tok_text tok_index].
  assert (forall n : nat, (Z.of_nat n =? -1)%Z = false) as Hn
    by (intros n; apply Z.eqb_neq; lia).
  assert (forall v, store (BState stk rt ky (-1)) (k + tok_index t) v
            = let s := store (BState stk rt ky (-1)) (tok_index t) v in
              BState (stack s) (root s) (key s)
                (if (index s =? -1)%Z then -1 else index s + Z.of_nat k)%Z) as Hstore.
  { intros v. unfold store. cbn [stack root key index].
    destruct stk as [|[cont slot] below]; cbn [stack root key index].
    - rewrite Hn. f_equal. lia.
    - reflexivity. }
  assert (forall v, open (BState stk rt ky (-1)) (k + tok_index t) v
            = let s := open (BState stk rt ky (-1)) (tok_index t) v in
              BState (stack s) (root s) (key s)
                (if (index s =? -1)%Z then -1 else index s + Z.of_nat k)%Z) as Hopen.
  { intros v. unfold open. cbn [stack root key index].
    destruct stk as [|[cont slot] below]; cbn [stack root key index].
    - rewrite Hn. f_equal. lia.
    - reflexivity. }
  assert (shift (BState stk rt ky (-1))
          = let s := shift (BState stk rt ky (-1)) in
            BState (stack s) (root s) (key s)
              (if (index s =? -1)%Z then -1 else index s + Z.of_nat k)%Z) as Hshift.
  { unfold shift. cbn [stack root key index].
    destruct stk as [|[cont slot] [|[parent pslot] below]]; reflexivity. }
  assert (store_string (BState stk rt ky (-1)) (k + tok_index t) (tok_text t)
          = let s := store_string (BState stk rt ky (-1)) (tok_index t) (tok_text t) in
            BState (stack s) (root s) (key s)
              (if (index s =? -1)%Z then -1 else index s + Z.of_nat k)%Z) as Hstr.
  { unfold store_string. cbn [stack root key index].
    destruct stk as [|[cont slot] below]; cbn [stack root key index].
    - rewrite Hn. f_equal. lia.
    - destruct ky; [reflexivity|]. now destruct (is_array cont). }
  cbv zeta in *.
  destruct (head (tok_text t)) as [c|]; [|apply Hstore].
  destruct c as [|p]; [apply Hstore|].
  do 7 (try (destruct p as [p|p|])); first [apply Hstore|apply Hopen|apply Hshift|apply Hstr].
Qed.

Lemma run_shift k toks : forall st,
  index st = (-1)%Z ->
  run st (shift_token k <$> toks)
  = BState (stack (run st toks)) (root (run st toks)) (key (run st toks))
           (if (index (run st toks) =? -1)%Z then -1
            else index (run st toks) + Z.of_nat k)%Z.
Proof.
  induction toks as [|t toks IH]; intros st Hi.
  - rewrite fmap_nil. cbn [run]. rewrite Hi. destruct st. cbn in Hi. now subst.
  - rewrite fmap_cons. cbn [run]. rewrite (step_shift k st t Hi).
    cbn [index].
    destruct (Z.leb_spec 0 (index (step st t))) as [Hge|Hlt].
    + destruct (Z.eqb_spec (index (step st t)) (-1)); [lia|].
      destruct (Z.leb_spec 0 (index (step st t) + Z.of_nat k)); [reflexivity|lia].
    + assert (index (step st t) = (-1)%Z) as E.
      { destruct st as [stk rt ky ix]. cbn in Hi. subst ix.
        pose proof (step_effect (BState stk rt ky (-1)) t eq_refl) as He.
        cbn [stack] in He.
        destruct stk as [|f stk], (shape_of t); try (rewrite He; reflexivity);
          try (destruct He as [_ He]; lia); try (now destruct He as [He _]).
      }
      rewrite E. cbn. rewrite <- (IH (step st t) E).
      f_equal. destruct (step st t); cbn in E; now subst.
Qed.

(** X3. White space, commas and colons before the first token are passed
    over: when a text has a token, [jsonRawDecode] answers on the text
    preceded by such characters as on the text itself, the returned offset
    being moved by their number. *)
Theorem leading_separators_move_offset w s rv :
  Forall (fun c => is_gap c = true) w -> tokenize s <> [] ->
  jsonRawDecode (w ++ s) rv
  = match jsonRawDecode s rv with
    | RawZero => RawZero
    | RawPair v i => RawPair v (i + Z.of_nat (length w))
    end.
Proof.
  intros Hw Hs. unfold jsonRawDecode. rewrite (tokenize_gaps w s Hw).
  destruct (tokenize s) as [|t0 rest]; [contradiction|]. clear Hs.
  rewrite fmap_cons. change (tok_text (shift_token (length w) t0)) with (tok_text t0).
  set (init := if bool_decide (tok_text t0 = [Ch.lbrace]) then (VObj [], false)
               else if bool_decide (tok_text t0 = [Ch.lbracket])
                    then (VArr 0 [], false) else (VArr 0 [], true)).
  destruct init as [result [|]]; cbv zeta.
  - change (shift_token (length w) t0 :: (shift_token (length w) <$> rest))
      with (shift_token (length w) <$> t0 :: rest).
    rewrite (run_shift (length w) (t0 :: rest)) by reflexivity.
    cbn [stack root index].
    destruct (stack (run _ (t0 :: rest))) as [|[wrapper ?] [|? ?]]; try reflexivity.
    f_equal. rewrite length_app.
    destruct (Z.eqb_spec (index (run (BState [(result, [])] result None (-1)) (t0 :: rest))) (-1)) as [E|E].
    + cbn. lia.
    + destruct (Z.eqb_spec (index (run (BState [(result, [])] result None (-1)) (t0 :: rest)) + Z.of_nat (length w)) (-1)); [|reflexivity].
      exfalso.
      pose proof (run_following (t0 :: rest) (BState [(result, [])] result None (-1)) eq_refl) as Hf.
      destruct (following_token _ _); lia.
  - rewrite (run_shift (length w) rest) by reflexivity.
    cbn [stack root index].
    destruct (stack (run _ rest)) as [|? ?]; try reflexivity.
    f_equal. rewrite length_app.
    destruct (Z.eqb_spec (index (run (BState [(result, [])] result None (-1)) rest)) (-1)) as [E|E].
    + cbn. lia.
    + destruct (Z.eqb_spec (index (run (BState [(result, [])] result None (-1)) rest) + Z.of_nat (length w)) (-1)); [|reflexivity].
      exfalso.
      pose proof (run_following rest (BState [(result, [])] result None (-1)) eq_refl) as Hf.
      destruct (following_token _ _); lia.
Qed.

Lemma leading_separators_move_offset_witness :
  Forall (fun c => is_gap c = true) (js " ,")
  /\ tokenize (js "[1] [2]") <> []
  /\ jsonRawDecode (js "[1] [2]") None = RawPair (VArr 1 [(js "0", VNum (js "1"))]) 4
  /\ jsonRawDecode (js " ," ++ js "[1] [2]") None
     = RawPair (VArr 1 [(js "0", VNum (js "1"))]) 6.
Proof.
  assert (Forall (fun c => is_gap c = true) (js " ,")) as Hw
    by (repeat constructor).
  assert (tokenize (js "[1] [2]") <> []) as Hs by discriminate.
  split; [exact Hw|]. split; [exact Hs|]. split; [reflexivity|].
  exact (leading_separators_move_offset (js " ,") (js "[1] [2]") None Hw Hs).
Defined.
(* ===================================================================== *)
(** ** The offset returned by jsonRawDecode and the end of jsonDecode *)
(* ===================================================================== *)

Lemma following_token_elem toks : forall d t,
  following_token d toks = Some t -> t ∈ toks.
Proof.
  induction toks as [|u r IH]; intros d t; [discriminate|]. cbn.
  destruct d as [|d], (shape_of u); intros H;
    try (injection H as ->; left); try (right; exact (IH _ _ H)).
Qed.

(** With a container open, the loop does not stop at the next token. *)
Lemma following_token_later d u r t :
  following_token (S d) (u :: r) = Some t -> t ∈ r.
Proof. cbn. destruct (shape_of u); apply following_token_elem. Qed.

(** The offset that [jsonRawDecode] returns with a value: the length of
    the text, or the index of a token after the first. *)
Lemma jsonRawDecode_offset s rv t0 rest v idx :
  tokenize s = t0 :: rest ->
  jsonRawDecode s rv = RawPair v idx ->
  idx = Z.of_nat (length s)
  \/ exists t, t ∈ rest /\ idx = Z.of_nat (tok_index t).
Proof.
  intros Ht. unfold jsonRawDecode. rewrite Ht.
  set (init := if bool_decide (tok_text t0 = [Ch.lbrace]) then (VObj [], false)
               else if bool_decide (tok_text t0 = [Ch.lbracket])
                    then (VArr 0 [], false) else (VArr 0 [], true)).
  destruct init as [result [|]]; cbv zeta.
  - pose proof (run_following (t0 :: rest) (BState [(result, [])] result None (-1)) eq_refl) as Hf.
    cbn [stack length] in Hf.
    set (st := run _ (t0 :: rest)) in *. clearbody st.
    destruct (stack st) as [|[wrapper ?] [|? ?]]; try discriminate.
    intros [= _ <-].
    destruct (following_token 1 (t0 :: rest)) as [t|] eqn:E.
    + right. exists t. split; [exact (following_token_later _ _ _ _ E)|].
      rewrite Hf. destruct (Z.eqb_spec (Z.of_nat (tok_index t)) (-1)); [lia|reflexivity].
    + left. now rewrite Hf.
  - pose proof (run_following rest (BState [(result, [])] result None (-1)) eq_refl) as Hf.
    cbn [stack length] in Hf.
    set (st := run _ rest) in *. clearbody st.
    destruct (stack st) as [|? ?]; try discriminate.
    intros [= _ <-].
    destruct (following_token 1 rest) as [t|] eqn:E.
    + right. exists t. split; [exact (following_token_elem _ _ _ E)|].
      rewrite Hf. destruct (Z.eqb_spec (Z.of_nat (tok_index t)) (-1)); [lia|reflexivity].
    + left. now rewrite Hf.
Qed.

(** A token after the first starts after the first character and before
    the end of the text. *)
Lemma later_token_index s t0 rest t :
  tokenize s = t0 :: rest -> t ∈ rest -> 0 < tok_index t < length s.
Proof.
  intros Ht Hin. apply list_elem_of_lookup in Hin as [j Hj].
  pose proof (scan_ordered s 0 None 0 0 (S j) t0 t (Nat.lt_0_succ j)) as Ho.
  fold (tokenize s) in Ho. rewrite Ht in Ho. specialize (Ho eq_refl Hj).
  pose proof (scan_layout s 0 None 0) as Hl. fold (tokenize s) in Hl.
  rewrite Ht, Forall_lookup in Hl.
  destruct (Hl 0 t0 eq_refl) as (_ & H0 & _).
  destruct (Hl (S j) t Hj) as (_ & H1 & H2 & _).
  unfold tok_end in *. destruct (tok_text t0), (tok_text t); cbn in *;
    try contradiction; lia.
Qed.

(** X4. The offset that [jsonRawDecode] returns next to a value lies in
    the text and, when the text has a token, past its first character:
    without a token the answer is undefined and 0, with one the offset is
    at least 1 and at most the length of the text. *)
Theorem returned_offset_within_text s rv v idx :
  jsonRawDecode s rv = RawPair v idx ->
  (tokenize s = [] /\ v = VUndef /\ idx = 0%Z)
  \/ (tokenize s <> [] /\ (0 < idx <= Z.of_nat (length s))%Z).
Proof.
  intros H. destruct (tokenize s) as [|t0 rest] eqn:Ht.
  - left. rewrite (jsonRawDecode_no_token s rv Ht) in H. injection H as <- <-.
    now repeat split.
  - right. split; [discriminate|].
    assert (0 < length s) as Hlen.
    { destruct s; [discriminate Ht|cbn; lia]. }
    destruct (jsonRawDecode_offset s rv t0 rest v idx Ht H) as [->|(t & Hin & ->)];
      [lia|].
    pose proof (later_token_index s t0 rest t Ht Hin). lia.
Qed.

Lemma returned_offset_within_text_witness :
  jsonRawDecode (js "{'a':[]}x{") None = RawPair (VObj [(js "a", VArr 0 [])]) 9
  /\ ((tokenize (js "{'a':[]}x{") = []
       /\ VObj [(js "a", VArr 0 [])] = VUndef /\ 9%Z = 0%Z)
      \/ (tokenize (js "{'a':[]}x{") <> []
          /\ (0 < 9 <= Z.of_nat (length (js "{'a':[]}x{")))%Z)).
Proof.
  split; [reflexivity|].
  exact (returned_offset_within_text (js "{'a':[]}x{") None _ _ eq_refl).
Defined.

(** *** The text that jsonDecode goes on with *)

Lemma jsonToken_nil p : jsonToken p [] = None.
Proof. reflexivity. Qed.

(** A match stays a match when nothing stands before it. *)
Lemma jsonToken_at_start p s n :
  jsonToken p s = Some n -> jsonToken None s = Some n.
Proof.
  unfold jsonToken.
  destruct (starts_with (js "false") s); [easy|].
  destruct (starts_with (js "true") s); [easy|].
  destruct (starts_with (js "null") s); [easy|].
  case_bool_decide; [easy|].
  destruct s as [|c r]; [easy|]. unfold match_number.
  destruct (c =? Ch.minus)%N eqn:Ec; [easy|].
  destruct (word_opt p) eqn:Ep.
  - assert (match_unsigned p (c :: r) = None) as ->.
    { unfold match_unsigned, boundary. rewrite Ep. cbn [word_opt].
      destruct (is_digit c) eqn:Ed; [|reflexivity].
      now rewrite (is_digit_word _ Ed). }
    unfold match_string. destruct (c =? Ch.quote)%N eqn:Eq; [|discriminate].
    apply N.eqb_eq in Eq. subst c. intros Hs. exact Hs.
  - now rewrite (match_unsigned_prev p None (c :: r) Ep).
Qed.

(** The text from the index of a token on has a token. *)
Lemma scan_from_token s : forall skip prev pos t,
  t ∈ scan skip prev pos s ->
  pos <= tok_index t
  /\ exists n, jsonToken None (drop (tok_index t - pos) s) = Some (S n).
Proof.
  induction s as [|c r IH]; intros skip prev pos t Ht; [now apply elem_of_nil in Ht|].
  assert (forall k p, t ∈ scan k p (S pos) r ->
            pos <= tok_index t
            /\ exists n, jsonToken None (drop (tok_index t - pos) (c :: r)) = Some (S n)) as IH'.
  { intros k p H. destruct (IH _ _ _ _ H) as (Hle & n & Hn).
    split; [lia|]. exists n.
    replace (tok_index t - pos) with (S (tok_index t - S pos)) by lia. exact Hn. }
  cbn [scan] in Ht. destruct skip as [|k]; [|exact (IH' _ _ Ht)].
  destruct (jsonToken prev (c :: r)) as [[|n]|] eqn:E; try exact (IH' _ _ Ht).
  apply elem_of_cons in Ht as [->|Ht]; [|exact (IH' _ _ Ht)].
  cbn [tok_index]. split; [lia|]. exists n. rewrite Nat.sub_diag.
  exact (jsonToken_at_start _ _ _ E).
Qed.

Lemma tokenize_from_token s t :
  t ∈ tokenize s -> tokenize (drop (tok_index t) s) <> [].
Proof.
  intros Ht. destruct (scan_from_token s 0 None 0 t Ht) as (_ & n & Hn).
  rewrite Nat.sub_0_r in Hn. unfold tokenize.
  destruct (drop (tok_index t) s) as [|c r]; [discriminate Hn|].
  cbn [scan]. now rewrite Hn.
Qed.

(** [jsonDecode] returns on a text that is empty or has a token. *)
Lemma jsonDecode_total n : forall s acc,
  length s <= n -> s = [] \/ tokenize s <> [] ->
  exists l, jsonDecode (S n) s acc = Some l.
Proof.
  induction n as [|n IH]; intros s acc Hlen Hs; cbn [jsonDecode].
  - destruct s; [|cbn in Hlen; lia]. cbn. eauto.
  - destruct (jsonRawDecode s None) as [|v idx] eqn:Er; [eauto|].
    destruct (tokenize s) as [|t0 rest] eqn:Ht.
    + destruct Hs as [->|Hs]; [|contradiction]. cbn in Er. injection Er as <- <-.
      cbn. eauto.
    + destruct (jsonRawDecode_offset s None t0 rest v idx Ht Er) as [->|(t & Hin & ->)].
      * rewrite substr_nat, drop_all. eauto.
      * rewrite substr_nat.
        pose proof (later_token_index s t0 rest t Ht Hin) as Hi.
        assert (t ∈ tokenize s) as Hin' by (rewrite Ht; now right).
        pose proof (tokenize_from_token s t Hin') as Hne.
        destruct (drop (tok_index t) s) as [|c r] eqn:Ed; [eauto|].
        rewrite <- Ed. apply IH; [|right; now rewrite Ed].
        rewrite length_drop. lia.
Qed.

(** X5. On a text that is empty or has a token, and none of whose
    string tokens reads [__proto__] or [length], [jsonDecode] returns,
    within as many nested calls as the text has characters, plus one. On
    the other texts (not empty, without a token) it returns for no bound
    on the calls, whatever their strings. *)
Theorem jsonDecode_returns_iff s acc :
  ((exists fuel l, jsonDecode fuel s acc = Some l)
   -> s = [] \/ tokenize s <> [])
  /\ (ordinary_strings s = true ->
      s = [] \/ tokenize s <> [] ->
      exists l, jsonDecode (S (length s)) s acc = Some l).
Proof.
  split.
  - intros (fuel & l & H). destruct s as [|c r]; [now left|]. right.
    intros Ht. now rewrite (jsonDecode_no_token fuel c r acc Ht) in H.
  - intros _ Hs. now apply jsonDecode_total.
Qed.

Lemma jsonDecode_returns_iff_witness :
  ordinary_strings (js "{'a':[1]} 'b'") = true
  /\ tokenize (js "{'a':[1]} 'b'") <> []
  /\ jsonDecode 3 (js "{'a':[1]} 'b'") []
     = Some [VObj [(js "a", VArr 1 [(js "0", VNum (js "1"))])]; VStr (js "b")]
  /\ exists l,
       jsonDecode (S (length (js "{'a':[1]} 'b'"))) (js "{'a':[1]} 'b'") []
       = Some l.
Proof.
  assert (ordinary_strings (js "{'a':[1]} 'b'") = true) as H1 by reflexivity.
  assert (tokenize (js "{'a':[1]} 'b'") <> []) as H2 by discriminate.
  split; [exact H1|]. split; [exact H2|]. split; [reflexivity|].
  exact (proj2 (jsonDecode_returns_iff (js "{'a':[1]} 'b'") []) H1
           (or_intror H2)).
Defined.

(** X6. What [jsonDecode] returns is the list it was given followed by
    the values it decoded, and these do not depend on that list. *)
Theorem jsonDecode_extends_its_list fuel : forall s acc l,
  jsonDecode fuel s acc = Some l ->
  exists vs, l = acc ++ vs
             /\ forall acc', jsonDecode fuel s acc' = Some (acc' ++ vs).
Proof.
  induction fuel as [|fuel IH]; intros s acc l; [discriminate|].
  cbn [jsonDecode]. destruct (jsonRawDecode s None) as [|v idx].
  - intros [= <-]. exists []. split; [now rewrite app_nil_r|].
    intros acc'. now rewrite app_nil_r.
  - destruct (substr s idx) as [|c r].
    + intros [= <-]. exists [v]. eauto.
    + intros H. destruct (IH _ _ _ H) as (vs & -> & Hvs).
      exists (v :: vs). split; [now rewrite <- app_assoc|].
      intros acc'. rewrite (Hvs (acc' ++ [v])). now rewrite <- app_assoc.
Qed.

Lemma jsonDecode_extends_its_list_witness :
  jsonDecode 2 (js "[1]{}") [VNull] = Some [VNull; VArr 1 [(js "0", VNum (js "1"))]; VObj []]
  /\ exists vs, [VNull; VArr 1 [(js "0", VNum (js "1"))]; VObj []] = [VNull] ++ vs
                /\ forall acc', jsonDecode 2 (js "[1]{}") acc' = Some (acc' ++ vs).
Proof.
  split; [reflexivity|].
  exact (jsonDecode_extends_its_list 2 (js "[1]{}") [VNull] _ eq_refl).
Defined.
(* ===================================================================== *)
(** ** The check value and the packets of [src/actions/index.js] *)
(* ===================================================================== *)

Lemma total_nonneg array :
  Forall (fun b => 0 <= b <= 255)%Z array -> (0 <= total array)%Z.
Proof. induction 1 as [|b r Hb _ IH]; unfold total in *; cbn; lia. Qed.

(** The running value of [crcVal] over bytes: it stays between 0 and
    256, it is congruent to the sum modulo 256, and it is 0 only as long
    as nothing but zeros has been added. *)
Lemma crc_fold others : forall acc,
  (0 <= acc <= 256)%Z -> Forall (fun b => 0 <= b <= 255)%Z others ->
  (0 <= foldl crc_step acc others <= 256)%Z
  /\ (foldl crc_step acc others mod 256 = (acc + total others) mod 256)%Z
  /\ (foldl crc_step acc others = 0 <-> acc = 0 /\ total others = 0)%Z.
Proof.
  induction others as [|b r IH]; intros acc Hacc Hb.
  - cbn. rewrite Z.add_0_r. lia.
  - apply Forall_cons in Hb as [Hb Hr]. cbn [foldl total foldr].
    pose proof (total_nonneg r Hr) as Hn. fold (total r).
    assert (0 <= crc_step acc b <= 256
            /\ crc_step acc b mod 256 = (acc + b) mod 256
            /\ (crc_step acc b = 0 <-> acc = 0 /\ b = 0))%Z as (H1 & H2 & H3).
    { unfold crc_step. destruct (Z.ltb_spec 256 (acc + b)).
      - repeat split; try lia.
        replace (acc + b - 256)%Z with (acc + b + (-1) * 256)%Z by lia.
        apply Z_mod_plus_full.
      - repeat split; lia. }
    destruct (IH (crc_step acc b) H1 Hr) as (I1 & I2 & I3).
    split; [exact I1|]. split.
    + rewrite I2, Z.add_mod, H2, <- Z.add_mod by lia. f_equal. lia.
    + rewrite I3, H3. lia.
Qed.

(** X7. On a non-empty array of bytes [crcVal] returns a number between
    -1 and 255 that, added to the sum of the bytes, is congruent to 255
    modulo 256; it is -1, which is no byte, exactly when the sum is a
    positive multiple of 256. *)
Theorem crcVal_of_bytes array :
  array <> [] -> Forall (fun b => 0 <= b <= 255)%Z array ->
  exists crc,
    crcVal array = Some crc
    /\ (-1 <= crc <= 255)%Z
    /\ ((crc + total array) mod 256 = 255)%Z
    /\ (crc = -1 <-> 0 < total array /\ total array mod 256 = 0)%Z.
Proof.
  intros Hne Hb. destruct array as [|first others]; [contradiction|].
  apply Forall_cons in Hb as [Hf Ho]. cbn [crcVal total foldr]. fold (total others).
  destruct (crc_fold others first ltac:(lia) Ho) as (H1 & H2 & H3).
  pose proof (total_nonneg others Ho) as Hn.
  set (r := foldl crc_step first others) in *.
  exists (255 - r)%Z. split; [reflexivity|]. split; [lia|]. split.
  - replace (255 - r + (first + total others))%Z
      with ((first + total others) + (255 - r))%Z by lia.
    rewrite Z.add_mod, <- H2, <- Z.add_mod by lia.
    replace (r + (255 - r))%Z with 255%Z by lia. reflexivity.
  - split.
    + intros E. assert (r = 256)%Z as Er by lia. rewrite Er in *.
      split; [lia|]. rewrite <- H2. reflexivity.
    + intros [Hpos Hmod]. rewrite Hmod in H2.
      assert (r = 0 \/ r = 256)%Z as [E|E]; [|lia|lia].
      destruct (Z.eq_dec r 256%Z); [now right|left].
      rewrite Z.mod_small in H2 by lia. exact H2.
Qed.

Lemma crcVal_of_bytes_witness :
  [255; 1]%Z <> []
  /\ Forall (fun b => 0 <= b <= 255)%Z [255; 1]%Z
  /\ crcVal [255; 1]%Z = Some (-1)%Z
  /\ exists crc,
       crcVal [255; 1]%Z = Some crc
       /\ (-1 <= crc <= 255)%Z
       /\ ((crc + total [255; 1]%Z) mod 256 = 255)%Z
       /\ (crc = -1 <-> 0 < total [255; 1]%Z /\ total [255; 1]%Z mod 256 = 0)%Z.
Proof.
  assert ([255; 1]%Z <> []) as Hne by discriminate.
  assert (Forall (fun b => 0 <= b <= 255)%Z [255; 1]%Z) as Hb
    by (repeat constructor; lia).
  split; [exact Hne|]. split; [exact Hb|]. split; [reflexivity|].
  exact (crcVal_of_bytes [255; 1]%Z Hne Hb).
Defined.

(** The packet of one round: the next twenty bytes, or what is left. *)
Lemma slice_packet buffer offset :
  slice buffer offset
    (if length buffer <? offset + packetsize then length buffer
     else offset + packetsize)
  = take packetsize (drop offset buffer).
Proof.
  unfold slice, packetsize.
  destruct (Nat.ltb_spec (length buffer) (offset + 20)) as [Hlt|Hge].
  - rewrite Nat.min_id. rewrite !take_ge; [reflexivity| |];
      rewrite length_drop; lia.
  - rewrite Nat.min_l by lia. f_equal. lia.
Qed.

(** Quotient and remainder of a division by twenty, for [lia]. *)
Ltac div20 n :=
  pose proof (Nat.div_mod_eq n 20);
  pose proof (Nat.mod_upper_bound n 20 ltac:(lia)).

Lemma str2ab_length text : length (str2ab text) = length text.
Proof. apply length_fmap. Qed.

Lemma str2ab_small text :
  Forall (fun c => (c < 256)%N) text -> str2ab text = text.
Proof.
  unfold str2ab. induction 1 as [|c r Hc _ IH]; [reflexivity|].
  rewrite fmap_cons, IH. f_equal. now apply N.mod_small.
Qed.

Section Packets.
Variable btoa : jsstr -> jsstr.
Variables sv ch : jsstr.

(** The writes of the loop from [offset] on: the bytes from there, cut
    into packets of twenty, the last one shorter when the bytes run out. *)
Lemma write_loop_packets buffer fuel : forall offset,
  (length buffer - offset) / 20 < fuel ->
  exists packets,
    write_loop btoa sv ch fuel buffer offset
    = Some ((fun p => BleWrite sv ch (btoa p)) <$> packets)
    /\ concat packets = drop offset buffer
    /\ Forall (fun p => length p <= 20) packets
    /\ length packets = Nat.max 1 ((length buffer - offset + 19) / 20)
    /\ (forall i p, packets !! i = Some p -> S i < length packets ->
                    length p = 20).
Proof.
  induction fuel as [|fuel IH]; intros offset Hfuel; [lia|].
  cbn [write_loop]. rewrite slice_packet. unfold packetsize.
  destruct (Nat.ltb_spec (offset + 20) (length buffer)) as [Hlt|Hge].
  - destruct (IH (offset + 20)) as (packets & -> & Hcat & Hall & Hlen & Hfull).
    { div20 (length buffer - offset). div20 (length buffer - (offset + 20)). lia. }
    exists (take 20 (drop offset buffer) :: packets).
    split; [reflexivity|]. split.
    { cbn [concat]. rewrite Hcat, <- drop_drop.
      apply take_drop. }
    split.
    { constructor; [rewrite length_take; lia|exact Hall]. }
    split.
    { cbn [length]. rewrite Hlen.
      div20 (length buffer - offset + 19).
      div20 (length buffer - (offset + 20) + 19). lia. }
    intros [|i] p; cbn [lookup list_lookup length].
    + intros [= <-] _. rewrite length_take, length_drop. lia.
    + intros Hp Hi. apply (Hfull i p Hp). lia.
  - exists [take 20 (drop offset buffer)]. split; [reflexivity|].
    split.
    { cbn [concat]. rewrite app_nil_r. apply take_ge. rewrite length_drop. lia. }
    split.
    { constructor; [rewrite length_take; lia|constructor]. }
    split.
    { cbn [length]. div20 (length buffer - offset + 19). lia. }
    intros [|i] p; cbn; [lia|discriminate].
Qed.

(** X8. [writeCharacteristic] writes the bytes of the text (the low
    eight bits of each code unit) in packets of at most twenty bytes,
    which put together in the order of the writes give the bytes again;
    a text of code units below 256 is sent unchanged. The loop ends within
    one round more than the twentieth part of the length. *)
Theorem written_packets_reassemble text fuel :
  length text / 20 < fuel ->
  exists packets,
    writeCharacteristic btoa sv ch fuel text
    = Some ((fun p => BleWrite sv ch (btoa p)) <$> packets)
    /\ Forall (fun p => length p <= 20) packets
    /\ concat packets = (fun c => c mod 256)%N <$> text
    /\ (Forall (fun c => (c < 256)%N) text -> concat packets = text).
Proof.
  intros Hfuel. unfold writeCharacteristic.
  destruct (write_loop_packets (str2ab text) fuel 0) as (packets & E & Hcat & Hall & _).
  { now rewrite str2ab_length, Nat.sub_0_r. }
  cbn [drop] in Hcat.
  exists packets. split; [exact E|]. split; [exact Hall|].
  split; [exact Hcat|]. intros Hsmall. rewrite Hcat. now apply str2ab_small.
Qed.

(** X9. The number of writes of [writeCharacteristic] is the length of
    the text divided by twenty, rounded up, and never less than one: for
    the empty text one empty packet is written. Every packet but the last
    has exactly twenty bytes. *)
Theorem written_packets_count text fuel :
  length text / 20 < fuel ->
  exists packets,
    writeCharacteristic btoa sv ch fuel text
    = Some ((fun p => BleWrite sv ch (btoa p)) <$> packets)
    /\ length packets = Nat.max 1 ((length text + 19) / 20)
    /\ (forall i p, packets !! i = Some p -> S i < length packets ->
                    length p = 20)
    /\ (text = [] -> packets = [[]]).
Proof.
  intros Hfuel. unfold writeCharacteristic.
  destruct (write_loop_packets (str2ab text) fuel 0)
    as (packets & E & Hcat & _ & Hlen & Hfull).
  { now rewrite str2ab_length, Nat.sub_0_r. }
  rewrite str2ab_length, Nat.sub_0_r in Hlen.
  exists packets. split; [exact E|]. split; [exact Hlen|].
  split; [exact Hfull|]. intros ->. cbn in Hlen, Hcat.
  destruct packets as [|p [|? ?]]; try discriminate Hlen.
  cbn in Hcat. rewrite app_nil_r in Hcat. now subst.
Qed.
End Packets.

Lemma written_packets_reassemble_witness :
  length (js "abcdefghijklmnopqrstuvwxyz") / 20 < 2
  /\ writeCharacteristic (fun p => p) (js "s") (js "c") 2
       (js "abcdefghijklmnopqrstuvwxyz")
     = Some [BleWrite (js "s") (js "c") (js "abcdefghijklmnopqrst");
             BleWrite (js "s") (js "c") (js "uvwxyz")]
  /\ exists packets,
       writeCharacteristic (fun p => p) (js "s") (js "c") 2
         (js "abcdefghijklmnopqrstuvwxyz")
       = Some ((fun p => BleWrite (js "s") (js "c") p) <$> packets)
       /\ Forall (fun p => length p <= 20) packets
       /\ concat packets
          = (fun c => c mod 256)%N <$> js "abcdefghijklmnopqrstuvwxyz"
       /\ (Forall (fun c => (c < 256)%N) (js "abcdefghijklmnopqrstuvwxyz")
           -> concat packets = js "abcdefghijklmnopqrstuvwxyz").
Proof.
  assert (length (js "abcdefghijklmnopqrstuvwxyz") / 20 < 2) as H
    by (vm_compute; lia).
  split; [exact H|]. split; [reflexivity|].
  exact (written_packets_reassemble (fun p => p) (js "s") (js "c")
           (js "abcdefghijklmnopqrstuvwxyz") 2 H).
Defined.

Lemma written_packets_count_witness :
  length (@nil N) / 20 < 1
  /\ exists packets,
       writeCharacteristic (fun p => p) (js "s") (js "c") 1 []
       = Some ((fun p => BleWrite (js "s") (js "c") p) <$> packets)
       /\ length packets = Nat.max 1 ((length (@nil N) + 19) / 20)
       /\ (forall i p, packets !! i = Some p -> S i < length packets ->
                       length p = 20)
       /\ (@nil N = [] -> packets = [[]]).
Proof.
  assert (length (@nil N) / 20 < 1) as H by (vm_compute; lia).
  split; [exact H|].
  exact (written_packets_count (fun p => p) (js "s") (js "c") [] 1 H).
Defined.
(* ===================================================================== *)
(** ** The outermost container *)
(* ===================================================================== *)

Section Bottom.
(** A property of values that writing a property does not change: to be
    an array, to be an object. *)
Variable P : value -> bool.
Hypothesis P_set : forall o k v, P (set_prop o k v) = P o.

Lemma bottom_of_cons f g stk rt :
  bottom_of (f :: g :: stk) rt = bottom_of (g :: stk) rt.
Proof. now destruct f. Qed.

Lemma bottom_top_set cont slot below rt k v :
  P (bottom_of ((set_prop cont k v, slot) :: below) rt)
  = P (bottom_of ((cont, slot) :: below) rt).
Proof. destruct below as [|g below]; [apply P_set|reflexivity]. Qed.

Lemma store_bottom st at_ v :
  P (bottom_of (stack (store st at_ v)) (root (store st at_ v)))
  = P (bottom_of (stack st) (root st)).
Proof.
  unfold store. destruct (stack st) as [|[cont slot] below] eqn:E;
    cbn [stack root]; [reflexivity|apply bottom_top_set].
Qed.

Lemma open_bottom st at_ v :
  P (bottom_of (stack (open st at_ v)) (root (open st at_ v)))
  = P (bottom_of (stack st) (root st)).
Proof.
  unfold open. destruct (stack st) as [|[cont slot] below] eqn:E;
    cbn [stack root]; reflexivity.
Qed.

Lemma shift_bottom st :
  P (bottom_of (stack (shift st)) (root (shift st)))
  = P (bottom_of (stack st) (root st)).
Proof.
  unfold shift.
  destruct (stack st) as [|[cont slot] [|[parent pslot] below]] eqn:E;
    cbn [stack root]; [now rewrite E|reflexivity|].
  rewrite bottom_of_cons. apply bottom_top_set.
Qed.

Lemma store_string_bottom st at_ tok :
  P (bottom_of (stack (store_string st at_ tok)) (root (store_string st at_ tok)))
  = P (bottom_of (stack st) (root st)).
Proof.
  unfold store_string. destruct (stack st) as [|[cont slot] below] eqn:E;
    cbn [stack root]; [reflexivity|].
  destruct (key st); [apply bottom_top_set|].
  destruct (is_array cont); cbn [stack root]; [apply bottom_top_set|].
  reflexivity.
Qed.

Lemma step_bottom st t :
  P (bottom_of (stack (step st t)) (root (step st t)))
  = P (bottom_of (stack st) (root st)).
Proof.
  unfold step. destruct (head (tok_text t)) as [c|]; [|apply store_bottom].
  destruct c as [|p]; [apply store_bottom|].
  do 7 (try (destruct p as [p|p|]));
    first [apply store_bottom|apply open_bottom|apply shift_bottom
          |apply store_string_bottom].
Qed.

Lemma run_bottom toks : forall st,
  P (bottom_of (stack (run st toks)) (root (run st toks)))
  = P (bottom_of (stack st) (root st)).
Proof.
  induction toks as [|t toks IH]; intros st; [reflexivity|]. cbn [run].
  destruct (0 <=? index (step st t))%Z; [|rewrite IH]; apply step_bottom.
Qed.
End Bottom.

Lemma is_array_set o k v : is_array (set_prop o k v) = is_array o.
Proof. now destruct o. Qed.

Lemma is_object_set o k v : is_object (set_prop o k v) = is_object o.
Proof. now destruct o. Qed.

(** X10. Whatever follows it, a text whose first token is an opening
    brace decodes (without a reviver) to an object when it decodes to a
    value at all, and a text whose first token is an opening bracket to an
    array. *)
Theorem result_kind_follows_first_token s t0 rest v idx :
  tokenize s = t0 :: rest ->
  jsonRawDecode s None = RawPair v idx ->
  (tok_text t0 = [Ch.lbrace] -> is_object v = true)
  /\ (tok_text t0 = [Ch.lbracket] -> is_array v = true).
Proof.
  intros Ht. unfold jsonRawDecode. rewrite Ht. intros H. split; intros E.
  - rewrite E in H. rewrite bool_decide_eq_true_2 in H by reflexivity.
    cbv zeta in H.
    pose proof (run_bottom is_object is_object_set rest
                  (BState [(VObj [], [])] (VObj []) None (-1))) as Hb.
    set (st := run _ rest) in *. clearbody st.
    destruct (stack st); [|discriminate]. injection H as <- _. exact Hb.
  - rewrite E in H. rewrite bool_decide_eq_false_2 in H by discriminate.
    rewrite bool_decide_eq_true_2 in H by reflexivity.
    cbv zeta in H.
    pose proof (run_bottom is_array is_array_set rest
                  (BState [(VArr 0 [], [])] (VArr 0 []) None (-1))) as Hb.
    set (st := run _ rest) in *. clearbody st.
    destruct (stack st); [|discriminate]. injection H as <- _. exact Hb.
Qed.

Lemma result_kind_follows_first_token_witness :
  tokenize (js "{]'a'}") = [Token (js "{") 0; Token (js "]") 1; Token (js "'a'") 2;
                            Token (js "}") 5]
  /\ jsonRawDecode (js "{]'a'}") None = RawPair (VObj []) 2
  /\ (js "{" = [Ch.lbrace] -> is_object (VObj []) = true)
  /\ (js "{" = [Ch.lbracket] -> is_array (VObj []) = true).
Proof.
  split; [reflexivity|]. split; [reflexivity|].
  exact (result_kind_follows_first_token (js "{]'a'}") (Token (js "{") 0) _ _ _
           eq_refl eq_refl).
Defined.

(* ===================================================================== *)
(** ** A text that starts with a scalar *)
(* ===================================================================== *)

(** Once an offset is recorded the stack is empty. *)
Lemma run_stopped toks : forall st,
  index st = (-1)%Z -> index (run st toks) <> (-1)%Z -> stack (run st toks) = [].
Proof.
  induction toks as [|t toks IH]; intros st Hi Hr; [contradiction|].
  cbn [run] in *. pose proof (step_effect st t Hi) as He.
  destruct (Z.leb_spec 0 (index (step st t))) as [Hge|Hlt].
  - destruct (stack st) as [|f stk], (shape_of t).
    + now destruct He.
    + rewrite He in Hge. lia.
    + now destruct He.
    + destruct He. lia.
    + destruct He. lia.
    + destruct He. lia.
  - apply IH; [|exact Hr].
    destruct (stack st) as [|f stk], (shape_of t).
    + destruct He. lia.
    + now rewrite He.
    + destruct He. lia.
    + now destruct He.
    + now destruct He.
    + now destruct He.
Qed.

(** [jsonRawDecode] on a text whose first token opens no container. *)
Lemma jsonRawDecode_bare s rv t0 rest v idx :
  tokenize s = t0 :: rest ->
  tok_text t0 <> [Ch.lbrace] -> tok_text t0 <> [Ch.lbracket] ->
  jsonRawDecode s rv = RawPair v idx -> idx = Z.of_nat (length s).
Proof.
  intros Ht H1 H2. unfold jsonRawDecode. rewrite Ht.
  rewrite !bool_decide_eq_false_2 by assumption. cbv zeta.
  pose proof (run_stopped (t0 :: rest)
                (BState [(VArr 0 [], [])] (VArr 0 []) None (-1)) eq_refl) as Hs.
  set (st := run _ (t0 :: rest)) in *. clearbody st.
  destruct (stack st) as [|[wrapper ?] [|? ?]]; try discriminate.
  intros [= _ <-].
  destruct (Z.eqb_spec (index st) (-1)) as [E|E]; [reflexivity|].
  now specialize (Hs E).
Qed.

(** X11. A text whose first token is not an opening bracket or brace is
    consumed whole by the first value: when [jsonRawDecode] returns a
    value on it, the offset is the length of the text, and what
    [jsonDecode] returns is its list with at most one value added,
    whatever follows the first token. When none of the string tokens of
    the text reads [__proto__] or [length], [jsonDecode] returns, at its
    first call. *)
Theorem text_starting_with_scalar_yields_one_value s t0 rest :
  tokenize s = t0 :: rest ->
  tok_text t0 <> [Ch.lbrace] -> tok_text t0 <> [Ch.lbracket] ->
  (forall rv v idx,
      jsonRawDecode s rv = RawPair v idx -> idx = Z.of_nat (length s))
  /\ (forall fuel acc l,
        jsonDecode fuel s acc = Some l ->
        l = acc \/ exists v, l = acc ++ [v])
  /\ (ordinary_strings s = true ->
      forall fuel acc, exists l, jsonDecode (S fuel) s acc = Some l).
Proof.
  intros Ht H1 H2.
  assert (forall fuel acc,
            jsonDecode (S fuel) s acc = Some acc
            \/ exists v, jsonDecode (S fuel) s acc = Some (acc ++ [v])) as Hone.
  { intros fuel acc. cbn [jsonDecode].
    destruct (jsonRawDecode s None) as [|v idx] eqn:E; [now left|].
    right. exists v.
    rewrite (jsonRawDecode_bare s None t0 rest v idx Ht H1 H2 E).
    now rewrite substr_nat, drop_all. }
  split; [|split].
  - intros rv v idx. now apply (jsonRawDecode_bare s rv t0 rest).
  - intros [|fuel] acc l Hl; [discriminate|].
    destruct (Hone fuel acc) as [E|[v E]]; rewrite E in Hl;
      injection Hl as <-; [now left|right; now exists v].
  - intros _ fuel acc. destruct (Hone fuel acc) as [E|[v E]]; eauto.
Qed.

Lemma text_starting_with_scalar_yields_one_value_witness :
  tokenize (js "1 [2] 3") = [Token (js "1") 0; Token (js "[") 2; Token (js "2") 3;
                             Token (js "]") 4; Token (js "3") 6]
  /\ js "1" <> [Ch.lbrace] /\ js "1" <> [Ch.lbracket]
  /\ ordinary_strings (js "1 [2] 3") = true
  /\ jsonDecode 1 (js "1 [2] 3") [] = Some [VNum (js "1")]
  /\ (forall rv v idx,
        jsonRawDecode (js "1 [2] 3") rv = RawPair v idx
        -> idx = Z.of_nat (length (js "1 [2] 3")))
  /\ (forall fuel acc l,
        jsonDecode fuel (js "1 [2] 3") acc = Some l ->
        l = acc \/ exists v, l = acc ++ [v])
  /\ (ordinary_strings (js "1 [2] 3") = true ->
      forall fuel acc, exists l, jsonDecode (S fuel) (js "1 [2] 3") acc = Some l).
Proof.
  assert (js "1" <> [Ch.lbrace]) as H1 by discriminate.
  assert (js "1" <> [Ch.lbracket]) as H2 by discriminate.
  split; [reflexivity|]. split; [exact H1|]. split; [exact H2|].
  split; [reflexivity|]. split; [reflexivity|].
  exact (text_starting_with_scalar_yields_one_value (js "1 [2] 3")
           (Token (js "1") 0) _ eq_refl H1 H2).
Defined.
(* ===================================================================== *)
(** ** Texts that end before their last document does *)
(* ===================================================================== *)

(** The items of a well-formed text are well spaced. *)
Lemma json_spaced j : json_ok j = true -> spaced None (items j) [] = true.
Proof.
  intros Hok.
  pose proof (json_accepts [] j Hok [] (conj eq_refl (fun _ => eq_refl))
                None eq_refl) as H.
  now rewrite app_nil_r in H.
Qed.

(** A cut outside of a string literal keeps no bracket of the item in
    which it falls. *)
Lemma cut_no_bracket j pre i post q q' :
  json_ok j = true ->
  items j = pre ++ i :: post ->
  item_text i = q ++ q' -> q' <> [] ->
  is_string_item i = false \/ Forall (fun c => is_bracket c = false) q ->
  Forall (fun c => is_bracket c = false) q.
Proof.
  intros Hok Hitems Ei Hq' [Hns|Hnb]; [|exact Hnb].
  apply (cut_item_no_bracket i q q'); try assumption.
  - pose proof (spaced_items_ok _ _ _ (json_spaced j Hok)) as Hall.
    rewrite Hitems in Hall. apply Forall_app in Hall as [_ Hall].
    now apply Forall_cons in Hall as [Hi _].
  - intros Hs. now rewrite Hs in Hns.
Qed.

(** A non-empty part of a container starts with its opening bracket. *)
Lemma cut_starts_with_bracket j pre i post q q' :
  is_container j = true ->
  items j = pre ++ i :: post ->
  item_text i = q ++ q' -> q' <> [] ->
  items_text pre ++ q <> [] ->
  exists o pre', pre = Lex o :: pre' /\ (o = LBrace \/ o = LBracket).
Proof.
  intros Hc Hitems Ei Hq' Hne.
  destruct j as [| | | | |w es|w ms]; try discriminate Hc; cbn [items] in Hitems.
  - destruct pre as [|i0 pre'].
    + exfalso. cbn [app] in Hitems. injection Hitems as <- _. apply Hne.
      cbn in Ei |- *. destruct q as [|c0 [|c1 q]], q'; cbn in Ei; congruence.
    + cbn [app] in Hitems. injection Hitems as <- _. eauto.
  - destruct pre as [|i0 pre'].
    + exfalso. cbn [app] in Hitems. injection Hitems as <- _. apply Hne.
      cbn in Ei |- *. destruct q as [|c0 [|c1 q]], q'; cbn in Ei; congruence.
    + cbn [app] in Hitems. injection Hitems as <- _. eauto.
Qed.

(** X12. A text that ends before an object or an array is complete is
    reported as incomplete. Take a well-formed object or array and cut its
    text anywhere but at its start or its end, so that the part kept of
    the item in which the cut falls ([q], possibly empty) holds no bracket
    or brace, as is the case for every cut outside of a string literal:
    [jsonRawDecode] returns 0 on the part before the cut, and [jsonDecode]
    returns the list it was given. *)
Theorem cut_container_is_incomplete j pre i post q q' :
  json_ok j = true -> is_container j = true ->
  items j = pre ++ i :: post ->
  item_text i = q ++ q' -> q' <> [] ->
  is_string_item i = false \/ Forall (fun c => is_bracket c = false) q ->
  items_text pre ++ q <> [] ->
  json_text j = (items_text pre ++ q) ++ q' ++ items_text post
  /\ jsonRawDecode (items_text pre ++ q) None = RawZero
  /\ forall fuel acc, jsonDecode (S fuel) (items_text pre ++ q) acc = Some acc.
Proof.
  intros Hok Hc Hitems Ei Hq' Hcut Hne.
  pose proof (cut_no_bracket j pre i post q q' Hok Hitems Ei Hq' Hcut) as Hnb.
  pose proof (jsonRawDecode_prefix j pre i post q q' Hok Hc Hitems Ei Hq' Hnb Hne)
    as Hraw.
  split; [|split; [exact Hraw|]].
  - rewrite <- items_text_json, Hitems, items_text_app.
    change (pre ++ i :: post) with (pre ++ [i] ++ post).
    change (items_text (i :: post)) with (item_text i ++ items_text post).
    now rewrite Ei, <- !app_assoc.
  - intros fuel acc. cbn [jsonDecode]. now rewrite Hraw.
Qed.

Lemma cut_container_is_incomplete_witness :
  json_text (reply (js "1") (js "23"))
  = js "{'id':1,'result':{'answer':23},'error':null}"
  /\ jsonRawDecode (js "{'id':1,'result':{'answer") None = RawZero
  /\ jsonDecode 1 (js "{'id':1,'result':{'answer") [] = Some [].
Proof.
  split; [reflexivity|].
  assert (js "'" <> []) as Hq' by discriminate.
  assert (Forall (fun c => is_bracket c = false) (js "'answer")) as Hnb
    by (repeat constructor).
  assert (js "{'id':1,'result':{" ++ js "'answer" <> []) as Hne by discriminate.
  pose proof (cut_container_is_incomplete (reply (js "1") (js "23"))
                [Lex LBrace; Lex (LString (Plain <$> js "id")); Gap 58;
                 Lex (LNumber (NumLit false (js "1") None None)); Gap 44;
                 Lex (LString (Plain <$> js "result")); Gap 58; Lex LBrace]
                (Lex (LString (Plain <$> js "answer")))
                [Gap 58; Lex (LNumber (NumLit false (js "23") None None));
                 Lex RBrace; Gap 44; Lex (LString (Plain <$> js "error"));
                 Gap 58; Lex LNull; Lex RBrace]
                (js "'answer") (js "'")
                eq_refl eq_refl eq_refl eq_refl Hq' (or_intror Hnb) Hne)
    as (_ & Hraw & Hdec).
  split; [exact Hraw|exact (Hdec 0 [])].
Defined.

(** *** Complete documents followed by the start of another *)

Section Tail.
(** What follows the documents: an opening bracket [o], the items [k] and
    the characters [r]. *)
Variables (o : lexeme) (k : list item) (r : jsstr).
Hypothesis Ho : o = LBrace \/ o = LBracket.
Hypothesis Hsp : spaced None (Lex o :: k) r = true.

Lemma tail_closes : closes (Lex o :: k) r.
Proof.
  split; [now destruct Ho as [-> | ->]|]. intros p.
  destruct Ho as [-> | ->]; exact Hsp.
Qed.

Lemma docs_tail_closes ds :
  Forall container_doc ds -> closes (docs_items ds ++ Lex o :: k) r.
Proof.
  induction 1 as [|d ds [Hok Hc] _ IH]; [exact tail_closes|].
  unfold docs_items. rewrite fmap_cons. cbn [concat]. rewrite <- app_assoc.
  now apply doc_closes.
Qed.

Lemma docs_tail_text ds :
  items_text (docs_items ds ++ Lex o :: k) ++ r
  = docs_text ds ++ items_text (Lex o :: k) ++ r.
Proof. now rewrite items_text_app, docs_items_text, <- app_assoc. Qed.

(** The first token after a document of the stream: an opening bracket,
    after the white space that leads the next document. *)
Lemma next_token_opens ds pos :
  Forall container_doc ds ->
  exists c rest,
    toks_at pos (docs_items ds ++ Lex o :: k)
    = Token [c] (pos + match ds with
                       | [] => 0
                       | d2 :: _ => length (doc_lead d2)
                       end) :: rest
    /\ (c = Ch.lbracket \/ c = Ch.lbrace).
Proof.
  intros Hds. destruct ds as [|d2 ds].
  - cbn [docs_items fmap list_fmap concat app toks_at]. rewrite Nat.add_0_r.
    destruct Ho as [-> | ->]; eexists _, _; (split; [reflexivity|]); auto.
  - apply Forall_cons in Hds as [[_ Hc] _].
    unfold docs_items. rewrite fmap_cons. cbn [concat]. unfold doc_items at 1.
    rewrite <- !app_assoc, toks_at_gaps.
    now apply container_first_token.
Qed.

Lemma jsonRawDecode_docs_tail d ds :
  Forall container_doc (d :: ds) ->
  jsonRawDecode (docs_text (d :: ds) ++ items_text (Lex o :: k) ++ r) None
  = RawPair (json_value (doc_json d))
      (Z.of_nat (length (doc_text d)
                 + match ds with
                   | [] => 0
                   | d2 :: _ => length (doc_lead d2)
                   end)).
Proof.
  intros Hds. pose proof (docs_tail_closes _ Hds) as [_ Hcl].
  inversion Hds as [|? ? [Hok Hc] Hds']; subst.
  rewrite <- docs_tail_text. unfold jsonRawDecode, tokenize.
  destruct (scan_items _ None 0 r (Hcl None)) as [prev' ->].
  assert (toks_at 0 (docs_items (d :: ds) ++ Lex o :: k)
          = toks_at (length (doc_lead d)) (items (doc_json d))
            ++ toks_at (length (doc_text d)) (docs_items ds ++ Lex o :: k)) as ->.
  { unfold docs_items. rewrite fmap_cons. cbn [concat]. unfold doc_items at 1.
    rewrite <- !app_assoc, toks_at_gaps, toks_at_app, toks_at_gaps.
    rewrite items_text_json. unfold doc_text. cbn [Nat.add].
    do 2 f_equal. len_solve. }
  assert (json_ok (doc_json d) = true) as Hj.
  { unfold doc_ok in Hok. apply andb_true_iff in Hok as [Hok _].
    now apply andb_true_iff in Hok as [_ Hok]. }
  rewrite <- app_assoc.
  destruct (run_root (doc_json d)
              (toks_at (length (doc_lead d)) (items (doc_json d)))
              (toks_at (length (doc_text d)) (docs_items ds ++ Lex o :: k)
               ++ scan 0 prev'
                    (0 + length (items_text (docs_items (d :: ds) ++ Lex o :: k))) r)
              Hc Hj)
    as (t0 & ts' & r0 & Ets & Er0 & Erun).
  { now rewrite toks_at_texts, item_lexemes_json. }
  rewrite Ets. cbn [app]. rewrite Er0, Erun. clear Erun Er0 Ets.
  destruct (next_token_opens ds (length (doc_text d)) Hds') as (c & rest & -> & Hbr).
  cbn [app]. rewrite (run_closed_open _ _ _ _ Hbr). cbn [stack root index].
  match goal with |- context [(Z.of_nat ?n =? -1)%Z] =>
    destruct (Z.eqb_spec (Z.of_nat n) (-1)); [lia|reflexivity] end.
Qed.

(** [jsonDecode] on a stream of container documents followed by an
    opening bracket: each document costs one call, and the calls go on
    with what follows the documents. *)
Lemma jsonDecode_docs_tail n : forall ds fuel acc,
  length ds = n -> Forall container_doc ds ->
  jsonDecode (n + fuel) (docs_text ds ++ items_text (Lex o :: k) ++ r) acc
  = jsonDecode fuel (items_text (Lex o :: k) ++ r) (acc ++ docs_values ds).
Proof.
  induction n as [|n IH]; intros ds fuel acc Hlen Hds.
  - destruct ds; [|discriminate].
    cbn [docs_text fmap list_fmap concat app Nat.add].
    unfold docs_values. cbn. now rewrite app_nil_r.
  - destruct ds as [|d ds]; [discriminate|].
    cbn [Nat.add jsonDecode].
    rewrite (jsonRawDecode_docs_tail d ds Hds), substr_nat.
    inversion Hds as [|? ? Hd Hds']; subst.
    assert (exists c rest ds',
               drop (length (doc_text d)
                     + match ds with
                       | [] => 0
                       | d2 :: _ => length (doc_lead d2)
                       end)
                    (docs_text (d :: ds) ++ items_text (Lex o :: k) ++ r)
               = c :: rest
               /\ c :: rest = docs_text ds' ++ items_text (Lex o :: k) ++ r
               /\ length ds' = length ds /\ Forall container_doc ds'
               /\ docs_values ds' = docs_values ds)
      as (c & rest & ds' & -> & -> & Hlen' & Hds'' & Hval).
    { rewrite docs_text_cons, <- app_assoc, <- drop_drop, drop_app_length.
      destruct ds as [|d2 ds].
      - cbn [drop]. destruct Ho as [-> | ->]; eexists _, _, [];
          (split; [reflexivity|]); now repeat split.
      - inversion Hds' as [|? ? Hd2 Hds'']; subst.
        destruct (container_text_cons (doc_json d2) (proj2 Hd2)) as (c & t & Ec).
        exists c, (t ++ doc_trail d2 ++ docs_text ds ++ items_text (Lex o :: k) ++ r),
          (trim_lead d2 :: ds).
        rewrite !docs_text_cons. unfold doc_text, trim_lead.
        cbn [doc_lead doc_json doc_trail app].
        rewrite <- !app_assoc, drop_app_length, Ec. cbn [app].
        rewrite <- ?app_assoc.
        split; [reflexivity|]. split; [reflexivity|]. split; [reflexivity|].
        split; [|reflexivity].
        constructor; [now apply container_doc_trim|assumption]. }
    rewrite (IH ds' fuel); [| cbn in *; lia | assumption].
    rewrite Hval. unfold docs_values. rewrite fmap_cons.
    now rewrite <- app_assoc.
Qed.
End Tail.

(** Each document of a stream decodes, alone, to its value. *)
Lemma docs_decode_alone ds :
  Forall container_doc ds -> Forall2 decodes_alone ds (docs_values ds).
Proof.
  intros Hds. unfold docs_values. apply Forall2_fmap_r, Forall_Forall2_diag.
  eapply Forall_impl; [exact Hds|]. intros d Hd. now apply jsonRawDecode_doc.
Qed.

(** X13. The values of the complete documents of a stream are decoded
    when the stream ends in the middle of a document. For well-formed
    documents whose top-level values are objects or arrays, followed by
    the start of a well-formed object or array, cut so that the part kept
    of the item in which the cut falls holds no bracket or brace,
    [jsonDecode] returns, after the list it was given, one value for each
    complete document, in order: the value that [jsonRawDecode] returns
    on that document alone. The text of the unfinished document yields no
    value. *)
Theorem complete_documents_before_a_cut ds j pre i post q q' fuel acc :
  Forall container_doc ds ->
  json_ok j = true -> is_container j = true ->
  items j = pre ++ i :: post ->
  item_text i = q ++ q' -> q' <> [] ->
  is_string_item i = false \/ Forall (fun c => is_bracket c = false) q ->
  items_text pre ++ q <> [] ->
  length ds < fuel ->
  exists vs,
    Forall2 decodes_alone ds vs
    /\ jsonDecode fuel (docs_text ds ++ items_text pre ++ q) acc
       = Some (acc ++ vs).
Proof.
  intros Hds Hok Hc Hitems Ei Hq' Hcut Hne Hfuel.
  exists (docs_values ds). split; [now apply docs_decode_alone|].
  pose proof (cut_no_bracket j pre i post q q' Hok Hitems Ei Hq' Hcut) as Hnb.
  pose proof (jsonRawDecode_prefix j pre i post q q' Hok Hc Hitems Ei Hq' Hnb Hne)
    as Hraw.
  pose proof (json_spaced j Hok) as Hsp. rewrite Hitems in Hsp.
  pose proof (spaced_prefix pre None i post [] q q' Hsp Ei) as Hpre.
  destruct (cut_starts_with_bracket j pre i post q q' Hc Hitems Ei Hq' Hne)
    as (o & pre' & -> & Ho).
  destruct fuel as [|fuel]; [lia|].
  replace (S fuel) with (length ds + S (fuel - length ds)) by lia.
  rewrite (jsonDecode_docs_tail o pre' q Ho Hpre (length ds) ds _ acc eq_refl Hds).
  cbn [jsonDecode]. now rewrite Hraw.
Qed.

Lemma complete_documents_before_a_cut_witness :
  docs_text [Document [] (reply (js "1") (js "23")) []]
  ++ js "{'id':2,'result':{'answer"
  = js "{'id':1,'result':{'answer':23},'error':null}{'id':2,'result':{'answer"
  /\ jsonDecode 2
       (js "{'id':1,'result':{'answer':23},'error':null}{'id':2,'result':{'answer")
       []
     = Some [VObj [(js "id", VNum (js "1"));
                   (js "result", VObj [(js "answer", VNum (js "23"))]);
                   (js "error", VNull)]]
  /\ exists vs,
       Forall2 decodes_alone [Document [] (reply (js "1") (js "23")) []] vs
       /\ jsonDecode 2
            (docs_text [Document [] (reply (js "1") (js "23")) []]
             ++ items_text
                  [Lex LBrace; Lex (LString (Plain <$> js "id")); Gap 58;
                   Lex (LNumber (NumLit false (js "2") None None)); Gap 44;
                   Lex (LString (Plain <$> js "result")); Gap 58; Lex LBrace]
             ++ js "'answer") []
          = Some ([] ++ vs).
Proof.
  split; [reflexivity|]. split; [reflexivity|].
  assert (Forall container_doc [Document [] (reply (js "1") (js "23")) []]) as Hds
    by (repeat constructor).
  assert (js "'" <> []) as Hq' by discriminate.
  assert (Forall (fun c => is_bracket c = false) (js "'answer")) as Hnb
    by (repeat constructor).
  assert (items_text
            [Lex LBrace; Lex (LString (Plain <$> js "id")); Gap 58;
             Lex (LNumber (NumLit false (js "2") None None)); Gap 44;
             Lex (LString (Plain <$> js "result")); Gap 58; Lex LBrace]
          ++ js "'answer" <> []) as Hne by discriminate.
  exact (complete_documents_before_a_cut
           [Document [] (reply (js "1") (js "23")) []]
           (reply (js "2") (js "42"))
           [Lex LBrace; Lex (LString (Plain <$> js "id")); Gap 58;
            Lex (LNumber (NumLit false (js "2") None None)); Gap 44;
            Lex (LString (Plain <$> js "result")); Gap 58; Lex LBrace]
           (Lex (LString (Plain <$> js "answer")))
           [Gap 58; Lex (LNumber (NumLit false (js "42") None None));
            Lex RBrace; Gap 44; Lex (LString (Plain <$> js "error"));
            Gap 58; Lex LNull; Lex RBrace]
           (js "'answer") (js "'") 2 []
           Hds eq_refl eq_refl eq_refl eq_refl Hq' (or_intror Hnb) Hne
           (le_n 2)).
Defined.

(** X20. Complete documents are decoded one by one, whatever comes after
    them: for well-formed documents whose top-level values are objects or
    arrays, followed by any text that starts with an opening bracket or
    brace, [jsonDecode] spends one call on each document and goes on with
    that text, its list extended by one value for each document: the
    value that [jsonRawDecode] returns on that document alone. *)
Theorem documents_are_decoded_one_by_one ds c rest :
  Forall container_doc ds ->
  c = Ch.lbrace \/ c = Ch.lbracket ->
  exists vs,
    Forall2 decodes_alone ds vs
    /\ forall fuel acc,
         jsonDecode (length ds + fuel) (docs_text ds ++ c :: rest) acc
         = jsonDecode fuel (c :: rest) (acc ++ vs).
Proof.
  intros Hds Hc. exists (docs_values ds).
  split; [now apply docs_decode_alone|]. intros fuel acc.
  destruct Hc as [-> | ->].
  - exact (jsonDecode_docs_tail LBrace [] rest (or_introl eq_refl) eq_refl
             (length ds) ds fuel acc eq_refl Hds).
  - exact (jsonDecode_docs_tail LBracket [] rest (or_intror eq_refl) eq_refl
             (length ds) ds fuel acc eq_refl Hds).
Qed.

Lemma documents_are_decoded_one_by_one_witness :
  Forall container_doc [sample_object; sample_array]
  /\ (Ch.lbracket = Ch.lbrace \/ Ch.lbracket = Ch.lbracket)
  /\ docs_text [sample_object; sample_array] ++ Ch.lbracket :: js "]x"
     = js "{'a':1} [true, '\n']" ++ [10%N] ++ js "[]x"
  /\ jsonDecode 3 (docs_text [sample_object; sample_array] ++ Ch.lbracket :: js "]x") []
     = Some [VObj [(js "a", VNum (js "1"))];
             VArr 2 [(js "0", VBool true); (js "1", VStr [10%N])];
             VArr 0 []]
  /\ exists vs,
       Forall2 decodes_alone [sample_object; sample_array] vs
       /\ forall fuel acc,
            jsonDecode (length [sample_object; sample_array] + fuel)
              (docs_text [sample_object; sample_array] ++ Ch.lbracket :: js "]x") acc
            = jsonDecode fuel (Ch.lbracket :: js "]x") (acc ++ vs).
Proof.
  assert (Forall container_doc [sample_object; sample_array]) as Hds
    by (repeat constructor).
  split; [exact Hds|]. split; [now right|]. split; [reflexivity|].
  split; [reflexivity|].
  exact (documents_are_decoded_one_by_one [sample_object; sample_array]
           Ch.lbracket (js "]x") Hds (or_intror eq_refl)).
Defined.
(* ===================================================================== *)
(** ** The values built by the loop, and the reviver that keeps them *)
(* ===================================================================== *)

(** Induction on a value, with the hypothesis for every property of a
    container. *)
Lemma value_induction (P : value -> Prop) :
  P VUndef -> P VNull -> (forall b, P (VBool b)) -> (forall t, P (VNum t)) ->
  (forall s, P (VStr s)) ->
  (forall len ps, Forall (fun kv : jsstr * value => P kv.2) ps -> P (VArr len ps)) ->
  (forall ps, Forall (fun kv : jsstr * value => P kv.2) ps -> P (VObj ps)) ->
  forall v, P v.
Proof.
  intros Hu Hn Hb Ht Hs Ha Ho. fix IH 1.
  intros [| |b|t|s|len ps|ps];
    [exact Hu | exact Hn | apply Hb | apply Ht | apply Hs | apply Ha | apply Ho].
  - induction ps as [|[k c] ps IHps]; constructor; [apply IH | exact IHps].
  - induction ps as [|[k c] ps IHps]; constructor; [apply IH | exact IHps].
Qed.

Lemma built_arr len ps :
  built (VArr len ps) = distinct_keys ps && forallb (entry_ok (Some len)) ps.
Proof. reflexivity. Qed.

Lemma built_obj ps :
  built (VObj ps) = distinct_keys ps && forallb (entry_ok None) ps.
Proof. reflexivity. Qed.

Lemma distinct_keys_NoDup ps : distinct_keys ps = true <-> NoDup ps.*1.
Proof.
  induction ps as [|[k v] ps IH]; cbn [distinct_keys fmap list_fmap fst].
  - split; [constructor|reflexivity].
  - rewrite andb_true_iff, bool_decide_eq_true, IH, NoDup_cons. reflexivity.
Qed.

(** *** Writing a property *)

Lemma props_replace_forall (Q : jsstr * value -> bool) k v ps :
  forallb Q ps = true -> Q (k, v) = true ->
  forallb Q (props_replace k v ps) = true.
Proof.
  intros Hps Hkv. induction ps as [|[k' v'] ps IH]; [reflexivity|].
  cbn [props_replace forallb] in *. apply andb_true_iff in Hps as [H1 H2].
  case_bool_decide; cbn [forallb]; apply andb_true_iff; auto.
Qed.

Lemma props_insert_index_forall (Q : jsstr * value -> bool) i k v ps :
  forallb Q ps = true -> Q (k, v) = true ->
  forallb Q (props_insert_index i k v ps) = true.
Proof.
  intros Hps Hkv. induction ps as [|[k' v'] ps IH]; [cbn; now rewrite Hkv|].
  cbn [props_insert_index]. pose proof Hps as Hps'.
  cbn [forallb] in Hps. apply andb_true_iff in Hps as [H1 H2].
  destruct (array_index k') as [j|]; [destruct (j <? i)%N|];
    cbn [forallb]; rewrite ?Hkv, ?H1, ?H2, ?IH; auto.
Qed.

Lemma props_set_forall (Q : jsstr * value -> bool) k v ps :
  forallb Q ps = true -> Q (k, v) = true ->
  forallb Q (props_set k v ps) = true.
Proof.
  intros Hps Hkv. unfold props_set. destruct (props_get k ps).
  - now apply props_replace_forall.
  - destruct (array_index k).
    + now apply props_insert_index_forall.
    + unfold props. rewrite forallb_app, Hps. cbn. now rewrite Hkv.
Qed.

Lemma props_insert_index_keys i k v ps :
  (props_insert_index i k v ps).*1 ≡ₚ k :: ps.*1.
Proof.
  induction ps as [|[k' v'] ps IH]; [reflexivity|].
  cbn [props_insert_index].
  destruct (array_index k') as [j|]; [destruct (j <? i)%N|]; try reflexivity.
  rewrite !fmap_cons, IH. cbn [fst]. apply Permutation_swap.
Qed.

Lemma props_set_distinct k v ps :
  distinct_keys ps = true -> distinct_keys (props_set k v ps) = true.
Proof.
  rewrite !distinct_keys_NoDup. intros Hnd. unfold props_set.
  destruct (props_get k ps) eqn:E.
  - now rewrite props_replace_keys.
  - apply props_get_None in E. destruct (array_index k).
    + rewrite props_insert_index_keys. now apply NoDup_cons.
    + unfold props. rewrite fmap_app. apply NoDup_app. split; [exact Hnd|].
      split; [|apply NoDup_singleton].
      intros x Hx Hx'. apply list_elem_of_singleton in Hx'. cbn in Hx'. now subst.
Qed.

Lemma below_length_mono len len' k :
  (len <= len')%N ->
  below_length (Some len) k = true -> below_length (Some len') k = true.
Proof.
  unfold below_length. destruct (array_index k); [|reflexivity].
  rewrite !N.ltb_lt. lia.
Qed.

Lemma entries_mono len len' ps :
  (len <= len')%N ->
  forallb (entry_ok (Some len)) ps = true ->
  forallb (entry_ok (Some len')) ps = true.
Proof.
  intros Hle. rewrite !forallb_forall. intros H kv Hin. specialize (H kv Hin).
  unfold entry_ok in *. apply andb_true_iff in H as [H1 H2].
  rewrite H1. cbn. now apply (below_length_mono len).
Qed.

(** Writing a built value that is not undefined into a built container
    gives a built container. *)
Lemma built_set_prop o k v :
  built o = true -> built v = true -> is_undef v = false ->
  built (set_prop o k v) = true.
Proof.
  intros Ho Hv Hu. destruct o as [| | | | |len ps|ps]; try exact Ho.
  - cbn [set_prop]. rewrite built_arr in *.
    apply andb_true_iff in Ho as [Hd He]. apply andb_true_iff. split.
    + now apply props_set_distinct.
    + apply props_set_forall.
      * apply (entries_mono len); [|exact He].
        destruct (array_index k); lia.
      * unfold entry_ok, below_length. cbn [fst snd]. rewrite Hu, Hv. cbn.
        destruct (array_index k); [|reflexivity]. apply N.ltb_lt. lia.
  - cbn [set_prop]. rewrite built_obj in *.
    apply andb_true_iff in Ho as [Hd He]. apply andb_true_iff. split.
    + now apply props_set_distinct.
    + apply props_set_forall; [exact He|].
      unfold entry_ok, below_length. cbn [fst snd]. now rewrite Hu, Hv.
Qed.

Lemma props_get_elem_of k ps v : props_get k ps = Some v -> (k, v) ∈ ps.
Proof.
  induction ps as [|[k' v'] ps IH]; [discriminate|]. cbn [props_get].
  case_bool_decide as E.
  - intros [= <-]. subst. left.
  - intros H. right. now apply IH.
Qed.

Lemma built_get o k : built o = true -> built (get o k) = true.
Proof.
  intros Ho. destruct o as [| | | | |len ps|ps]; try reflexivity; cbn [get].
  - rewrite built_arr in Ho. apply andb_true_iff in Ho as [_ He].
    destruct (props_get k ps) as [v|] eqn:E; [|reflexivity]. cbn.
    apply props_get_elem_of in E. rewrite forallb_forall in He.
    apply list_elem_of_In in E. specialize (He _ E). unfold entry_ok in He.
    apply andb_true_iff in He as [He _]. now apply andb_true_iff in He as [_ He].
  - rewrite built_obj in Ho. apply andb_true_iff in Ho as [_ He].
    destruct (props_get k ps) as [v|] eqn:E; [|reflexivity]. cbn.
    apply props_get_elem_of in E. rewrite forallb_forall in He.
    apply list_elem_of_In in E. specialize (He _ E). unfold entry_ok in He.
    apply andb_true_iff in He as [He _]. now apply andb_true_iff in He as [_ He].
Qed.

(** *** The loop builds built values *)

Lemma built_frame_set (cont : value) slot below k v :
  Forall (fun f : frame => built f.1 = true /\ is_composite f.1 = true)
         ((cont, slot) :: below) ->
  built v = true -> is_undef v = false ->
  Forall (fun f : frame => built f.1 = true /\ is_composite f.1 = true)
         ((set_prop cont k v, slot) :: below).
Proof.
  intros H Hv Hu. apply Forall_cons in H as [[Hb Hc] H].
  constructor; [|exact H]. cbn [fst] in *. split.
  - now apply built_set_prop.
  - now rewrite is_composite_set_prop.
Qed.

Lemma store_built st at_ v :
  built_state st -> built v = true -> is_undef v = false ->
  built_state (store st at_ v).
Proof.
  intros [Hs Hr] Hv Hu. unfold store, built_state.
  destruct (stack st) as [|[cont slot] below]; cbn [stack root].
  - now split.
  - split; [now apply built_frame_set|exact Hr].
Qed.

Lemma open_built st at_ v :
  built_state st -> built v = true -> is_composite v = true ->
  built_state (open st at_ v).
Proof.
  intros [Hs Hr] Hv Hc. unfold open, built_state.
  destruct (stack st) as [|[cont slot] below]; cbn [stack root].
  - now split.
  - split; [|exact Hr]. constructor; [now split|exact Hs].
Qed.

Lemma composite_defined v : is_composite v = true -> is_undef v = false.
Proof. now destruct v. Qed.

Lemma shift_built st : built_state st -> built_state (shift st).
Proof.
  intros [Hs Hr]. unfold shift, built_state.
  destruct (stack st) as [|[cont slot] [|[parent pslot] below]] eqn:E;
    cbn [stack root].
  - rewrite E. now split.
  - apply Forall_cons in Hs as [[Hb _] _]. split; [constructor|exact Hb].
  - apply Forall_cons in Hs as [[Hb Hc] Hs]. split; [|exact Hr].
    apply built_frame_set; [exact Hs|exact Hb|now apply composite_defined].
Qed.

Lemma store_string_built st at_ tok :
  built_state st -> built_state (store_string st at_ tok).
Proof.
  intros [Hs Hr]. unfold store_string, built_state.
  destruct (stack st) as [|[cont slot] below] eqn:E; cbn [stack root].
  - now split.
  - destruct (key st).
    + split; [now apply built_frame_set|exact Hr].
    + destruct (is_array cont); cbn [stack root].
      * split; [now apply built_frame_set|exact Hr].
      * now split.
Qed.

Lemma step_built st t : built_state st -> built_state (step st t).
Proof.
  intros H. unfold step.
  destruct (head (tok_text t)) as [c|]; [|now apply store_built].
  destruct c as [|p]; [now apply store_built|].
  do 7 (try (destruct p as [p|p|]));
    first [now apply store_built | now apply open_built
          | now apply shift_built | now apply store_string_built].
Qed.

Lemma run_built toks : forall st, built_state st -> built_state (run st toks).
Proof.
  induction toks as [|t toks IH]; intros st H; [exact H|]. cbn [run].
  destruct (0 <=? index (step st t))%Z; [|apply IH]; now apply step_built.
Qed.

(** Whatever the text, the value that [jsonRawDecode] returns without a
    reviver is built. *)
Lemma jsonRawDecode_built s v idx :
  jsonRawDecode s None = RawPair v idx -> built v = true.
Proof.
  unfold jsonRawDecode. destruct (tokenize s) as [|t0 rest]; [now intros [= <- _]|].
  set (init := if bool_decide (tok_text t0 = [Ch.lbrace]) then (VObj [], false)
               else if bool_decide (tok_text t0 = [Ch.lbracket])
                    then (VArr 0 [], false) else (VArr 0 [], true)).
  assert (built init.1 = true /\ is_composite init.1 = true) as [Hb Hc].
  { subst init. repeat case_bool_decide; now split. }
  destruct init as [result tlp]. cbn [fst] in Hb, Hc. cbv zeta.
  assert (built_state (BState [(result, [])] result None (-1))) as Hst.
  { split; [|exact Hb]. constructor; [now split|constructor]. }
  destruct tlp.
  - pose proof (run_built (t0 :: rest) _ Hst) as [Hs _].
    set (st := run _ (t0 :: rest)) in *. clearbody st.
    destruct (stack st) as [|[wrapper ?] [|? ?]]; try discriminate.
    intros [= <- _]. apply Forall_cons in Hs as [[Hw _] _].
    now apply built_get.
  - pose proof (run_built rest _ Hst) as [_ Hr].
    set (st := run _ rest) in *. clearbody st.
    destruct (stack st); [|discriminate]. now intros [= <- _].
Qed.

(** *** The walk with the reviver that keeps every value *)

Lemma props_replace_same k c ps :
  props_get k ps = Some c -> props_replace k c ps = ps.
Proof.
  induction ps as [|[k' v'] ps IH]; [reflexivity|]. cbn [props_get props_replace].
  case_bool_decide as E.
  - intros [= ->]. now subst.
  - intros H. now rewrite IH.
Qed.

Lemma props_get_distinct k c ps :
  NoDup ps.*1 -> (k, c) ∈ ps -> props_get k ps = Some c.
Proof.
  induction ps as [|[k' v'] ps IH]; intros Hnd Hin; [now apply elem_of_nil in Hin|].
  cbn [fmap list_fmap fst] in Hnd. apply NoDup_cons in Hnd as [Hk Hnd].
  cbn [props_get]. apply elem_of_cons in Hin as [[= -> ->]|Hin].
  - now rewrite bool_decide_eq_true_2.
  - rewrite bool_decide_eq_false_2; [now apply IH|].
    intros ->. apply Hk. apply list_elem_of_fmap. now exists (k, c).
Qed.

(** Writing to a built container the value that it holds changes
    nothing. *)
Lemma set_prop_same o k c :
  built o = true -> (k, c) ∈ props_of o -> set_prop o k c = o.
Proof.
  intros Ho Hin. destruct o as [| | | | |len ps|ps]; try reflexivity;
    cbn [props_of set_prop] in *.
  - rewrite built_arr in Ho. apply andb_true_iff in Ho as [Hd He].
    apply distinct_keys_NoDup in Hd.
    pose proof (props_get_distinct k c ps Hd Hin) as Hg.
    unfold props_set. rewrite Hg, (props_replace_same k c ps Hg). f_equal.
    rewrite forallb_forall in He. apply list_elem_of_In in Hin.
    specialize (He _ Hin). unfold entry_ok, below_length in He. cbn [fst] in He.
    apply andb_true_iff in He as [_ He].
    destruct (array_index k); [|reflexivity]. apply N.ltb_lt in He. lia.
  - rewrite built_obj in Ho. apply andb_true_iff in Ho as [Hd He].
    apply distinct_keys_NoDup in Hd.
    pose proof (props_get_distinct k c ps Hd Hin) as Hg.
    unfold props_set. now rewrite Hg, (props_replace_same k c ps Hg).
Qed.

Lemma revive_keep ps : forall cur del,
  (forall k c, (k, c) ∈ ps -> set_prop cur k c = cur /\ is_undef c = false) ->
  revive_loop keep cur del ps = (cur, del).
Proof.
  induction ps as [|[k c] ps IH]; intros cur del H; [reflexivity|].
  cbn [revive_loop]. destruct (H k c) as [Hset Hu]; [left|].
  assert (forall a b c', keep a b c' = c') as Hk by reflexivity.
  rewrite Hset, Hk, Hu, Hset. apply IH.
  intros k' c' Hin. apply H. now right.
Qed.

Lemma built_entries o :
  built o = true ->
  Forall (fun kv : jsstr * value => built kv.2 = true /\ is_undef kv.2 = false)
         (props_of o).
Proof.
  intros Ho. destruct o as [| | | | |len ps|ps]; try constructor; cbn [props_of].
  - rewrite built_arr in Ho. apply andb_true_iff in Ho as [_ He].
    apply forallb_Forall_1 in He. eapply Forall_impl; [exact He|].
    intros kv H. unfold entry_ok in H. apply andb_true_iff in H as [H _].
    apply andb_true_iff in H as [H1 H2]. now apply negb_true_iff in H1.
  - rewrite built_obj in Ho. apply andb_true_iff in Ho as [_ He].
    apply forallb_Forall_1 in He. eapply Forall_impl; [exact He|].
    intros kv H. unfold entry_ok in H. apply andb_true_iff in H as [H _].
    apply andb_true_iff in H as [H1 H2]. now apply negb_true_iff in H1.
Qed.

(** The walk leaves a built value as it is. *)
Lemma walk_value_keep v : built v = true -> walk_value keep v = v.
Proof.
  induction v as [| | | | |len ps IH|ps IH] using value_induction;
    try reflexivity; intros Hb.
  - rewrite walk_value_composite by reflexivity.
    pose proof (built_entries _ Hb) as He. cbn [props_of] in *.
    assert ((fun kc : jsstr * value => (kc.1, walk_value keep kc.2)) <$> ps = ps)
      as ->.
    { clear Hb. induction ps as [|[k c] ps IHps]; [reflexivity|].
      apply Forall_cons in IH as [Hc IH]. apply Forall_cons in He as [[Hbc _] He].
      rewrite fmap_cons, (IHps IH He). cbn [fst snd] in *. now rewrite (Hc Hbc). }
    rewrite revive_keep; [reflexivity|].
    intros k c Hin. split; [now apply set_prop_same|].
    rewrite Forall_forall in He. exact (proj2 (He _ Hin)).
  - rewrite walk_value_composite by reflexivity.
    pose proof (built_entries _ Hb) as He. cbn [props_of] in *.
    assert ((fun kc : jsstr * value => (kc.1, walk_value keep kc.2)) <$> ps = ps)
      as ->.
    { clear Hb. induction ps as [|[k c] ps IHps]; [reflexivity|].
      apply Forall_cons in IH as [Hc IH]. apply Forall_cons in He as [[Hbc _] He].
      rewrite fmap_cons, (IHps IH He). cbn [fst snd] in *. now rewrite (Hc Hbc). }
    rewrite revive_keep; [reflexivity|].
    intros k c Hin. split; [now apply set_prop_same|].
    rewrite Forall_forall in He. exact (proj2 (He _ Hin)).
Qed.

(** X14. The reviver that returns every value as it is changes nothing:
    whatever the text, [jsonRawDecode] returns with it what it returns
    without a reviver. The loop never stores undefined, never stores two
    properties under one key and keeps the indices of an array below its
    length, so that the walk rewrites every property with the value it
    holds and deletes none. *)
Theorem keeping_reviver_changes_nothing s :
  jsonRawDecode s (Some keep) = jsonRawDecode s None.
Proof.
  destruct (jsonRawDecode s None) as [|v idx] eqn:E.
  - revert E. unfold jsonRawDecode. destruct (tokenize s) as [|t0 rest]; [discriminate|].
    destruct (if bool_decide (tok_text t0 = [Ch.lbrace]) then _ else _)
      as [result tlp].
    match goal with
    | |- context [match ?c with Some _ => _ | None => RawZero end] =>
        destruct c as [res|]
    end; [discriminate|reflexivity].
  - pose proof (jsonRawDecode_built s v idx E) as Hb. revert E.
    unfold jsonRawDecode. destruct (tokenize s) as [|t0 rest]; [easy|].
    destruct (if bool_decide (tok_text t0 = [Ch.lbrace]) then _ else _)
      as [result tlp].
    match goal with
    | |- context [match ?c with Some _ => _ | None => RawZero end] =>
        destruct c as [res|]
    end; [|discriminate].
    intros [= -> <-]. f_equal. unfold walk. cbn [get props_get].
    rewrite bool_decide_eq_true_2 by reflexivity. cbn [default].
    unfold keep at 1. now apply walk_value_keep.
Qed.

(** X27. Whatever the text, well formed or not, the value that
    [jsonRawDecode] returns without a reviver is built: at every depth no
    property holds undefined, the keys of a container are pairwise
    different, and the indices of an array lie below its length. *)
Theorem decoded_values_are_built s v idx :
  jsonRawDecode s None = RawPair v idx -> built v = true.
Proof. exact (jsonRawDecode_built s v idx). Qed.

Lemma decoded_values_are_built_witness :
  jsonRawDecode (js "[{'p'}1]") None
  = RawPair (VArr 1 [(js "0", VObj []); (js "p", VNum (js "1"))]) 8
  /\ built (VArr 1 [(js "0", VObj []); (js "p", VNum (js "1"))]) = true.
Proof.
  split; [reflexivity|].
  exact (decoded_values_are_built (js "[{'p'}1]") _ _ eq_refl).
Defined.
(* ===================================================================== *)
(** ** Every token is a lexeme *)
(* ===================================================================== *)

Lemma starts_with_take p : forall s,
  starts_with p s = true -> take (length p) s = p.
Proof.
  induction p as [|a p IH]; intros [|b s] H; cbn in *; try reflexivity;
    try discriminate.
  apply andb_true_iff in H as [Hab H]. apply N.eqb_eq in Hab. subst b.
  now rewrite IH.
Qed.

Lemma take_add {A} (l : list A) a b :
  take (a + b) l = take a l ++ take b (drop a l).
Proof.
  revert l. induction a as [|a IH]; intros [|x l]; cbn; try reflexivity.
  - now destruct b.
  - now rewrite IH.
Qed.

Lemma span_digits_take s : forallb is_digit (take (span_digits s) s) = true.
Proof.
  induction s as [|c s IH]; [reflexivity|]. cbn [span_digits].
  destruct (is_digit c) eqn:E; [|reflexivity]. cbn. now rewrite E.
Qed.

Lemma frac_len_take s f :
  frac_len s = Some f ->
  exists ds, digits_ok ds = true /\ take f s = Ch.dot :: ds.
Proof.
  destruct s as [|c r]; [discriminate|]. cbn [frac_len].
  destruct (N.eqb_spec c Ch.dot) as [->|]; [|discriminate].
  destruct (span_digits r) as [|n] eqn:E; [discriminate|]. intros [= <-].
  exists (take (S n) r). split; [|reflexivity]. unfold digits_ok.
  rewrite <- E, span_digits_take. cbn.
  destruct r; [discriminate E|]. rewrite E. reflexivity.
Qed.

Lemma exp_len_take s e :
  exp_len s = Some e ->
  exists x, exp_ok x = true /\ take e s = exp_text x.
Proof.
  destruct s as [|c r]; [discriminate|]. cbn [exp_len].
  destruct ((c =? Ch.lower_e) || (c =? Ch.upper_e))%N eqn:Ec; [|discriminate].
  destruct r as [|g r']; [discriminate|].
  destruct ((g =? Ch.plus) || (g =? Ch.minus))%N eqn:Eg.
  - destruct (span_digits r') as [|n] eqn:E; [discriminate|]. intros [= <-].
    exists (c, Some g, take (S n) r'). split; [|reflexivity].
    unfold exp_ok, digits_ok. rewrite Ec, Eg, <- E, span_digits_take. cbn.
    destruct r'; [discriminate E|]. rewrite E. reflexivity.
  - destruct (span_digits (g :: r')) as [|n] eqn:E; [discriminate|]. intros [= <-].
    exists (c, None, take (S n) (g :: r')). split; [|reflexivity].
    unfold exp_ok, digits_ok. rewrite Ec, <- E, span_digits_take.
    rewrite E. reflexivity.
Qed.

(** A match of the number pattern is a number literal. *)
Lemma match_unsigned_take prev s n :
  match_unsigned prev s = Some n ->
  exists int frac exp,
    numlit_ok (NumLit false int frac exp) = true
    /\ take n s = int ++ frac_text frac ++ exp_text_opt exp.
Proof.
  destruct s as [|d r]; [discriminate|]. unfold match_unsigned.
  destruct (is_digit d) eqn:Ed; [|discriminate].
  destruct (boundary prev (Some d)); [|discriminate]. cbn [andb].
  set (int := if (d =? Ch.zero)%N then 1 else S (span_digits r)).
  assert (int_ok (take int (d :: r)) = true) as Hint.
  { subst int. unfold int_ok. destruct (N.eqb_spec d Ch.zero) as [->|Hnz].
    - reflexivity.
    - cbn [take]. rewrite Ed, span_digits_take.
      apply N.eqb_neq in Hnz. rewrite Hnz. cbn. apply orb_true_r. }
  cbv zeta. intros H. apply first_end_elem in H.
  assert (forall f x e y,
            frac_len (drop int (d :: r)) = Some f -> digits_ok x = true ->
            take f (drop int (d :: r)) = Ch.dot :: x ->
            exp_len (drop f (drop int (d :: r))) = Some e -> exp_ok y = true ->
            take e (drop f (drop int (d :: r))) = exp_text y ->
            n = int + f + e ->
            exists int0 frac exp,
              numlit_ok (NumLit false int0 frac exp) = true
              /\ take n (d :: r) = int0 ++ frac_text frac ++ exp_text_opt exp) as Hfe.
  { intros f x e y _ Hx Ex _ Hy Ey ->.
    exists (take int (d :: r)), (Some x), (Some y). split.
    - unfold numlit_ok. cbn. now rewrite Hint, Hx, Hy.
    - rewrite <- Nat.add_assoc, take_add, take_add, Ex, Ey. reflexivity. }
  assert (forall f x,
            digits_ok x = true -> take f (drop int (d :: r)) = Ch.dot :: x ->
            n = int + f ->
            exists int0 frac exp,
              numlit_ok (NumLit false int0 frac exp) = true
              /\ take n (d :: r) = int0 ++ frac_text frac ++ exp_text_opt exp) as Hf.
  { intros f x Hx Ex ->.
    exists (take int (d :: r)), (Some x), None. split.
    - unfold numlit_ok. cbn. now rewrite Hint, Hx.
    - rewrite take_add, Ex. cbn. now rewrite app_nil_r. }
  assert (forall e y,
            exp_ok y = true -> take e (drop int (d :: r)) = exp_text y ->
            n = int + e ->
            exists int0 frac exp,
              numlit_ok (NumLit false int0 frac exp) = true
              /\ take n (d :: r) = int0 ++ frac_text frac ++ exp_text_opt exp) as He.
  { intros e y Hy Ey ->.
    exists (take int (d :: r)), None, (Some y). split.
    - unfold numlit_ok. cbn. now rewrite Hint, Hy.
    - rewrite take_add, Ey. reflexivity. }
  assert (n = int ->
          exists int0 frac exp,
            numlit_ok (NumLit false int0 frac exp) = true
            /\ take n (d :: r) = int0 ++ frac_text frac ++ exp_text_opt exp) as Hi.
  { intros ->. exists (take int (d :: r)), None, None. split.
    - unfold numlit_ok. cbn. now rewrite Hint.
    - cbn. now rewrite app_nil_r. }
  destruct (frac_len (drop int (d :: r))) as [f|] eqn:Ef.
  - destruct (frac_len_take _ _ Ef) as (x & Hx & Ex).
    destruct (exp_len (drop f (drop int (d :: r)))) as [e|] eqn:Ee.
    + destruct (exp_len_take _ _ Ee) as (y & Hy & Ey).
      destruct (exp_len (drop int (d :: r))) as [e'|] eqn:Ee'.
      * destruct (exp_len_take _ _ Ee') as (y' & Hy' & Ey').
        cbn [app] in H. set_unfold in H.
        destruct H as [->|[->|[->|[->|[]]]]]; eauto.
      * cbn [app] in H. set_unfold in H.
        destruct H as [->|[->|[->|[]]]]; eauto.
    + destruct (exp_len (drop int (d :: r))) as [e'|] eqn:Ee'.
      * destruct (exp_len_take _ _ Ee') as (y' & Hy' & Ey').
        cbn [app] in H. set_unfold in H.
        destruct H as [->|[->|[->|[]]]]; eauto.
      * cbn [app] in H. set_unfold in H.
        destruct H as [->|[->|[]]]; eauto.
  - destruct (exp_len (drop int (d :: r))) as [e'|] eqn:Ee'.
    + destruct (exp_len_take _ _ Ee') as (y' & Hy' & Ey').
      cbn [app] in H. set_unfold in H.
      destruct H as [->|[->|[]]]; eauto.
    + cbn [app] in H. set_unfold in H.
      destruct H as [->|[]]; eauto.
Qed.

Lemma match_number_take prev s n :
  match_number prev s = Some n ->
  exists l, numlit_ok l = true /\ take n s = numlit_text l.
Proof.
  destruct s as [|c r]; [discriminate|]. unfold match_number.
  destruct (N.eqb_spec c Ch.minus) as [->|Hc].
  - destruct (match_unsigned (Some Ch.minus) r) as [m|] eqn:E; [|discriminate].
    intros [= <-].
    destruct (match_unsigned_take _ _ _ E) as (int & frac & exp & Hok & Et).
    exists (NumLit true int frac exp). split; [exact Hok|].
    rewrite numlit_text_split. cbn [take num_neg num_int num_frac num_exp app].
    now rewrite Et.
  - intros E.
    destruct (match_unsigned_take _ _ _ E) as (int & frac & exp & Hok & Et).
    exists (NumLit false int frac exp). split; [exact Hok|].
    now rewrite numlit_text_split.
Qed.

(** A match of the string pattern is a string literal. *)
Lemma string_rest_take s : forall n,
  string_rest s = Some n ->
  exists cs, forallb schar_ok cs = true
             /\ take n s = concat (schar_text <$> cs) ++ [Ch.quote].
Proof.
  induction s as [s IH] using (induction_ltof1 _ (@length N)). unfold ltof in IH.
  intros n. destruct s as [|c r]; [discriminate|]. cbn [string_rest].
  destruct (N.eqb_spec c Ch.quote) as [->|Hq].
  { intros [= <-]. exists []. now split. }
  destruct (N.eqb_spec c Ch.backslash) as [->|Hb].
  - destruct r as [|e r1]; [discriminate|].
    destruct (is_simple_escape e) eqn:Ee.
    + destruct (string_rest r1) as [m|] eqn:E; [|discriminate].
      apply IH in E as (cs & Hcs & Et); [|cbn; lia]. intros [= <-].
      exists (Escape e :: cs). split; [cbn; now rewrite Ee|].
      cbn [take Nat.add]. now rewrite Et.
    + destruct (e =? Ch.lower_u)%N eqn:Eu; [|discriminate].
      apply N.eqb_eq in Eu. subst e.
      destruct r1 as [|h1 [|h2 [|h3 [|h4 r2]]]]; try discriminate.
      destruct (is_hex h1 && is_hex h2 && is_hex h3 && is_hex h4) eqn:Eh;
        [|discriminate].
      destruct (string_rest r2) as [m|] eqn:E; [|discriminate].
      apply IH in E as (cs & Hcs & Et); [|cbn; lia]. intros [= <-].
      exists (Unicode h1 h2 h3 h4 :: cs). split; [cbn; now rewrite Eh|].
      cbn [take Nat.add]. now rewrite Et.
  - destruct (is_plain c) eqn:Ep; [|discriminate].
    destruct (string_rest r) as [m|] eqn:E; [|discriminate].
    apply IH in E as (cs & Hcs & Et); [|cbn; lia]. intros [= <-].
    exists (Plain c :: cs). split; [cbn; now rewrite Ep|].
    cbn [take]. now rewrite Et.
Qed.

Lemma match_string_take s n :
  match_string s = Some n ->
  exists cs, forallb schar_ok cs = true /\ take n s = string_text cs.
Proof.
  destruct s as [|c r]; [discriminate|]. cbn [match_string].
  destruct (N.eqb_spec c Ch.quote) as [->|]; [|discriminate].
  destruct (string_rest r) as [m|] eqn:E; [|discriminate]. intros [= <-].
  destruct (string_rest_take _ _ E) as (cs & Hcs & Et).
  exists cs. split; [exact Hcs|]. cbn [take]. now rewrite Et.
Qed.

(** A match of the token pattern is a lexeme. *)
Lemma jsonToken_take prev s n :
  jsonToken prev s = Some n ->
  exists l, lexeme_ok l = true /\ take n s = lexeme_text l.
Proof.
  unfold jsonToken.
  destruct (starts_with (js "false") s) eqn:E1.
  { intros [= <-]. exists LFalse. split; [reflexivity|].
    exact (starts_with_take _ _ E1). }
  destruct (starts_with (js "true") s) eqn:E2.
  { intros [= <-]. exists LTrue. split; [reflexivity|].
    exact (starts_with_take _ _ E2). }
  destruct (starts_with (js "null") s) eqn:E3.
  { intros [= <-]. exists LNull. split; [reflexivity|].
    exact (starts_with_take _ _ E3). }
  case_bool_decide as E4.
  { intros [= <-]. destruct s as [|c r]; [discriminate|].
    cbn in E4. injection E4 as E4. unfold is_bracket in E4.
    destruct (N.eqb_spec c Ch.lbrace) as [->|]; [now exists LBrace|].
    destruct (N.eqb_spec c Ch.rbrace) as [->|]; [now exists RBrace|].
    destruct (N.eqb_spec c Ch.lbracket) as [->|]; [now exists LBracket|].
    destruct (N.eqb_spec c Ch.rbracket) as [->|]; [now exists RBracket|].
    discriminate. }
  destruct (match_number prev s) as [m|] eqn:E5.
  - intros [= <-]. destruct (match_number_take _ _ _ E5) as (l & Hl & Et).
    now exists (LNumber l).
  - intros E6. destruct (match_string_take _ _ E6) as (cs & Hcs & Et).
    now exists (LString cs).
Qed.

Lemma scan_lexemes s : forall skip prev pos,
  Forall (fun t => exists l, lexeme_ok l = true /\ tok_text t = lexeme_text l)
         (scan skip prev pos s).
Proof.
  induction s as [|c r IH]; intros skip prev pos; [constructor|].
  cbn [scan]. destruct skip as [|k]; [|apply IH].
  destruct (jsonToken prev (c :: r)) as [[|n]|] eqn:E; try apply IH.
  constructor; [|apply IH]. cbn [tok_text].
  exact (jsonToken_take _ _ _ E).
Qed.

(** X15. Whatever the input, every token that [tokenize] returns is a
    lexeme of JSON: the text of true, false or null, one bracket or brace,
    a well-formed number literal or a well-formed string literal. In
    particular the default branch of the loop is reached by number
    literals only. *)
Theorem tokens_are_lexemes s t :
  t ∈ tokenize s ->
  exists l, lexeme_ok l = true /\ tok_text t = lexeme_text l.
Proof.
  intros Ht. pose proof (scan_lexemes s 0 None 0) as H.
  rewrite Forall_forall in H. exact (H t Ht).
Qed.

Lemma tokens_are_lexemes_witness :
  Token (js "-1.5e3") 2 ∈ tokenize (js "x,-1.5e3 '")
  /\ exists l, lexeme_ok l = true /\ js "-1.5e3" = lexeme_text l.
Proof.
  assert (Token (js "-1.5e3") 2 ∈ tokenize (js "x,-1.5e3 '")) as H
    by (apply list_elem_of_lookup; exists 0; reflexivity).
  split; [exact H|]. exact (tokens_are_lexemes _ _ H).
Defined.
(* ===================================================================== *)
(** ** Text without a token after a document *)
(* ===================================================================== *)

Lemma scan_no_token s prev pos :
  tokenize s = [] -> word_opt prev = false -> scan 0 prev pos s = [].
Proof.
  intros Hs Hp. rewrite (scan_prev s 0 pos prev None Hp).
  rewrite <- (Nat.add_0_r pos), scan_shift. fold (tokenize s). now rewrite Hs.
Qed.

Lemma prev_after_cons prev c t :
  prev_after prev (c :: t) = prev_after (Some c) t.
Proof.
  unfold prev_after. destruct t as [|x t]; [reflexivity|].
  change (last (c :: x :: t)) with (last (x :: t)).
  destruct (last (x :: t)) eqn:E; [reflexivity|].
  now apply last_None in E.
Qed.

Lemma prev_after_app prev a b :
  prev_after prev (a ++ b) = prev_after (prev_after prev a) b.
Proof.
  unfold prev_after. rewrite last_app. destruct (last b); [reflexivity|].
  now destruct (last a).
Qed.

(** The tokens of a well-spaced list of items, and the character after
    which the scan of the rest starts. *)
Lemma scan_items_prev its : forall prev pos rest,
  spaced prev its rest = true ->
  scan 0 prev pos (items_text its ++ rest)
  = toks_at pos its
    ++ scan 0 (prev_after prev (items_text its))
         (pos + length (items_text its)) rest.
Proof.
  induction its as [|i its IH]; intros prev pos rest H.
  - cbn. now rewrite Nat.add_0_r.
  - unfold items_text in *. rewrite fmap_cons. cbn [concat].
    rewrite <- app_assoc. destruct i as [c|l]; cbn [spaced item_text] in *.
    + apply andb_true_iff in H as [Hc H]. cbn [app].
      rewrite (scan_gap _ _ _ _ Hc), (IH (Some c) (S pos) rest H).
      cbn [toks_at]. rewrite prev_after_cons. f_equal. f_equal. len_solve.
    + apply andb_true_iff in H as [H Hs]. apply andb_true_iff in H as [Hok Hfit].
      destruct (lexeme_text_nonempty l Hok) as (c & r & El).
      rewrite scan_match.
      * rewrite (IH _ (pos + length (lexeme_text l)) rest Hs). cbn [toks_at].
        rewrite length_app, prev_after_app, Nat.add_assoc. cbn [app].
        do 3 f_equal. unfold prev_after at 3. rewrite El.
        destruct (last (c :: r)) eqn:E; [reflexivity|].
        now apply last_None in E.
      * congruence.
      * apply jsonToken_lexeme; [assumption|]. now destruct l.
Qed.

Lemma toks_at_only_gaps w : forall pos, toks_at pos (Gap <$> w) = [].
Proof. induction w as [|c w IH]; intros pos; [reflexivity|apply IH]. Qed.

(** A document that holds an object or an array ends with a character
    that is no word character. *)
Lemma container_doc_last d :
  container_doc d -> word_opt (prev_after None (doc_text d)) = false.
Proof.
  intros [Hok Hc]. unfold doc_ok in Hok. apply andb_true_iff in Hok as [_ Htrail].
  unfold doc_text. rewrite !prev_after_app.
  assert (word_opt (prev_after (prev_after None (doc_lead d))
                               (json_text (doc_json d))) = false) as Hj.
  { destruct (doc_json d) as [| | | | |w es|w ms]; try discriminate Hc;
      cbn [json_text]; rewrite prev_after_cons, app_assoc, prev_after_app;
      reflexivity. }
  revert Hj. generalize (prev_after (prev_after None (doc_lead d))
                                    (json_text (doc_json d))).
  induction (doc_trail d) as [|c w IH] using rev_ind; intros p Hp; [exact Hp|].
  rewrite prev_after_app. cbn.
  unfold ws_ok in Htrail. rewrite forallb_app in Htrail.
  apply andb_true_iff in Htrail as [_ Hc']. cbn in Hc'.
  apply andb_true_iff in Hc' as [Hc' _].
  apply is_gap_not_word. now apply is_ws_gap.
Qed.

(** X16. Text without a token that follows a complete document is
    consumed with it, silently: for a well-formed document whose top-level
    value is an object or an array, followed by any text in which
    [tokenize] finds no token, [jsonRawDecode] returns the value that it
    returns on the document alone, with the length of the whole text, and
    [jsonDecode] adds that value alone to its list. *)
Theorem text_without_token_after_document d tail :
  container_doc d -> tokenize tail = [] ->
  exists v,
    decodes_alone d v
    /\ jsonRawDecode (doc_text d ++ tail) None
       = RawPair v (Z.of_nat (length (doc_text d ++ tail)))
    /\ forall fuel acc,
         jsonDecode (S fuel) (doc_text d ++ tail) acc = Some (acc ++ [v]).
Proof.
  intros Hd Htail. exists (json_value (doc_json d)).
  split; [exact (jsonRawDecode_doc d Hd)|]. pose proof Hd as [Hok Hc].
  assert (jsonRawDecode (doc_text d ++ tail) None
          = RawPair (json_value (doc_json d))
              (Z.of_nat (length (doc_text d ++ tail)))) as Hraw.
  { unfold doc_ok in Hok. apply andb_true_iff in Hok as [Hok Htrail].
    apply andb_true_iff in Hok as [Hlead Hj].
    assert (closes (doc_items d) tail) as [_ Hsp].
    { unfold doc_items. apply closes_gaps; [exact Hlead|].
      apply container_closes; [exact Hj|exact Hc|].
      intros p Hp. pose proof (accepts_gaps (doc_trail d) [] tail Htrail) as Ha.
      rewrite app_nil_r in Ha. apply Ha; [|exact Hp]. intros q _. reflexivity. }
    rewrite <- doc_items_text. unfold jsonRawDecode, tokenize.
    rewrite (scan_items_prev (doc_items d) None 0 tail (Hsp None)).
    rewrite scan_no_token;
      [|exact Htail|rewrite doc_items_text; now apply container_doc_last].
    rewrite app_nil_r. unfold doc_items.
    rewrite toks_at_gaps, toks_at_app.
    destruct (run_root (doc_json d)
                (toks_at (0 + length (doc_lead d)) (items (doc_json d)))
                [] Hc Hj) as (t0 & ts' & r0 & Ets & Er0 & Erun).
    { now rewrite toks_at_texts, item_lexemes_json. }
    assert (toks_at (0 + length (doc_lead d)
                     + length (items_text (items (doc_json d))))
                    (Gap <$> doc_trail d) = []) as ->.
    { apply toks_at_only_gaps. }
    rewrite app_nil_r in Erun |- *. rewrite Ets, Er0, Erun.
    cbn [run stack root index]. reflexivity. }
  split; [exact Hraw|]. intros fuel acc. cbn [jsonDecode].
  rewrite Hraw, substr_nat, drop_all. reflexivity.
Qed.

Lemma text_without_token_after_document_witness :
  container_doc sample_object
  /\ tokenize (js " // end") = []
  /\ doc_text sample_object ++ js " // end" = js "{'a':1} // end"
  /\ jsonRawDecode (js "{'a':1}") None
     = RawPair (VObj [(js "a", VNum (js "1"))]) 7
  /\ jsonRawDecode (js "{'a':1} // end") None
     = RawPair (VObj [(js "a", VNum (js "1"))]) 14
  /\ jsonDecode 1 (js "{'a':1} // end") [] = Some [VObj [(js "a", VNum (js "1"))]]
  /\ exists v,
       decodes_alone sample_object v
       /\ jsonRawDecode (doc_text sample_object ++ js " // end") None
          = RawPair v (Z.of_nat (length (doc_text sample_object ++ js " // end")))
       /\ forall fuel acc,
            jsonDecode (S fuel) (doc_text sample_object ++ js " // end") acc
            = Some (acc ++ [v]).
Proof.
  assert (container_doc sample_object) as Hd by (split; reflexivity).
  assert (tokenize (js " // end") = []) as Ht by reflexivity.
  split; [exact Hd|]. split; [exact Ht|]. split; [reflexivity|].
  split; [reflexivity|]. split; [reflexivity|]. split; [reflexivity|].
  exact (text_without_token_after_document sample_object (js " // end") Hd Ht).
Defined.
(* ===================================================================== *)
(** ** decycle with a replacer, and what the copy holds *)
(* ===================================================================== *)

(** X17. [decycle] returns with every replacer whose answers lie among
    the objects of a heap, whatever they are and however they change from
    call to call: the calls of [derez] nest no deeper than the number of
    objects of the heap plus one, since every array or object that is
    entered has been recorded and is not entered again. *)
Theorem decycle_returns_with_any_replacer {S : Type} (h : heap)
    (rp : option (@replacer S)) (object : gval) (s : S) :
  exists t, decycle_from h rp (Datatypes.S (size (dom h))) object s = Some t.
Proof.
  unfold decycle_from.
  destruct (derez_total h rp (size (dom h)) object (js "$") ∅ s)
    as (t & o' & s' & E & _).
  - apply subseteq_size. set_solver.
  - rewrite E. now exists t.
Qed.

(** *** The copy shares no array or object with its argument *)

Section Copied.
Context {S : Type}.
Variable h : heap.
Variable rp : option (@replacer S).

Lemma each_element_copied
    (rec : gval -> jsstr -> memo -> S -> option (tree * memo * S)) path :
  (forall e p o s t o' s', rec e p o s = Some (t, o', s') -> copied h t = true) ->
  forall es i o s ts o' s',
    each_element rec path i es o s = Some (ts, o', s') ->
    forallb (fun t => copied h t) ts = true.
Proof.
  intros Hrec. induction es as [|e es IH]; intros i o s ts o' s' H.
  - cbn in H. now injection H as <- <- <-.
  - cbn [each_element] in H.
    destruct (rec e _ o s) as [[[t1 o1] s1]|] eqn:E1; [|discriminate].
    cbn in H. destruct (each_element rec path (i + 1) es o1 s1)
      as [[[ts2 o2] s2]|] eqn:E2; [|discriminate].
    cbn in H. injection H as <- <- <-. cbn [forallb].
    now rewrite (Hrec _ _ _ _ _ _ _ E1), (IH _ _ _ _ _ _ E2).
Qed.

Lemma each_name_copied
    (rec : gval -> jsstr -> memo -> S -> option (tree * memo * S)) path :
  (forall e p o s t o' s', rec e p o s = Some (t, o', s') -> copied h t = true) ->
  forall fs o s ts o' s',
    each_name rec path fs o s = Some (ts, o', s') ->
    forallb (fun f : jsstr * tree => copied h f.2) ts = true.
Proof.
  intros Hrec. induction fs as [|[name child] fs IH]; intros o s ts o' s' H.
  - cbn in H. now injection H as <- <- <-.
  - cbn [each_name] in H.
    destruct (rec child _ o s) as [[[t1 o1] s1]|] eqn:E1; [|discriminate].
    cbn in H. destruct (each_name rec path fs o1 s1)
      as [[[ts2 o2] s2]|] eqn:E2; [|discriminate].
    cbn in H. injection H as <- <- <-.
    case_bool_decide; [exact (IH _ _ _ _ _ E2)|]. cbn [forallb snd].
    now rewrite (Hrec _ _ _ _ _ _ _ E1), (IH _ _ _ _ _ E2).
Qed.

Lemma derez_copied fuel : forall value path objects s t objects' s',
  derez h rp fuel value path objects s = Some (t, objects', s') ->
  copied h t = true.
Proof.
  induction fuel as [|fuel IH]; intros value path objects s t objects' s' H;
    [discriminate|].
  rewrite derez_step in H.
  destruct (match rp with Some f => f s value | None => (value, s) end)
    as [value1 s1].
  destruct value1 as [| | | | |l]; try (injection H as <- _ _; reflexivity).
  destruct (h !! l) as [[es|fs|json]|] eqn:El.
  - destruct (objects !! l) as [p|]; [injection H as <- _ _; reflexivity|].
    destruct (each_element _ _ _ _ _) as [[[nu o2] s2]|] eqn:E; [|discriminate].
    cbn in H. injection H as <- _ _. cbn [copied].
    exact (each_element_copied _ _ IH _ _ _ _ _ _ _ E).
  - destruct (objects !! l) as [p|]; [injection H as <- _ _; reflexivity|].
    destruct (each_name _ _ _ _ _) as [[[nu o2] s2]|] eqn:E; [|discriminate].
    cbn in H. injection H as <- _ _. cbn [copied].
    exact (each_name_copied _ _ IH _ _ _ _ _ _ E).
  - injection H as <- _ _. cbn [copied]. now rewrite El.
  - injection H as <- _ _. cbn [copied]. now rewrite El.
Qed.
End Copied.

(** X18. What [decycle] returns is a copy all the way down: no array and
    no plain object of the argument is part of the result; each has been
    replaced by a new array or object or by a [$ref] marker. The leaves of
    the result are primitive values and the objects that [derez] passes
    through (instances of Boolean, Date, Number, RegExp and String). This
    holds with and without a replacer. *)
Theorem decycle_shares_no_container {S : Type} (h : heap)
    (rp : option (@replacer S)) fuel object s t :
  decycle_from h rp fuel object s = Some t -> copied h t = true.
Proof.
  unfold decycle_from. intros H.
  destruct (derez h rp fuel object (js "$") ∅ s) as [[[t1 o1] s1]|] eqn:E;
    [|discriminate].
  cbn in H. injection H as <-. exact (derez_copied h rp fuel _ _ _ _ _ _ _ E).
Qed.

Lemma decycle_shares_no_container_witness :
  decycle_from pair_heap (Some wrap_first) 3 (GRef 1%positive) tt
  = Some (TArr [TArr []; TArr []])
  /\ copied pair_heap (TArr [TArr []; TArr []]) = true.
Proof.
  assert (decycle_from pair_heap (Some wrap_first) 3 (GRef 1%positive) tt
          = Some (TArr [TArr []; TArr []])) as H by (vm_compute; reflexivity).
  split; [exact H|].
  exact (decycle_shares_no_container pair_heap (Some wrap_first) 3
           (GRef 1%positive) tt _ H).
Defined.
(* ===================================================================== *)
(** ** Decoding what JSON.stringify writes for a string *)
(* ===================================================================== *)

(** [jsonRawDecode] on the text of one scalar. *)
Lemma jsonRawDecode_scalar j :
  is_container j = false -> json_ok j = true ->
  jsonRawDecode (json_text j) None
  = RawPair (json_value j) (Z.of_nat (length (json_text j))).
Proof.
  intros Hc Hok.
  assert (run (BState [(VArr 0 [], [])] (VArr 0 []) None (-1))
              [Token (json_text j) 0]
          = live [(VArr 1 [(js "0", json_value j)], [])] (VArr 0 []) None) as Hrun.
  { change (BState [(VArr 0 [], [])] (VArr 0 []) None (-1))
      with (live [(VArr 0 [], [])] (VArr 0 []) None).
    rewrite run_live_cons;
      rewrite (step_scalar j _ (VArr 0 []) [] [] (VArr 0 []) None Hc Hok);
      try reflexivity;
      now destruct j. }
  unfold jsonRawDecode. destruct (scalar_text_not_bracket j Hc Hok) as [H1 H2].
  rewrite (scalar_tokens j Hc Hok).
  cbn [tok_text]. rewrite !bool_decide_eq_false_2 by assumption.
  rewrite Hrun. reflexivity.
Qed.

Lemma hex_char_digit d :
  (d < 16)%N ->
  hex_digit (hex_char d) = Some (Z.of_N d) /\ is_hex (hex_char d) = true.
Proof.
  intros Hd. unfold hex_char, hex_digit, is_hex, is_digit.
  destruct (N.ltb_spec d 10).
  - assert ((48 <=? 48 + d)%N && (48 + d <=? 57)%N = true) as ->
      by (bool_to_prop; lia).
    split; [f_equal; lia|reflexivity].
  - assert ((48 <=? 87 + d)%N && (87 + d <=? 57)%N = false) as ->
      by (bool_to_prop; lia).
    assert ((65 <=? 87 + d)%N && (87 + d <=? 70)%N = false) as ->
      by (bool_to_prop; lia).
    assert ((97 <=? 87 + d)%N && (87 + d <=? 102)%N = true) as ->
      by (bool_to_prop; lia).
    split; [f_equal; lia|reflexivity].
Qed.

Lemma hex_schar_spec c :
  (c < 65536)%N ->
  schar_ok (hex_schar c) = true /\ schar_value (hex_schar c) = c
  /\ schar_text (hex_schar c) = Ch.backslash :: Ch.lower_u :: hex4 c.
Proof.
  intros Hc. unfold hex_schar.
  assert (forall x, (x mod 16 < 16)%N) as Hm by (intros x; now apply N.mod_lt).
  destruct (hex_char_digit _ (Hm (c / 4096)%N)) as [D1 H1].
  destruct (hex_char_digit _ (Hm (c / 256)%N)) as [D2 H2].
  destruct (hex_char_digit _ (Hm (c / 16)%N)) as [D3 H3].
  destruct (hex_char_digit _ (Hm c)) as [D4 H4].
  split; [cbn; now rewrite H1, H2, H3, H4|]. split; [|reflexivity].
  cbn [schar_value]. unfold hex_value. rewrite D1, D2, D3, D4. cbn [default].
  unfold id. rewrite !N2Z.id.
  pose proof (N.div_mod c 16 ltac:(lia)) as E0.
  pose proof (N.div_mod (c / 16) 16 ltac:(lia)) as E1.
  pose proof (N.div_mod (c / 256) 16 ltac:(lia)) as E2.
  pose proof (N.div_mod (c / 4096) 16 ltac:(lia)) as E3.
  replace (c / 16 / 16)%N with (c / 256)%N in E1
    by (now rewrite N.Div0.div_div).
  replace (c / 256 / 16)%N with (c / 4096)%N in E2
    by (now rewrite N.Div0.div_div).
  replace (c / 4096 / 16)%N with 0%N in E3
    by (rewrite N.Div0.div_div; symmetry; now apply N.div_small).
  pose proof (Hm c). pose proof (Hm (c / 16)%N). pose proof (Hm (c / 256)%N).
  pose proof (Hm (c / 4096)%N). lia.
Qed.

Lemma escape_schar_spec e c :
  is_simple_escape e = true -> escape_char e = c ->
  schar_ok (Escape e) = true /\ schar_value (Escape e) = c
  /\ schar_text (Escape e) = [Ch.backslash; e].
Proof. intros He Hc. now repeat split. Qed.

Lemma plain_schar_spec c :
  (32 <= c)%N -> c <> Ch.quote -> c <> Ch.backslash ->
  schar_ok (Plain c) = true /\ schar_value (Plain c) = c
  /\ schar_text (Plain c) = [c].
Proof.
  intros H1 H2 H3. split; [|now split]. cbn. revert H2 H3.
  unfold is_plain. unfold_chars. bool_to_prop. lia.
Qed.

(** The characters that [JSON.stringify] writes for a string are
    well-formed characters of a string literal, they denote the string,
    and their text is what [quote_chars] gives. *)
Lemma quote_schars_spec s :
  forallb schar_ok (quote_schars s) = true
  /\ string_value (quote_schars s) = s
  /\ concat (schar_text <$> quote_schars s) = quote_chars s.
Proof.
  induction s as [s IH] using (induction_ltof1 _ (@length N)). unfold ltof in IH.
  destruct s as [|c r]; [now repeat split|].
  assert (forall x,
            schar_ok x = true -> schar_value x = c ->
            forallb schar_ok (x :: quote_schars r) = true
            /\ string_value (x :: quote_schars r) = c :: r
            /\ concat (schar_text <$> x :: quote_schars r)
               = schar_text x ++ quote_chars r) as Hcons.
  { intros x Hok Hval. destruct (IH r) as (I1 & I2 & I3); [cbn; lia|].
    unfold string_value in *. rewrite !fmap_cons. cbn [forallb concat].
    now rewrite Hok, I1, Hval, I2, I3. }
  cbn [quote_schars quote_chars].
  destruct (N.eqb_spec c Ch.quote) as [->|Hq]; [now apply Hcons|].
  destruct (N.eqb_spec c Ch.backslash) as [->|Hb]; [now apply Hcons|].
  destruct (N.eqb_spec c 8) as [->|H8]; [now apply Hcons|].
  destruct (N.eqb_spec c 12) as [->|H12]; [now apply Hcons|].
  destruct (N.eqb_spec c 10) as [->|H10]; [now apply Hcons|].
  destruct (N.eqb_spec c 13) as [->|H13]; [now apply Hcons|].
  destruct (N.eqb_spec c 9) as [->|H9]; [now apply Hcons|].
  destruct (N.ltb_spec c 32) as [Hlt|Hge].
  { destruct (hex_schar_spec c ltac:(lia)) as (Hok & Hval & Ht).
    do 2 rewrite app_comm_cons. rewrite <- Ht. now apply Hcons. }
  destruct (is_high_surrogate c) eqn:Ehi.
  { assert (c < 65536)%N as Hc
      by (revert Ehi; unfold is_high_surrogate; bool_to_prop; lia).
    destruct (hex_schar_spec c Hc) as (Hok & Hval & Ht).
    destruct r as [|d r'].
    - rewrite <- Ht. specialize (Hcons _ Hok Hval).
      cbn [quote_schars quote_chars] in Hcons. now rewrite app_nil_r in Hcons.
    - destruct (is_low_surrogate d) eqn:Elo.
      + destruct (IH r') as (I1 & I2 & I3); [cbn; lia|].
        assert (32 <= d /\ d <> Ch.quote /\ d <> Ch.backslash)%N as (D1 & D2 & D3).
        { revert Elo. unfold is_low_surrogate. unfold_chars. bool_to_prop. lia. }
        destruct (plain_schar_spec c Hge Hq Hb) as (P1 & P2 & P3).
        destruct (plain_schar_spec d D1 D2 D3) as (Q1 & Q2 & Q3).
        unfold string_value in *. rewrite !fmap_cons. cbn [forallb concat].
        rewrite P1, Q1, I1, P2, Q2, I2, P3, Q3, I3. now repeat split.
      + do 2 rewrite app_comm_cons. rewrite <- Ht. now apply Hcons. }
  destruct (is_low_surrogate c) eqn:Elo.
  { assert (c < 65536)%N as Hc
      by (revert Elo; unfold is_low_surrogate; bool_to_prop; lia).
    destruct (hex_schar_spec c Hc) as (Hok & Hval & Ht).
    do 2 rewrite app_comm_cons. rewrite <- Ht. now apply Hcons. }
  destruct (plain_schar_spec c Hge Hq Hb) as (P1 & P2 & P3).
  change (c :: quote_chars r) with ([c] ++ quote_chars r). rewrite <- P3.
  now apply Hcons.
Qed.

(** X19. Decoding undoes [JSON.stringify] on strings: for every string
    (every sequence of code units, with quotes, backslashes, control
    characters and lone surrogates), [jsonRawDecode] on the text that
    [JSON.stringify] writes for it returns the string, and the length of
    that text. *)
Theorem decoding_undoes_quoting s :
  jsonRawDecode (quote_string s) None
  = RawPair (VStr s) (Z.of_nat (length (quote_string s))).
Proof.
  destruct (quote_schars_spec s) as (Hok & Hval & Htext).
  pose proof (jsonRawDecode_scalar (JStr (quote_schars s)) eq_refl Hok) as H.
  cbn [json_text json_value] in H. unfold string_text in H.
  rewrite Htext, Hval in H. exact H.
Qed.
(* ===================================================================== *)
(** ** Decoding what JSON.stringify writes for a tree *)
(* ===================================================================== *)

Lemma tree_induction (P : tree -> Prop) :
  (forall v, P (TLeaf v)) ->
  (forall ts, Forall P ts -> P (TArr ts)) ->
  (forall fs, Forall (fun f : jsstr * tree => P f.2) fs -> P (TObj fs)) ->
  forall t, P t.
Proof.
  intros Hl Ha Ho. fix IH 1. intros [v|ts|fs]; [apply Hl | apply Ha | apply Ho].
  - induction ts as [|t ts IHts]; constructor; [apply IH | exact IHts].
  - induction fs as [|[k t] fs IHfs]; constructor; [apply IH | exact IHfs].
Qed.

Lemma plain_no_proto_field t : plain t = true -> no_proto_field t = true.
Proof.
  induction t as [v|ts IH|fs IH] using tree_induction; cbn [plain no_proto_field].
  - reflexivity.
  - intros H. apply forallb_forall. intros t Ht.
    rewrite forallb_forall in H. rewrite Forall_forall in IH.
    apply IH; [now apply list_elem_of_In|now apply H].
  - intros H. apply forallb_forall. intros f Hf.
    rewrite forallb_forall in H. rewrite Forall_forall in IH.
    specialize (H f Hf). apply andb_true_iff in H as [H1 H2].
    rewrite H1. cbn. apply IH; [now apply list_elem_of_In|exact H2].
Qed.

Lemma is_number_text_literal lit :
  is_number_text lit = true ->
  exists n, numlit_ok n = true /\ numlit_text n = lit.
Proof.
  unfold is_number_text.
  destruct (match_number None lit) as [n|] eqn:E; [|discriminate].
  intros Hn. apply Nat.eqb_eq in Hn. subst n.
  destruct (match_number_take _ _ _ E) as (l & Hl & Et).
  exists l. split; [exact Hl|]. now rewrite <- Et, take_ge.
Qed.

Lemma sep_by_comma_cons x xs :
  sep_by_comma (x :: xs) = x ++ concat ((fun y => 44%N :: y) <$> xs).
Proof.
  revert x. induction xs as [|y xs IH]; intros x; [cbn; now rewrite app_nil_r|].
  change (sep_by_comma (x :: y :: xs)) with (x ++ 44%N :: sep_by_comma (y :: xs)).
  now rewrite IH.
Qed.

Section Stringify.
Variable h : heap.

Lemma written_elements ts jl :
  Forall2 (written h) ts jl ->
  (fix items (ts : list tree) : jsstr :=
     match ts with
     | [] => []
     | [t] => default (js "null") (stringify h t)
     | t :: r => default (js "null") (stringify h t) ++ js "," ++ items r
     end) ts
  = sep_by_comma (json_text <$> jl).
Proof.
  induction 1 as [|t j ts jl' (_ & Ht & _) Hrest IH]; [reflexivity|].
  destruct Hrest as [|t2 j2 ts2 jl2 H2 Hrest2].
  - cbn. now rewrite Ht.
  - rewrite Ht. cbn [default from_option id].
    change (json_text <$> j :: j2 :: jl2)
      with (json_text j :: (json_text <$> j2 :: jl2)).
    change (sep_by_comma (json_text j :: (json_text <$> j2 :: jl2)))
      with (json_text j ++ 44%N :: sep_by_comma (json_text <$> j2 :: jl2)).
    now rewrite <- IH.
Qed.

Lemma written_array_value ts jl : forall a,
  Forall2 (written h) ts jl ->
  foldl (fun a (e : element) => set_prop a (length_key a) (json_value e.1.2)) a
        ((fun j : json => ([], j, [])) <$> jl)
  = foldl (fun a t => set_prop a (length_key a) (value_of_tree t)) a ts.
Proof.
  intros a H. revert a.
  induction H as [|t j ts jl' (_ & _ & Hv) _ IH]; intros a; [reflexivity|].
  rewrite fmap_cons. cbn [foldl fst snd]. now rewrite Hv, IH.
Qed.

(** The members of an object, written after the first one. *)
Lemma written_members fs ml :
  Forall2 (fun (f : jsstr * tree) (m : jsstr * json) =>
             f.1 = m.1 /\ written h f.2 m.2) fs ml ->
  let members :=
    fix members (first : bool) (fs : list (jsstr * tree)) : jsstr :=
      match fs with
      | [] => []
      | (k, t) :: r =>
          match stringify h t with
          | Some s =>
              (if first then [] else js ",") ++ quote_string k ++ js ":" ++ s
              ++ members false r
          | None => members first r
          end
      end in
  let text := fun m : jsstr * json =>
    quote_string m.1 ++ 58%N :: json_text m.2 in
  members false fs = concat ((fun y => 44%N :: y) <$> (text <$> ml))
  /\ members true fs = sep_by_comma (text <$> ml).
Proof.
  intros H members text.
  assert (forall fs0 ml0,
            Forall2 (fun (f : jsstr * tree) (m : jsstr * json) =>
                       f.1 = m.1 /\ written h f.2 m.2) fs0 ml0 ->
            members false fs0
            = concat ((fun y => 44%N :: y) <$> (text <$> ml0))) as Hgen.
  { intros fs0 ml0 H0.
    induction H0 as [|[k t] [k' j] fs' ml' [Hk (_ & Ht & _)] _ IH]; [reflexivity|].
    cbn [fst snd] in *. subst k'. cbn [members]. rewrite Ht, IH.
    rewrite !fmap_cons. cbn [concat]. subst text. cbn [fst snd].
    cbn [app js N_of_ascii]. now rewrite <- !app_assoc. }
  split; [now apply Hgen|].
  destruct H as [|[k t] [k' j] fs' ml' [Hk (_ & Ht & _)] Hrest]; [reflexivity|].
  cbn [fst snd] in *. subst k'. cbn [members]. rewrite Ht.
  rewrite fmap_cons, sep_by_comma_cons, (Hgen _ _ Hrest). subst text.
  cbn [fst snd app]. rewrite <- !app_assoc. reflexivity.
Qed.

Lemma written_object_value fs ml : forall o,
  Forall2 (fun (f : jsstr * tree) (m : jsstr * json) =>
             f.1 = m.1 /\ written h f.2 m.2) fs ml ->
  foldl (fun o (m : member) =>
           set_prop o (string_value m.1.1.2) (json_value m.2.1.2)) o
        ((fun m : jsstr * json => ([], quote_schars m.1, [], ([], m.2, []))) <$> ml)
  = foldl (fun o (f : jsstr * tree) => set_prop o f.1 (value_of_tree f.2)) o fs.
Proof.
  intros o H. revert o.
  induction H as [|[k t] [k' j] fs' ml' [Hk (_ & _ & Hv)] _ IH]; intros o;
    [reflexivity|].
  cbn [fst snd] in *. subst k'. rewrite fmap_cons. cbn [foldl fst snd].
  destruct (quote_schars_spec k) as (_ & -> & _). now rewrite Hv, IH.
Qed.

(** Every plain tree has a well-formed text, the one that
    [JSON.stringify] writes, which denotes its value. *)
Lemma plain_written t :
  plain t = true ->
  exists j, written h t j
            /\ is_container j = match t with TLeaf _ => false | _ => true end.
Proof.
  induction t as [v|ts IH|fs IH] using tree_induction; intros Hp.
  - destruct v as [| |b|lit|s|l]; try discriminate Hp.
    + exists JNull. now repeat split.
    + exists (if b then JTrue else JFalse). now destruct b; repeat split.
    + destruct (is_number_text_literal lit Hp) as (n & Hn & <-).
      exists (JNum n). now repeat split.
    + exists (JStr (quote_schars s)).
      destruct (quote_schars_spec s) as (Hok & Hval & Htext).
      split; [|reflexivity]. split; [exact Hok|].
      cbn [stringify json_text json_value]. unfold string_text, quote_string.
      now rewrite Htext, Hval.
  - cbn [plain] in Hp.
    assert (exists jl, Forall2 (written h) ts jl) as [jl Hjl].
    { induction ts as [|t ts IHts]; [exists []; constructor|].
      apply Forall_cons in IH as [Ht IH]. cbn [forallb] in Hp.
      apply andb_true_iff in Hp as [Hpt Hp].
      destruct (Ht Hpt) as (j & Hj & _). destruct (IHts IH Hp) as [jl Hjl].
      exists (j :: jl). now constructor. }
    exists (JArr [] ((fun j : json => ([], j, [])) <$> jl)).
    split; [|reflexivity]. split; [|split].
    + cbn [json_ok ws_ok forallb andb]. apply forallb_forall.
      intros e He. apply in_map_iff in He as (j & <- & Hin). cbn [fst snd ws_ok forallb].
      rewrite andb_true_r. cbn [andb].
      apply list_elem_of_In in Hin.
      destruct (proj1 (list_elem_of_lookup _ _) Hin) as [i Hi].
      destruct (Forall2_lookup_r _ _ _ _ _ Hjl Hi) as (t & _ & Hok & _).
      exact Hok.
    + cbn [stringify json_text]. rewrite (written_elements ts jl Hjl).
      rewrite <- list_fmap_compose.
      assert ((fun e : element => e.1.1 ++ json_text e.1.2 ++ e.2)
              ∘ (fun j : json => ([], j, [])) <$> jl = json_text <$> jl) as ->;
        [|reflexivity].
      apply list_fmap_ext. intros i j _. cbn. now rewrite app_nil_r.
    + cbn [json_value value_of_tree]. now apply written_array_value.
  - cbn [plain] in Hp.
    assert (exists ml,
               Forall2 (fun (f : jsstr * tree) (m : jsstr * json) =>
                          f.1 = m.1 /\ written h f.2 m.2) fs ml) as [ml Hml].
    { induction fs as [|[k t] fs IHfs]; [exists []; constructor|].
      apply Forall_cons in IH as [Ht IH]. cbn [forallb] in Hp.
      apply andb_true_iff in Hp as [Hpt Hp].
      apply andb_true_iff in Hpt as [_ Hpt].
      destruct (Ht Hpt) as (j & Hj & _). destruct (IHfs IH Hp) as [ml Hml].
      exists ((k, j) :: ml). now constructor. }
    exists (JObj [] ((fun m : jsstr * json =>
                        ([], quote_schars m.1, [], ([], m.2, []))) <$> ml)).
    split; [|reflexivity]. split; [|split].
    + cbn [json_ok ws_ok forallb andb]. apply forallb_forall.
      intros e He. apply in_map_iff in He as ([k j] & <- & Hin).
      cbn [fst snd ws_ok forallb andb].
      destruct (quote_schars_spec k) as (-> & _ & _). rewrite andb_true_r.
      cbn [andb].
      apply list_elem_of_In in Hin.
      destruct (proj1 (list_elem_of_lookup _ _) Hin) as [i Hi].
      destruct (Forall2_lookup_r _ _ _ _ _ Hml Hi) as (f & _ & _ & Hok & _).
      exact Hok.
    + cbn [stringify json_text].
      destruct (written_members fs ml Hml) as [_ ->].
      rewrite <- list_fmap_compose.
      assert ((fun m : member =>
                 m.1.1.1 ++ string_text m.1.1.2 ++ m.1.2 ++ 58%N
                 :: m.2.1.1 ++ json_text m.2.1.2 ++ m.2.2)
              ∘ (fun m : jsstr * json => ([], quote_schars m.1, [], ([], m.2, [])))
              <$> ml
              = (fun m : jsstr * json =>
                   quote_string m.1 ++ 58%N :: json_text m.2) <$> ml) as ->;
        [|reflexivity].
      apply list_fmap_ext. intros i [k j] _. cbn [compose fst snd app].
      unfold string_text, quote_string.
      destruct (quote_schars_spec k) as (_ & _ & ->).
      rewrite app_nil_r. cbn [app]. now rewrite <- app_assoc.
    + cbn [json_value value_of_tree]. now apply written_object_value.
Qed.

(** [jsonRawDecode] on the text written for a plain tree. *)
Lemma plain_decodes t :
  plain t = true ->
  exists s, stringify h t = Some s
            /\ jsonRawDecode s None
               = RawPair (value_of_tree t) (Z.of_nat (length s)).
Proof.
  intros Hp. destruct (plain_written t Hp) as (j & (Hok & Hs & Hv) & Hc).
  exists (json_text j). split; [exact Hs|]. rewrite <- Hv.
  destruct (is_container j) eqn:Ej.
  - pose proof (jsonRawDecode_doc (Document [] j [])) as H.
    unfold doc_text in H. cbn [doc_lead doc_json doc_trail app] in H.
    rewrite app_nil_r in H. apply H. split; [|exact Ej].
    unfold doc_ok. cbn [doc_lead doc_json doc_trail ws_ok forallb andb].
    now rewrite Hok.
  - now apply jsonRawDecode_scalar.
Qed.

(** X21. Decoding undoes [JSON.stringify] on the trees that it writes in
    full and that are read back by plain property writes (no leaf
    undefined or an object passed through, every number written as a
    number literal, no field named [__proto__]): for such a tree
    [JSON.stringify] gives a text, and [jsonRawDecode] on that text
    returns the value that the tree stands for, and the length of the
    text. *)
Theorem decoding_undoes_stringify t :
  plain t = true ->
  exists s, stringify h t = Some s
            /\ jsonRawDecode s None
               = RawPair (value_of_tree t) (Z.of_nat (length s)).
Proof. exact (plain_decodes t). Qed.

(** X25. A value goes unchanged through [decycle], [JSON.stringify] and
    [jsonRawDecode] when it is acyclic, shares nothing and holds plain
    leaves: if the traversal of the value meets no array or object twice
    and gives a plain tree, then [decycle] returns that tree,
    [JSON.stringify] writes a text for it, and [jsonRawDecode] on the text
    returns the value of the tree, and the length of the text. *)
Theorem value_survives_the_round_trip fuel v t locs :
  expand h fuel v = Some (t, locs) -> NoDup locs -> plain t = true ->
  decycle fuel h v = Some t
  /\ exists s, stringify h t = Some s
               /\ jsonRawDecode s None
                  = RawPair (value_of_tree t) (Z.of_nat (length s)).
Proof.
  intros H Hnd Hp. split; [|exact (plain_decodes t Hp)].
  unfold decycle, decycle_from.
  destruct (derez_expand h fuel v t locs H (plain_no_proto_field t Hp) Hnd
              (js "$") ∅) as (o' & D & _).
  - intros l _. apply lookup_empty.
  - now rewrite D.
Qed.
End Stringify.

Lemma decoding_undoes_stringify_witness :
  plain sample_tree = true
  /\ stringify ∅ sample_tree = Some (js "{'a':[1,'x\ny'],'b':null}")
  /\ exists s, stringify ∅ sample_tree = Some s
               /\ jsonRawDecode s None
                  = RawPair (value_of_tree sample_tree) (Z.of_nat (length s)).
Proof.
  assert (plain sample_tree = true) as H by reflexivity.
  split; [exact H|]. split; [reflexivity|].
  exact (decoding_undoes_stringify ∅ sample_tree H).
Defined.

Lemma value_survives_the_round_trip_witness :
  expand nested_heap 3 (GRef 1%positive)
  = Some (TArr [TArr [TLeaf GNull]; TObj [(js "k", TLeaf (GBool true))];
                TLeaf (GStr (js "x"))],
          [1%positive; 2%positive; 3%positive])
  /\ NoDup [1%positive; 2%positive; 3%positive]
  /\ stringify nested_heap
       (TArr [TArr [TLeaf GNull]; TObj [(js "k", TLeaf (GBool true))];
              TLeaf (GStr (js "x"))])
     = Some (js "[[null],{'k':true},'x']")
  /\ jsonRawDecode (js "[[null],{'k':true},'x']") None
     = RawPair (VArr 3 [(js "0", VArr 1 [(js "0", VNull)]);
                        (js "1", VObj [(js "k", VBool true)]);
                        (js "2", VStr (js "x"))]) 23.
Proof.
  assert (expand nested_heap 3 (GRef 1%positive)
          = Some (TArr [TArr [TLeaf GNull]; TObj [(js "k", TLeaf (GBool true))];
                        TLeaf (GStr (js "x"))],
                  [1%positive; 2%positive; 3%positive])) as H1 by reflexivity.
  assert (NoDup [1%positive; 2%positive; 3%positive]) as H2.
  { repeat (apply NoDup_cons; split; [set_solver|]). apply NoDup_nil_2. }
  split; [exact H1|]. split; [exact H2|]. split; [reflexivity|].
  destruct (value_survives_the_round_trip nested_heap 3 _ _ _ H1 H2 eq_refl)
    as (_ & s & Hs & Hd).
  injection Hs as <-. exact Hd.
Defined.
(* ===================================================================== *)
(** ** The tokens and the value of a well-formed document *)
(* ===================================================================== *)

From Stdlib Require DecimalN.

(** The items of a document are well spaced. *)
Lemma doc_spaced d : doc_ok d = true -> spaced None (doc_items d) [] = true.
Proof.
  unfold doc_ok. intros H. apply andb_true_iff in H as [H Htrail].
  apply andb_true_iff in H as [Hlead Hj]. unfold doc_items.
  apply (accepts_gaps (doc_lead d) _ [] Hlead); [|reflexivity].
  apply (json_accepts [] _ Hj).
  pose proof (closes_gaps (doc_trail d) [] [] Htrail) as Hc.
  rewrite app_nil_r in Hc. apply Hc. split; [reflexivity|]. intros p. reflexivity.
Qed.

(** X22. The tokens of a well-formed document are its lexemes: brackets,
    braces, string literals, number literals, true, false and null, in
    their order, each at the offset at which it stands in the text, and
    nothing else; the white space, the commas and the colons are passed
    over. *)
Theorem tokens_of_a_document d :
  doc_ok d = true ->
  tokenize (doc_text d) = toks_at 0 (doc_items d)
  /\ tok_text <$> tokenize (doc_text d) = lexeme_text <$> lexemes (doc_json d).
Proof.
  intros Hok. pose proof (doc_spaced d Hok) as Hsp.
  rewrite <- doc_items_text, (tokenize_items _ Hsp). split; [reflexivity|].
  rewrite toks_at_texts. unfold doc_items.
  now rewrite !item_lexemes_app, !item_lexemes_gaps, app_nil_r, item_lexemes_json.
Qed.

Lemma tokens_of_a_document_witness :
  doc_ok sample_array = true
  /\ doc_text sample_array = js " [true, '\n']" ++ [10%N]
  /\ tokenize (doc_text sample_array)
     = [Token (js "[") 1; Token (js "true") 2; Token (js "'\n'") 8;
        Token (js "]") 12].
Proof.
  split; [reflexivity|]. split; [reflexivity|].
  exact (proj1 (tokens_of_a_document sample_array eq_refl)).
Defined.

(** *** Arrays *)

Lemma codes_uint_codes u : codes_uint (uint_codes u) = Some u.
Proof. induction u as [|u IH|u IH|u IH|u IH|u IH|u IH|u IH|u IH|u IH|u IH];
  cbn; try rewrite IH; reflexivity. Qed.

Lemma dec_inj a b : dec a = dec b -> a = b.
Proof.
  unfold dec. intros H. apply DecimalN.Unsigned.to_uint_inj.
  unfold dec in H.
  pose proof (codes_uint_codes (N.to_uint a)) as Ha.
  rewrite H, codes_uint_codes in Ha. now injection Ha.
Qed.

Lemma array_index_dec n :
  (n < 4294967295)%N -> array_index (dec n) = Some n.
Proof.
  intros Hn. unfold array_index, dec. rewrite codes_uint_codes.
  cbn [mbind option_bind]. rewrite DecimalN.Unsigned.of_to.
  rewrite bool_decide_eq_true_2 by reflexivity.
  apply N.ltb_lt in Hn. now rewrite Hn.
Qed.

Lemma dense_from_app i vs v :
  dense_from i (vs ++ [v])
  = dense_from i vs ++ [(dec (i + N.of_nat (length vs)), v)].
Proof.
  revert i. induction vs as [|x vs IH]; intros i; cbn [dense_from app length].
  - now rewrite N.add_0_r.
  - rewrite IH. do 5 f_equal. lia.
Qed.

Lemma dense_from_keys i vs k v :
  (k, v) ∈ dense_from i vs ->
  exists j, k = dec j /\ (i <= j < i + N.of_nat (length vs))%N.
Proof.
  revert i. induction vs as [|x vs IH]; intros i Hin; [now apply elem_of_nil in Hin|].
  cbn [dense_from] in Hin. apply elem_of_cons in Hin as [[= -> ->]|Hin].
  - exists i. cbn [length]. split; [reflexivity|lia].
  - destruct (IH _ Hin) as (j & -> & Hj). exists j. cbn [length].
    split; [reflexivity|lia].
Qed.

(** A value written at the length of an array without holes is added at
    its end. *)
Lemma push_dense vs v :
  (N.of_nat (length vs) < 4294967295)%N ->
  set_prop (VArr (N.of_nat (length vs)) (dense_from 0 vs))
           (length_key (VArr (N.of_nat (length vs)) (dense_from 0 vs))) v
  = VArr (N.of_nat (length (vs ++ [v]))) (dense_from 0 (vs ++ [v])).
Proof.
  intros Hlen. cbn [length_key set_prop]. rewrite (array_index_dec _ Hlen).
  rewrite length_app. cbn [length]. f_equal; [lia|].
  rewrite dense_from_app, N.add_0_l. unfold props_set.
  assert (props_get (dec (N.of_nat (length vs))) (dense_from 0 vs) = None) as ->.
  { apply props_get_None. intros Hin. apply list_elem_of_fmap in Hin as ([k x] & Ek & Hin).
    cbn in Ek. subst k. destruct (dense_from_keys _ _ _ _ Hin) as (j & Ej & Hj).
    apply dec_inj in Ej. lia. }
  rewrite (array_index_dec _ Hlen).
  assert (forall ps,
            (forall k x, (k, x) ∈ ps ->
               exists j, k = dec j /\ (j < N.of_nat (length vs))%N) ->
            props_insert_index (N.of_nat (length vs))
              (dec (N.of_nat (length vs))) v ps
            = ps ++ [(dec (N.of_nat (length vs)), v)]) as Hins.
  { induction ps as [|[k x] ps IH]; intros Hps; [reflexivity|].
    cbn [props_insert_index app]. destruct (Hps k x) as (j & -> & Hj); [left|].
    rewrite array_index_dec by lia. apply N.ltb_lt in Hj. rewrite Hj.
    f_equal. apply IH. intros k' x' Hin. apply (Hps k' x'). now right. }
  apply Hins. intros k x Hin. destruct (dense_from_keys _ _ _ _ Hin) as (j & -> & Hj).
  exists j. split; [reflexivity|lia].
Qed.

Lemma array_value_dense es : forall vs,
  (N.of_nat (length vs + length es) < 4294967295)%N ->
  foldl (fun a (e : element) => set_prop a (length_key a) (json_value e.1.2))
        (VArr (N.of_nat (length vs)) (dense_from 0 vs)) es
  = VArr (N.of_nat (length vs + length es))
         (dense_from 0 (vs ++ ((fun e : element => json_value e.1.2) <$> es))).
Proof.
  induction es as [|e es IH]; intros vs Hlen.
  - cbn. now rewrite Nat.add_0_r, app_nil_r.
  - cbn [foldl length] in *. rewrite push_dense by lia.
    rewrite IH by (rewrite length_app; cbn; lia).
    rewrite length_app, fmap_cons, <- app_assoc. cbn [length app].
    do 2 f_equal. lia.
Qed.

(** X23. A well-formed array none of whose members, at any depth, is
    written under the key [__proto__] is decoded to an array without
    holes: its length is the number of the elements of the text, and the
    value of the element at position i is the property under the key i.
    (An array has less than 2^32 - 1 elements.) *)
Theorem decoded_array_is_dense d w es :
  container_doc d -> doc_json d = JArr w es ->
  proto_free (doc_json d) = true ->
  (N.of_nat (length es) < 4294967295)%N ->
  jsonRawDecode (doc_text d) None
  = RawPair (VArr (N.of_nat (length es))
               (dense_from 0 ((fun e : element => json_value e.1.2) <$> es)))
            (Z.of_nat (length (doc_text d))).
Proof.
  intros Hd Ej _ Hlen. rewrite (jsonRawDecode_doc d Hd), Ej. cbn [json_value].
  change (VArr 0 []) with (VArr (N.of_nat (length (@nil value))) (dense_from 0 [])).
  now rewrite (array_value_dense es [] Hlen).
Qed.

Lemma decoded_array_is_dense_witness :
  container_doc sample_array
  /\ doc_json sample_array = JArr [] [([], JTrue, []); ([32%N], JStr [Escape 110], [])]
  /\ proto_free (doc_json sample_array) = true
  /\ (N.of_nat (length ([([], JTrue, []); ([32%N], JStr [Escape 110], [])]
                           : list element))
      < 4294967295)%N
  /\ jsonRawDecode (doc_text sample_array) None
     = RawPair (VArr 2 [(js "0", VBool true); (js "1", VStr [10%N])]) 14.
Proof.
  assert (container_doc sample_array) as Hd by (split; reflexivity).
  assert (N.of_nat (length ([([], JTrue, []); ([32%N], JStr [Escape 110], [])]
                              : list element))
          < 4294967295)%N as Hlen by (vm_compute; reflexivity).
  split; [exact Hd|]. split; [reflexivity|]. split; [reflexivity|].
  split; [exact Hlen|].
  exact (decoded_array_is_dense sample_array [] _ Hd eq_refl eq_refl Hlen).
Defined.

(** *** Objects *)

Lemma object_value_composite ms : forall o,
  is_composite o = true ->
  is_composite
    (foldl (fun o (m : member) =>
              set_prop o (string_value m.1.1.2) (json_value m.2.1.2)) o ms) = true.
Proof.
  induction ms as [|m ms IH]; intros o Ho; [exact Ho|]. cbn [foldl].
  apply IH. now rewrite is_composite_set_prop.
Qed.

Lemma object_value_get ms k :
  get (json_value (JObj [] ms)) k = last_member k ms.
Proof.
  cbn [json_value]. unfold last_member.
  induction ms as [|m ms IH] using rev_ind; [reflexivity|].
  rewrite foldl_app. cbn [foldl]. rewrite get_set_prop
    by (now apply object_value_composite).
  rewrite filter_app, filter_cons, filter_nil.
  case_bool_decide as E.
  - subst k. rewrite decide_True by reflexivity. now rewrite last_snoc.
  - rewrite decide_False by congruence. now rewrite app_nil_r.
Qed.

(** X24. In the object to which a well-formed text is decoded, a key
    holds the value of the last member of the text that is written under
    it, and a key under which no member is written holds nothing. (No
    member of the text, at any depth, is written under the key
    [__proto__], which JavaScript does not store as a property.) *)
Theorem decoded_object_keeps_last_member d w ms k :
  container_doc d -> doc_json d = JObj w ms ->
  proto_free (doc_json d) = true ->
  exists v,
    jsonRawDecode (doc_text d) None = RawPair v (Z.of_nat (length (doc_text d)))
    /\ is_object v = true
    /\ get v k = last_member k ms.
Proof.
  intros Hd Ej _. exists (json_value (doc_json d)).
  split; [exact (jsonRawDecode_doc d Hd)|]. rewrite Ej.
  change (json_value (JObj w ms)) with (json_value (JObj [] ms)).
  split; [|apply object_value_get].
  cbn [json_value].
  assert (forall o, is_object o = true ->
            is_object (foldl (fun o (m : member) =>
                                set_prop o (string_value m.1.1.2)
                                         (json_value m.2.1.2)) o ms) = true) as H.
  { clear. induction ms as [|m ms IH]; intros o Ho; [exact Ho|]. cbn [foldl].
    apply IH. now rewrite is_object_set. }
  now apply H.
Qed.

Lemma decoded_object_keeps_last_member_witness :
  container_doc sample_repeated_key
  /\ doc_text sample_repeated_key = js "{'a':1,'b':[],'a':null}"
  /\ proto_free (doc_json sample_repeated_key) = true
  /\ exists v,
       jsonRawDecode (doc_text sample_repeated_key) None
       = RawPair v (Z.of_nat (length (doc_text sample_repeated_key)))
       /\ is_object v = true
       /\ get v (js "a") = VNull.
Proof.
  assert (container_doc sample_repeated_key) as Hd by (split; reflexivity).
  split; [exact Hd|]. split; [reflexivity|]. split; [reflexivity|].
  exact (decoded_object_keeps_last_member sample_repeated_key [] _ (js "a")
           Hd eq_refl eq_refl).
Defined.
(* ===================================================================== *)
(** ** What the loop does not check *)
(* ===================================================================== *)

Lemma alike_text_length i i' :
  alike i i' -> length (item_text i) = length (item_text i').
Proof.
  intros [->|[[H1 H2]|[H1 H2]]]; [reflexivity| |].
  - destruct i as [|[]], i' as [|[]]; try discriminate; reflexivity.
  - destruct i, i'; try discriminate; reflexivity.
Qed.

Lemma alike_items_length its its' :
  Forall2 alike its its' ->
  length (items_text its) = length (items_text its').
Proof.
  induction 1 as [|i i' its its' Hi _ IH]; [reflexivity|].
  unfold items_text in *. rewrite !fmap_cons. cbn [concat].
  now rewrite !length_app, IH, (alike_text_length i i' Hi).
Qed.

(** [spaced] looks at the character before the items only to tell
    whether it is a word character. *)
Lemma spaced_prev its rest p p' :
  word_opt p = word_opt p' -> spaced p its rest = spaced p' its rest.
Proof.
  intros H. destruct its as [|[c|l] its]; try reflexivity.
  cbn [spaced]. destruct l; try reflexivity. now rewrite H.
Qed.

(** A number literal ends before items alike to those before which it
    ends. *)
Lemma alike_delimits its its' rest p :
  Forall2 alike its its' -> spaced p its rest = true ->
  delimits (items_text its ++ rest) = true ->
  delimits (items_text its' ++ rest) = true.
Proof.
  intros [|i i' r r' Hi _] Hsp Hd; [exact Hd|].
  unfold items_text in *. rewrite fmap_cons in *. cbn [concat] in *.
  destruct Hi as [->|[[H1 H2]|[H1 H2]]]; [| |].
  - destruct i' as [c|l]; [exact Hd|]. cbn [spaced] in Hsp.
    apply andb_true_iff in Hsp as [Hl _]. apply andb_true_iff in Hl as [Hok _].
    destruct (lexeme_text_nonempty l Hok) as (c & t & E).
    cbn [item_text] in *. rewrite E in *. exact Hd.
  - destruct i' as [|[]]; try discriminate H2; reflexivity.
  - destruct i' as [c'|]; [|discriminate H2]. cbn [is_separator] in H2.
    cbn [item_text app]. now apply is_gap_delimits.
Qed.

(** Items alike to well-spaced items are well spaced. *)
Lemma alike_spaced its its' rest :
  Forall2 alike its its' ->
  forall p p', word_opt p = word_opt p' ->
    spaced p its rest = true -> spaced p' its' rest = true.
Proof.
  induction 1 as [|i i' its its' Hi Hits IH]; intros p p' Hp Hsp; [reflexivity|].
  destruct Hi as [->|[[H1 H2]|[H1 H2]]].
  - destruct i' as [c|l]; cbn [spaced] in *.
    + apply andb_true_iff in Hsp as [-> Hsp]. cbn [andb].
      exact (IH _ _ eq_refl Hsp).
    + apply andb_true_iff in Hsp as [Hl Hsp]. apply andb_true_iff in Hl as [-> Hfit].
      cbn [andb]. rewrite (IH _ _ eq_refl Hsp), andb_true_r.
      destruct l; try reflexivity.
      apply andb_true_iff in Hfit as [Hw Hd]. rewrite <- Hp, Hw. cbn [andb].
      exact (alike_delimits _ _ _ _ Hits Hsp Hd).
  - destruct i as [|[]], i' as [|[]]; try discriminate; cbn [spaced] in *;
      cbn [lexeme_ok andb lexeme_text] in *;
      refine (IH _ _ _ Hsp); reflexivity.
  - destruct i as [c|], i' as [c'|]; try discriminate. cbn [is_separator] in *.
    cbn [spaced] in *. rewrite H2. cbn [andb].
    apply andb_true_iff in Hsp as [_ Hsp]. apply (IH (Some c) (Some c')); [|exact Hsp].
    cbn [word_opt]. now rewrite !is_gap_not_word.
Qed.

(** The tokens of alike items are alike. *)
Lemma alike_tokens its its' :
  Forall2 alike its its' ->
  forall pos, Forall2 tok_alike (toks_at pos its) (toks_at pos its').
Proof.
  induction 1 as [|i i' its its' Hi _ IH]; intros pos; [constructor|].
  destruct Hi as [->|[[H1 H2]|[H1 H2]]].
  - destruct i' as [c|l]; cbn [toks_at]; [apply IH|].
    constructor; [now left|apply IH].
  - destruct i as [|[]], i' as [|[]]; try discriminate; cbn [toks_at lexeme_text];
      (constructor; [right; cbn; auto|apply IH]).
  - destruct i, i'; try discriminate. cbn [toks_at]. apply IH.
Qed.

(** The loop treats alike tokens alike: a closing bracket and a closing
    brace both take the container on top off the stack. *)
Lemma step_alike st t t' : tok_alike t t' -> step st t = step st t'.
Proof.
  intros [->|[[E|E] [E'|E']]]; [reflexivity| | | |];
    unfold step; rewrite E, E'; reflexivity.
Qed.

Lemma run_alike toks toks' :
  Forall2 tok_alike toks toks' -> forall st, run st toks = run st toks'.
Proof.
  induction 1 as [|t t' toks toks' Ht _ IH]; intros st; [reflexivity|].
  cbn [run]. rewrite (step_alike st t t' Ht).
  destruct (0 <=? index (step st t'))%Z; [reflexivity|apply IH].
Qed.

(** X26. The loop checks neither the separators nor the kind of a
    closing bracket. Take a well-spaced text (lexemes of JSON between
    white space, commas and colons, in any order), and replace closing
    brackets by closing braces or the reverse, and separators by other
    separators, one character for one: [jsonRawDecode] returns on the new
    text what it returns on the old one, so that a text with a missing
    comma or with a brace where a bracket should stand is decoded like
    the text that has them right. *)
Theorem separators_and_closers_are_not_checked its its' rv :
  spaced None its [] = true -> Forall2 alike its its' ->
  jsonRawDecode (items_text its') rv = jsonRawDecode (items_text its) rv.
Proof.
  intros Hsp Hal.
  pose proof (alike_spaced its its' [] Hal None None eq_refl Hsp) as Hsp'.
  unfold jsonRawDecode.
  rewrite (tokenize_items its Hsp), (tokenize_items its' Hsp').
  rewrite (alike_items_length its its' Hal).
  pose proof (alike_tokens its its' Hal 0) as Ht.
  destruct Ht as [|t0 t0' rest rest' H0 Hrest]; [reflexivity|].
  assert (bool_decide (tok_text t0' = [Ch.lbrace])
          = bool_decide (tok_text t0 = [Ch.lbrace])
          /\ bool_decide (tok_text t0' = [Ch.lbracket])
             = bool_decide (tok_text t0 = [Ch.lbracket])) as [-> ->].
  { destruct H0 as [->|[[E|E] [E'|E']]]; [now split| | | |];
      rewrite E, E'; now split. }
  pose proof (run_alike _ _ Hrest) as Hr.
  assert (Forall2 tok_alike (t0 :: rest) (t0' :: rest')) as Hall
    by (now constructor).
  pose proof (run_alike _ _ Hall) as Hr'.
  destruct (if bool_decide (tok_text t0 = [Ch.lbrace]) then _ else _)
    as [result [|]]; cbv zeta.
  - now rewrite Hr'.
  - now rewrite Hr.
Qed.

Lemma separators_and_closers_are_not_checked_witness :
  items_text [Lex LBrace; Lex (LString [Plain 97]); Gap 58; Lex LBracket;
              Lex LTrue; Gap 44; Lex LNull; Lex RBracket; Lex RBrace]
  = js "{'a':[true,null]}"
  /\ items_text [Lex LBrace; Lex (LString [Plain 97]); Gap 32; Lex LBracket;
                 Lex LTrue; Gap 58; Lex LNull; Lex RBrace; Lex RBracket]
     = js "{'a' [true:null}]"
  /\ jsonRawDecode (js "{'a' [true:null}]") None
     = jsonRawDecode (js "{'a':[true,null]}") None.
Proof.
  split; [reflexivity|]. split; [reflexivity|].
  refine (separators_and_closers_are_not_checked
            [Lex LBrace; Lex (LString [Plain 97]); Gap 58; Lex LBracket;
             Lex LTrue; Gap 44; Lex LNull; Lex RBracket; Lex RBrace]
            [Lex LBrace; Lex (LString [Plain 97]); Gap 32; Lex LBracket;
             Lex LTrue; Gap 58; Lex LNull; Lex RBrace; Lex RBracket]
            None eq_refl _).
  repeat (apply List.Forall2_cons;
          [first [left; reflexivity
                 |right; left; split; reflexivity
                 |right; right; split; reflexivity]|]).
  apply List.Forall2_nil.
Defined.
(* ===================================================================== *)
(** ** decycle: the copy with markers *)
(* ===================================================================== *)

(** *** The paths of the children of a container are apart *)

Lemma dec_digits n : Forall (fun c => is_digit c = true) (dec n).
Proof.
  unfold dec. induction (N.to_uint n); constructor; (reflexivity || assumption).
Qed.

Lemma digits_then_other (a b : jsstr) c c' r r' :
  Forall (fun x => is_digit x = true) a ->
  Forall (fun x => is_digit x = true) b ->
  is_digit c = false -> is_digit c' = false ->
  a ++ c :: r = b ++ c' :: r' -> a = b.
Proof.
  intros Ha. revert b. induction Ha as [|x a Hx Ha IH]; intros b Hb Hc Hc' E.
  - destruct Hb as [|y b Hy Hb]; [reflexivity|]. cbn in E. injection E as -> _.
    congruence.
  - destruct Hb as [|y b Hy Hb]; cbn in E.
    + injection E as -> _. congruence.
    + injection E as -> E. f_equal. now apply IH.
Qed.

Lemma index_paths_apart path i j p :
  path ++ js "[" ++ dec i ++ js "]" `prefix_of` p ->
  path ++ js "[" ++ dec j ++ js "]" `prefix_of` p ->
  i = j.
Proof.
  intros [r1 E1] [r2 E2]. rewrite E1 in E2. rewrite <- !app_assoc in E2.
  apply app_inv_head in E2. cbn [js app] in E2. injection E2 as E2.
  apply dec_inj.
  eapply digits_then_other; [| | | |exact E2];
    [apply dec_digits|apply dec_digits|reflexivity|reflexivity].
Qed.

Lemma quote_string_text s : quote_string s = string_text (quote_schars s).
Proof.
  destruct (quote_schars_spec s) as (_ & _ & Ht). unfold quote_string, string_text.
  now rewrite Ht.
Qed.

Lemma quote_string_apart k k' r r' :
  quote_string k ++ r = quote_string k' ++ r' -> k = k'.
Proof.
  intros E. destruct (quote_schars_spec k) as (Hok & Hv & _).
  destruct (quote_schars_spec k') as (Hok' & Hv' & _).
  rewrite !quote_string_text in E.
  pose proof (match_string_text _ r Hok) as M.
  pose proof (match_string_text _ r' Hok') as M'.
  rewrite E, M' in M.
  assert (length (string_text (quote_schars k))
          = length (string_text (quote_schars k'))) as Hlen by congruence.
  apply (f_equal (take (length (string_text (quote_schars k))))) in E.
  rewrite take_app_length in E. rewrite Hlen, take_app_length in E.
  apply (f_equal string_of_token) in E.
  rewrite !string_of_token_text in E by assumption. congruence.
Qed.

Lemma name_paths_apart path k k' p :
  path ++ js "[" ++ quote_string k ++ js "]" `prefix_of` p ->
  path ++ js "[" ++ quote_string k' ++ js "]" `prefix_of` p ->
  k = k'.
Proof.
  intros [r1 E1] [r2 E2]. rewrite E1 in E2. rewrite <- !app_assoc in E2.
  do 2 apply app_inv_head in E2.
  exact (quote_string_apart _ _ _ _ E2).
Qed.

Lemma child_path_longer path (step : jsstr) :
  ~ path ++ js "[" ++ step ++ js "]" `prefix_of` path.
Proof.
  intros H. apply prefix_length in H. rewrite !length_app in H. cbn in H. lia.
Qed.

(** *** The paths recorded by [derez] are the paths met first *)

Section MarkedCopy.
Variable h : heap.

#[local] Abbreviation derez0 := (derez (S := unit) h None).

Lemma seen_elements_derez fuel :
  (forall v path objects t objects' s',
     derez0 fuel v path objects tt = Some (t, objects', s') ->
     first_seen h fuel v path objects = Some objects') ->
  forall es path i objects ts objects' s',
    each_element (derez0 fuel) path i es objects tt = Some (ts, objects', s') ->
    seen_elements (first_seen h fuel) path i es objects = Some objects'.
Proof.
  intros Hrec. induction es as [|e es IH]; intros path i objects ts objects' s' H.
  - cbn in H. now injection H as <- <- <-.
  - cbn [each_element] in H.
    destruct (derez0 fuel e _ objects tt) as [[[t1 o1] []]|] eqn:E1; [|discriminate].
    cbn in H. destruct (each_element (derez0 fuel) path (i + 1) es o1 tt)
      as [[[ts2 o2] s2]|] eqn:E2; [|discriminate].
    cbn in H. injection H as <- <- <-. cbn [seen_elements].
    rewrite (Hrec _ _ _ _ _ _ E1). cbn. exact (IH _ _ _ _ _ _ E2).
Qed.

Lemma seen_fields_derez fuel :
  (forall v path objects t objects' s',
     derez0 fuel v path objects tt = Some (t, objects', s') ->
     first_seen h fuel v path objects = Some objects') ->
  forall fs path objects ts objects' s',
    each_name (derez0 fuel) path fs objects tt = Some (ts, objects', s') ->
    seen_fields (first_seen h fuel) path fs objects = Some objects'.
Proof.
  intros Hrec. induction fs as [|[name child] fs IH];
    intros path objects ts objects' s' H.
  - cbn in H. now injection H as <- <- <-.
  - cbn [each_name] in H.
    destruct (derez0 fuel child _ objects tt) as [[[t1 o1] []]|] eqn:E1;
      [|discriminate].
    cbn in H. destruct (each_name (derez0 fuel) path fs o1 tt)
      as [[[ts2 o2] s2]|] eqn:E2; [|discriminate].
    cbn in H. injection H as _ <- <-. cbn [seen_fields].
    rewrite (Hrec _ _ _ _ _ _ E1). cbn. exact (IH _ _ _ _ _ E2).
Qed.

Lemma first_seen_derez fuel : forall v path objects t objects' s',
  derez0 fuel v path objects tt = Some (t, objects', s') ->
  first_seen h fuel v path objects = Some objects'.
Proof.
  induction fuel as [|fuel IH]; intros v path objects t objects' s' H;
    [discriminate|].
  rewrite derez_step in H. cbn [first_seen].
  destruct v as [| | | | |l]; try (now injection H as <- <- <-).
  destruct (h !! l) as [[es|fs|j]|]; try (now injection H as <- <- <-).
  - destruct (objects !! l) as [p|]; [now injection H as <- <- <-|].
    destruct (each_element _ _ _ _ _ _) as [[[nu o2] s2]|] eqn:E; [|discriminate].
    cbn in H. injection H as <- <- <-.
    exact (seen_elements_derez fuel IH _ _ _ _ _ _ _ E).
  - destruct (objects !! l) as [p|]; [now injection H as <- <- <-|].
    destruct (each_name _ _ _ _ _) as [[[nu o2] s2]|] eqn:E; [|discriminate].
    cbn in H. injection H as <- <- <-.
    exact (seen_fields_derez fuel IH _ _ _ _ _ _ E).
Qed.

(** *** What [derez] returns is the copy with markers *)

Hypothesis Hord : ordinary_heap h.

Lemma marked_elements_derez fuel :
  (forall v path objects t objects' s',
     derez0 fuel v path objects tt = Some (t, objects', s') ->
     apart objects path ->
     recorded_below objects objects' path
     /\ forall M : memo, objects' ⊆ M -> marked_copy h M fuel v path = Some t) ->
  forall es path i objects ts objects' s',
    each_element (derez0 fuel) path i es objects tt = Some (ts, objects', s') ->
    (forall j, (i <= j)%N -> apart objects (path ++ js "[" ++ dec j ++ js "]")) ->
    recorded_below objects objects' path
    /\ forall M : memo, objects' ⊆ M ->
         marked_elements (marked_copy h M fuel) path i es = Some ts.
Proof.
  intros Hrec. induction es as [|e es IH];
    intros path i objects ts objects' s' H Hap.
  - cbn in H. injection H as <- <- <-. split; [intros l p Hl; now left|].
    reflexivity.
  - cbn [each_element] in H.
    destruct (derez0 fuel e _ objects tt) as [[[t1 o1] []]|] eqn:E1; [|discriminate].
    cbn in H. destruct (each_element (derez0 fuel) path (i + 1) es o1 tt)
      as [[[ts2 o2] s2]|] eqn:E2; [|discriminate].
    cbn in H. injection H as <- <- <-.
    destruct (Hrec _ _ _ _ _ _ E1 (Hap i (N.le_refl i))) as [B1 M1].
    destruct (IH path (i + 1)%N o1 ts2 o2 s2 E2) as [B2 M2].
    { intros j Hj l p Hl Hpre. destruct (B1 l p Hl) as [Hold|Hnew].
      - exact (Hap j ltac:(lia) l p Hold Hpre).
      - pose proof (index_paths_apart path i j p Hnew Hpre). lia. }
    pose proof (each_element_grows _ _ (derez_grows h None fuel) _ _ _ _ _ _ _ E2)
      as [Hsub _].
    split.
    + intros l p Hl. destruct (B2 l p Hl) as [H1|H1]; [|now right].
      destruct (B1 l p H1) as [H0|H0]; [now left|right].
      exact (prefix_app_l _ _ _ H0).
    + intros M HM. cbn [marked_elements].
      rewrite (M1 M) by (etrans; [exact Hsub|exact HM]). cbn.
      now rewrite (M2 M HM).
Qed.

Lemma marked_fields_derez fuel :
  (forall v path objects t objects' s',
     derez0 fuel v path objects tt = Some (t, objects', s') ->
     apart objects path ->
     recorded_below objects objects' path
     /\ forall M : memo, objects' ⊆ M -> marked_copy h M fuel v path = Some t) ->
  forall fs path objects ts objects' s',
    NoDup fs.*1 -> js "__proto__" ∉ fs.*1 ->
    each_name (derez0 fuel) path fs objects tt = Some (ts, objects', s') ->
    (forall name, name ∈ fs.*1 ->
       apart objects (path ++ js "[" ++ quote_string name ++ js "]")) ->
    recorded_below objects objects' path
    /\ forall M : memo, objects' ⊆ M ->
         marked_fields (marked_copy h M fuel) path fs = Some ts.
Proof.
  intros Hrec. induction fs as [|[name child] fs IH];
    intros path objects ts objects' s' Hnd Hnp H Hap.
  - cbn in H. injection H as <- <- <-. split; [intros l p Hl; now left|].
    reflexivity.
  - rewrite fmap_cons in Hnd, Hnp. cbn [fst] in Hnd, Hnp.
    apply NoDup_cons in Hnd as [Hname Hnd].
    apply not_elem_of_cons in Hnp as [Hproto Hnp].
    cbn [each_name] in H.
    destruct (derez0 fuel child _ objects tt) as [[[t1 o1] []]|] eqn:E1;
      [|discriminate].
    cbn in H. destruct (each_name (derez0 fuel) path fs o1 tt)
      as [[[ts2 o2] s2]|] eqn:E2; [|discriminate].
    cbn in H. case_bool_decide as Hn; [exfalso; apply Hproto; now symmetry|].
    injection H as <- <- <-.
    destruct (Hrec _ _ _ _ _ _ E1 (Hap name ltac:(rewrite fmap_cons; left)))
      as [B1 M1].
    destruct (IH path o1 ts2 o2 s2 Hnd Hnp E2) as [B2 M2].
    { intros name' Hin l p Hl Hpre. destruct (B1 l p Hl) as [Hold|Hnew].
      - refine (Hap name' _ l p Hold Hpre). rewrite fmap_cons. now right.
      - pose proof (name_paths_apart path name name' p Hnew Hpre). congruence. }
    pose proof (each_name_grows _ _ (derez_grows h None fuel) _ _ _ _ _ _ E2)
      as [Hsub _].
    split.
    + intros l p Hl. destruct (B2 l p Hl) as [H1|H1]; [|now right].
      destruct (B1 l p H1) as [H0|H0]; [now left|right].
      exact (prefix_app_l _ _ _ H0).
    + intros M HM. cbn [marked_fields].
      rewrite (M1 M) by (etrans; [exact Hsub|exact HM]). cbn.
      now rewrite (M2 M HM).
Qed.

Lemma derez_marked fuel : forall v path objects t objects' s',
  derez0 fuel v path objects tt = Some (t, objects', s') ->
  apart objects path ->
  recorded_below objects objects' path
  /\ forall M : memo, objects' ⊆ M -> marked_copy h M fuel v path = Some t.
Proof.
  induction fuel as [|fuel IH]; intros v path objects t objects' s' H Hap;
    [discriminate|].
  rewrite derez_step in H. cbn [marked_copy].
  assert (forall o : memo, recorded_below o o path) as Hsame
    by (intros o l p Hl; now left).
  destruct v as [| | | | |l]; try (injection H as <- <- <-; now split).
  destruct (h !! l) as [[es|fs|j]|] eqn:Eh;
    try (injection H as <- <- <-; now split).
  - destruct (objects !! l) as [p|] eqn:El.
    + injection H as <- <- <-. split; [apply Hsame|]. intros M HM.
      pose proof (lookup_weaken _ _ _ _ El HM) as HMl. unfold memo in *.
      rewrite HMl. cbn.
      rewrite bool_decide_eq_false_2; [reflexivity|].
      intros ->. now apply (Hap l path El).
    + destruct (each_element _ _ _ _ _ _) as [[[nu o2] s2]|] eqn:E; [|discriminate].
      cbn in H. injection H as <- <- <-.
      pose proof (each_element_grows _ _ (derez_grows h None fuel) _ _ _ _ _ _ _ E)
        as [Hsub _].
      destruct (marked_elements_derez fuel IH es path 0%N _ _ _ _ E) as [B Mk].
      { intros j _ l' p Hl' Hpre.
        apply lookup_insert_Some in Hl' as [[<- <-]|[_ Hl']].
        - exact (child_path_longer _ _ Hpre).
        - exact (Hap l' p Hl' (prefix_app_l _ _ _ Hpre)). }
      split.
      * intros l' p Hl'. destruct (B l' p Hl') as [H0|H0]; [|now right].
        apply lookup_insert_Some in H0 as [[<- <-]|[_ H0]]; [now right|now left].
      * intros M HM.
        assert (M !! l = Some path) as ->.
        { eapply lookup_weaken; [|exact HM].
          eapply lookup_weaken; [apply lookup_insert_eq|exact Hsub]. }
        cbn. rewrite bool_decide_eq_true_2 by reflexivity.
        now rewrite (Mk M HM).
  - destruct (Hord l _ Eh) as [Hnd Hnp].
    destruct (objects !! l) as [p|] eqn:El.
    + injection H as <- <- <-. split; [apply Hsame|]. intros M HM.
      pose proof (lookup_weaken _ _ _ _ El HM) as HMl. unfold memo in *.
      rewrite HMl. cbn.
      rewrite bool_decide_eq_false_2; [reflexivity|].
      intros ->. now apply (Hap l path El).
    + destruct (each_name _ _ _ _ _) as [[[nu o2] s2]|] eqn:E; [|discriminate].
      cbn in H. injection H as <- <- <-.
      pose proof (each_name_grows _ _ (derez_grows h None fuel) _ _ _ _ _ _ E)
        as [Hsub _].
      destruct (marked_fields_derez fuel IH fs path _ _ _ _ Hnd Hnp E) as [B Mk].
      { intros name _ l' p Hl' Hpre.
        apply lookup_insert_Some in Hl' as [[<- <-]|[_ Hl']].
        - exact (child_path_longer _ _ Hpre).
        - exact (Hap l' p Hl' (prefix_app_l _ _ _ Hpre)). }
      split.
      * intros l' p Hl'. destruct (B l' p Hl') as [H0|H0]; [|now right].
        apply lookup_insert_Some in H0 as [[<- <-]|[_ H0]]; [now right|now left].
      * intros M HM.
        assert (M !! l = Some path) as ->.
        { eapply lookup_weaken; [|exact HM].
          eapply lookup_weaken; [apply lookup_insert_eq|exact Hsub]. }
        cbn. rewrite bool_decide_eq_true_2 by reflexivity.
        now rewrite (Mk M HM).
Qed.

Lemma decycle_marked object :
  exists t firsts,
    decycle (S (size (dom h))) h object = Some t
    /\ first_seen h (S (size (dom h))) object (js "$") ∅ = Some firsts
    /\ marked_copy h firsts (S (size (dom h))) object (js "$") = Some t.
Proof.
  destruct (derez_total h None (size (dom h)) object (js "$") ∅ tt)
    as (t & o' & s' & E & _).
  { apply subseteq_size. set_solver. }
  exists t, o'. unfold decycle, decycle_from. rewrite E.
  split; [reflexivity|]. split; [exact (first_seen_derez _ _ _ _ _ _ _ E)|].
  destruct (derez_marked _ _ _ _ _ _ _ E) as [_ Mk].
  { intros l p Hl. unfold memo in *. now rewrite lookup_empty in Hl. }
  now apply Mk.
Qed.

End MarkedCopy.

Lemma knot_heap_ordinary : ordinary_heap knot_heap.
Proof.
  unfold ordinary_heap, knot_heap. apply map_Forall_insert_2.
  - split; [|intros H; apply list_elem_of_In in H; cbn in H; intuition discriminate].
    apply NoDup_cons. split; [|apply NoDup_singleton].
    intros H. apply list_elem_of_In in H. cbn in H. intuition discriminate.
  - apply map_Forall_singleton. split; [apply NoDup_singleton|].
    intros H. apply list_elem_of_In in H. cbn in H. intuition discriminate.
Qed.


(* ===================================================================== *)
(** ** A document that arrives in chunks *)
(* ===================================================================== *)

(** The item in which a cut of a text falls. *)
Lemma cut_items its : forall P R,
  items_text its = P ++ R -> R <> [] ->
  clear_cut its (length P) = true ->
  exists pre i post q q',
    its = pre ++ i :: post /\ item_text i = q ++ q' /\ q' <> []
    /\ P = items_text pre ++ q
    /\ (is_string_item i = false \/ Forall (fun c => is_bracket c = false) q).
Proof.
  induction its as [|i r IH]; intros P R E HR Hc.
  - cbn in E. symmetry in E. apply app_eq_nil in E as [_ ->]. contradiction.
  - change (items_text (i :: r)) with (item_text i ++ items_text r) in E.
    cbn [clear_cut] in Hc.
    destruct (Nat.ltb_spec (length P) (length (item_text i))) as [Hlt|Hge].
    + apply app_eq_app in E as (k & [[E1 E2]|[E1 E2]]).
      * exists [], i, r, P, k. split; [reflexivity|]. split; [exact E1|].
        split; [intros ->; rewrite app_nil_r in E1; rewrite E1 in Hlt; lia|].
        split; [reflexivity|].
        apply orb_true_iff in Hc as [Hc|Hc];
          [left; now apply negb_true_iff|right].
        rewrite E1, take_app_length in Hc.
        apply Forall_forall. intros c Hin.
        rewrite forallb_forall in Hc. apply negb_true_iff, Hc.
        now apply list_elem_of_In.
      * exfalso. rewrite E1, length_app in Hlt. lia.
    + apply app_eq_app in E as (k & [[E1 E2]|[E1 E2]]).
      * assert (k = []) as ->.
        { rewrite E1, length_app in Hge. destruct k; [reflexivity|cbn in Hge; lia]. }
        rewrite app_nil_r in E1. cbn [app] in E2. subst R.
        destruct (IH [] (items_text r) eq_refl HR)
          as (pre & i' & post & q & q' & H1 & H2 & H3 & H4 & H5).
        { now rewrite E1, Nat.sub_diag in Hc. }
        exists (i :: pre), i', post, q, q'. split; [now rewrite H1|].
        split; [exact H2|]. split; [exact H3|]. split; [|exact H5].
        change (items_text (i :: pre)) with (item_text i ++ items_text pre).
        now rewrite <- app_assoc, <- H4, app_nil_r.
      * destruct (IH k R E2 HR) as (pre & i' & post & q & q' & H1 & H2 & H3 & H4 & H5).
        { rewrite E1, length_app in Hc.
          now replace (length (item_text i) + length k - length (item_text i))
            with (length k) in Hc by lia. }
        exists (i :: pre), i', post, q, q'. split; [now rewrite H1|].
        split; [exact H2|]. split; [exact H3|]. split; [|exact H5].
        change (items_text (i :: pre)) with (item_text i ++ items_text pre).
        now rewrite E1, H4, app_assoc.
Qed.

(** The first chunks of a text are a proper part of it, and not empty. *)
Lemma chunks_cut (chunks : list jsstr) m :
  Forall (fun c => c <> []) chunks -> 0 < m < length chunks ->
  concat chunks = concat (take m chunks) ++ concat (drop m chunks)
  /\ concat (take m chunks) <> [] /\ concat (drop m chunks) <> [].
Proof.
  intros Hne Hm. split; [now rewrite <- concat_app, take_drop|].
  split.
  - destruct chunks as [|c cs]; [cbn in Hm; lia|].
    destruct m as [|m]; [lia|]. cbn [take concat].
    apply Forall_cons in Hne as [Hc _]. intros H.
    apply app_eq_nil in H as [-> _]. contradiction.
  - destruct (drop m chunks) as [|c cs] eqn:Ed.
    + apply (f_equal length) in Ed. rewrite length_drop in Ed. cbn in Ed. lia.
    + rewrite <- (take_drop m chunks), Ed in Hne.
      apply Forall_app in Hne as [_ Hne]. apply Forall_cons in Hne as [Hc _].
      cbn [concat]. intros H. apply app_eq_nil in H as [-> _]. contradiction.
Qed.

(** C1, as stated, fails in three ways that the design of the decoder
    entails. A bare scalar is complete wherever it is cut: of the
    document [123] the part [12] is decoded as the number 12. A cut in a
    string literal behind a bracket of the literal leaves that bracket as
    a token: of the document [["]"]] the part that ends after the
    bracket is decoded as an empty array. And a document followed by
    white space is complete before the white space: of [{}] followed by a
    space the part [{}] is decoded. In each case a value is decoded on a
    strict part of the document, and the whole document gives a value
    again. *)
Lemma strict_prefix_decodes :
  json_ok (JNum (NumLit false (js "123") None None)) = true
  /\ json_text (JNum (NumLit false (js "123") None None)) = js "12" ++ js "3"
  /\ jsonDecode 1 (js "12") [] = Some [VNum (js "12")]
  /\ json_ok bracket_string = true
  /\ json_text bracket_string = js "[']" ++ js "']"
  /\ jsonRawDecode (js "[']") None = RawPair (VArr 0 []) 3
  /\ jsonDecode 1 (js "[']") [] = Some [VArr 0 []]
  /\ jsonDecode 1 (js "[']']") [] = Some [VArr 1 [(js "0", VStr (js "]"))]]
  /\ doc_ok (Document [] (JObj [] []) [32%N]) = true
  /\ doc_text (Document [] (JObj [] []) [32%N]) = js "{}" ++ js " "
  /\ jsonDecode 1 (js "{}") [] = Some [VObj []]
  /\ jsonDecode 1 (js "{} ") [] = Some [VObj []].
Proof. repeat split; reflexivity. Qed.

(** C1, amended. Take a well-formed object or array, written without
    white space around it, and split its text into chunks, none empty,
    so that no cut falls in a string literal behind a bracket or brace of
    the literal. On the chunks received so far, as long as one is
    missing, [jsonRawDecode] returns 0 and [jsonDecode] returns the list
    it was given: nothing is decoded and nothing consumed. On all the
    chunks [jsonDecode] returns the list with one value added, the value
    of the text (what [jsonRawDecode] returns on it, which is the value
    it denotes when no member is written under the key [__proto__]). *)
Theorem chunks_of_a_container j (chunks : list jsstr) :
  json_ok j = true -> is_container j = true ->
  concat chunks = json_text j ->
  Forall (fun c => c <> []) chunks ->
  (forall m, 0 < m < length chunks ->
     clear_cut (items j) (cut_at chunks m) = true) ->
  (forall m, 0 < m < length chunks ->
     jsonRawDecode (concat (take m chunks)) None = RawZero
     /\ forall fuel acc,
          jsonDecode (S fuel) (concat (take m chunks)) acc = Some acc)
  /\ exists v,
       jsonRawDecode (concat chunks) None
       = RawPair v (Z.of_nat (length (concat chunks)))
       /\ (proto_free j = true -> v = json_value j)
       /\ forall fuel acc,
            jsonDecode (S fuel) (concat chunks) acc = Some (acc ++ [v]).
Proof.
  intros Hok Hc Htext Hne Hcuts. split.
  - intros m Hm.
    destruct (chunks_cut chunks m Hne Hm) as (Esplit & HP & HR).
    destruct (cut_items (items j) (concat (take m chunks)) (concat (drop m chunks)))
      as (pre & i & post & q & q' & Hitems & Ei & Hq' & EP & Hcut).
    { now rewrite items_text_json, <- Htext. }
    { exact HR. }
    { exact (Hcuts m Hm). }
    pose proof (cut_no_bracket j pre i post q q' Hok Hitems Ei Hq' Hcut) as Hnb.
    rewrite EP in HP.
    pose proof (jsonRawDecode_prefix j pre i post q q' Hok Hc Hitems Ei Hq' Hnb HP)
      as Hraw.
    rewrite EP. split; [exact Hraw|]. intros fuel acc. cbn [jsonDecode].
    now rewrite Hraw.
  - exists (json_value j).
    assert (container_doc (Document [] j [])) as Hd.
    { split; [|exact Hc]. unfold doc_ok. cbn [doc_lead doc_json doc_trail ws_ok forallb].
      now rewrite Hok. }
    pose proof (jsonRawDecode_doc _ Hd) as Hraw.
    unfold doc_text in Hraw. cbn [doc_lead doc_json doc_trail app] in Hraw.
    rewrite app_nil_r in Hraw. rewrite Htext.
    split; [exact Hraw|]. split; [reflexivity|]. intros fuel acc.
    cbn [jsonDecode]. now rewrite Hraw, substr_nat, drop_all.
Qed.

Lemma chunks_of_a_container_witness :
  concat [js "{'id':1,'res"; js "ult':{'answer':23},'err"; js "or':null}"]
  = json_text (reply (js "1") (js "23"))
  /\ jsonDecode 1 (js "{'id':1,'res") [] = Some []
  /\ jsonDecode 1 (js "{'id':1,'result':{'answer':23},'err") [] = Some []
  /\ jsonDecode 1 (js "{'id':1,'result':{'answer':23},'error':null}") []
     = Some [VObj [(js "id", VNum (js "1"));
                   (js "result", VObj [(js "answer", VNum (js "23"))]);
                   (js "error", VNull)]]
  /\ (forall m,
        0 < m < length [js "{'id':1,'res"; js "ult':{'answer':23},'err";
                        js "or':null}"] ->
        jsonRawDecode
          (concat (take m [js "{'id':1,'res"; js "ult':{'answer':23},'err";
                           js "or':null}"])) None = RawZero
        /\ forall fuel acc,
             jsonDecode (S fuel)
               (concat (take m [js "{'id':1,'res"; js "ult':{'answer':23},'err";
                                js "or':null}"])) acc = Some acc)
  /\ exists v,
       jsonRawDecode
         (concat [js "{'id':1,'res"; js "ult':{'answer':23},'err"; js "or':null}"])
         None
       = RawPair v
           (Z.of_nat (length (concat [js "{'id':1,'res";
                                      js "ult':{'answer':23},'err";
                                      js "or':null}"])))
       /\ (proto_free (reply (js "1") (js "23")) = true
           -> v = json_value (reply (js "1") (js "23")))
       /\ forall fuel acc,
            jsonDecode (S fuel)
              (concat [js "{'id':1,'res"; js "ult':{'answer':23},'err";
                       js "or':null}"]) acc = Some (acc ++ [v]).
Proof.
  split; [reflexivity|]. split; [reflexivity|]. split; [reflexivity|].
  split; [reflexivity|].
  refine (chunks_of_a_container (reply (js "1") (js "23"))
            [js "{'id':1,'res"; js "ult':{'answer':23},'err"; js "or':null}"]
            eq_refl eq_refl eq_refl _ _).
  - repeat constructor; discriminate.
  - intros [|[|[|m]]] Hm; cbn in Hm; try lia; reflexivity.
Defined.
